(** * Bezier-cpp: a shallow embedding of the curve engine and the Sturm isolator

    The C++ sources ([src/bezier.cpp], [include/Bezier/sturm.h]) compute with
    [double]; here every [double] is a real number of the standard library and
    every arithmetic operation is exact.  Unsigned counters are [nat]; where the
    source relies on a counter being positive this is said at the definition.
    The Eigen operations the sources call are embedded in [Module Eigen] with
    their mathematical meaning. *)

From Stdlib Require Import String.
From Stdlib Require Import Reals Lra Lia List Arith ZArith Bool Psatz.
From Stdlib Require Import ClassicalEpsilon.
Import ListNotations.
Open Scope R_scope.
Set Warnings "-register-all".

(** ** Decidable comparisons on doubles *)

Definition Rltb (x y : R) : bool := if Rlt_dec x y then true else false.
Definition Rleb (x y : R) : bool := if Rle_dec x y then true else false.
Definition Reqb (x y : R) : bool := if Req_dec_T x y then true else false.

(** ** Finite sums over an index range [0 .. n-1] *)

Fixpoint sum_n (f : nat -> R) (n : nat) : R :=
  match n with
  | O => 0
  | S m => sum_n f m + f m
  end.

(** ** The linear-algebra facade *)

Module Eigen.

(** [Eigen::VectorXd] and [Eigen::MatrixXd] (row major). *)
Definition VectorXd := list R.
Definition MatrixXd := list (list R).

(** A point of the plane, [Eigen::Vector2d]; an n x 2 matrix
    [Eigen::MatrixX2d] is the list of its rows. *)
Definition Vector2d := (R * R)%type.
Definition MatrixX2d := list Vector2d.

Definition rows {A} (M : list A) : nat := length M.
Definition cols (M : MatrixXd) : nat := length (hd [] M).

(** Coefficient access [M(i, j)] and [v(i)]. *)
Definition vcoeff (v : VectorXd) (i : nat) : R := nth i v 0.
Definition coeff (M : MatrixXd) (i j : nat) : R := nth j (nth i M []) 0.
Definition row2 (P : MatrixX2d) (i : nat) : Vector2d := nth i P (0, 0).

(** A matrix given by its coefficients. *)
Definition tabulate (r c : nat) (f : nat -> nat -> R) : MatrixXd :=
  map (fun i => map (fun j => f i j) (seq 0 c)) (seq 0 r).

Definition Zero (r c : nat) : MatrixXd := tabulate r c (fun _ _ => 0).
Definition Identity (n : nat) : MatrixXd :=
  tabulate n n (fun i j => if Nat.eqb i j then 1 else 0).

(** [ArrayXd::LinSpaced(size, low, high)]: every call of the sources has
    integral bounds with [|high - low| = size - 1], so the ramp has step one,
    upwards or downwards. *)
Definition LinSpaced (size low high : nat) : list nat :=
  if Nat.leb low high then seq low size else rev (seq high size).

(** [Eigen::pow(t, exponents)] on integral exponents. *)
Definition pow_array (t : R) (exponents : list nat) : VectorXd :=
  map (fun k => t ^ k) exponents.

(** [M.diagonal() = v] and [M.diagonal(-1) = v]. *)
Definition set_diagonal (v : VectorXd) (M : MatrixXd) : MatrixXd :=
  tabulate (rows M) (cols M)
    (fun i j => if Nat.eqb i j then vcoeff v j else coeff M i j).
Definition set_subdiagonal (v : VectorXd) (M : MatrixXd) : MatrixXd :=
  tabulate (rows M) (cols M)
    (fun i j => if Nat.eqb i (S j) then vcoeff v j else coeff M i j).

(** Products: matrix by matrix, row vector by matrix, matrix by column
    vector, matrix by n x 2 matrix, row vector by n x 2 matrix. *)
Definition mmul (A B : MatrixXd) : MatrixXd :=
  tabulate (rows A) (cols B)
    (fun i j => sum_n (fun k => coeff A i k * coeff B k j) (cols A)).
Definition vec_mat (v : VectorXd) (B : MatrixXd) : VectorXd :=
  map (fun j => sum_n (fun k => vcoeff v k * coeff B k j) (length v))
      (seq 0 (cols B)).
Definition mat_vec (A : MatrixXd) (v : VectorXd) : VectorXd :=
  map (fun i => sum_n (fun k => coeff A i k * vcoeff v k) (cols A))
      (seq 0 (rows A)).
Definition vec_mat2 (v : VectorXd) (P : MatrixX2d) : Vector2d :=
  (sum_n (fun k => vcoeff v k * fst (row2 P k)) (length v),
   sum_n (fun k => vcoeff v k * snd (row2 P k)) (length v)).
Definition mmul2 (A : MatrixXd) (P : MatrixX2d) : MatrixX2d :=
  map (fun i => (sum_n (fun k => coeff A i k * fst (row2 P k)) (cols A),
                 sum_n (fun k => coeff A i k * snd (row2 P k)) (cols A)))
      (seq 0 (rows A)).

Definition transpose (A : MatrixXd) : MatrixXd :=
  tabulate (cols A) (rows A) (fun i j => coeff A j i).
Definition madd (A B : MatrixXd) : MatrixXd :=
  tabulate (rows A) (cols A) (fun i j => coeff A i j + coeff B i j).
Definition mscale (a : R) (A : MatrixXd) : MatrixXd :=
  tabulate (rows A) (cols A) (fun i j => a * coeff A i j).

Fixpoint mpow (A : MatrixXd) (m : nat) : MatrixXd :=
  match m with
  | O => Identity (rows A)
  | S m' => mmul A (mpow A m')
  end.

(** [A.exp()], the matrix exponential.  The sources only exponentiate square
    matrices whose single non-zero band is the first sub-diagonal; such an
    n x n matrix is nilpotent of index at most n, and its exponential is the
    finite sum of [A^m / m!] for [m < n]. *)
Fixpoint exp_series (A : MatrixXd) (m : nat) : MatrixXd :=
  match m with
  | O => Zero (rows A) (rows A)
  | S m' => madd (exp_series A m') (mscale (/ INR (fact m')) (mpow A m'))
  end.
Definition exp (A : MatrixXd) : MatrixXd := exp_series A (rows A).

(** Points and vectors of the plane. *)
Definition padd (p q : Vector2d) : Vector2d := (fst p + fst q, snd p + snd q).
Definition psub (p q : Vector2d) : Vector2d := (fst p - fst q, snd p - snd q).
Definition pscale (a : R) (p : Vector2d) : Vector2d := (a * fst p, a * snd p).
Definition pdiv (p : Vector2d) (a : R) : Vector2d := (fst p / a, snd p / a).
Definition norm (p : Vector2d) : R := sqrt (fst p * fst p + snd p * snd p).

(** [M.topRows(k)], [M.bottomRows(k)], [M.col(j)] of an n x 2 matrix. *)
Definition topRows {A} (k : nat) (M : list A) : list A := firstn k M.
Definition bottomRows {A} (k : nat) (M : list A) : list A :=
  skipn (length M - k) M.
Definition col0 (P : MatrixX2d) : VectorXd := map fst P.
Definition col1 (P : MatrixX2d) : VectorXd := map snd P.

(** [v.minCoeff()], [v.maxCoeff()] (the vector is not empty in the sources). *)
Definition minCoeff (v : VectorXd) : R :=
  match v with
  | [] => 0
  | x :: v' => fold_left Rmin v' x
  end.
Definition maxCoeff (v : VectorXd) : R :=
  match v with
  | [] => 0
  | x :: v' => fold_left Rmax v' x
  end.

(** [v.norm()] of a dynamic vector. *)
Definition vnorm (v : VectorXd) : R :=
  sqrt (fold_right (fun x acc => x * x + acc) 0 v).

(** [A.inverse()].  Eigen returns the inverse of an invertible matrix and
    leaves the result unspecified otherwise; the inverse is embedded by its
    defining property (a two-sided inverse of the same shape), not by the
    LU factorisation that computes it. *)
Definition well_shaped (r c : nat) (A : MatrixXd) : Prop :=
  rows A = r /\ Forall (fun row => length row = c) A.
Definition is_inverse (A B : MatrixXd) : Prop :=
  well_shaped (rows A) (rows A) B /\
  mmul A B = Identity (rows A) /\ mmul B A = Identity (rows A).
Definition inverse (A : MatrixXd) : MatrixXd :=
  epsilon (inhabits A) (is_inverse A).

(** [Eigen::AlignedBox2d]. *)
Record AlignedBox2d : Type := mkAlignedBox2d { box_min : Vector2d; box_max : Vector2d }.

Definition intersects (a b : AlignedBox2d) : bool :=
  (Rleb (fst (box_min a)) (fst (box_max b)) &&
   Rleb (snd (box_min a)) (snd (box_max b))) &&
  (Rleb (fst (box_min b)) (fst (box_max a)) &&
   Rleb (snd (box_min b)) (snd (box_max a))).
Definition diagonal (a : AlignedBox2d) : Vector2d := psub (box_max a) (box_min a).
Definition center (a : AlignedBox2d) : Vector2d :=
  pdiv (padd (box_min a) (box_max a)) 2.

End Eigen.

(** ** [std::vector] and [std::sort] *)

Definition emplace_back {A} (v : list A) (x : A) : list A := v ++ [x].
Definition pop_back {A} (v : list A) : list A := removelast v.

Fixpoint sort_insert (x : R) (l : list R) : list R :=
  match l with
  | [] => [x]
  | y :: l' => if Rleb x y then x :: l else y :: sort_insert x l'
  end.
Definition sort (l : list R) : list R := fold_right sort_insert [] l.

(** ** Exceptions and the outcome of a call *)

Inductive exception : Type :=
| logic_error (what : string)
| invalid_argument (what : string).

(** [std::invalid_argument] derives from [std::logic_error]. *)
Definition is_logic_error (e : exception) : bool :=
  match e with
  | logic_error _ => true
  | invalid_argument _ => true
  end.

Definition what (e : exception) : string :=
  match e with
  | logic_error w => w
  | invalid_argument w => w
  end.

(** A call returns a value, throws, or is still running when the step budget
    of the embedding ([fuel]) is used up. *)
Inductive outcome (A : Type) : Type :=
| Returns (a : A)
| Throws (e : exception)
| OutOfFuel.
Arguments Returns {A} a.
Arguments Throws {A} e.
Arguments OutOfFuel {A}.

Import Eigen.

(** ** The Gauss-Legendre table

    [Bezier/legendre_gauss.h] is not part of the sources at hand; the table
    it declares ([LegendreGauss::N], [abcissae], [weights]) is a parameter of
    the functions that integrate with it. *)

Module LegendreGauss.

Record table : Type := mkTable { N : nat; abcissae : list R; weights : list R }.

End LegendreGauss.

(** ** The curve engine, [namespace Bezier] *)

Module Bezier.

Definition Point := Vector2d.
Definition Vector := Vector2d.
Definition PointVector := list Point.
Definition BoundingBox := AlignedBox2d.

(** [factorial(k) = tgamma(k + 1)] and [binomial]. *)
Definition factorial (k : nat) : R := INR (fact k).
Definition binomial (n k : nat) : R :=
  factorial n / (factorial k * factorial (n - k)).

(** [trimZeroes]: drop the trailing coefficients that are exactly zero. *)
Fixpoint trimZeroes_idx (vec : VectorXd) (idx : nat) : nat :=
  match idx with
  | O => O
  | S i => if Reqb (vcoeff vec i) 0 then trimZeroes_idx vec i else idx
  end.
Definition trimZeroes (vec : VectorXd) : VectorXd :=
  firstn (trimZeroes_idx vec (length vec)) vec.

(** *** Static coefficient maps

    [bernstein_coeffs_], [splitting_coeffs_left_], ... are memo tables of pure
    functions of [n] (and of [z]); they are embedded as these functions, the
    branch for [z == 0.5] computing the same matrix as the general one. *)

Definition bernsteinCoeffs (n : nat) : MatrixXd :=
  let zero := Zero n n in
  let sub := set_subdiagonal
               (map (fun k => - INR k) (LinSpaced (n - 1) 1 (n - 1))) zero in
  let e := exp sub in
  tabulate (rows e) (cols e) (fun k j => coeff e k j * binomial (n - 1) k).

Definition splittingCoeffsLeft (n : nat) (z : R) : MatrixXd :=
  let coeffs := set_diagonal (pow_array z (LinSpaced n 0 (n - 1))) (Zero n n) in
  mmul (mmul (inverse (bernsteinCoeffs n)) coeffs) (bernsteinCoeffs n).

Definition splittingCoeffsRight (n : nat) (z : R) : MatrixXd :=
  let temp_splitting_coeffs_left := splittingCoeffsLeft n z in
  tabulate n n (fun k c =>
    if Nat.leb k c then coeff temp_splitting_coeffs_left (n - 1 - k) (c - k)
    else 0).

Definition elevateOrderCoeffs (n : nat) : MatrixXd :=
  let zero := Zero (n + 1) n in
  let d := set_diagonal
             (map (fun k => 1 - INR k / INR n) (LinSpaced n 0 (n - 1))) zero in
  set_subdiagonal (map (fun k => INR k / INR n) (LinSpaced n 1 n)) d.

Definition lowerOrderCoeffs (n : nat) : MatrixXd :=
  mmul (inverse (mmul (transpose (elevateOrderCoeffs (n - 1)))
                      (elevateOrderCoeffs (n - 1))))
       (transpose (elevateOrderCoeffs (n - 1))).

(** *** The curve object

    The control points, their count, and the privately cached data.  The
    derivative curve is owned by its parent. *)

Inductive Curve : Type := mkCurve {
  control_points_ : MatrixX2d;
  N_ : nat;
  cached_derivative_ : option Curve;
  cached_roots_ : option (list R);
  cached_bounding_box_ : option BoundingBox;
  cached_polyline_ : option PointVector;
  cached_polyline_flatness_ : R;
  cached_projection_polynomial_part_ : option VectorXd;
  cached_projection_polynomial_derivative_ : MatrixXd
}.

(** [Curve(Eigen::MatrixX2d points)] and [Curve(const PointVector& points)]. *)
Definition new_Curve (points : MatrixX2d) : Curve :=
  mkCurve points (rows points) None None None None 0 None [].

Definition set_control_points (c : Curve) (P : MatrixX2d) : Curve :=
  mkCurve P (N_ c) (cached_derivative_ c) (cached_roots_ c)
    (cached_bounding_box_ c) (cached_polyline_ c) (cached_polyline_flatness_ c)
    (cached_projection_polynomial_part_ c)
    (cached_projection_polynomial_derivative_ c).
Definition set_cached_derivative (c : Curve) (d : option Curve) : Curve :=
  mkCurve (control_points_ c) (N_ c) d (cached_roots_ c)
    (cached_bounding_box_ c) (cached_polyline_ c) (cached_polyline_flatness_ c)
    (cached_projection_polynomial_part_ c)
    (cached_projection_polynomial_derivative_ c).
Definition set_cached_roots (c : Curve) (r : option (list R)) : Curve :=
  mkCurve (control_points_ c) (N_ c) (cached_derivative_ c) r
    (cached_bounding_box_ c) (cached_polyline_ c) (cached_polyline_flatness_ c)
    (cached_projection_polynomial_part_ c)
    (cached_projection_polynomial_derivative_ c).

Definition resetCache (c : Curve) : Curve :=
  mkCurve (control_points_ c) (rows (control_points_ c)) None None None None
    (cached_polyline_flatness_ c) None
    (cached_projection_polynomial_derivative_ c).

(** *** Member functions as computations on the object

    A member function runs on [this], may fill its cache (the sources do so
    through [const_cast]) or change it, and returns, throws or runs out of
    fuel. *)

Definition M (A : Type) : Type := Curve -> outcome A * Curve.

Definition ret {A} (a : A) : M A := fun this => (Returns a, this).
Definition throw {A} (e : exception) : M A := fun this => (Throws e, this).
Definition out_of_fuel {A} : M A := fun this => (OutOfFuel, this).
Definition bind {A B} (m : M A) (k : A -> M B) : M B :=
  fun this =>
    match m this with
    | (Returns a, this') => k a this'
    | (Throws e, this') => (Throws e, this')
    | (OutOfFuel, this') => (OutOfFuel, this')
    end.
Definition gets {A} (f : Curve -> A) : M A := fun this => (Returns (f this), this).
Definition modify (f : Curve -> Curve) : M unit := fun this => (Returns tt, f this).

Notation "x <- m ;; k" := (bind m (fun x => k))
  (at level 61, m at next level, right associativity).
Notation "m ;;; k" := (bind m (fun _ => k))
  (at level 61, right associativity).

Definition order (this : Curve) : nat := N_ this - 1.

Definition controlPoints (this : Curve) : PointVector :=
  map (fun k => row2 (control_points_ this) k) (seq 0 (N_ this)).

Definition controlPoint (this : Curve) (idx : nat) : Point :=
  row2 (control_points_ this) idx.

Definition endPoints (this : Curve) : Point * Point :=
  (row2 (control_points_ this) 0, row2 (control_points_ this) (N_ this - 1)).

(** [valueAt(double t)]: no cache is read or written. *)
Definition valueAt (this : Curve) (t : R) : Point :=
  if Nat.eqb (N_ this) 0 then (0, 0)
  else vec_mat2
         (vec_mat (pow_array t (LinSpaced (N_ this) 0 (N_ this - 1)))
                  (bernsteinCoeffs (N_ this)))
         (control_points_ this).

(** [derivative()]: the derivative curve is created on first use and kept in
    the cache; the reference returned designates the cached object. *)
Definition derivative_points (this : Curve) : MatrixX2d :=
  map (pscale (INR (N_ this - 1)))
      (map (fun pq => psub (fst pq) (snd pq))
           (combine (bottomRows (N_ this - 1) (control_points_ this))
                    (topRows (N_ this - 1) (control_points_ this)))).

Definition new_derivative (this : Curve) : Curve :=
  if Nat.eqb (N_ this) 1 then new_Curve [(0, 0)]
  else new_Curve (derivative_points this).

Definition derivative : M Curve :=
  fun this =>
    match cached_derivative_ this with
    | Some d => (Returns d, this)
    | None =>
        let d := new_derivative this in
        (Returns d, set_cached_derivative this (Some d))
    end.

(** Running a member function on the object [derivative()] refers to: the
    object lives in the cache slot of [this], so what the callee writes into
    its own cache is seen through [this]. *)
Definition on_derivative {A} (m : M A) : M A :=
  d <- derivative ;;
  fun this =>
    let (r, d') := m d in (r, set_cached_derivative this (Some d')).

(** [derivative(uint n)] walks [n] times through [derivative()]. *)
Fixpoint on_nth_derivative {A} (n : nat) (m : M A) : M A :=
  match n with
  | O => m
  | S k => on_derivative (on_nth_derivative k m)
  end.

Definition on_derivative_n {A} (n : nat) (m : M A) : M A :=
  if Nat.eqb n 0 then throw (invalid_argument "double 'n' cannot be zero.")
  else on_nth_derivative n m.

Definition derivative_n (n : nat) : M Curve := on_derivative_n n (gets (fun d => d)).

Definition derivativeAt (t : R) : M Vector :=
  on_derivative (gets (fun d => valueAt d t)).

Definition derivativeAt_n (n : nat) (t : R) : M Vector :=
  on_derivative_n n (gets (fun d => valueAt d t)).

(** [elevateOrder()] and [lowerOrder()]. *)
Definition elevateOrder : M unit :=
  modify (fun this =>
    resetCache (set_control_points this
      (mmul2 (elevateOrderCoeffs (N_ this)) (control_points_ this)))).

Definition lowerOrder : M unit :=
  fun this =>
    if Nat.eqb (N_ this) 2
    then throw (logic_error "Cannot further reduce the order of curve.") this
    else modify (fun this =>
           resetCache (set_control_points this
             (mmul2 (lowerOrderCoeffs (N_ this)) (control_points_ this)))) this.

(** [control_points_.row(i) = p]. *)
Fixpoint set_row (P : MatrixX2d) (i : nat) (p : Point) : MatrixX2d :=
  match P, i with
  | [], _ => []
  | _ :: P', O => p :: P'
  | q :: P', S i' => q :: set_row P' i' p
  end.

Definition manipulateCurvature (t : R) (point : Point) : M unit :=
  fun this =>
    if Nat.ltb (N_ this) 3 || Nat.ltb 4 (N_ this)
    then throw (logic_error "Only quadratic and cubic curves can be manipulated") this
    else
      let n1 := (N_ this - 1)%nat in
      let P := control_points_ this in
      let r := Rabs ((t ^ n1 + (1 - t) ^ n1 - 1) / (t ^ n1 + (1 - t) ^ n1)) in
      let u := (1 - t) ^ n1 / (t ^ n1 + (1 - t) ^ n1) in
      let C := padd (pscale u (row2 P 0)) (pscale (1 - u) (row2 P n1)) in
      let B := point in
      let A := psub B (pdiv (psub C B) r) in
      let P' :=
        match N_ this with
        | 3%nat => set_row P 1 A
        | 4%nat =>
            let e1 := padd (padd (pscale ((1 - t) ^ 2) (row2 P 0))
                                 (pscale (2 * t * (1 - t)) (row2 P 1)))
                           (pscale (t ^ 2) (row2 P 2)) in
            let e2 := padd (padd (pscale ((1 - t) ^ 2) (row2 P 1))
                                 (pscale (2 * t * (1 - t)) (row2 P 2)))
                           (pscale (t ^ 2) (row2 P 3)) in
            let e1 := psub (padd B e1) (valueAt this t) in
            let e2 := psub (padd B e2) (valueAt this t) in
            let v1 := psub A (pdiv (psub A e1) (1 - t)) in
            let v2 := padd A (pdiv (psub e2 A) t) in
            let P1 := set_row P 1 (padd (row2 P 0) (pdiv (psub v1 (row2 P 0)) t)) in
            set_row P1 2 (psub (row2 P1 3) (pdiv (psub (row2 P1 3) v2) (1 - t)))
        | _ => P
        end in
      (Returns tt, resetCache (set_control_points this P')).

(** *** Arc length and its inversion *)

Section Length.

Variable lg : LegendreGauss.table.

(** The three overloads [length(t1, t2)], [length(t)] and [length()]. *)
Fixpoint length_sum (ks : list nat) (t1 t2 sum : R) : M R :=
  match ks with
  | [] => ret sum
  | k :: ks' =>
      d <- derivativeAt (vcoeff (LegendreGauss.abcissae lg) k * (t2 - t1) / 2
                         + (t1 + t2) / 2) ;;
      length_sum ks' t1 t2 (sum + vcoeff (LegendreGauss.weights lg) k * norm d)
  end.

Definition length_t1_t2 (t1 t2 : R) : M R :=
  sum <- length_sum (seq 0 (LegendreGauss.N lg)) t1 t2 0 ;;
  ret (sum * (t2 - t1) / 2).

Definition length_t (t : R) : M R := length_t1_t2 0 t.

Definition length_curve : M R := length_t1_t2 0 1.

(** The [while (std::fabs(f) > epsilon)] loop of [iterateByLength]; [fuel]
    bounds the number of times its body runs.  The loop is read on the runs
    on which the denominator of Halley's update is not zero (where it is
    zero a double steps to an infinity). *)
Fixpoint iterateByLength_while (fuel : nat) (s_t s epsilon t f : R) : M R :=
  if Rltb epsilon (Rabs f) then
    match fuel with
    | O => out_of_fuel
    | S fuel' =>
        d1 <- derivativeAt t ;;
        let f_d := norm d1 in
        d2 <- derivativeAt_n 2 t ;;
        let t' := t - (2 * f * f_d) / (2 * f_d * f_d - f * norm d2) in
        l <- length_t t' ;;
        iterateByLength_while fuel' s_t s epsilon t' (l - s_t - s)
    end
  else ret t.

Definition iterateByLength (fuel : nat) (t s epsilon : R) : M R :=
  s_t <- length_t t ;;
  if Rltb (s_t + s) 0 then ret 0
  else
    l <- length_curve ;;
    if Rltb l (s_t + s) then ret 1
    else iterateByLength_while fuel s_t s epsilon t (- s).

End Length.

(** *** Assignment, reversal and moving a control point *)

(** [operator=]: the control points are copied and the cache is reset, which
    also recounts [N_]. *)
Definition assign (curve : Curve) : M unit :=
  modify (fun this =>
    resetCache (set_control_points this (control_points_ curve))).

(** [reverse()]: [colwise().reverse()] turns every column upside down, that
    is, it reverses the order of the rows. *)
Definition reverse : M unit :=
  modify (fun this =>
    resetCache (set_control_points this (rev (control_points_ this)))).

(** [moveControlPoint(idx, point)]; Eigen does not define [row(idx)] for an
    index past the last row, where [set_row] leaves the matrix as it is. *)
Definition moveControlPoint (idx : nat) (point : Point) : M unit :=
  modify (fun this =>
    resetCache (set_control_points this
      (set_row (control_points_ this) idx point))).

(** *** Evaluation at many parameters *)

(** [valueAt(const std::vector<double>&)]: the matrix of powers
    [power_basis(k, j) = t_k ^ j] times the Bernstein matrix times the
    control points; row [k] of the product is the point for [t_k].  Unlike
    [valueAt(double)] this overload does not test [N_ == 0], where the
    sources call [bernsteinCoeffs(0)] and its [n - 1] wraps round in [uint];
    it is read here for [N_ >= 1]. *)
Definition valueAt_vector (this : Curve) (t_vector : list R) : PointVector :=
  let power_basis :=
    tabulate (length t_vector) (N_ this)
      (fun k j => vcoeff t_vector k
                  ^ nth j (LinSpaced (N_ this) 0 (N_ this - 1)) 0%nat) in
  let points_eigen :=
    mmul2 (mmul power_basis (bernsteinCoeffs (N_ this))) (control_points_ this) in
  map (fun k => row2 points_eigen k) (seq 0 (rows points_eigen)).

(** *** Curvature, tangent and normal *)

Definition dot (p q : Vector2d) : R := fst p * fst q + snd p * snd q.

(** [curvatureAt] and [curvatureDerivativeAt] divide by a power of the norm
    of the first derivative.  Where that derivative is zero a double gives
    0/0, which is not a number; the two are read where it is not zero. *)
Definition curvatureAt (t : R) : M R :=
  d1 <- derivativeAt t ;;
  d2 <- derivativeAt_n 2 t ;;
  ret ((fst d1 * snd d2 - snd d1 * fst d2) / norm d1 ^ 3).

Definition curvatureDerivativeAt (t : R) : M R :=
  d1 <- derivativeAt t ;;
  d2 <- derivativeAt_n 2 t ;;
  d3 <- derivativeAt_n 3 t ;;
  ret ((fst d1 * snd d3 - snd d1 * fst d3) / norm d1 ^ 3
       - 3 * dot d1 d2 * (fst d1 * snd d2 - snd d1 * fst d2) / norm d1 ^ 5).

(** [p.normalize()] divides [p] by its norm. *)
Definition normalized (p : Vector2d) : Vector2d := pdiv p (norm p).

Definition tangentAt (t : R) (normalize : bool) : M Vector :=
  p <- derivativeAt t ;;
  ret (if normalize && Rltb 0 (norm p) then normalized p else p).

Definition normalAt (t : R) (normalize : bool) : M Vector :=
  tangent <- tangentAt t normalize ;;
  ret (- snd tangent, fst tangent).

(** *** Splitting *)

Definition splitCurve (this : Curve) (z : R) : Curve * Curve :=
  (new_Curve (mmul2 (splittingCoeffsLeft (N_ this) z) (control_points_ this)),
   new_Curve (mmul2 (splittingCoeffsRight (N_ this) z) (control_points_ this))).

(** *** The polyline of a curve *)

Definition set_cached_polyline (c : Curve) (flatness : R)
    (p : option PointVector) : Curve :=
  mkCurve (control_points_ c) (N_ c) (cached_derivative_ c) (cached_roots_ c)
    (cached_bounding_box_ c) p flatness
    (cached_projection_polynomial_part_ c)
    (cached_projection_polynomial_derivative_ c).

(** The flatness test of [polyline] on the control points [cp] of a
    sub-curve, for [n >= 3] control points: the interior control points are
    compared with the points that divide the chord evenly, weighted by the
    binomial coefficients. *)
Definition polyline_flat (n : nat) (flatness : R) (cp : MatrixX2d) : bool :=
  let step := pdiv (psub (row2 cp (n - 1)) (row2 cp 0)) (INR (n - 1)) in
  let l := LinSpaced (n - 2) 1 (n - 2) in
  let X := map (fun k => (binomial (n - 1) k
                          * (fst (row2 cp k) - fst (row2 cp 0)
                             - INR k * fst step)) ^ 2) l in
  let Y := map (fun k => (binomial (n - 1) k
                          * (snd (row2 cp k) - snd (row2 cp 0)
                             - INR k * snd step)) ^ 2) l in
  Rleb (maxCoeff X + maxCoeff Y) (16 * flatness * flatness).

(** The [while (!subcurves.empty())] loop; the head of [subcurves] is the
    back of the vector.  In the flat branch the source calls [pop_back()]
    and only then reads [cp.row(N_ - 1)], through the reference [cp] to the
    element just destroyed: the language does not define what is read.  The
    vertex appended is therefore left open: it is [after_pop k], for [k] the
    number of vertices the polyline has so far. *)
Fixpoint polyline_while (after_pop : nat -> Point) (fuel : nat) (n : nat)
    (flatness : R) (subcurves : list MatrixX2d) (polyline : PointVector)
    {struct fuel} : outcome PointVector :=
  match subcurves with
  | [] => Returns polyline
  | cp :: rest =>
      match fuel with
      | O => OutOfFuel
      | S fuel' =>
          if polyline_flat n flatness cp then
            polyline_while after_pop fuel' n flatness rest
              (emplace_back polyline (after_pop (length polyline)))
          else
            let ncp1 := mmul2 (splittingCoeffsRight n (1 / 2)) cp in
            let ncp2 := mmul2 (splittingCoeffsLeft n (1 / 2)) cp in
            polyline_while after_pop fuel' n flatness (ncp2 :: ncp1 :: rest)
              polyline
      end
  end.

(** [polyline(flatness)]: the cached polyline is returned when there is one
    and it was made for this flatness; otherwise a new one is made and
    cached.  Two control points are their own polyline; the loop runs for
    the other curves. *)
Definition new_polyline (after_pop : nat -> Point) (fuel : nat)
    (flatness : R) (this : Curve) : outcome PointVector :=
  let polyline := emplace_back [] (row2 (control_points_ this) 0) in
  if Nat.eqb (N_ this) 2
  then Returns (emplace_back polyline (row2 (control_points_ this) 1))
  else polyline_while after_pop fuel (N_ this) flatness
         (emplace_back [] (control_points_ this)) polyline.

Definition polyline (after_pop : nat -> Point) (fuel : nat) (flatness : R)
    : M PointVector :=
  fun this =>
    let fresh :=
      match new_polyline after_pop fuel flatness this with
      | Returns p => (Returns p, set_cached_polyline this flatness (Some p))
      | Throws e => (Throws e, this)
      | OutOfFuel => (OutOfFuel, this)
      end in
    match cached_polyline_ this with
    | Some p =>
        if Rleb (1 / 10 ^ 10) (Rabs (cached_polyline_flatness_ this - flatness))
        then fresh else (Returns p, this)
    | None => fresh
    end.

(** *** Roots, extrema and intersections *)

Section Roots.

(** [Eigen::PolynomialSolver<double, Eigen::Dynamic>]: [compute(p)] followed
    by [realRoots(out)], for a coefficient vector [p] (lowest degree first)
    of size at least two with a non-zero last coefficient. *)
Variable realRoots : VectorXd -> list R.

Definition in_unit_interval (t : R) : bool := Rleb 0 t && Rleb t 1.

Definition column_roots (column : VectorXd) : list R :=
  let trimmed := trimZeroes column in
  if Nat.ltb 1 (length trimmed) then realRoots trimmed else [].

Definition new_roots (this : Curve) : list R :=
  if Nat.ltb 1 (N_ this) then
    let bezier_polynomial :=
      mmul2 (bernsteinCoeffs (N_ this)) (control_points_ this) in
    let roots_X := column_roots (col0 bezier_polynomial) in
    let roots_Y := column_roots (col1 bezier_polynomial) in
    filter in_unit_interval roots_X ++ filter in_unit_interval roots_Y
  else [].

Definition roots : M (list R) :=
  fun this =>
    match cached_roots_ this with
    | Some r => (Returns r, this)
    | None =>
        let r := new_roots this in
        (Returns r, set_cached_roots this (Some r))
    end.

Definition extrema : M (list R) := on_derivative roots.

(** The argument [const Curve& curve] of [intersections] designates either
    the object the function is called on or another object. *)
Inductive curve_ref : Type :=
| ref_this
| ref_other (curve : Curve).

Definition bbox (cp : MatrixX2d) : BoundingBox :=
  mkAlignedBox2d (minCoeff (col0 cp), minCoeff (col1 cp))
                 (maxCoeff (col0 cp), maxCoeff (col1 cp)).

(** Self intersection: the curve is cut at its extrema; round [k] of the
    loop cuts at [t[k]] and rescales the entries of [t] after position [k]. *)
Definition self_cut (n : nat) (epsilon : R) (control_points : MatrixX2d)
    (state : list R * list MatrixX2d) (k : nat) : list R * list MatrixX2d :=
  let (t, subcurves) := state in
  let tk := vcoeff t k in
  let subcurves' :=
    match subcurves with
    | [] =>
        emplace_back
          (emplace_back []
             (mmul2 (splittingCoeffsLeft n (tk - epsilon / 2)) control_points))
          (mmul2 (splittingCoeffsRight n (tk + epsilon / 2)) control_points)
    | _ =>
        let new_cp := last subcurves [] in
        emplace_back
          (emplace_back (pop_back subcurves)
             (mmul2 (splittingCoeffsLeft n (tk - epsilon / 2)) new_cp))
          (mmul2 (splittingCoeffsRight n (tk + epsilon / 2)) new_cp)
    end in
  (firstn (S k) t ++ map (fun x => (x - tk) / (1 - tk)) (skipn (S k) t),
   subcurves').

Definition self_subcurves (n : nat) (epsilon : R) (control_points : MatrixX2d)
    (t : list R) : list MatrixX2d :=
  snd (fold_left (self_cut n epsilon control_points) (seq 0 (length t)) (t, [])).

(** All pairs [(subcurves[k], subcurves[i])] with [k < i], in the order the
    two nested loops produce them. *)
Fixpoint all_pairs (subcurves : list MatrixX2d) : list (MatrixX2d * MatrixX2d) :=
  match subcurves with
  | [] => []
  | a :: rest => map (fun b => (a, b)) rest ++ all_pairs rest
  end.

(** [subcurve_pairs] is used as a stack; the head of the list is the back of
    the vector.  [push_all xs stack] is [emplace_back] of the elements of [xs]
    in order. *)
Definition push_all {A} (xs stack : list A) : list A := rev xs ++ stack.

(** One round of the [while (!subcurve_pairs.empty())] loop, for the pair
    just popped. *)
Definition intersections_body (n : nat) (epsilon : R)
    (part_a part_b : MatrixX2d)
    (subcurve_pairs : list (MatrixX2d * MatrixX2d))
    (points_of_intersection : PointVector)
    : list (MatrixX2d * MatrixX2d) * PointVector :=
  let bbox1 := bbox part_a in
  let bbox2 := bbox part_b in
  if negb (intersects bbox1 bbox2) then (subcurve_pairs, points_of_intersection)
  else if Rltb (norm (diagonal bbox1)) epsilon
          && Rltb (norm (diagonal bbox2)) epsilon then
    let new_point := center bbox1 in
    if forallb (fun point => negb (Rltb (norm (psub point new_point)) epsilon))
               points_of_intersection
    then (subcurve_pairs, emplace_back points_of_intersection new_point)
    else (subcurve_pairs, points_of_intersection)
  else
    let subcurves_a :=
      if Rltb (norm (diagonal bbox1)) epsilon then [part_a]
      else [mmul2 (splittingCoeffsRight n (1 / 2)) part_a;
            mmul2 (splittingCoeffsLeft n (1 / 2)) part_a] in
    let subcurves_b :=
      if Rltb (norm (diagonal bbox2)) epsilon then [part_b]
      else [mmul2 (splittingCoeffsRight (rows part_b) (1 / 2)) part_b;
            mmul2 (splittingCoeffsLeft (rows part_b) (1 / 2)) part_b] in
    (push_all
       (flat_map (fun subcurve_b =>
                    map (fun subcurve_a => (subcurve_a, subcurve_b)) subcurves_a)
                 subcurves_b)
       subcurve_pairs,
     points_of_intersection).

(** The [while (!subcurve_pairs.empty())] loop.  In exact arithmetic the
    boxes halve until both diagonals are below epsilon; in double precision
    a box cannot shrink below the spacing of its coordinates, so what is
    stated of this loop further on is stated of the runs that return. *)
Fixpoint intersections_while (fuel : nat) (n : nat) (epsilon : R)
    (subcurve_pairs : list (MatrixX2d * MatrixX2d))
    (points_of_intersection : PointVector) {struct fuel}
    : outcome PointVector :=
  match subcurve_pairs with
  | [] => Returns points_of_intersection
  | (part_a, part_b) :: rest =>
      match fuel with
      | O => OutOfFuel
      | S fuel' =>
          let (pairs', points') :=
            intersections_body n epsilon part_a part_b rest
                               points_of_intersection in
          intersections_while fuel' n epsilon pairs' points'
      end
  end.

Definition intersections (fuel : nat) (curve : curve_ref) (epsilon : R)
    : M PointVector :=
  match curve with
  | ref_other other =>
      fun this =>
        (intersections_while fuel (N_ this) epsilon
           (push_all [(control_points_ this, control_points_ other)] []) [],
         this)
  | ref_this =>
      t <- extrema ;;
      fun this =>
        let subcurves :=
          self_subcurves (N_ this) epsilon (control_points_ this) (sort t) in
        (intersections_while fuel (N_ this) epsilon
           (push_all (all_pairs subcurves) []) [],
         this)
  end.

(** *** The bounding box *)

Definition set_cached_bounding_box (c : Curve) (b : option BoundingBox)
    : Curve :=
  mkCurve (control_points_ c) (N_ c) (cached_derivative_ c) (cached_roots_ c)
    b (cached_polyline_ c) (cached_polyline_flatness_ c)
    (cached_projection_polynomial_part_ c)
    (cached_projection_polynomial_derivative_ c).

(** [std::minmax_element]: the first of the smallest elements and the last
    of the largest, for the order [less]. *)
Fixpoint min_element_from {A} (less : A -> A -> bool) (best : A) (l : list A)
    : A :=
  match l with
  | [] => best
  | x :: l' => min_element_from less (if less x best then x else best) l'
  end.
Fixpoint max_element_from {A} (less : A -> A -> bool) (best : A) (l : list A)
    : A :=
  match l with
  | [] => best
  | x :: l' => max_element_from less (if less x best then best else x) l'
  end.
Definition minmax_element {A} (less : A -> A -> bool) (d : A) (l : list A)
    : A * A :=
  match l with
  | [] => (d, d)
  | x :: l' => (min_element_from less x l', max_element_from less x l')
  end.

Definition boundingBox : M BoundingBox :=
  fun this =>
    match cached_bounding_box_ this with
    | Some b => (Returns b, this)
    | None =>
        (t <- extrema ;;
         fun this =>
           let extremes := valueAt_vector this t in
           let extremes :=
             emplace_back extremes (row2 (control_points_ this) 0) in
           let extremes :=
             emplace_back extremes
               (row2 (control_points_ this) (N_ this - 1)) in
           let x_extremes :=
             minmax_element (fun lhs rhs => Rltb (fst lhs) (fst rhs))
                            (0, 0) extremes in
           let y_extremes :=
             minmax_element (fun lhs rhs => Rltb (snd lhs) (snd rhs))
                            (0, 0) extremes in
           let b := mkAlignedBox2d
                      (fst (fst x_extremes), snd (fst y_extremes))
                      (fst (snd x_extremes), snd (snd y_extremes)) in
           (Returns b, set_cached_bounding_box this (Some b))) this
    end.

(** *** Projection of a point and distance to the curve *)

Definition set_cached_projection (c : Curve) (part : option VectorXd)
    (der : MatrixXd) : Curve :=
  mkCurve (control_points_ c) (N_ c) (cached_derivative_ c) (cached_roots_ c)
    (cached_bounding_box_ c) (cached_polyline_ c) (cached_polyline_flatness_ c)
    part der.

(** An n x 2 matrix as a dynamic matrix. *)
Definition to_MatrixXd (P : MatrixX2d) : MatrixXd :=
  map (fun p => [fst p; snd p]) P.

(** The loop that fills [polynomial_part]: round [k] adds the products of
    the rows of [derivate_polynomial] with row [k] of [curve_polynomial] to
    the entries [k .. k + rows - 1]. *)
Definition projection_polynomial_part
    (curve_polynomial derivate_polynomial : MatrixXd) : VectorXd :=
  fold_left
    (fun polynomial_part k =>
       let v := mat_vec derivate_polynomial (nth k curve_polynomial []) in
       map (fun m =>
              vcoeff polynomial_part m
              + (if Nat.leb k m && Nat.ltb m (k + rows derivate_polynomial)
                 then vcoeff v (m - k) else 0))
           (seq 0 (length polynomial_part)))
    (seq 0 (rows curve_polynomial))
    (repeat 0 (rows curve_polynomial + rows derivate_polynomial - 1)).

Definition projection_fill : M unit :=
  fun this =>
    match cached_projection_polynomial_part_ this with
    | Some _ => (Returns tt, this)
    | None =>
        (d <- derivative ;;
         fun this =>
           let curve_polynomial :=
             to_MatrixXd (mmul2 (bernsteinCoeffs (N_ this))
                                (control_points_ this)) in
           let derivate_polynomial :=
             to_MatrixXd (mmul2 (bernsteinCoeffs (N_ this - 1))
                                (control_points_ d)) in
           (Returns tt,
            set_cached_projection this
              (Some (projection_polynomial_part curve_polynomial
                                                derivate_polynomial))
              derivate_polynomial)) this
    end.

(** [polynomial.topRows(rows) -= derivative * point]. *)
Definition projection_polynomial (part : VectorXd) (der : MatrixXd)
    (point : Point) : VectorXd :=
  let v := mat_vec der [fst point; snd point] in
  map (fun m => vcoeff part m
                - (if Nat.ltb m (rows der) then vcoeff v m else 0))
      (seq 0 (length part)).

(** The loop over the candidates: a candidate in [0, 1] that is strictly
    nearer than the best so far replaces it. *)
Definition projection_best (this : Curve) (point : Point)
    (candidates : list R) (start : R * R) : R * R :=
  fold_left
    (fun best candidate =>
       if Rltb candidate 0 || Rltb 1 candidate then best
       else
         let dist := norm (psub point (valueAt this candidate)) in
         if Rltb dist (snd best) then (candidate, dist) else best)
    candidates start.

Definition projectPoint (point : Point) : M R :=
  projection_fill ;;;
  fun this =>
    let polynomial :=
      projection_polynomial
        (match cached_projection_polynomial_part_ this with
         | Some part => part
         | None => []
         end)
        (cached_projection_polynomial_derivative_ this) point in
    let candidates := column_roots polynomial in
    let projection :=
      if Rltb (norm (psub point (valueAt this 0)))
              (norm (psub point (valueAt this 1)))
      then 0 else 1 in
    let min := norm (psub point (valueAt this projection)) in
    (Returns (fst (projection_best this point candidates (projection, min))),
     this).

Definition distance (point : Point) : M R :=
  t <- projectPoint point ;;
  gets (fun this => norm (psub point (valueAt this t))).

(** The overloads on a vector of points call the single-point functions on
    the points in order. *)
Definition transform {A B} (f : A -> M B) (input : list A) : M (list B) :=
  fold_right (fun x rest => y <- f x ;; output <- rest ;; ret (y :: output))
             (ret []) input.

Definition projectPoint_vector (point_vector : PointVector) : M (list R) :=
  transform projectPoint point_vector.

Definition distance_vector (point_vector : PointVector) : M (list R) :=
  transform distance point_vector.

End Roots.

End Bezier.

(** ** The Sturm isolator, [namespace Sturm] *)

Module Sturm.

(** [enum RootTypeFlag]; a root type is an [int] of or-ed flags. *)
Definition Convex : Z := 1.
Definition Concave : Z := 2.
Definition Inflection : Z := 4.
Definition All : Z := 8.

(** Vector and matrix accessors of Eigen used by [chain]. *)
Definition head (k : nat) (v : VectorXd) : VectorXd := firstn k v.
Definition tail (k : nat) (v : VectorXd) : VectorXd := skipn (length v - k) v.
Definition row (M : MatrixXd) (i : nat) : VectorXd := nth i M [].
Definition set_coeff (M : MatrixXd) (i j : nat) (x : R) : MatrixXd :=
  tabulate (rows M) (cols M)
    (fun i' j' => if Nat.eqb i' i && Nat.eqb j' j then x else coeff M i' j').
Definition set_matrix_row (M : MatrixXd) (i : nat) (v : VectorXd) : MatrixXd :=
  tabulate (rows M) (cols M)
    (fun i' j' => if Nat.eqb i' i then vcoeff v j' else coeff M i' j').
Definition block00 (M : MatrixXd) (r c : nat) : MatrixXd :=
  tabulate r c (fun i j => coeff M i j).
Definition leftCols (M : MatrixXd) (c : nat) : MatrixXd := block00 M (rows M) c.

(** The lambda [trim] of [chain]: strip the leading coefficients that are
    exactly zero.  On a vector of zeros the source reads past its end,
    where the embedding returns the empty vector; [chain] is therefore only
    used below on polynomials of two coefficients, which do not reach
    [trim], and the loop of [roots] is studied on an arbitrary chain. *)
Fixpoint trim (p : VectorXd) : VectorXd :=
  match p with
  | [] => []
  | x :: p' => if Reqb x 0 then trim p' else p
  end.

(** The lambda [inflate] of [chain], for a polynomial of [n] coefficients. *)
Definition inflate (n : nat) (p : VectorXd) : VectorXd :=
  repeat 0 (n - length p) ++ p ++ repeat 0 2.

(** The long division [while (r.size() && r.size() >= b.size())]; each round
    cancels the leading coefficient of [r], so [fuel = r.size() + 1] rounds
    are enough when [b] is not empty. *)
Fixpoint remainder_while (fuel : nat) (r b : VectorXd) : VectorXd :=
  match fuel with
  | O => r
  | S fuel' =>
      if negb (Nat.eqb (length r) 0) && Nat.leb (length b) (length r) then
        let L := vcoeff r 0 / vcoeff b 0 in
        let r' := map (fun k => if Nat.ltb k (length b)
                                then vcoeff r k - L * vcoeff b k
                                else vcoeff r k)
                      (seq 0 (length r)) in
        remainder_while fuel' (trim r') b
      else r
  end.

(** The rows [i = 2 ..] of the chain; [todo] lists the remaining values of
    [i]. *)
Fixpoint chain_rows (todo : list nat) (n : nat) (epsilon : R)
    (sturm_chain : MatrixXd) : MatrixXd :=
  match todo with
  | [] => leftCols sturm_chain n
  | i :: todo' =>
      let d2 := tail (n + 2 - i + 2) (row sturm_chain (i - 2)) in
      let d1 := tail (n + 2 - i + 1) (row sturm_chain (i - 1)) in
      if Rltb (Rabs (vnorm d1 - Rabs (vcoeff d1 (length d1 - 3)))) epsilon
      then block00 sturm_chain i n
      else if Rltb epsilon (Rabs (vcoeff d1 0)) then
        let T := vcoeff d2 0 / vcoeff d1 0 in
        let M := (vcoeff d2 1 - T * vcoeff d1 1) / vcoeff d1 0 in
        chain_rows todo' n epsilon
          (fold_left
             (fun ch j =>
                set_coeff ch i (i + j)
                  (- (vcoeff d2 (j + 2) - M * vcoeff d1 (j + 1)
                      - T * vcoeff d1 (j + 2))))
             (seq 0 (n - i)) sturm_chain)
      else
        let a := trim (head (length d2 - 2) d2) in
        let b := trim (head (length d1 - 2) d1) in
        let r := remainder_while (S (length a)) a b in
        chain_rows todo' n epsilon (set_matrix_row sturm_chain i (inflate n r))
  end.

Definition chain (polynomial : VectorXd) (epsilon : R) : MatrixXd :=
  let n := length polynomial in
  let sturm_chain := Zero n (n + 2) in
  let sturm_chain :=
    set_matrix_row sturm_chain 0 (polynomial ++ repeat 0 2) in
  let sturm_chain :=
    fold_left
      (fun ch j => set_coeff ch 1 j (INR (n - j) * coeff ch 0 (j - 1)))
      (seq 1 (n - 1)) sturm_chain in
  chain_rows (seq 2 (n - 2)) n epsilon sturm_chain.

(** [std::signbit] on a real number (there is no negative zero). *)
Definition signbit (x : R) : bool := Rltb x 0.

Definition power_basis (sturm_chain : MatrixXd) (t : R) : VectorXd :=
  pow_array t (LinSpaced (cols sturm_chain) (cols sturm_chain - 1) 0).

Fixpoint sign_changes (signcount : VectorXd) : Z :=
  match signcount with
  | x :: ((y :: _) as rest) =>
      ((if Bool.eqb (signbit x) (signbit y) then 0 else 1) + sign_changes rest)%Z
  | _ => 0%Z
  end.

Definition interval (sturm_chain : MatrixXd) (t1 t2 : R) : Z :=
  let signcount1 := mat_vec sturm_chain (power_basis sturm_chain t1) in
  let signcount2 := mat_vec sturm_chain (power_basis sturm_chain t2) in
  (sign_changes signcount1 - sign_changes signcount2)%Z.

(** [static_cast<uint>] of an [int]. *)
Definition to_uint (x : Z) : Z := (x mod 2 ^ 32)%Z.

(** The work stack [intervals] (the head of the list is its back) and the
    output vector [roots]. *)
Definition work_item : Type := (R * R * bool)%type.
Definition state : Type := (list work_item * list R)%type.

Definition split_item (a a_b b : R) (flag : bool) (st : state) : state :=
  ((a_b, b, flag) :: (a, a_b, flag) :: fst st, snd st).

(** The lambda [iterate] of [roots]. *)
Definition iterate (sturm_chain : MatrixXd) (root_type : Z) (epsilon : R)
    (item : work_item) (st : state) : state :=
  let '(a, b, flag) := item in
  let a_b := (a + b) / 2 in
  let root_num := to_uint (interval sturm_chain a b) in
  let root_num :=
    if negb (Z.eqb root_num 0) && Rltb (a_b - a) epsilon then 1%Z
    else root_num in
  if Z.eqb root_num 0 then st
  else if Z.eqb root_num 1 then
    if Rltb (a_b - a) epsilon
    then (fst st, emplace_back (snd st) ((a + a_b) / 2))
    else if negb (Z.eqb root_type All) && negb flag then
      let g_a := sum_n (fun k => vcoeff (row sturm_chain 0) k
                                 * vcoeff (power_basis sturm_chain a) k)
                       (cols sturm_chain) in
      let g_b := sum_n (fun k => vcoeff (row sturm_chain 0) k
                                 * vcoeff (power_basis sturm_chain b) k)
                       (cols sturm_chain) in
      if Z.eqb (Z.land root_type All) 0 then
        let flag :=
          if negb (Z.eqb (Z.land root_type Convex) 0)
             && Rleb g_a 0 && Rltb 0 g_b then true else flag in
        let flag :=
          if negb (Z.eqb (Z.land root_type Concave) 0)
             && Rltb 0 g_a && Rleb g_b 0 then true else flag in
        let flag :=
          if negb (Z.eqb (Z.land root_type Inflection) 0)
             && ((Rleb 0 g_a && Rleb 0 g_b) || (Rleb g_a 0 && Rleb g_b 0))
          then true else flag in
        if negb flag then st else split_item a a_b b flag st
      else split_item a a_b b flag st
    else split_item a a_b b flag st
  else split_item a a_b b flag st.

(** The [while (!intervals.empty())] loop of [roots].  The end points and
    midpoints it computes are multiples of powers of two in [0, 1]; with an
    epsilon of at least 2^-50 they are multiples of 2^-52 or coarser, which
    double precision holds exactly. *)
Fixpoint roots_while (fuel : nat) (sturm_chain : MatrixXd) (root_type : Z)
    (epsilon : R) (st : state) {struct fuel} : outcome (list R) :=
  match fst st with
  | [] => Returns (snd st)
  | (a, b, flag) :: intervals =>
      match fuel with
      | O => OutOfFuel
      | S fuel' =>
          let a_b := (a + b) / 2 in
          let st := iterate sturm_chain root_type epsilon (a, a_b, flag)
                            (intervals, snd st) in
          let st := iterate sturm_chain root_type epsilon (a_b, b, flag) st in
          roots_while fuel' sturm_chain root_type epsilon st
      end
  end.

(** [roots(polynomial, root_type, epsilon)]; the chain is built with the
    default precision of [chain]. *)
Definition roots (fuel : nat) (polynomial : VectorXd) (root_type : Z)
    (epsilon : R) : outcome (list R) :=
  let sturm_chain := chain polynomial (1 / 1000) in
  let st := iterate sturm_chain root_type epsilon (0, 1, false) ([], []) in
  roots_while fuel sturm_chain root_type epsilon st.

End Sturm.
(** * Reference definitions

    The closed forms and invariants the theorems below compare the code
    with. *)

(** The coefficients of the matrix [bernsteinCoeffs] exponentiates. *)
Definition subdiag_coeff (i j : nat) : R :=
  if Nat.eqb i (S j) then - INR i else 0.

(** The Bernstein polynomial of degree [n] and index [k], and the curve
    [C(t) = sum_k C(n-1,k) (1-t)^(n-1-k) t^k P_k] of the glossary. *)
Definition bernstein (n k : nat) (t : R) : R :=
  C n k * (1 - t) ^ (n - k) * t ^ k.

Definition bezier_reference (P : MatrixX2d) (t : R) : Vector2d :=
  (sum_n (fun k => bernstein (length P - 1) k t * fst (row2 P k)) (length P),
   sum_n (fun k => bernstein (length P - 1) k t * snd (row2 P k)) (length P)).

(** ** The cached data of a curve

    A derivative curve held in the cache has the control points a fresh
    derivative would have, and is itself a curve with a sound cache; the
    count [N_] is the number of rows of the control points. *)
Fixpoint cache_ok (c : Bezier.Curve) : Prop :=
  Bezier.N_ c = rows (Bezier.control_points_ c) /\
  match Bezier.cached_derivative_ c with
  | None => True
  | Some d =>
      Bezier.control_points_ d
      = Bezier.control_points_ (Bezier.new_derivative c) /\ cache_ok d
  end.

(** The extrema held in the cache are those a fresh computation gives. *)
Definition roots_cache_ok (realRoots : VectorXd -> list R) (c : Bezier.Curve)
    : Prop :=
  forall r, Bezier.cached_roots_ c = Some r -> r = Bezier.new_roots realRoots c.

(** ** The curve as a function of its control points *)

Definition curve_value (P : MatrixX2d) (t : R) : Vector2d :=
  Bezier.valueAt (Bezier.new_Curve P) t.

Definition derivative_cp (P : MatrixX2d) : MatrixX2d :=
  Bezier.control_points_ (Bezier.new_derivative (Bezier.new_Curve P)).

(** [speed P t] is the norm of the first derivative at [t], [accel P t] that
    of the second. *)
Definition speed (P : MatrixX2d) (t : R) : R :=
  norm (curve_value (derivative_cp P) t).
Definition accel (P : MatrixX2d) (t : R) : R :=
  norm (curve_value (derivative_cp (derivative_cp P)) t).

(** The Gauss-Legendre arc length of the curve between [t1] and [t2]. *)
Definition arc_length (lg : LegendreGauss.table) (P : MatrixX2d) (t1 t2 : R)
    : R :=
  sum_n (fun k => vcoeff (LegendreGauss.weights lg) k
                  * speed P (vcoeff (LegendreGauss.abcissae lg) k * (t2 - t1) / 2
                             + (t1 + t2) / 2))
        (LegendreGauss.N lg)
  * (t2 - t1) / 2.

(** Halley's update for [f(t) = length(t) - length(t0) - s], and the
    sequence of its iterates from [t0]. *)
Definition halley_f (lg : LegendreGauss.table) (P : MatrixX2d) (t0 s t : R)
    : R :=
  arc_length lg P 0 t - arc_length lg P 0 t0 - s.

Definition halley_step (lg : LegendreGauss.table) (P : MatrixX2d) (t0 s t : R)
    : R :=
  let f := halley_f lg P t0 s t in
  t - (2 * f * speed P t) / (2 * speed P t * speed P t - f * accel P t).

Fixpoint halley_iterate (lg : LegendreGauss.table) (P : MatrixX2d)
    (t0 s : R) (k : nat) : R :=
  match k with
  | O => t0
  | S k' => halley_step lg P t0 s (halley_iterate lg P t0 s k')
  end.

(** A member function [m] computes [f] when, on every curve with a sound
    cache, its outcome is [f] of the control points and it leaves the control
    points as they are and the cache sound. *)
Definition obind {A B} (o : outcome A) (k : A -> outcome B) : outcome B :=
  match o with
  | Returns a => k a
  | Throws e => Throws e
  | OutOfFuel => OutOfFuel
  end.

Definition computes {A} (m : Bezier.M A) (f : MatrixX2d -> outcome A) : Prop :=
  forall c, cache_ok c ->
    exists c', m c = (f (Bezier.control_points_ c), c') /\ cache_ok c'
               /\ Bezier.control_points_ c' = Bezier.control_points_ c.

(** [valueAt] as a call on the object: it reads the control points and
    returns. *)
Definition call_valueAt (t : R) : Bezier.M Bezier.Point :=
  Bezier.gets (fun this => Bezier.valueAt this t).

(** [PolynomialSolver] on a polynomial of degree one: Eigen's [compute] sets
    the single root to [-poly[0] / poly[1]].  The examples below use no other
    degree. *)
Definition realRoots_degree_one (poly : VectorXd) : list R :=
  match poly with
  | [a0; a1] => [- a0 / a1]
  | _ => []
  end.

(** Claim C6 as it is stated, for one interval [(a, b)] given to [iterate]:
    with V the root count and M the midpoint, a root count of one on an
    interval narrower than epsilon emits M, a root count of zero discards
    the interval, and every other interval is split at M. *)
Definition C6_as_stated (sturm_chain : MatrixXd) (root_type : Z) (epsilon : R)
    (a b : R) (flag : bool) (st : Sturm.state) : Prop :=
  let V := Sturm.to_uint (Sturm.interval sturm_chain a b) in
  let M := (a + b) / 2 in
  let st' := Sturm.iterate sturm_chain root_type epsilon (a, b, flag) st in
  (V = 1%Z /\ b - a < epsilon -> st' = (fst st, emplace_back (snd st) M)) /\
  (V = 0%Z -> st' = st) /\
  (V <> 0%Z /\ ~ (V = 1%Z /\ b - a < epsilon) ->
   st' = Sturm.split_item a M b flag st).

(** A measure of the work left on the stack of [Sturm::roots]: an interval
    of width [w] weighs [(4 w / epsilon - 1) / 3], which is one more than
    the weight of the four quarters a round of the loop can replace it
    with. *)
Definition sturm_weight (epsilon : R) (item : Sturm.work_item) : R :=
  (4 * (snd (fst item) - fst (fst item)) / epsilon - 1) / 3.

Definition sturm_potential (epsilon : R) (intervals : list Sturm.work_item) : R :=
  fold_right (fun item acc => sturm_weight epsilon item + acc) 0 intervals.

(** Every interval on the stack is at least [epsilon] wide. *)
Definition wide (epsilon : R) (item : Sturm.work_item) : Prop :=
  epsilon <= snd (fst item) - fst (fst item).

(** The one-point Gauss-Legendre rule (abscissa 0, weight 2), the smallest
    table; the examples integrate with it. *)
Definition one_point_rule : LegendreGauss.table :=
  LegendreGauss.mkTable 1 [0] [2].

(** Claim C7 as it is stated, for a start that is not clamped: the loop
    runs until |f| < epsilon, so the value returned has |f| < epsilon. *)
Definition C7_as_stated (lg : LegendreGauss.table) (c : Bezier.Curve)
    (t0 s epsilon : R) : Prop :=
  let P := Bezier.control_points_ c in
  0 <= arc_length lg P 0 t0 + s <= arc_length lg P 0 1 ->
  forall fuel r,
    fst (Bezier.iterateByLength lg fuel t0 s epsilon c) = Returns r ->
    Rabs (halley_f lg P t0 s r) < epsilon.

(** Claim C8 as it is stated, for the Halley loop: on a start in [0,1] and
    a target length within the curve, with a positive epsilon, the call
    returns after some number of rounds. *)
Definition C8_as_stated (lg : LegendreGauss.table) (c : Bezier.Curve)
    (t0 s epsilon : R) : Prop :=
  let P := Bezier.control_points_ c in
  0 <= t0 <= 1 -> 0 < epsilon ->
  0 <= arc_length lg P 0 t0 + s <= arc_length lg P 0 1 ->
  exists fuel r, fst (Bezier.iterateByLength lg fuel t0 s epsilon c) = Returns r.

(** ** Splitting in closed form

    The inverse of the Bernstein matrix, and the de Casteljau matrices the
    splitting coefficients amount to. *)
Definition bernstein_inverse (n : nat) : MatrixXd :=
  tabulate n n (fun k j => if Nat.leb j k then C k j / C (n - 1) j else 0).

Definition de_casteljau_left (n : nat) (z : R) : MatrixXd :=
  tabulate n n (fun i j => if Nat.leb j i then bernstein i j z else 0).

Definition de_casteljau_right (n : nat) (z : R) : MatrixXd :=
  tabulate n n (fun k c =>
    if Nat.leb k c then bernstein (n - 1 - k) (c - k) z else 0).

(** Claim C9 as it is stated, for the pair [(part_a, part_b)] just popped:
    boxes that do not intersect discard the pair; two boxes with diagonals
    below epsilon accept the centre of the first, which is added when, and
    only when, its distance to every point found so far exceeds epsilon;
    otherwise every side whose diagonal is at least epsilon is halved and
    all combinations are pushed. *)
Definition C9_as_stated (n : nat) (epsilon : R) (part_a part_b : MatrixX2d)
    (subcurve_pairs : list (MatrixX2d * MatrixX2d)) (points : list Vector2d)
    : Prop :=
  let bbox1 := Bezier.bbox part_a in
  let bbox2 := Bezier.bbox part_b in
  let small1 := norm (diagonal bbox1) < epsilon in
  let small2 := norm (diagonal bbox2) < epsilon in
  let result :=
    Bezier.intersections_body n epsilon part_a part_b subcurve_pairs points in
  (intersects bbox1 bbox2 = false -> result = (subcurve_pairs, points)) /\
  (intersects bbox1 bbox2 = true -> small1 -> small2 ->
   ((forall p, In p points -> epsilon < norm (psub p (center bbox1))) ->
    result = (subcurve_pairs, points ++ [center bbox1])) /\
   (~ (forall p, In p points -> epsilon < norm (psub p (center bbox1))) ->
    result = (subcurve_pairs, points))) /\
  (intersects bbox1 bbox2 = true -> ~ (small1 /\ small2) ->
   exists sides_a sides_b,
     (small1 -> sides_a = [part_a]) /\
     (~ small1 ->
      sides_a = [mmul2 (Bezier.splittingCoeffsRight n (1 / 2)) part_a;
                 mmul2 (Bezier.splittingCoeffsLeft n (1 / 2)) part_a]) /\
     (small2 -> sides_b = [part_b]) /\
     (~ small2 ->
      sides_b = [mmul2 (Bezier.splittingCoeffsRight (rows part_b) (1 / 2)) part_b;
                 mmul2 (Bezier.splittingCoeffsLeft (rows part_b) (1 / 2)) part_b]) /\
     result
     = (rev (flat_map (fun b => map (fun a => (a, b)) sides_a) sides_b)
        ++ subcurve_pairs,
        points)).

(** ** Halving and the control polygon

    [binomial_average z q p k] is the point of a de Casteljau scheme of
    degree [q] on the values [p k .. p (k + q)]; the control points of the
    two halves of a curve are such averages of its control points. *)
Definition binomial_average (z : R) (q : nat) (p : nat -> R) (k : nat) : R :=
  sum_n (fun m => bernstein q m z * p (k + m)%nat) (S q).

Definition xs (P : MatrixX2d) (j : nat) : R := fst (row2 P j).
Definition ys (P : MatrixX2d) (j : nat) : R := snd (row2 P j).

(** ** What [intersections] reports

    [piece_of P A]: the control points [A] describe the part of the curve
    of [P] over some interval [[a, b]] of [[0, 1]].  [in_box b y]: the point
    [y] lies in the box [b].  [separated epsilon points]: any two points of
    the list are at least [epsilon] apart.  [near P d x]: some point of the
    curve of [P], at a parameter in [[0, 1]], is nearer than [d] to [x]. *)
Definition piece_of (P A : MatrixX2d) : Prop :=
  length A = length P /\
  exists a b, 0 <= a /\ a <= b /\ b <= 1 /\
    forall t, curve_value A t = curve_value P (a + (b - a) * t).

Definition in_box (b : AlignedBox2d) (y : Vector2d) : Prop :=
  fst (box_min b) <= fst y <= fst (box_max b)
  /\ snd (box_min b) <= snd y <= snd (box_max b).

Definition separated (epsilon : R) (points : list Vector2d) : Prop :=
  ForallOrdPairs (fun p q => epsilon <= norm (psub p q)) points.

Definition near (P : MatrixX2d) (d : R) (x : Vector2d) : Prop :=
  exists s, 0 <= s <= 1 /\ norm (psub x (curve_value P s)) < d.

(** ** What the Sturm isolator reports

    [emitted_from sturm_chain epsilon r]: [r] is the value [iterate] emits
    for an interval [(a, b)] of [[0, 1]] on which the chain counts a root
    and whose half width is below [epsilon]. *)
Definition emitted_from (sturm_chain : MatrixXd) (epsilon r : R) : Prop :=
  exists a b,
    0 <= a /\ a <= b /\ b <= 1
    /\ Sturm.to_uint (Sturm.interval sturm_chain a b) <> 0%Z
    /\ (a + b) / 2 - a < epsilon
    /\ r = (a + (a + b) / 2) / 2.

Definition within_unit (item : Sturm.work_item) : Prop :=
  0 <= fst (fst item) /\ fst (fst item) <= snd (fst item)
  /\ snd (fst item) <= 1.

(** The root counts of the intervals on the stack of [Sturm::roots], summed. *)
Definition stack_count (sturm_chain : MatrixXd)
    (intervals : list Sturm.work_item) : Z :=
  fold_right
    (fun item acc =>
       (Sturm.interval sturm_chain (fst (fst item)) (snd (fst item)) + acc)%Z)
    0%Z intervals.

Definition ordered_item (item : Sturm.work_item) : Prop :=
  fst (fst item) <= snd (fst item).

(** The Sturm chain of the polynomial [p0 x + p1]. *)
Definition linear_chain (p0 p1 : R) : MatrixXd := [[p0; p1]; [0; p0]].

(** A point [intersections] may report for the curves of [P] and [Q], and a
    pair of pieces of the two curves. *)
Definition reported (P Q : MatrixX2d) (epsilon : R) (x : Vector2d) : Prop :=
  near P (epsilon / 2) x /\ near Q (3 * epsilon / 2) x.

Definition pair_of_pieces (P Q : MatrixX2d) (ab : MatrixX2d * MatrixX2d)
    : Prop :=
  piece_of P (fst ab) /\ piece_of Q (snd ab).

(** A value nearer than [3 epsilon / 2] to the root of [p0 x + p1]. *)
Definition close_to_root (p0 p1 epsilon x : R) : Prop :=
  Rabs (x - - p1 / p0) < 3 * epsilon / 2.

(** ** Polynomials in the power basis

    [poly_eval p t] is the value at [t] of the polynomial with the
    coefficients [p], lowest degree first, as [PolynomialSolver] reads
    them.  A solver is complete on [p] when it returns every real root of
    [p]. *)
Definition poly_eval (p : VectorXd) (t : R) : R :=
  sum_n (fun k => vcoeff p k * t ^ k) (length p).

Definition complete_on (realRoots : VectorXd -> list R) (p : VectorXd) : Prop :=
  forall r, poly_eval p r = 0 -> In r (realRoots p).

(** ** The bounding box computed afresh

    The points [boundingBox] takes the minimum and maximum over, on a curve
    with nothing cached: the curve at its extrema, then the two end points;
    and the box of a list of points. *)
Definition fresh_extremes (realRoots : VectorXd -> list R) (c : Bezier.Curve)
    : list Vector2d :=
  map (Bezier.valueAt c) (Bezier.new_roots realRoots (Bezier.new_derivative c))
  ++ [row2 (Bezier.control_points_ c) 0;
      row2 (Bezier.control_points_ c) (Bezier.N_ c - 1)].

Definition box_of (extremes : list Vector2d) : AlignedBox2d :=
  let x_extremes :=
    Bezier.minmax_element (fun lhs rhs => Rltb (fst lhs) (fst rhs))
                          (0, 0) extremes in
  let y_extremes :=
    Bezier.minmax_element (fun lhs rhs => Rltb (snd lhs) (snd rhs))
                          (0, 0) extremes in
  mkAlignedBox2d (fst (fst x_extremes), snd (fst y_extremes))
                 (fst (snd x_extremes), snd (snd y_extremes)).

(** The state a first call of [boundingBox] leaves: the derivative, with
    its roots, and the box are cached. *)
Definition with_bounding_box (realRoots : VectorXd -> list R)
    (c : Bezier.Curve) : Bezier.Curve :=
  Bezier.set_cached_bounding_box
    (Bezier.set_cached_derivative c
       (Some (Bezier.set_cached_roots (Bezier.new_derivative c)
                (Some (Bezier.new_roots realRoots (Bezier.new_derivative c))))))
    (Some (box_of (fresh_extremes realRoots c))).

(** ** The projection polynomial

    The polynomial [projectPoint] gives to the solver for the point
    [point], on a curve whose control points are [P]. *)
Definition projection_polynomial_of (P : MatrixX2d) (point : Vector2d)
    : VectorXd :=
  let U := mmul2 (Bezier.bernsteinCoeffs (length P)) P in
  let V := mmul2 (Bezier.bernsteinCoeffs (length P - 1)) (derivative_cp P) in
  Bezier.projection_polynomial
    (Bezier.projection_polynomial_part (Bezier.to_MatrixXd U)
                                       (Bezier.to_MatrixXd V))
    (Bezier.to_MatrixXd V) point.

(** The square of the distance from [point] to the curve at [u]. *)
Definition square_distance (P : MatrixX2d) (point : Vector2d) (u : R) : R :=
  (fst (curve_value P u) - fst point) * (fst (curve_value P u) - fst point)
  + (snd (curve_value P u) - snd point) * (snd (curve_value P u) - snd point).

(** The projection cache of a curve as [projectPoint] fills it: the part of
    the polynomial that does not depend on the point, and the polynomial of
    the derivative. *)
Definition projection_cached (c : Bezier.Curve) : Prop :=
  let P := Bezier.control_points_ c in
  let V :=
    Bezier.to_MatrixXd
      (mmul2 (Bezier.bernsteinCoeffs (length P - 1)) (derivative_cp P)) in
  Bezier.cached_projection_polynomial_part_ c
  = Some (Bezier.projection_polynomial_part
            (Bezier.to_MatrixXd (mmul2 (Bezier.bernsteinCoeffs (length P)) P))
            V)
  /\ Bezier.cached_projection_polynomial_derivative_ c = V.

(** What a polynomial solver may be assumed to do on the polynomial [p]:
    return nothing but real roots of [p]. *)
Definition sound_on (realRoots : VectorXd -> list R) (p : VectorXd) : Prop :=
  forall r, In r (realRoots p) -> poly_eval p r = 0.

(** * Facts *)

Section SumFacts.

Lemma sum_n_ext (f g : nat -> R) (n : nat) :
  (forall k, (k < n)%nat -> f k = g k) -> sum_n f n = sum_n g n.
Proof.
  induction n as [|n IH]; intros H; simpl; [reflexivity|].
  rewrite IH, H; auto.
Qed.

Lemma sum_n_zero (f : nat -> R) (n : nat) :
  (forall k, (k < n)%nat -> f k = 0) -> sum_n f n = 0.
Proof.
  induction n as [|n IH]; intros H; simpl; [reflexivity|].
  rewrite IH, H; auto; lra.
Qed.

Lemma sum_n_plus (f g : nat -> R) (n : nat) :
  sum_n (fun k => f k + g k) n = sum_n f n + sum_n g n.
Proof. induction n as [|n IH]; simpl; [lra | rewrite IH; lra]. Qed.

Lemma sum_n_scal (a : R) (f : nat -> R) (n : nat) :
  sum_n (fun k => a * f k) n = a * sum_n f n.
Proof. induction n as [|n IH]; simpl; [lra | rewrite IH; lra]. Qed.

Lemma sum_n_scal_r (a : R) (f : nat -> R) (n : nat) :
  sum_n (fun k => f k * a) n = sum_n f n * a.
Proof. induction n as [|n IH]; simpl; [lra | rewrite IH; lra]. Qed.

Lemma sum_n_single (f : nat -> R) (n k0 : nat) :
  (k0 < n)%nat -> (forall k, (k < n)%nat -> k <> k0 -> f k = 0) ->
  sum_n f n = f k0.
Proof.
  induction n as [|n IH]; intros Hk H; [lia|]. simpl.
  destruct (Nat.eq_dec k0 n) as [->|Hne].
  - rewrite sum_n_zero; [lra|]. intros k Hk'. apply H; lia.
  - rewrite IH; [|lia|intros; apply H; lia]. rewrite (H n); [lra|lia|auto].
Qed.

Lemma sum_n_app (f : nat -> R) (a b : nat) :
  sum_n f (a + b) = sum_n f a + sum_n (fun m => f (a + m)%nat) b.
Proof.
  induction b as [|b IH]; simpl.
  - rewrite Nat.add_0_r; lra.
  - rewrite Nat.add_succ_r; simpl. rewrite IH; lra.
Qed.

Lemma sum_n_swap (f : nat -> nat -> R) (n m : nat) :
  sum_n (fun i => sum_n (fun j => f i j) m) n =
  sum_n (fun j => sum_n (fun i => f i j) n) m.
Proof.
  induction n as [|n IH]; simpl.
  - symmetry; apply sum_n_zero; auto.
  - rewrite IH, <- sum_n_plus. reflexivity.
Qed.

Lemma sum_n_sum_f_R0 (f : nat -> R) (n : nat) :
  sum_n f (S n) = sum_f_R0 f n.
Proof. induction n as [|n IH]; simpl in *; [lra | rewrite <- IH; lra]. Qed.

End SumFacts.

Section MatrixFacts.

Lemma rows_tabulate r c f : rows (tabulate r c f) = r.
Proof. unfold rows, tabulate. now rewrite length_map, length_seq. Qed.

Lemma cols_tabulate r c f : (0 < r)%nat -> cols (tabulate r c f) = c.
Proof.
  intros Hr. unfold cols, tabulate. destruct r as [|r]; [lia|].
  simpl. now rewrite length_map, length_seq.
Qed.

Lemma nth_map_seq {A} (g : nat -> A) (n i : nat) (d : A) :
  (i < n)%nat -> nth i (map g (seq 0 n)) d = g i.
Proof.
  intros Hi. rewrite (nth_indep _ d (g 0%nat)) by now rewrite length_map, length_seq.
  rewrite (map_nth g (seq 0 n) 0%nat i), seq_nth; auto.
Qed.

Lemma coeff_tabulate r c f i j :
  (i < r)%nat -> (j < c)%nat -> coeff (tabulate r c f) i j = f i j.
Proof.
  intros Hi Hj. unfold coeff, tabulate.
  rewrite (nth_map_seq (fun i => map (fun j => f i j) (seq 0 c))) by auto.
  now rewrite nth_map_seq.
Qed.

Lemma coeff_tabulate_out r c f i j :
  (r <= i)%nat \/ (c <= j)%nat -> coeff (tabulate r c f) i j = 0.
Proof.
  intros H. unfold coeff, tabulate.
  destruct (Nat.lt_ge_cases i r) as [Hi|Hi].
  - rewrite (nth_map_seq (fun i => map (fun j => f i j) (seq 0 c))) by auto.
    apply nth_overflow. rewrite length_map, length_seq. lia.
  - rewrite (nth_overflow _ []) by (rewrite length_map, length_seq; lia).
    now destruct j.
Qed.

Lemma well_shaped_tabulate r c f : well_shaped r c (tabulate r c f).
Proof.
  split; [apply rows_tabulate|].
  unfold tabulate. apply Forall_forall. intros row Hin.
  apply in_map_iff in Hin as (i & <- & _). now rewrite length_map, length_seq.
Qed.

Lemma tabulate_ext r c f g :
  (forall i j, (i < r)%nat -> (j < c)%nat -> f i j = g i j) ->
  tabulate r c f = tabulate r c g.
Proof.
  intros H. unfold tabulate. apply map_ext_in. intros i Hi.
  apply map_ext_in. intros j Hj. apply in_seq in Hi, Hj. apply H; lia.
Qed.

Lemma well_shaped_eq r c (A : MatrixXd) :
  well_shaped r c A -> A = tabulate r c (coeff A).
Proof.
  intros [Hr Hc]. unfold rows in Hr. subst r.
  apply (nth_ext _ _ [] []).
  - now rewrite (rows_tabulate (length A) c).
  - intros i Hi. unfold tabulate.
    rewrite (nth_map_seq (fun i => map (fun j => coeff A i j) (seq 0 c))) by auto.
    assert (Hlen : length (nth i A []) = c).
    { rewrite Forall_forall in Hc. apply Hc. now apply nth_In. }
    apply (nth_ext _ _ 0 0).
    + now rewrite length_map, length_seq.
    + intros j Hj. rewrite nth_map_seq by lia. reflexivity.
Qed.

Lemma matrix_ext r c (A B : MatrixXd) :
  well_shaped r c A -> well_shaped r c B ->
  (forall i j, (i < r)%nat -> (j < c)%nat -> coeff A i j = coeff B i j) ->
  A = B.
Proof.
  intros HA HB H. rewrite (well_shaped_eq r c A HA), (well_shaped_eq r c B HB).
  now apply tabulate_ext.
Qed.

End MatrixFacts.

(** ** The Bernstein matrix in closed form *)

Section BernsteinFacts.

Lemma INR_fact_neq_0' k : INR (fact k) <> 0.
Proof. apply INR_fact_neq_0. Qed.

Lemma LinSpaced_0 n : LinSpaced n 0 (n - 1) = seq 0 n.
Proof. reflexivity. Qed.

Lemma LinSpaced_1 n : LinSpaced n 1 n = seq 1 n.
Proof.
  destruct n; reflexivity.
Qed.

Lemma LinSpaced_1_pred n : LinSpaced (n - 1) 1 (n - 1) = seq 1 (n - 1).
Proof.
  destruct n as [|[|n]]; reflexivity.
Qed.

Lemma vcoeff_map_seq (g : nat -> R) (a n j : nat) :
  (j < n)%nat -> vcoeff (map g (seq a n)) j = g (a + j)%nat.
Proof.
  intros Hj. unfold vcoeff.
  rewrite (nth_indep _ 0 (g 0%nat)) by now rewrite length_map, length_seq.
  rewrite (map_nth g (seq a n) 0%nat j), seq_nth; auto.
Qed.

Lemma coeff_subdiag n i j :
  (i < n)%nat -> (j < n)%nat ->
  coeff (set_subdiagonal (map (fun k => - INR k) (LinSpaced (n - 1) 1 (n - 1)))
                         (Zero n n)) i j = subdiag_coeff i j.
Proof.
  intros Hi Hj. unfold set_subdiagonal, Zero, subdiag_coeff.
  rewrite rows_tabulate, cols_tabulate by lia.
  rewrite coeff_tabulate by auto.
  destruct (Nat.eqb_spec i (S j)) as [->|Hne].
  - rewrite LinSpaced_1_pred, vcoeff_map_seq by lia. reflexivity.
  - now rewrite coeff_tabulate.
Qed.

End BernsteinFacts.

Section NilpotentExp.

Variable n : nat.
Variable A : MatrixXd.
Hypothesis n_pos : (0 < n)%nat.
Hypothesis A_rows : rows A = n.
Hypothesis A_cols : cols A = n.
Hypothesis A_coeff :
  forall i j, (i < n)%nat -> (j < n)%nat -> coeff A i j = subdiag_coeff i j.

Lemma mpow_shape m : rows (mpow A m) = n /\ cols (mpow A m) = n.
Proof.
  destruct m as [|m]; simpl.
  - unfold Identity. rewrite A_rows, rows_tabulate, cols_tabulate; auto.
  - unfold mmul. rewrite A_rows, rows_tabulate, cols_tabulate; auto.
    induction m as [|m IH]; simpl.
    + unfold Identity. rewrite A_rows, cols_tabulate; auto.
    + unfold mmul. rewrite A_rows, cols_tabulate; auto.
Qed.

Lemma coeff_mpow m i j :
  (i < n)%nat -> (j < n)%nat ->
  coeff (mpow A m) i j =
  if Nat.eqb i (j + m) then (-1) ^ m * INR (fact i) / INR (fact j) else 0.
Proof.
  revert i j. induction m as [|m IH]; intros i j Hi Hj; simpl mpow.
  - unfold Identity. rewrite A_rows, coeff_tabulate by auto.
    rewrite Nat.add_0_r. destruct (Nat.eqb_spec i j) as [->|]; [|reflexivity].
    simpl. field. apply INR_fact_neq_0.
  - unfold mmul. rewrite A_rows, A_cols.
    rewrite coeff_tabulate; [|auto|now rewrite (proj2 (mpow_shape m))].
    destruct i as [|i].
    + rewrite sum_n_zero.
      * destruct (Nat.eqb_spec 0 (j + S m)); [lia|reflexivity].
      * intros k Hk. rewrite A_coeff by auto. unfold subdiag_coeff. simpl. lra.
    + rewrite (sum_n_single _ n i); [|lia|].
      * rewrite A_coeff, IH by lia. unfold subdiag_coeff.
        rewrite Nat.eqb_refl.
        destruct (Nat.eqb_spec i (j + m)) as [E|E];
          destruct (Nat.eqb_spec (S i) (j + S m)) as [E'|E']; try lia; [|lra].
        rewrite fact_simpl, mult_INR. simpl pow. field. apply INR_fact_neq_0.
      * intros k Hk Hne. rewrite A_coeff by auto. unfold subdiag_coeff.
        destruct (Nat.eqb_spec (S i) (S k)); [lia|lra].
Qed.

Lemma exp_series_shape m :
  rows (exp_series A m) = n /\ cols (exp_series A m) = n.
Proof.
  destruct m as [|m]; simpl.
  - unfold Zero. rewrite A_rows, rows_tabulate, cols_tabulate; auto.
  - assert (H : rows (exp_series A m) = n /\ cols (exp_series A m) = n).
    { induction m as [|m IH]; simpl.
      - unfold Zero. rewrite A_rows, rows_tabulate, cols_tabulate; auto.
      - unfold madd. destruct IH as [-> ->].
        rewrite rows_tabulate, cols_tabulate; auto. }
    unfold madd. destruct H as [-> ->].
    rewrite rows_tabulate, cols_tabulate; auto.
Qed.

Lemma coeff_exp_series m i j :
  (i < n)%nat -> (j < n)%nat ->
  coeff (exp_series A m) i j =
  if Nat.leb j i && Nat.ltb (i - j) m then (-1) ^ (i - j) * C i j else 0.
Proof.
  intros Hi Hj. induction m as [|m IH]; simpl exp_series.
  - unfold Zero. rewrite A_rows, coeff_tabulate by auto.
    now rewrite andb_false_r.
  - unfold madd. destruct (exp_series_shape m) as [-> ->].
    rewrite coeff_tabulate by auto. rewrite IH.
    unfold mscale. destruct (mpow_shape m) as [-> ->].
    rewrite coeff_tabulate, coeff_mpow by auto.
    destruct (Nat.leb_spec j i) as [Hle|Hgt]; simpl andb.
    + destruct (Nat.ltb_spec (i - j) m) as [H1|H1];
        destruct (Nat.ltb_spec (i - j) (S m)) as [H2|H2]; try lia;
        destruct (Nat.eqb_spec i (j + m)) as [E|E]; try lia; try lra.
      replace (i - j)%nat with m by lia. unfold C.
      replace (i - j)%nat with m by lia. field.
      split; apply INR_fact_neq_0.
    + destruct (Nat.eqb_spec i (j + m)) as [E|E]; [lia|lra].
Qed.

Lemma coeff_exp i j :
  (i < n)%nat -> (j < n)%nat ->
  coeff (Eigen.exp A) i j = if Nat.leb j i then (-1) ^ (i - j) * C i j else 0.
Proof.
  intros Hi Hj. unfold Eigen.exp. rewrite A_rows, coeff_exp_series by auto.
  destruct (Nat.leb j i); [|reflexivity].
  destruct (Nat.ltb_spec (i - j) n); [reflexivity|lia].
Qed.

End NilpotentExp.


Lemma subdiag_shape n v :
  (0 < n)%nat ->
  rows (set_subdiagonal v (Zero n n)) = n /\
  cols (set_subdiagonal v (Zero n n)) = n.
Proof.
  intros Hn. unfold set_subdiagonal, Zero.
  rewrite rows_tabulate. rewrite cols_tabulate by (rewrite rows_tabulate; lia).
  rewrite rows_tabulate, cols_tabulate by lia. auto.
Qed.

(** [bernsteinCoeffs(n)] holds the coefficients of the Bernstein polynomials
    in the monomial basis. *)
Lemma bernsteinCoeffs_shape n : well_shaped n n (Bezier.bernsteinCoeffs n).
Proof.
  unfold Bezier.bernsteinCoeffs. destruct (Nat.eq_dec n 0) as [->|Hn].
  - split; [reflexivity|constructor].
  - set (A := set_subdiagonal _ _).
    assert (HA : rows A = n /\ cols A = n) by (apply subdiag_shape; lia).
    destruct HA as [Hr Hc].
    assert (Hs : rows (Eigen.exp A) = n /\ cols (Eigen.exp A) = n).
    { unfold Eigen.exp. rewrite Hr. apply exp_series_shape; auto; lia. }
    destruct Hs as [-> ->].
    apply well_shaped_tabulate.
Qed.

Lemma coeff_bernsteinCoeffs n k j :
  (k < n)%nat -> (j < n)%nat ->
  coeff (Bezier.bernsteinCoeffs n) k j =
  if Nat.leb j k then (-1) ^ (k - j) * C k j * C (n - 1) k else 0.
Proof.
  intros Hk Hj. unfold Bezier.bernsteinCoeffs.
  set (A := set_subdiagonal _ _).
  assert (HA : rows A = n /\ cols A = n) by (apply subdiag_shape; lia).
  destruct HA as [Hr Hc].
  assert (Hco : forall i j, (i < n)%nat -> (j < n)%nat ->
                            coeff A i j = subdiag_coeff i j).
  { intros. now apply coeff_subdiag. }
  assert (Hs : rows (Eigen.exp A) = n /\ cols (Eigen.exp A) = n).
  { unfold Eigen.exp. rewrite Hr. apply exp_series_shape; auto; lia. }
  destruct Hs as [-> ->].
  rewrite coeff_tabulate by auto.
  rewrite (coeff_exp n A) by (auto; lia).
  unfold Bezier.binomial, Bezier.factorial, C. destruct (Nat.leb j k); lra.
Qed.

(** ** Evaluation: the monomial form is the Bernstein form *)

Section Evaluation.

Lemma C_product (n j m : nat) :
  (j + m <= n)%nat -> C (j + m) j * C n (j + m) = C n j * C (n - j) m.
Proof.
  intros H. unfold C.
  replace (j + m - j)%nat with m by lia.
  replace (n - j - m)%nat with (n - (j + m))%nat by lia.
  field. repeat split; apply INR_fact_neq_0.
Qed.

Lemma bernstein_column (n j : nat) (t : R) :
  (j < n)%nat ->
  sum_n (fun k => t ^ k * coeff (Bezier.bernsteinCoeffs n) k j) n =
  bernstein (n - 1) j t.
Proof.
  intros Hj.
  rewrite (sum_n_ext _ (fun k => if Nat.leb j k
                                 then t ^ k * ((-1) ^ (k - j) * C k j * C (n - 1) k)
                                 else 0)).
  2:{ intros k Hk. rewrite coeff_bernsteinCoeffs by auto.
      destruct (Nat.leb j k); lra. }
  replace n with (j + (n - j))%nat at 1 by lia.
  rewrite sum_n_app. rewrite sum_n_zero.
  2:{ intros k Hk. destruct (Nat.leb_spec j k); [lia|reflexivity]. }
  unfold bernstein.
  replace (1 - t) with (- t + 1) by lra. rewrite binomial.
  rewrite <- sum_n_sum_f_R0. replace (S (n - 1 - j)) with (n - j)%nat by lia.
  rewrite Rplus_0_l, Rmult_comm, (Rmult_comm (C (n - 1) j)).
  rewrite <- sum_n_scal_r, <- sum_n_scal. apply sum_n_ext. intros m Hm.
  replace (j <=? j + m)%nat with true by (symmetry; apply Nat.leb_le; lia).
  replace (j + m - j)%nat with m by lia.
  rewrite pow_add, pow1.
  replace (- t) with (-1 * t) by lra. rewrite Rpow_mult_distr.
  transitivity (t ^ j * t ^ m * (-1) ^ m * (C (j + m) j * C (n - 1) (j + m)));
    [ring|].
  rewrite C_product by lia. ring.
Qed.

Lemma length_vec_mat v B : length (vec_mat v B) = cols B.
Proof. unfold vec_mat. now rewrite length_map, length_seq. Qed.

Lemma cols_bernsteinCoeffs n : (0 < n)%nat -> cols (Bezier.bernsteinCoeffs n) = n.
Proof.
  intros Hn. destruct (bernsteinCoeffs_shape n) as [Hr Hc].
  unfold cols. unfold rows in Hr.
  destruct (Bezier.bernsteinCoeffs n) as [|row rest]; [simpl in Hr; lia|].
  simpl. now inversion Hc.
Qed.

Lemma valueAt_bernstein (c : Bezier.Curve) (t : R) :
  Bezier.N_ c = rows (Bezier.control_points_ c) -> (0 < Bezier.N_ c)%nat ->
  Bezier.valueAt c t = bezier_reference (Bezier.control_points_ c) t.
Proof.
  intros Hinv Hpos. unfold Bezier.valueAt.
  destruct (Nat.eqb_spec (Bezier.N_ c) 0) as [E|_]; [lia|].
  set (n := Bezier.N_ c) in *. unfold rows in Hinv.
  unfold vec_mat2, bezier_reference. rewrite length_vec_mat, cols_bernsteinCoeffs by auto.
  rewrite <- Hinv.
  assert (Hw : forall k, (k < n)%nat ->
            vcoeff (vec_mat (pow_array t (LinSpaced n 0 (n - 1)))
                            (Bezier.bernsteinCoeffs n)) k = bernstein (n - 1) k t).
  { intros k Hk. unfold vec_mat. rewrite cols_bernsteinCoeffs by auto.
    unfold vcoeff at 1. rewrite nth_map_seq by auto.
    unfold pow_array. rewrite LinSpaced_0, length_map, length_seq.
    rewrite <- (bernstein_column n k t Hk). apply sum_n_ext. intros i Hi.
    now rewrite (vcoeff_map_seq (fun k => t ^ k) 0 n i Hi). }
  f_equal; apply sum_n_ext; intros k Hk; now rewrite Hw.
Qed.

End Evaluation.

(** ** Order elevation *)

Section Elevation.

Lemma elevateOrderCoeffs_shape n :
  well_shaped (n + 1) n (Bezier.elevateOrderCoeffs n).
Proof.
  unfold Bezier.elevateOrderCoeffs, set_subdiagonal, set_diagonal, Zero.
  rewrite !rows_tabulate. rewrite !cols_tabulate by (try rewrite rows_tabulate; lia).
  apply well_shaped_tabulate.
Qed.

Lemma cols_elevateOrderCoeffs n : cols (Bezier.elevateOrderCoeffs n) = n.
Proof.
  unfold Bezier.elevateOrderCoeffs, set_subdiagonal, set_diagonal, Zero.
  rewrite !rows_tabulate. rewrite !cols_tabulate by (try rewrite rows_tabulate; lia).
  reflexivity.
Qed.

Lemma coeff_elevateOrderCoeffs n i j :
  (i < n + 1)%nat -> (j < n)%nat ->
  coeff (Bezier.elevateOrderCoeffs n) i j =
  if Nat.eqb i (S j) then INR (j + 1) / INR n
  else if Nat.eqb i j then 1 - INR j / INR n
  else 0.
Proof.
  intros Hi Hj. unfold Bezier.elevateOrderCoeffs, set_subdiagonal, set_diagonal, Zero.
  rewrite !rows_tabulate. rewrite !cols_tabulate by (try rewrite rows_tabulate; lia).
  rewrite coeff_tabulate by auto.
  destruct (Nat.eqb_spec i (S j)) as [E|E].
  - rewrite LinSpaced_1, vcoeff_map_seq by auto.
    replace (1 + j)%nat with (j + 1)%nat by lia. reflexivity.
  - rewrite coeff_tabulate by auto.
    destruct (Nat.eqb_spec i j) as [E'|E'].
    + rewrite LinSpaced_0, vcoeff_map_seq by auto. reflexivity.
    + now rewrite coeff_tabulate.
Qed.

Lemma C_lower_left n k :
  (k < n)%nat -> C n k * (1 - INR k / INR n) = C (n - 1) k.
Proof.
  intros Hk. unfold C.
  replace (n - k)%nat with (S (n - 1 - k)) by lia.
  replace n with (S (n - 1)) at 1 2 by lia.
  rewrite !fact_simpl, !mult_INR.
  replace (S (n - 1)) with n by lia.
  replace (INR (S (n - 1 - k))) with (INR n - INR k).
  2:{ rewrite <- minus_INR by lia. f_equal. lia. }
  assert (INR n - INR k <> 0).
  { rewrite <- minus_INR by lia. apply not_0_INR. lia. }
  field. repeat split; auto using INR_fact_neq_0. apply not_0_INR. lia.
Qed.

Lemma C_lower_right n k :
  (k < n)%nat -> C n (k + 1) * (INR (k + 1) / INR n) = C (n - 1) k.
Proof.
  intros Hk. unfold C.
  replace (n - (k + 1))%nat with (n - 1 - k)%nat by lia.
  replace n with (S (n - 1)) at 1 by lia.
  replace (k + 1)%nat with (S k) by lia.
  rewrite !fact_simpl, !mult_INR.
  replace (S (n - 1)) with n by lia.
  field. repeat split; auto using INR_fact_neq_0; apply not_0_INR; lia.
Qed.

Lemma bernstein_elevate n k t :
  (k < n)%nat ->
  bernstein n k t * (1 - INR k / INR n)
  + bernstein n (k + 1) t * (INR (k + 1) / INR n) = bernstein (n - 1) k t.
Proof.
  intros Hk. unfold bernstein.
  transitivity ((C n k * (1 - INR k / INR n)) * ((1 - t) ^ (n - k) * t ^ k)
                + (C n (k + 1) * (INR (k + 1) / INR n))
                  * ((1 - t) ^ (n - (k + 1)) * t ^ (k + 1))); [ring|].
  rewrite C_lower_left, C_lower_right by auto.
  replace (n - k)%nat with (S (n - 1 - k)) by lia.
  replace (n - (k + 1))%nat with (n - 1 - k)%nat by lia.
  rewrite pow_add. simpl pow. ring.
Qed.

Lemma sum_n_two (f : nat -> R) (n k : nat) :
  (k + 1 < n)%nat ->
  (forall i, (i < n)%nat -> i <> k -> i <> (k + 1)%nat -> f i = 0) ->
  sum_n f n = f k + f (k + 1)%nat.
Proof.
  intros Hk H.
  rewrite (sum_n_ext f (fun i => (if Nat.eqb i k then f i else 0)
                                 + (if Nat.eqb i (k + 1) then f i else 0))).
  - rewrite sum_n_plus.
    rewrite (sum_n_single _ n k), (sum_n_single _ n (k + 1)); try lia.
    + rewrite !Nat.eqb_refl. reflexivity.
    + intros i _ Hne. destruct (Nat.eqb_spec i (k + 1)); [lia|reflexivity].
    + intros i _ Hne. destruct (Nat.eqb_spec i k); [lia|reflexivity].
  - intros i Hi.
    destruct (Nat.eqb_spec i k) as [E1|E1];
      destruct (Nat.eqb_spec i (k + 1)) as [E2|E2]; try lia; try lra.
    rewrite H by auto. lra.
Qed.

Lemma length_mmul2 A P : length (mmul2 A P) = rows A.
Proof. unfold mmul2. now rewrite length_map, length_seq. Qed.

Lemma row2_mmul2 A P i :
  (i < rows A)%nat ->
  row2 (mmul2 A P) i =
  (sum_n (fun k => coeff A i k * fst (row2 P k)) (cols A),
   sum_n (fun k => coeff A i k * snd (row2 P k)) (cols A)).
Proof.
  intros Hi. unfold row2 at 1, mmul2.
  now rewrite (nth_map_seq
    (fun i => (sum_n (fun k => coeff A i k * fst (row2 P k)) (cols A),
               sum_n (fun k => coeff A i k * snd (row2 P k)) (cols A)))).
Qed.

Lemma elevate_sum (n : nat) (t : R) (x : nat -> R) :
  (0 < n)%nat ->
  sum_n (fun i => bernstein n i t
                  * sum_n (fun k => coeff (Bezier.elevateOrderCoeffs n) i k * x k) n)
        (n + 1)
  = sum_n (fun k => bernstein (n - 1) k t * x k) n.
Proof.
  intros Hn.
  rewrite (sum_n_ext _ (fun i => sum_n (fun k =>
             bernstein n i t * coeff (Bezier.elevateOrderCoeffs n) i k * x k) n)).
  2:{ intros i _. rewrite <- sum_n_scal. apply sum_n_ext. intros; ring. }
  rewrite sum_n_swap. apply sum_n_ext. intros k Hk.
  rewrite (sum_n_two _ (n + 1) k); [|lia|].
  - rewrite !coeff_elevateOrderCoeffs by lia.
    replace (k =? S k)%nat with false by (symmetry; apply Nat.eqb_neq; lia).
    rewrite Nat.eqb_refl.
    replace (k + 1 =? S k)%nat with true by (symmetry; apply Nat.eqb_eq; lia).
    rewrite <- (bernstein_elevate n k t Hk). ring.
  - intros i Hi H1 H2. rewrite coeff_elevateOrderCoeffs by lia.
    destruct (Nat.eqb_spec i (S k)); [lia|].
    destruct (Nat.eqb_spec i k); [lia|]. ring.
Qed.

Lemma bezier_reference_elevate (P : MatrixX2d) (t : R) :
  (0 < length P)%nat ->
  bezier_reference (mmul2 (Bezier.elevateOrderCoeffs (length P)) P) t
  = bezier_reference P t.
Proof.
  intros Hn. unfold bezier_reference.
  destruct (elevateOrderCoeffs_shape (length P)) as [Hr _].
  rewrite length_mmul2, Hr.
  replace (length P + 1 - 1)%nat with (length P) by lia.
  f_equal.
  - rewrite <- (elevate_sum (length P) t (fun k => fst (row2 P k)) Hn).
    apply sum_n_ext. intros i Hi.
    rewrite row2_mmul2 by (rewrite Hr; lia).
    now rewrite cols_elevateOrderCoeffs.
  - rewrite <- (elevate_sum (length P) t (fun k => snd (row2 P k)) Hn).
    apply sum_n_ext. intros i Hi.
    rewrite row2_mmul2 by (rewrite Hr; lia).
    now rewrite cols_elevateOrderCoeffs.
Qed.

End Elevation.

(** ** Member functions and the cache *)

Section CacheFacts.

Import Bezier.

Lemma cache_ok_N c : cache_ok c -> N_ c = rows (control_points_ c).
Proof. destruct c; simpl; tauto. Qed.

Lemma cache_ok_new_Curve P : cache_ok (new_Curve P).
Proof. simpl. auto. Qed.

Lemma cache_ok_resetCache c : cache_ok (resetCache c).
Proof. simpl. auto. Qed.

Lemma valueAt_curve_value c t :
  N_ c = rows (control_points_ c) ->
  valueAt c t = curve_value (control_points_ c) t.
Proof. intros H. unfold curve_value, valueAt. simpl. now rewrite H. Qed.

Lemma new_derivative_cp c :
  N_ c = rows (control_points_ c) ->
  control_points_ (new_derivative c) = derivative_cp (control_points_ c).
Proof.
  intros H. unfold derivative_cp, new_derivative, derivative_points. simpl.
  now rewrite H.
Qed.

Lemma cache_ok_new_derivative c : cache_ok (new_derivative c).
Proof. unfold new_derivative. destruct (N_ c =? 1)%nat; apply cache_ok_new_Curve. Qed.

Lemma cache_ok_set_derivative c d :
  cache_ok c -> cache_ok d ->
  control_points_ d = control_points_ (new_derivative c) ->
  cache_ok (set_cached_derivative c (Some d)).
Proof.
  intros Hc Hd E. pose proof (cache_ok_N c Hc) as HN.
  destruct c; simpl in *. repeat split; auto.
Qed.

Lemma computes_ret {A} (a : A) : computes (ret a) (fun _ => Returns a).
Proof. intros c Hc. exists c. auto. Qed.

Lemma computes_out_of_fuel {A} : computes (@out_of_fuel A) (fun _ => OutOfFuel).
Proof. intros c Hc. exists c. auto. Qed.

Lemma computes_valueAt t :
  computes (gets (fun d => valueAt d t)) (fun P => Returns (curve_value P t)).
Proof.
  intros c Hc. exists c. unfold gets.
  rewrite valueAt_curve_value by now apply cache_ok_N. auto.
Qed.

Lemma computes_bind {A B} (m : M A) (k : A -> M B) f g :
  computes m f -> (forall a, computes (k a) (g a)) ->
  computes (bind m k) (fun P => obind (f P) (fun a => g a P)).
Proof.
  intros Hm Hk c Hc. destruct (Hm c Hc) as (c1 & E1 & Hc1 & P1).
  unfold bind. rewrite E1.
  destruct (f (control_points_ c)) as [a| |]; simpl.
  - destruct (Hk a c1 Hc1) as (c2 & E2 & Hc2 & P2).
    exists c2. rewrite E2, P1. repeat split; auto. congruence.
  - exists c1. auto.
  - exists c1. auto.
Qed.

Lemma computes_ext {A} (m : M A) f g :
  computes m f -> (forall P, f P = g P) -> computes m g.
Proof.
  intros Hm E c Hc. destruct (Hm c Hc) as (c1 & E1 & H1).
  exists c1. now rewrite <- E.
Qed.

Lemma computes_on_derivative {A} (m : M A) f :
  computes m f -> computes (on_derivative m) (fun P => f (derivative_cp P)).
Proof.
  intros Hm c Hc. pose proof (cache_ok_N c Hc) as HN.
  unfold on_derivative, bind, derivative.
  destruct (cached_derivative_ c) as [d|] eqn:Ed.
  - assert (Hd : control_points_ d = control_points_ (new_derivative c)
                 /\ cache_ok d).
    { destruct c; simpl in *. subst. tauto. }
    destruct Hd as [Pd Hd].
    destruct (Hm d Hd) as (d' & E' & Hd' & Pd'). rewrite E'.
    exists (set_cached_derivative c (Some d')).
    rewrite Pd, new_derivative_cp by auto.
    split; [reflexivity|split; [|reflexivity]].
    apply cache_ok_set_derivative; auto. congruence.
  - pose proof (cache_ok_new_derivative c) as Hd.
    destruct (Hm _ Hd) as (d' & E' & Hd' & Pd'). rewrite E'.
    exists (set_cached_derivative (set_cached_derivative c (Some (new_derivative c)))
                                  (Some d')).
    rewrite new_derivative_cp by auto.
    split; [reflexivity|split; [|reflexivity]].
    destruct c; simpl in *. split; [tauto|]. split; [exact Pd'|exact Hd'].
Qed.

Lemma computes_on_nth_derivative {A} (m : M A) f n :
  computes m f ->
  computes (on_nth_derivative n m) (fun P => f (Nat.iter n derivative_cp P)).
Proof.
  intros Hm. induction n as [|n IH]; simpl on_nth_derivative.
  - exact Hm.
  - apply computes_on_derivative in IH.
    eapply computes_ext; [exact IH|]. intros P. simpl.
    f_equal. clear. induction n as [|n IH]; simpl; [reflexivity|now rewrite IH].
Qed.

Lemma computes_derivativeAt t :
  computes (derivativeAt t)
           (fun P => Returns (curve_value (derivative_cp P) t)).
Proof.
  unfold derivativeAt.
  exact (computes_on_derivative _ _ (computes_valueAt t)).
Qed.

Lemma computes_derivativeAt_2 t :
  computes (derivativeAt_n 2 t)
           (fun P => Returns (curve_value (derivative_cp (derivative_cp P)) t)).
Proof.
  unfold derivativeAt_n, on_derivative_n. simpl Nat.eqb. cbv iota.
  exact (computes_on_nth_derivative _ _ 2 (computes_valueAt t)).
Qed.

End CacheFacts.

(** ** Arc length and the Halley loop *)

Section LengthFacts.

Import Bezier.

Variable lg : LegendreGauss.table.

Lemma computes_length_sum ks t1 t2 :
  forall sum,
    computes (length_sum lg ks t1 t2 sum)
      (fun P => Returns
         (fold_left
            (fun acc k =>
               acc + vcoeff (LegendreGauss.weights lg) k
                     * speed P (vcoeff (LegendreGauss.abcissae lg) k * (t2 - t1) / 2
                                + (t1 + t2) / 2))
            ks sum)).
Proof.
  induction ks as [|k ks IH]; intros sum; simpl length_sum.
  - exact (computes_ret sum).
  - eapply computes_ext.
    + apply computes_bind; [apply computes_derivativeAt|].
      intros d. apply IH.
    + intros P. reflexivity.
Qed.

Lemma fold_left_seq_sum_n (g : nat -> R) (n : nat) (a : R) :
  fold_left (fun acc k => acc + g k) (seq 0 n) a = a + sum_n g n.
Proof.
  induction n as [|n IH]; simpl sum_n.
  - simpl. lra.
  - rewrite seq_S, fold_left_app, IH. simpl. lra.
Qed.

Lemma computes_length_t1_t2 t1 t2 :
  computes (length_t1_t2 lg t1 t2) (fun P => Returns (arc_length lg P t1 t2)).
Proof.
  unfold length_t1_t2. eapply computes_ext.
  - apply computes_bind; [apply computes_length_sum|].
    intros sum. apply computes_ret.
  - intros P. simpl. unfold arc_length.
    rewrite (fold_left_seq_sum_n
      (fun k => vcoeff (LegendreGauss.weights lg) k
                * speed P (vcoeff (LegendreGauss.abcissae lg) k * (t2 - t1) / 2
                           + (t1 + t2) / 2))).
    now rewrite Rplus_0_l.
Qed.

Lemma computes_length_t t :
  computes (length_t lg t) (fun P => Returns (arc_length lg P 0 t)).
Proof. apply computes_length_t1_t2. Qed.

Lemma computes_length_curve :
  computes (length_curve lg) (fun P => Returns (arc_length lg P 0 1)).
Proof. apply computes_length_t1_t2. Qed.

Lemma Rltb_true x y : x < y -> Rltb x y = true.
Proof. intros H. unfold Rltb. destruct (Rlt_dec x y); [reflexivity|contradiction]. Qed.

Lemma Rltb_false x y : ~ x < y -> Rltb x y = false.
Proof. intros H. unfold Rltb. destruct (Rlt_dec x y); [contradiction|reflexivity]. Qed.

(** One round of the loop: the body maps [t] to [halley_step t]. *)
Lemma while_unfold fuel (P : MatrixX2d) t0 s epsilon t c :
  cache_ok c -> control_points_ c = P ->
  epsilon < Rabs (halley_f lg P t0 s t) ->
  exists c',
    iterateByLength_while lg (S fuel) (arc_length lg P 0 t0) s epsilon t
      (halley_f lg P t0 s t) c
    = iterateByLength_while lg fuel (arc_length lg P 0 t0) s epsilon
        (halley_step lg P t0 s t)
        (halley_f lg P t0 s (halley_step lg P t0 s t)) c'
    /\ cache_ok c' /\ control_points_ c' = P.
Proof.
  intros Hc HP Hgt. simpl iterateByLength_while.
  rewrite (Rltb_true _ _ Hgt).
  destruct (computes_derivativeAt t c Hc) as (c1 & E1 & Hc1 & P1).
  destruct (computes_derivativeAt_2 t c1 Hc1) as (c2 & E2 & Hc2 & P2).
  set (t' := halley_step lg P t0 s t).
  destruct (computes_length_t t' c2 Hc2) as (c3 & E3 & Hc3 & P3).
  exists c3. unfold bind at 1. rewrite E1.
  unfold bind at 1. rewrite E2.
  rewrite P1, HP.
  change (t - 2 * halley_f lg P t0 s t * norm (curve_value (derivative_cp P) t)
              / (2 * norm (curve_value (derivative_cp P) t)
                 * norm (curve_value (derivative_cp P) t)
                 - halley_f lg P t0 s t
                   * norm (curve_value (derivative_cp (derivative_cp P)) t)))
    with t'.
  unfold bind at 1. rewrite E3. rewrite P2, P1, HP.
  split; [reflexivity|]. split; [assumption|congruence].
Qed.

Lemma while_returns (P : MatrixX2d) t0 s epsilon d :
  forall fuel j c,
    cache_ok c -> control_points_ c = P -> (d <= fuel)%nat ->
    (forall i, (j <= i < j + d)%nat ->
               epsilon < Rabs (halley_f lg P t0 s (halley_iterate lg P t0 s i))) ->
    Rabs (halley_f lg P t0 s (halley_iterate lg P t0 s (j + d))) <= epsilon ->
    exists c',
      iterateByLength_while lg fuel (arc_length lg P 0 t0) s epsilon
        (halley_iterate lg P t0 s j)
        (halley_f lg P t0 s (halley_iterate lg P t0 s j)) c
      = (Returns (halley_iterate lg P t0 s (j + d)), c')
      /\ cache_ok c' /\ control_points_ c' = P.
Proof.
  induction d as [|d IH]; intros fuel j c Hc HP Hfuel Hbig Hend.
  - rewrite Nat.add_0_r in *. exists c.
    assert (E : Rltb epsilon (Rabs (halley_f lg P t0 s (halley_iterate lg P t0 s j)))
                = false) by (apply Rltb_false; lra).
    destruct fuel; simpl; rewrite E; auto.
  - destruct fuel as [|fuel]; [lia|].
    destruct (while_unfold fuel P t0 s epsilon (halley_iterate lg P t0 s j) c Hc HP)
      as (c1 & E1 & Hc1 & P1); [apply Hbig; lia|].
    rewrite E1. change (halley_step lg P t0 s (halley_iterate lg P t0 s j))
      with (halley_iterate lg P t0 s (S j)).
    replace (j + S d)%nat with (S j + d)%nat in * by lia.
    apply IH; auto; [lia|]. intros i Hi. apply Hbig. lia.
Qed.

Lemma while_out_of_fuel (P : MatrixX2d) t0 s epsilon :
  forall fuel j c,
    cache_ok c -> control_points_ c = P ->
    (forall i, (j <= i <= j + fuel)%nat ->
               epsilon < Rabs (halley_f lg P t0 s (halley_iterate lg P t0 s i))) ->
    fst (iterateByLength_while lg fuel (arc_length lg P 0 t0) s epsilon
           (halley_iterate lg P t0 s j)
           (halley_f lg P t0 s (halley_iterate lg P t0 s j)) c)
    = OutOfFuel.
Proof.
  induction fuel as [|fuel IH]; intros j c Hc HP Hbig.
  - simpl. rewrite Rltb_true by (apply Hbig; lia). reflexivity.
  - destruct (while_unfold fuel P t0 s epsilon (halley_iterate lg P t0 s j) c Hc HP)
      as (c1 & E1 & Hc1 & P1); [apply Hbig; lia|].
    rewrite E1. change (halley_step lg P t0 s (halley_iterate lg P t0 s j))
      with (halley_iterate lg P t0 s (S j)).
    apply IH; auto. intros i Hi. apply Hbig. lia.
Qed.

(** [iterateByLength] clamps, or enters the loop at [t0] with [f = -s]. *)
Lemma iterateByLength_cases fuel t0 s epsilon c :
  cache_ok c ->
  let P := control_points_ c in
  exists c',
    cache_ok c' /\ control_points_ c' = P /\
    ((arc_length lg P 0 t0 + s < 0 /\
      iterateByLength lg fuel t0 s epsilon c = (Returns 0, c')) \/
     (~ arc_length lg P 0 t0 + s < 0 /\
      arc_length lg P 0 1 < arc_length lg P 0 t0 + s /\
      iterateByLength lg fuel t0 s epsilon c = (Returns 1, c')) \/
     (~ arc_length lg P 0 t0 + s < 0 /\
      ~ arc_length lg P 0 1 < arc_length lg P 0 t0 + s /\
      iterateByLength lg fuel t0 s epsilon c
      = iterateByLength_while lg fuel (arc_length lg P 0 t0) s epsilon t0
          (halley_f lg P t0 s t0) c')).
Proof.
  intros Hc P.
  destruct (computes_length_t t0 c Hc) as (c1 & E1 & Hc1 & P1).
  fold P in E1, P1.
  destruct (computes_length_curve c1 Hc1) as (c2 & E2 & Hc2 & P2).
  rewrite P1 in E2, P2.
  destruct (Rlt_dec (arc_length lg P 0 t0 + s) 0) as [Hu|Hu].
  - exists c1. split; [auto|]. split; [auto|]. left. split; [auto|].
    unfold iterateByLength, bind. now rewrite E1, (Rltb_true _ _ Hu).
  - exists c2. split; [auto|]. split; [auto|]. right.
    destruct (Rlt_dec (arc_length lg P 0 1) (arc_length lg P 0 t0 + s)) as [Ho|Ho].
    + left. split; [auto|]. split; [auto|].
      unfold iterateByLength, bind.
      now rewrite E1, (Rltb_false _ _ Hu), E2, (Rltb_true _ _ Ho).
    + right. split; [auto|]. split; [auto|].
      unfold iterateByLength, bind.
      rewrite E1, (Rltb_false _ _ Hu), E2, (Rltb_false _ _ Ho).
      unfold halley_f.
      replace (arc_length lg P 0 t0 - arc_length lg P 0 t0 - s) with (- s) by lra.
      reflexivity.
Qed.

End LengthFacts.

(** ** Roots *)

Section RootsFacts.

Import Bezier.

Lemma Rleb_true x y : x <= y -> Rleb x y = true.
Proof. intros H. unfold Rleb. destruct (Rle_dec x y); [reflexivity|contradiction]. Qed.

Lemma Rleb_false x y : ~ x <= y -> Rleb x y = false.
Proof. intros H. unfold Rleb. destruct (Rle_dec x y); [contradiction|reflexivity]. Qed.

Lemma Reqb_true x y : x = y -> Reqb x y = true.
Proof. intros H. unfold Reqb. destruct (Req_dec_T x y); [reflexivity|contradiction]. Qed.

Lemma Reqb_false x y : x <> y -> Reqb x y = false.
Proof. intros H. unfold Reqb. destruct (Req_dec_T x y); [contradiction|reflexivity]. Qed.

Lemma in_unit_interval_spec t : in_unit_interval t = true <-> 0 <= t <= 1.
Proof.
  unfold in_unit_interval, Rleb.
  destruct (Rle_dec 0 t), (Rle_dec t 1); simpl; split; intros H;
    try discriminate; try lra; reflexivity.
Qed.

Lemma firstn_succ_vcoeff (v : VectorXd) (i : nat) :
  (i < length v)%nat -> firstn (S i) v = firstn i v ++ [vcoeff v i].
Proof.
  revert i. induction v as [|x v IH]; intros i Hi; simpl in Hi; [lia|].
  destruct i as [|i]; [reflexivity|].
  change (firstn (S (S i)) (x :: v)) with (x :: firstn (S i) v).
  rewrite IH by lia. reflexivity.
Qed.

Lemma repeat_snoc {A} (x : A) k : repeat x k ++ [x] = repeat x (S k).
Proof. induction k as [|k IH]; simpl; [reflexivity|now rewrite IH]. Qed.

Lemma trimZeroes_idx_spec (v : VectorXd) (idx : nat) :
  (idx <= length v)%nat ->
  exists k,
    firstn idx v = firstn (trimZeroes_idx v idx) v ++ repeat 0 k
    /\ last (firstn (trimZeroes_idx v idx) v) 1 <> 0.
Proof.
  induction idx as [|i IH]; intros Hle.
  - exists 0%nat. simpl. split; [reflexivity|lra].
  - simpl trimZeroes_idx. unfold Reqb.
    destruct (Req_dec_T (vcoeff v i) 0) as [E|E].
    + destruct IH as (k & Hk & Hlast); [lia|].
      exists (S k). split; [|exact Hlast].
      rewrite firstn_succ_vcoeff by lia.
      rewrite Hk at 1. rewrite E, <- app_assoc. f_equal. apply repeat_snoc.
    + exists 0%nat. rewrite app_nil_r. split; [reflexivity|].
      rewrite firstn_succ_vcoeff by lia. now rewrite last_last.
Qed.

(** [trimZeroes] removes zeros at the end, and only those. *)
Lemma trimZeroes_spec (v : VectorXd) :
  exists k, v = trimZeroes v ++ repeat 0 k /\ last (trimZeroes v) 1 <> 0.
Proof.
  destruct (trimZeroes_idx_spec v (length v)) as (k & Hk & Hlast); [lia|].
  exists k. rewrite firstn_all in Hk. auto.
Qed.

Lemma rows_bernsteinCoeffs n : rows (bernsteinCoeffs n) = n.
Proof. apply (proj1 (bernsteinCoeffs_shape n)). Qed.

Lemma length_trimZeroes v : (length (trimZeroes v) <= length v)%nat.
Proof. unfold trimZeroes. rewrite length_firstn. lia. Qed.

Lemma column_roots_short realRoots (v : VectorXd) :
  (length v <= 1)%nat -> column_roots realRoots v = [].
Proof.
  intros H. unfold column_roots. pose proof (length_trimZeroes v).
  destruct (Nat.ltb_spec 1 (length (trimZeroes v))); [lia|reflexivity].
Qed.

Lemma new_roots_eq realRoots (c : Curve) :
  new_roots realRoots c
  = filter in_unit_interval
      (column_roots realRoots
         (col0 (mmul2 (bernsteinCoeffs (N_ c)) (control_points_ c))))
    ++ filter in_unit_interval
         (column_roots realRoots
            (col1 (mmul2 (bernsteinCoeffs (N_ c)) (control_points_ c)))).
Proof.
  unfold new_roots. destruct (Nat.ltb_spec 1 (N_ c)) as [H|H]; [reflexivity|].
  rewrite !column_roots_short; [reflexivity| |];
    unfold col0, col1; rewrite length_map, length_mmul2, rows_bernsteinCoeffs; lia.
Qed.

End RootsFacts.

Section SmallMatrices.
Import Bezier.

Lemma bernsteinCoeffs_2 : bernsteinCoeffs 2 = [[1; 0]; [-1; 1]].
Proof.
  apply (matrix_ext 2 2).
  - apply bernsteinCoeffs_shape.
  - split; [reflexivity|]. repeat constructor.
  - intros i j Hi Hj. rewrite coeff_bernsteinCoeffs by auto.
    destruct i as [|[|i]]; destruct j as [|[|j]]; try lia;
      unfold C, coeff; simpl; field.
Qed.

End SmallMatrices.

(** Deciding comparisons between concrete numbers. *)
Ltac r_side := unfold vcoeff, coeff, row2; simpl; lra.
Ltac r_decide :=
  repeat match goal with
  | |- context [Reqb ?a ?b] =>
      first [ rewrite (Reqb_true a b) by r_side
            | rewrite (Reqb_false a b) by r_side ]
  | |- context [Rltb ?a ?b] =>
      first [ rewrite (Rltb_true a b) by r_side
            | rewrite (Rltb_false a b) by r_side ]
  | |- context [Rleb ?a ?b] =>
      first [ rewrite (Rleb_true a b) by r_side
            | rewrite (Rleb_false a b) by r_side ]
  end.

(** ** The Sturm isolator *)

Section SturmFacts.

Import Sturm.

Lemma iterate_discard sturm_chain root_type epsilon a b flag st :
  to_uint (interval sturm_chain a b) = 0%Z ->
  iterate sturm_chain root_type epsilon (a, b, flag) st = st.
Proof. intros H. unfold iterate. rewrite H. reflexivity. Qed.

Lemma iterate_emit sturm_chain root_type epsilon a b flag st :
  to_uint (interval sturm_chain a b) <> 0%Z ->
  (a + b) / 2 - a < epsilon ->
  iterate sturm_chain root_type epsilon (a, b, flag) st
  = (fst st, emplace_back (snd st) ((a + (a + b) / 2) / 2)).
Proof.
  intros HV Hw. unfold iterate.
  destruct (Z.eqb_spec (to_uint (interval sturm_chain a b)) 0) as [E|E];
    [contradiction|].
  rewrite (Rltb_true _ _ Hw). reflexivity.
Qed.

Lemma iterate_split sturm_chain root_type epsilon a b flag st :
  to_uint (interval sturm_chain a b) <> 0%Z ->
  ~ (a + b) / 2 - a < epsilon ->
  to_uint (interval sturm_chain a b) <> 1%Z \/ root_type = All \/ flag = true ->
  iterate sturm_chain root_type epsilon (a, b, flag) st
  = split_item a ((a + b) / 2) b flag st.
Proof.
  intros HV Hw Hc. unfold iterate.
  destruct (Z.eqb_spec (to_uint (interval sturm_chain a b)) 0) as [E|E];
    [contradiction|].
  rewrite (Rltb_false _ _ Hw). simpl andb. cbv iota.
  rewrite (proj2 (Z.eqb_neq _ _) E).
  destruct (Z.eqb_spec (to_uint (interval sturm_chain a b)) 1) as [E1|E1];
    [|reflexivity].
  destruct Hc as [Hc|[Hc|Hc]]; [contradiction| |].
  - subst root_type. reflexivity.
  - subst flag. now rewrite andb_false_r.
Qed.

(** The chain of a polynomial of degree one, [p0 * x + p1]. *)
Lemma chain_degree_one p0 p1 epsilon :
  chain [p0; p1] epsilon = [[p0; p1]; [0; p0]].
Proof.
  unfold chain. cbn.
  unfold coeff, vcoeff. cbn. repeat f_equal; ring.
Qed.

End SturmFacts.

(** ** Termination of the Sturm isolator *)

Section SturmTermination.

Import Sturm.

Variable sturm_chain : MatrixXd.
Variable root_type : Z.
Variable epsilon : R.
Hypothesis epsilon_pos : 0 < epsilon.

(** [iterate] leaves the stack as it is or pushes the two halves of its
    interval, and it pushes them only when the half width is not below
    epsilon. *)
Lemma iterate_stack a b flag st :
  let st' := iterate sturm_chain root_type epsilon (a, b, flag) st in
  fst st' = fst st \/
  (exists flag', fst st' = ((a + b) / 2, b, flag') :: (a, (a + b) / 2, flag') :: fst st)
  /\ ~ (a + b) / 2 - a < epsilon.
Proof.
  unfold iterate. set (V := to_uint (interval sturm_chain a b)).
  destruct (Rlt_dec ((a + b) / 2 - a) epsilon) as [Hw|Hw].
  - rewrite (Rltb_true _ _ Hw). left.
    destruct (Z.eqb_spec V 0) as [E|E]; simpl negb; simpl andb; cbv iota.
    + rewrite E. reflexivity.
    + reflexivity.
  - rewrite (Rltb_false _ _ Hw). rewrite andb_false_r.
    destruct (V =? 0)%Z; [now left|].
    destruct (V =? 1)%Z;
      [|right; split; [now exists flag|assumption]].
    destruct (negb (root_type =? All)%Z && negb flag);
      [|right; split; [now exists flag|assumption]].
    destruct (Z.land root_type All =? 0)%Z;
      [|right; split; [now exists flag|assumption]].
    match goal with
    | |- context [if negb ?f then _ else _] => destruct f
    end; simpl negb; cbv iota.
    + right. split; [eexists; reflexivity|assumption].
    + now left.
Qed.

Lemma sturm_weight_ge_1 item : wide epsilon item -> 1 <= sturm_weight epsilon item.
Proof.
  unfold wide, sturm_weight. intros H.
  assert (1 <= (snd (fst item) - fst (fst item)) / epsilon).
  { apply (Rmult_le_reg_r epsilon); [assumption|].
    unfold Rdiv. rewrite Rmult_assoc, Rinv_l by lra. lra. }
  unfold Rdiv in *. lra.
Qed.

Lemma sturm_potential_nonneg intervals :
  Forall (wide epsilon) intervals -> 0 <= sturm_potential epsilon intervals.
Proof.
  induction 1 as [|item l Hw _ IH]; simpl; [lra|].
  pose proof (sturm_weight_ge_1 item Hw). lra.
Qed.

(** A call of [iterate] on one half [(a, b)] of a popped interval adds at
    most twice the weight of a quarter of that interval to the potential. *)
Lemma iterate_potential a b flag st :
  Forall (wide epsilon) (fst st) -> 0 <= (4 * ((b - a) / 2) / epsilon - 1) / 3 ->
  let st' := iterate sturm_chain root_type epsilon (a, b, flag) st in
  Forall (wide epsilon) (fst st') /\
  sturm_potential epsilon (fst st')
  <= sturm_potential epsilon (fst st) + 2 * ((4 * ((b - a) / 2) / epsilon - 1) / 3).
Proof.
  intros Hwide Hpos st'.
  destruct (iterate_stack a b flag st) as [E|[[flag' E] Hw]]; fold st' in E.
  - rewrite E. split; [assumption|lra].
  - rewrite E. split.
    + constructor; [unfold wide; simpl; lra|].
      constructor; [unfold wide; simpl; lra|assumption].
    + simpl. unfold sturm_weight. simpl.
      replace (b - (a + b) / 2) with ((b - a) / 2) by field.
      replace ((a + b) / 2 - a) with ((b - a) / 2) by field.
      lra.
Qed.

Lemma roots_while_step fuel a b flag rest rs :
  roots_while (S fuel) sturm_chain root_type epsilon ((a, b, flag) :: rest, rs)
  = roots_while fuel sturm_chain root_type epsilon
      (iterate sturm_chain root_type epsilon ((a + b) / 2, b, flag)
         (iterate sturm_chain root_type epsilon (a, (a + b) / 2, flag)
            (rest, rs))).
Proof. reflexivity. Qed.

Lemma roots_while_terminates :
  forall fuel st,
    Forall (wide epsilon) (fst st) ->
    sturm_potential epsilon (fst st) <= INR fuel ->
    exists r, roots_while fuel sturm_chain root_type epsilon st = Returns r.
Proof.
  induction fuel as [|fuel IH]; intros [intervals rs] Hwide Hpot;
    simpl fst in *.
  - destruct intervals as [|[[a b] flag] rest].
    + exists rs. reflexivity.
    + exfalso. inversion Hwide as [|x l Hw Hrest]; subst.
      pose proof (sturm_weight_ge_1 _ Hw).
      pose proof (sturm_potential_nonneg _ Hrest).
      simpl in Hpot. lra.
  - destruct intervals as [|[[a b] flag] rest].
    + exists rs. reflexivity.
    + inversion Hwide as [|x l Hw Hrest]; subst.
      unfold wide in Hw. simpl in Hw.
      assert (Hq : 0 <= (4 * (((a + b) / 2 - a) / 2) / epsilon - 1) / 3).
      { replace (4 * (((a + b) / 2 - a) / 2) / epsilon) with ((b - a) / epsilon)
          by (field; lra).
        assert (1 <= (b - a) / epsilon).
        { apply (Rmult_le_reg_r epsilon); [assumption|].
          unfold Rdiv. rewrite Rmult_assoc, Rinv_l by lra. lra. }
        lra. }
      assert (Hq' : 0 <= (4 * ((b - (a + b) / 2) / 2) / epsilon - 1) / 3).
      { replace (b - (a + b) / 2) with ((a + b) / 2 - a) by field. exact Hq. }
      destruct (iterate_potential a ((a + b) / 2) flag (rest, rs) Hrest Hq)
        as [Hw1 Hp1].
      destruct (iterate_potential ((a + b) / 2) b flag _ Hw1 Hq') as [Hw2 Hp2].
      rewrite roots_while_step.
      set (st1 := iterate sturm_chain root_type epsilon (a, (a + b) / 2, flag)
                          (rest, rs)) in *.
      set (st2 := iterate sturm_chain root_type epsilon ((a + b) / 2, b, flag) st1)
        in *.
      apply IH; [exact Hw2|].
      rewrite S_INR in Hpot. simpl in Hpot, Hp1. unfold sturm_weight in Hpot.
      simpl in Hpot.
      replace (b - (a + b) / 2) with ((a + b) / 2 - a) in Hp2 by field.
      replace (4 * (((a + b) / 2 - a) / 2) / epsilon) with ((b - a) / epsilon)
        in Hp1, Hp2 by (field; lra).
      replace (4 * (b - a) / epsilon) with (4 * ((b - a) / epsilon)) in Hpot
        by (field; lra).
      change (sturm_potential epsilon (fst st2) <= INR fuel).
      set (x := (b - a) / epsilon) in *. lra.
Qed.

End SturmTermination.

(** The loop of [roots] returns on whatever chain it is run. *)
Lemma Sturm_loop_terminates (sturm_chain : MatrixXd) (root_type : Z)
    (epsilon : R) (fuel : nat) :
  0 < epsilon -> 4 / (3 * epsilon) <= INR fuel ->
  exists r,
    Sturm.roots_while fuel sturm_chain root_type epsilon
      (Sturm.iterate sturm_chain root_type epsilon (0, 1, false) ([], []))
    = Returns r.
Proof.
  intros Heps Hfuel.
  assert (Hb : 0 < 4 / (3 * epsilon)).
  { apply Rdiv_lt_0_compat; lra. }
  destruct (iterate_stack sturm_chain root_type epsilon 0 1 false ([], []))
    as [E|[[flag' E] Hw]].
  - apply (roots_while_terminates sturm_chain root_type epsilon Heps).
    + rewrite E. constructor.
    + rewrite E. simpl. lra.
  - apply (roots_while_terminates sturm_chain root_type epsilon Heps).
    + rewrite E. constructor; [unfold wide; simpl; lra|].
      constructor; [unfold wide; simpl; lra|constructor].
    + rewrite E. simpl. unfold sturm_weight. simpl.
      replace (4 * (1 - (0 + 1) / 2) / epsilon) with (2 / epsilon) by (field; lra).
      replace (4 * ((0 + 1) / 2 - 0) / epsilon) with (2 / epsilon) by (field; lra).
      replace (4 / (3 * epsilon)) with ((4 / epsilon) / 3) in Hfuel by (field; lra).
      assert (0 < 2 / epsilon) by (apply Rdiv_lt_0_compat; lra).
      replace (4 / epsilon) with (2 * (2 / epsilon)) in Hfuel by (field; lra).
      lra.
Qed.

(** A precision of at least 2^-50 is positive. *)
Lemma precision_pos (epsilon : R) : / 2 ^ 50 <= epsilon -> 0 < epsilon.
Proof.
  intros H. apply Rlt_le_trans with (/ 2 ^ 50); [|exact H].
  apply Rinv_0_lt_compat. apply pow_lt. lra.
Qed.

Lemma precision_half : / 2 ^ 50 <= 1 / 2.
Proof.
  replace (1 / 2) with (/ 2 ^ 1) by (simpl; field).
  apply Rinv_le_contravar; [simpl; lra|].
  apply Rle_pow; [lra|lia].
Qed.

(** ** Small curves *)

Ltac points_eq :=
  repeat match goal with
  | |- (_ :: _) = (_ :: _) => apply f_equal2
  | |- [] = [] => reflexivity
  | |- (_, _) = (_, _) => apply f_equal2
  | |- @eq R _ _ => field
  end.

Section SmallCurves.

Import Bezier.

Lemma curve_value_1 (p : Point) (t : R) : curve_value [p] t = p.
Proof.
  unfold curve_value. rewrite valueAt_bernstein by (simpl; auto; lia).
  unfold bezier_reference, bernstein, C. simpl. destruct p as [x y]. simpl.
  f_equal; lra.
Qed.

Lemma curve_value_2 (p q : Point) (t : R) :
  curve_value [p; q] t
  = ((1 - t) * fst p + t * fst q, (1 - t) * snd p + t * snd q).
Proof.
  unfold curve_value. rewrite valueAt_bernstein by (simpl; auto; lia).
  destruct p as [px py], q as [qx qy].
  unfold bezier_reference, bernstein, C. simpl. f_equal; field.
Qed.

Lemma derivative_cp_2 (p q : Point) :
  derivative_cp [p; q] = [(fst q - fst p, snd q - snd p)].
Proof.
  destruct p as [px py], q as [qx qy].
  unfold derivative_cp, new_derivative, derivative_points, pscale, psub. simpl.
  points_eq.
Qed.

Lemma derivative_cp_3 (p q r : Point) :
  derivative_cp [p; q; r]
  = [(2 * (fst q - fst p), 2 * (snd q - snd p));
     (2 * (fst r - fst q), 2 * (snd r - snd q))].
Proof.
  destruct p as [px py], q as [qx qy], r as [rx ry].
  unfold derivative_cp, new_derivative, derivative_points, pscale, psub. simpl.
  points_eq.
Qed.

Lemma norm_x_0 (x : R) : norm (x, 0) = Rabs x.
Proof.
  unfold norm. simpl.
  replace (x * x + 0 * 0) with (Rsqr x) by (unfold Rsqr; ring).
  apply sqrt_Rsqr_abs.
Qed.

Lemma norm_nonneg (p : Vector2d) : 0 <= norm p.
Proof. apply sqrt_pos. Qed.

Lemma arc_length_same (lg : LegendreGauss.table) (P : MatrixX2d) (t : R) :
  arc_length lg P t t = 0.
Proof. unfold arc_length. field. Qed.

Lemma sum_n_nonneg (f : nat -> R) (n : nat) :
  (forall k, (k < n)%nat -> 0 <= f k) -> 0 <= sum_n f n.
Proof.
  induction n as [|n IH]; intros H; simpl; [lra|].
  pose proof (H n ltac:(lia)). pose proof (IH ltac:(intros; apply H; lia)). lra.
Qed.

Lemma sum_n_pos (f : nat -> R) (n : nat) :
  (0 < n)%nat -> (forall k, (k < n)%nat -> 0 < f k) -> 0 < sum_n f n.
Proof.
  intros Hn H. destruct n as [|n]; [lia|]. simpl.
  pose proof (H n ltac:(lia)).
  pose proof (sum_n_nonneg f n ltac:(intros; apply Rlt_le, H; lia)). lra.
Qed.

Lemma arc_length_nonneg (lg : LegendreGauss.table) (P : MatrixX2d) :
  (forall k, 0 <= vcoeff (LegendreGauss.weights lg) k) ->
  0 <= arc_length lg P 0 1.
Proof.
  intros Hw. unfold arc_length.
  assert (0 <= sum_n
            (fun k => vcoeff (LegendreGauss.weights lg) k
                      * speed P (vcoeff (LegendreGauss.abcissae lg) k * (1 - 0) / 2
                                 + (0 + 1) / 2))
            (LegendreGauss.N lg)).
  { apply sum_n_nonneg. intros k _. apply Rmult_le_pos; [apply Hw|apply norm_nonneg]. }
  lra.
Qed.

End SmallCurves.

(** ** A start the Halley loop never leaves *)

Section HalleyFacts.

Import Bezier.

Variable lg : LegendreGauss.table.

(** The quadratic with control points (0,0), (0,0), (1,0) starts with zero
    speed. *)
Lemma cusp_speed t : speed [(0, 0); (0, 0); (1, 0)] t = Rabs (2 * t).
Proof.
  unfold speed. rewrite derivative_cp_3, curve_value_2. simpl.
  replace ((1 - t) * (2 * (0 - 0)) + t * (2 * (1 - 0))) with (2 * t) by ring.
  replace ((1 - t) * (2 * (0 - 0)) + t * (2 * (0 - 0))) with 0 by ring.
  apply norm_x_0.
Qed.

Lemma cusp_accel t : accel [(0, 0); (0, 0); (1, 0)] t = 2.
Proof.
  unfold accel. rewrite derivative_cp_3, derivative_cp_2, curve_value_1.
  simpl.
  replace (2 * (1 - 0) - 2 * (0 - 0)) with 2 by ring.
  replace (2 * (0 - 0) - 2 * (0 - 0)) with 0 by ring.
  rewrite norm_x_0. apply Rabs_pos_eq. lra.
Qed.

Lemma cusp_length_pos :
  (0 < LegendreGauss.N lg)%nat ->
  (forall k, (k < LegendreGauss.N lg)%nat ->
             0 < vcoeff (LegendreGauss.weights lg) k
             /\ -1 < vcoeff (LegendreGauss.abcissae lg) k) ->
  0 < arc_length lg [(0, 0); (0, 0); (1, 0)] 0 1.
Proof.
  intros HN Hk. unfold arc_length.
  assert (0 < sum_n
            (fun k => vcoeff (LegendreGauss.weights lg) k
                      * speed [(0, 0); (0, 0); (1, 0)]
                          (vcoeff (LegendreGauss.abcissae lg) k * (1 - 0) / 2
                           + (0 + 1) / 2))
            (LegendreGauss.N lg)).
  { apply sum_n_pos; [assumption|]. intros k Hlt.
    destruct (Hk k Hlt) as [Hw Hx]. apply Rmult_lt_0_compat; [assumption|].
    rewrite cusp_speed. apply Rabs_pos_lt. lra. }
  lra.
Qed.

Lemma cusp_iterate_stays s k :
  halley_iterate lg [(0, 0); (0, 0); (1, 0)] 0 s k = 0.
Proof.
  induction k as [|k IH]; [reflexivity|].
  simpl. rewrite IH. unfold halley_step. rewrite cusp_speed.
  replace (2 * 0) with 0 by ring. rewrite Rabs_R0. unfold Rdiv. ring.
Qed.

(** From the start of that curve the loop makes no progress: whatever the
    fuel, a call that asks for half the length of the curve with a
    tolerance of a quarter of it is still running. *)
Lemma cusp_never_returns :
  (0 < LegendreGauss.N lg)%nat ->
  (forall k, (k < LegendreGauss.N lg)%nat ->
             0 < vcoeff (LegendreGauss.weights lg) k
             /\ -1 < vcoeff (LegendreGauss.abcissae lg) k) ->
  let P := [(0, 0); (0, 0); (1, 0)] in
  let L := arc_length lg P 0 1 in
  forall fuel,
    fst (iterateByLength lg fuel 0 (L / 2) (L / 4) (new_Curve P)) = OutOfFuel.
Proof.
  intros HN Hk P L fuel.
  pose proof (cusp_length_pos HN Hk) as HL. fold P in HL. fold L in HL.
  pose proof (arc_length_same lg P 0) as H0.
  destruct (iterateByLength_cases lg fuel 0 (L / 2) (L / 4) (new_Curve P)
              (cache_ok_new_Curve P))
    as (c' & Hc' & P' & [[Hu _]|[(_ & Ho & _)|(_ & _ & E)]]);
    simpl control_points_ in *; fold L in Ho || idtac.
  - rewrite H0 in Hu. lra.
  - rewrite H0 in Ho. fold L in Ho. lra.
  - rewrite E.
    apply (while_out_of_fuel lg P 0 (L / 2) (L / 4) fuel 0%nat c' Hc' P').
    intros i _. unfold P. rewrite cusp_iterate_stays. fold P.
    unfold halley_f. rewrite H0.
    replace (0 - 0 - L / 2) with (- (L / 2)) by ring.
    rewrite Rabs_Ropp, Rabs_pos_eq by lra. lra.
Qed.

End HalleyFacts.

(** ** The inverse *)

Section InverseFacts.

Lemma coeff_mmul A B i j :
  (i < rows A)%nat -> (j < cols B)%nat ->
  coeff (mmul A B) i j = sum_n (fun k => coeff A i k * coeff B k j) (cols A).
Proof. intros Hi Hj. unfold mmul. now rewrite coeff_tabulate. Qed.

Lemma well_shaped_cols r c A : (0 < r)%nat -> well_shaped r c A -> cols A = c.
Proof.
  intros Hr [Hrows Hall]. unfold cols. unfold rows in Hrows.
  destruct A as [|row A]; [simpl in Hrows; lia|]. simpl. now inversion Hall.
Qed.

Lemma well_shaped_mmul A B : well_shaped (rows A) (cols B) (mmul A B).
Proof. apply well_shaped_tabulate. Qed.

Lemma well_shaped_Identity n : well_shaped n n (Identity n).
Proof. apply well_shaped_tabulate. Qed.

Lemma coeff_Identity n i j :
  (i < n)%nat -> (j < n)%nat ->
  coeff (Identity n) i j = if Nat.eqb i j then 1 else 0.
Proof. intros. unfold Identity. now rewrite coeff_tabulate. Qed.

Lemma well_shaped_mmul' A B r c :
  rows A = r -> cols B = c -> well_shaped r c (mmul A B).
Proof. intros <- <-. apply well_shaped_mmul. Qed.

Lemma rows_Identity n : rows (Identity n) = n.
Proof. unfold Identity. apply rows_tabulate. Qed.

Lemma cols_Identity n : (0 < n)%nat -> cols (Identity n) = n.
Proof. intros. unfold Identity. now apply cols_tabulate. Qed.

Lemma mmul_Identity_r n A :
  (0 < n)%nat -> well_shaped n n A -> mmul A (Identity n) = A.
Proof.
  intros Hn HA. pose proof (well_shaped_cols n n A Hn HA) as Hc.
  pose proof (proj1 HA) as Hr.
  apply (matrix_ext n n).
  - apply well_shaped_mmul'; [assumption|now apply cols_Identity].
  - assumption.
  - intros i j Hi Hj.
    rewrite coeff_mmul by (rewrite ?Hr, ?cols_Identity; lia).
    rewrite Hc, (sum_n_single _ n j); [|assumption|].
    + rewrite coeff_Identity, Nat.eqb_refl by auto. ring.
    + intros k Hk Hne. rewrite coeff_Identity by auto.
      destruct (Nat.eqb_spec k j); [contradiction|ring].
Qed.

Lemma mmul_Identity_l n A :
  (0 < n)%nat -> well_shaped n n A -> mmul (Identity n) A = A.
Proof.
  intros Hn HA. pose proof (well_shaped_cols n n A Hn HA) as Hc.
  apply (matrix_ext n n).
  - apply well_shaped_mmul'; [apply rows_Identity|assumption].
  - assumption.
  - intros i j Hi Hj.
    rewrite coeff_mmul by (rewrite ?rows_Identity, ?Hc; lia).
    rewrite cols_Identity by auto.
    rewrite (sum_n_single _ n i); [|assumption|].
    + rewrite coeff_Identity, Nat.eqb_refl by auto. ring.
    + intros k Hk Hne. rewrite coeff_Identity by auto.
      destruct (Nat.eqb_spec i k); [congruence|ring].
Qed.

Lemma rows_mmul A B : rows (mmul A B) = rows A.
Proof. unfold mmul. apply rows_tabulate. Qed.

Lemma cols_mmul A B : (0 < rows A)%nat -> cols (mmul A B) = cols B.
Proof. intros. unfold mmul. now apply cols_tabulate. Qed.

Lemma mmul_assoc n A B C :
  (0 < n)%nat -> rows A = n -> cols A = n -> rows B = n -> cols B = n ->
  cols C = n ->
  mmul (mmul A B) C = mmul A (mmul B C).
Proof.
  intros Hn HrA HcA HrB HcB HcC.
  apply (matrix_ext n n).
  - apply well_shaped_mmul'; [now rewrite rows_mmul|assumption].
  - apply well_shaped_mmul'; [assumption|]. rewrite cols_mmul; [assumption|lia].
  - intros i j Hi Hj.
    rewrite (coeff_mmul (mmul A B) C) by (rewrite ?rows_mmul; lia).
    rewrite (coeff_mmul A (mmul B C)) by (rewrite ?cols_mmul; lia).
    rewrite cols_mmul, HcB, HcA by lia.
    rewrite (sum_n_ext _ (fun k => sum_n (fun l => coeff A i l * coeff B l k * coeff C k j) n)).
    2:{ intros k Hk. rewrite coeff_mmul by lia. rewrite HcA.
        rewrite <- sum_n_scal_r. reflexivity. }
    rewrite sum_n_swap. apply sum_n_ext. intros l Hl.
    rewrite coeff_mmul by lia. rewrite HcB, <- sum_n_scal.
    apply sum_n_ext. intros k Hk. ring.
Qed.

(** A two-sided inverse is the inverse. *)
Lemma inverse_unique A B :
  cols A = rows A -> is_inverse A B -> inverse A = B.
Proof.
  intros HcA HB.
  assert (HB' : is_inverse A (inverse A)).
  { unfold inverse. apply epsilon_spec. now exists B. }
  destruct HB as (SB & ABI & BAI). destruct HB' as (SB' & AB'I & B'AI).
  destruct (Nat.eq_dec (rows A) 0) as [E|E].
  - destruct SB as [HrB _], SB' as [HrB' _]. unfold rows in HrB, HrB', E.
    rewrite E in HrB, HrB'. apply length_zero_iff_nil in HrB, HrB'.
    congruence.
  - assert (Hn : (0 < rows A)%nat) by lia.
    rewrite <- (mmul_Identity_r (rows A) (inverse A) Hn SB').
    rewrite <- ABI.
    rewrite <- (mmul_assoc (rows A) (inverse A) A B Hn (proj1 SB')
                  (well_shaped_cols _ _ _ Hn SB') eq_refl HcA
                  (well_shaped_cols _ _ _ Hn SB)).
    rewrite B'AI. apply mmul_Identity_l; assumption.
Qed.

End InverseFacts.

(** ** The splitting matrices are the de Casteljau matrices *)

Section SplittingFacts.

Import Bezier.

Lemma C_pos n p : 0 < C n p.
Proof.
  unfold C. apply Rdiv_lt_0_compat; [apply INR_fact_lt_0|].
  apply Rmult_lt_0_compat; apply INR_fact_lt_0.
Qed.

Lemma C_diag n : C n n = 1.
Proof.
  unfold C. rewrite Nat.sub_diag. simpl. field. apply INR_fact_neq_0.
Qed.

Lemma sum_n_truncate (f : nat -> R) (a n : nat) :
  (a <= n)%nat -> (forall k, (a <= k < n)%nat -> f k = 0) ->
  sum_n f n = sum_n f a.
Proof.
  intros Ha H. replace n with (a + (n - a))%nat by lia.
  rewrite sum_n_app, (sum_n_zero (fun m => f (a + m)%nat)); [lra|].
  intros k Hk. apply H. lia.
Qed.

(** The alternating sum behind both products. *)
Lemma alternating_sum (n i j : nat) (t : R) :
  (j <= i)%nat -> (i < n)%nat ->
  sum_n (fun k => if Nat.leb j k && Nat.leb k i
                  then (-1) ^ (k - j) * C i k * C k j * t ^ k else 0) n
  = bernstein i j t.
Proof.
  intros Hji Hin.
  rewrite (sum_n_truncate _ (S i) n); [|lia|].
  2:{ intros k Hk. destruct (Nat.leb_spec k i); [lia|]. now rewrite andb_false_r. }
  pose proof (bernstein_column (S i) j t ltac:(lia)) as E.
  replace (S i - 1)%nat with i in E by lia. rewrite <- E.
  apply sum_n_ext. intros k Hk. rewrite coeff_bernsteinCoeffs by lia.
  replace (S i - 1)%nat with i by lia.
  destruct (Nat.leb_spec j k); destruct (Nat.leb_spec k i);
    cbv [andb]; try lia; ring.
Qed.

Lemma bernstein_at_1 i j :
  (j <= i)%nat -> bernstein i j 1 = if Nat.eqb i j then 1 else 0.
Proof.
  intros H. unfold bernstein. replace (1 - 1) with 0 by ring.
  destruct (Nat.eqb_spec i j) as [->|E].
  - rewrite Nat.sub_diag, C_diag, pow1. simpl. ring.
  - rewrite pow_i by lia. ring.
Qed.

Lemma pow_minus_one_sq m : (-1) ^ m * (-1) ^ m = 1.
Proof. rewrite <- Rpow_mult_distr. replace (-1 * -1) with 1 by ring. apply pow1. Qed.

Lemma rows_bernstein_inverse n : rows (bernstein_inverse n) = n.
Proof. apply rows_tabulate. Qed.

Lemma coeff_bernstein_inverse n k j :
  (k < n)%nat -> (j < n)%nat ->
  coeff (bernstein_inverse n) k j
  = if Nat.leb j k then C k j / C (n - 1) j else 0.
Proof. intros. unfold bernstein_inverse. now rewrite coeff_tabulate. Qed.

Lemma bernstein_inverse_left n :
  (0 < n)%nat -> mmul (bernstein_inverse n) (bernsteinCoeffs n) = Identity n.
Proof.
  intros Hn. apply (matrix_ext n n).
  - apply well_shaped_mmul'; [apply rows_bernstein_inverse|now apply cols_bernsteinCoeffs].
  - apply well_shaped_Identity.
  - intros i j Hi Hj.
    rewrite coeff_mmul by (rewrite ?rows_bernstein_inverse, ?cols_bernsteinCoeffs; lia).
    unfold bernstein_inverse at 2. rewrite cols_tabulate by lia.
    rewrite coeff_Identity by auto.
    destruct (Nat.le_gt_cases j i) as [Hji|Hji].
    + rewrite <- bernstein_at_1, <- (alternating_sum n i j 1) by auto.
      apply sum_n_ext. intros k Hk.
      rewrite coeff_bernstein_inverse, coeff_bernsteinCoeffs by auto.
      pose proof (C_pos (n - 1) k).
      destruct (Nat.leb_spec k i); destruct (Nat.leb_spec j k); cbv [andb];
        try ring.
      rewrite pow1. field. lra.
    + destruct (Nat.eqb_spec i j); [lia|]. apply sum_n_zero. intros k Hk.
      rewrite coeff_bernstein_inverse, coeff_bernsteinCoeffs by auto.
      destruct (Nat.leb_spec k i); destruct (Nat.leb_spec j k); try lia; ring.
Qed.

Lemma bernstein_inverse_right n :
  (0 < n)%nat -> mmul (bernsteinCoeffs n) (bernstein_inverse n) = Identity n.
Proof.
  intros Hn. apply (matrix_ext n n).
  - apply well_shaped_mmul'; [apply rows_bernsteinCoeffs|].
    unfold bernstein_inverse. now apply cols_tabulate.
  - apply well_shaped_Identity.
  - intros i j Hi Hj.
    rewrite coeff_mmul;
      [|rewrite rows_bernsteinCoeffs; lia
       |unfold bernstein_inverse; rewrite cols_tabulate; lia].
    rewrite cols_bernsteinCoeffs by auto.
    rewrite coeff_Identity by auto.
    destruct (Nat.le_gt_cases j i) as [Hji|Hji].
    + rewrite <- bernstein_at_1 by auto.
      pose proof (C_pos (n - 1) j) as Hpos.
      transitivity (C (n - 1) i / C (n - 1) j * (-1) ^ (i - j) * bernstein i j 1).
      * rewrite <- (alternating_sum n i j 1) by auto.
        rewrite <- sum_n_scal. apply sum_n_ext. intros k Hk.
        rewrite coeff_bernstein_inverse, coeff_bernsteinCoeffs by auto.
        destruct (Nat.leb_spec k i); destruct (Nat.leb_spec j k); cbv [andb];
          try ring.
        rewrite pow1.
        replace (i - j)%nat with ((i - k) + (k - j))%nat by lia.
        rewrite pow_add.
        transitivity ((-1) ^ (i - k) * C i k * C (n - 1) i * (C k j / C (n - 1) j)
                      * ((-1) ^ (k - j) * (-1) ^ (k - j))).
        { rewrite pow_minus_one_sq. ring. }
        field. lra.
      * rewrite bernstein_at_1 by auto.
        destruct (Nat.eqb_spec i j) as [->|E]; [|ring].
        rewrite Nat.sub_diag. simpl. field. lra.
    + destruct (Nat.eqb_spec i j); [lia|]. apply sum_n_zero. intros k Hk.
      rewrite coeff_bernstein_inverse, coeff_bernsteinCoeffs by auto.
      destruct (Nat.leb_spec k i); destruct (Nat.leb_spec j k); try lia; ring.
Qed.

Lemma inverse_bernsteinCoeffs n :
  inverse (bernsteinCoeffs n) = bernstein_inverse n.
Proof.
  destruct (Nat.eq_dec n 0) as [->|Hn].
  - apply inverse_unique; [reflexivity|]. split; [|split]; try reflexivity.
    split; [reflexivity|constructor].
  - apply inverse_unique.
    + rewrite rows_bernsteinCoeffs, cols_bernsteinCoeffs; lia.
    + unfold is_inverse. rewrite rows_bernsteinCoeffs. split; [|split].
      * apply well_shaped_tabulate.
      * apply bernstein_inverse_right. lia.
      * apply bernstein_inverse_left. lia.
Qed.

End SplittingFacts.

Section SplittingClosedForm.

Import Bezier.

Lemma diagonal_shape n v :
  (0 < n)%nat ->
  rows (set_diagonal v (Zero n n)) = n /\ cols (set_diagonal v (Zero n n)) = n.
Proof.
  intros Hn. unfold set_diagonal, Zero.
  rewrite rows_tabulate. rewrite cols_tabulate by (rewrite rows_tabulate; lia).
  rewrite rows_tabulate, cols_tabulate by lia. auto.
Qed.

Lemma coeff_diagonal n z l k :
  (l < n)%nat -> (k < n)%nat ->
  coeff (set_diagonal (pow_array z (LinSpaced n 0 (n - 1))) (Zero n n)) l k
  = if Nat.eqb l k then z ^ k else 0.
Proof.
  intros Hl Hk. unfold set_diagonal, Zero.
  rewrite rows_tabulate, cols_tabulate by lia.
  rewrite coeff_tabulate by auto.
  destruct (Nat.eqb_spec l k) as [->|E].
  - unfold pow_array. rewrite LinSpaced_0.
    now rewrite (vcoeff_map_seq (fun k => z ^ k) 0 n k Hk).
  - now rewrite coeff_tabulate.
Qed.

Lemma splittingCoeffsLeft_closed n z :
  splittingCoeffsLeft n z = de_casteljau_left n z.
Proof.
  unfold splittingCoeffsLeft. rewrite inverse_bernsteinCoeffs.
  destruct (Nat.eq_dec n 0) as [->|Hn]; [reflexivity|].
  set (D := set_diagonal _ _).
  destruct (diagonal_shape n (pow_array z (LinSpaced n 0 (n - 1))) ltac:(lia))
    as [HrD HcD]. fold D in HrD, HcD.
  assert (HcI : cols (bernstein_inverse n) = n)
    by (unfold bernstein_inverse; apply cols_tabulate; lia).
  apply (matrix_ext n n).
  - apply well_shaped_mmul'.
    + now rewrite rows_mmul, rows_bernstein_inverse.
    + apply cols_bernsteinCoeffs. lia.
  - apply well_shaped_tabulate.
  - intros i j Hi Hj. unfold de_casteljau_left. rewrite coeff_tabulate by auto.
    rewrite coeff_mmul
      by (rewrite ?rows_mmul, ?rows_bernstein_inverse, ?cols_bernsteinCoeffs; lia).
    rewrite cols_mmul, HcD by (rewrite rows_bernstein_inverse; lia).
    rewrite (sum_n_ext _
      (fun k => if Nat.leb j k && Nat.leb k i
                then (-1) ^ (k - j) * C i k * C k j * z ^ k else 0)).
    + destruct (Nat.le_gt_cases j i) as [Hji|Hji].
      * replace (j <=? i)%nat with true by (symmetry; apply Nat.leb_le; lia).
        now apply alternating_sum.
      * replace (j <=? i)%nat with false by (symmetry; apply Nat.leb_gt; lia).
        apply sum_n_zero. intros k Hk.
        destruct (Nat.leb_spec j k); destruct (Nat.leb_spec k i); try lia;
          reflexivity.
    + intros k Hk.
      rewrite coeff_mmul by (rewrite ?rows_bernstein_inverse, ?HcD; lia).
      rewrite HcI, (sum_n_single _ n k); [|assumption|].
      * unfold D. rewrite coeff_diagonal, Nat.eqb_refl by auto.
        rewrite coeff_bernstein_inverse, coeff_bernsteinCoeffs by auto.
        pose proof (C_pos (n - 1) k).
        destruct (Nat.leb_spec j k); destruct (Nat.leb_spec k i); cbv [andb];
          try ring.
        field. lra.
      * intros l Hl Hne. unfold D. rewrite coeff_diagonal by auto.
        destruct (Nat.eqb_spec l k); [contradiction|ring].
Qed.

Lemma splittingCoeffsRight_closed n z :
  splittingCoeffsRight n z = de_casteljau_right n z.
Proof.
  unfold splittingCoeffsRight, de_casteljau_right.
  rewrite splittingCoeffsLeft_closed. apply tabulate_ext. intros k c Hk Hc.
  destruct (Nat.leb_spec k c); [|reflexivity].
  unfold de_casteljau_left. rewrite coeff_tabulate by lia.
  replace (c - k <=? n - 1 - k)%nat with true
    by (symmetry; apply Nat.leb_le; lia).
  reflexivity.
Qed.

End SplittingClosedForm.

(** ** One round of the intersection loop *)

Section IntersectionBody.

Import Bezier.

Lemma forallb_far_true epsilon c (points : list Vector2d) :
  (forall p, In p points -> epsilon <= norm (psub p c)) ->
  forallb (fun point => negb (Rltb (norm (psub point c)) epsilon)) points = true.
Proof.
  intros H. apply forallb_forall. intros p Hp.
  rewrite Rltb_false; [reflexivity|]. specialize (H p Hp). lra.
Qed.

Lemma forallb_far_false epsilon c (points : list Vector2d) :
  (exists p, In p points /\ norm (psub p c) < epsilon) ->
  forallb (fun point => negb (Rltb (norm (psub point c)) epsilon)) points = false.
Proof.
  intros (p & Hp & Hlt).
  match goal with
  | |- forallb ?f points = false => destruct (forallb f points) eqn:E
  end; [|reflexivity].
  rewrite forallb_forall in E. specialize (E p Hp).
  rewrite (Rltb_true _ _ Hlt) in E. discriminate.
Qed.

Lemma body_discard n epsilon part_a part_b pairs points :
  intersects (bbox part_a) (bbox part_b) = false ->
  intersections_body n epsilon part_a part_b pairs points = (pairs, points).
Proof. intros H. unfold intersections_body. now rewrite H. Qed.

Lemma body_accept n epsilon part_a part_b pairs points :
  intersects (bbox part_a) (bbox part_b) = true ->
  norm (diagonal (bbox part_a)) < epsilon ->
  norm (diagonal (bbox part_b)) < epsilon ->
  intersections_body n epsilon part_a part_b pairs points
  = (pairs,
     if forallb (fun point =>
                   negb (Rltb (norm (psub point (center (bbox part_a)))) epsilon))
                points
     then points ++ [center (bbox part_a)] else points).
Proof.
  intros Hi H1 H2. unfold intersections_body.
  rewrite Hi, (Rltb_true _ _ H1), (Rltb_true _ _ H2). simpl.
  match goal with |- context [forallb ?f points] => destruct (forallb f points) end;
    reflexivity.
Qed.

Lemma body_split n epsilon part_a part_b pairs points :
  intersects (bbox part_a) (bbox part_b) = true ->
  ~ (norm (diagonal (bbox part_a)) < epsilon
     /\ norm (diagonal (bbox part_b)) < epsilon) ->
  intersections_body n epsilon part_a part_b pairs points
  = (rev (flat_map
            (fun b => map (fun a => (a, b))
               (if Rltb (norm (diagonal (bbox part_a))) epsilon then [part_a]
                else [mmul2 (splittingCoeffsRight n (1 / 2)) part_a;
                      mmul2 (splittingCoeffsLeft n (1 / 2)) part_a]))
            (if Rltb (norm (diagonal (bbox part_b))) epsilon then [part_b]
             else [mmul2 (splittingCoeffsRight (rows part_b) (1 / 2)) part_b;
                   mmul2 (splittingCoeffsLeft (rows part_b) (1 / 2)) part_b]))
     ++ pairs,
     points).
Proof.
  intros Hi Hns. unfold intersections_body. rewrite Hi. simpl negb. cbv iota.
  destruct (Rlt_dec (norm (diagonal (bbox part_a))) epsilon) as [H1|H1];
    destruct (Rlt_dec (norm (diagonal (bbox part_b))) epsilon) as [H2|H2];
    try (exfalso; apply Hns; split; assumption);
    rewrite ?(Rltb_true _ _ H1), ?(Rltb_false _ _ H1),
            ?(Rltb_true _ _ H2), ?(Rltb_false _ _ H2);
    reflexivity.
Qed.

(** Halving a curve of two control points. *)
Lemma halves_of_segment (p q : Vector2d) :
  mmul2 (splittingCoeffsLeft 2 (1 / 2)) [p; q]
  = [p; ((fst p + fst q) / 2, (snd p + snd q) / 2)]
  /\ mmul2 (splittingCoeffsRight 2 (1 / 2)) [p; q]
     = [((fst p + fst q) / 2, (snd p + snd q) / 2); q].
Proof.
  rewrite splittingCoeffsLeft_closed, splittingCoeffsRight_closed.
  destruct p as [px py], q as [qx qy].
  unfold de_casteljau_left, de_casteljau_right, mmul2, bernstein, C, coeff, row2.
  simpl. split; points_eq.
Qed.

(** Boxes of horizontal segments. *)
Lemma bbox_of_horizontal a b :
  a <= b -> bbox [(a, 0); (b, 0)] = mkAlignedBox2d (a, 0) (b, 0).
Proof.
  intros H. unfold bbox, minCoeff, maxCoeff, col0, col1. simpl.
  rewrite (Rmin_left a b), (Rmax_right a b) by assumption.
  rewrite Rmin_left, Rmax_left by lra. reflexivity.
Qed.

Lemma diagonal_of_horizontal a b :
  a <= b -> norm (diagonal (mkAlignedBox2d (a, 0) (b, 0))) = b - a.
Proof.
  intros H. unfold diagonal, psub. simpl. replace (0 - 0) with 0 by ring.
  rewrite norm_x_0. apply Rabs_pos_eq. lra.
Qed.

End IntersectionBody.

(** ** A run of the intersection loop *)

Section IntersectionRun.

Import Bezier.

Lemma intersections_step fuel n epsilon part_a part_b rest points :
  intersections_while (S fuel) n epsilon ((part_a, part_b) :: rest) points
  = intersections_while fuel n epsilon
      (fst (intersections_body n epsilon part_a part_b rest points))
      (snd (intersections_body n epsilon part_a part_b rest points)).
Proof.
  simpl. destruct (intersections_body n epsilon part_a part_b rest points).
  reflexivity.
Qed.

Lemma intersects_horizontal a b c d :
  intersects (mkAlignedBox2d (a, 0) (b, 0)) (mkAlignedBox2d (c, 0) (d, 0))
  = Rleb a d && Rleb c b.
Proof.
  unfold intersects. simpl. rewrite (Rleb_true 0 0) by lra.
  now rewrite !andb_true_r.
Qed.

Lemma body_horizontal_split a b c d rest points :
  a <= b -> c <= d -> a <= d -> c <= b -> 1 <= b - a -> d - c < 1 ->
  intersections_body 2 1 [(a, 0); (b, 0)] [(c, 0); (d, 0)] rest points
  = (([(a, 0); ((a + b) / 2, 0)], [(c, 0); (d, 0)])
       :: ([((a + b) / 2, 0); (b, 0)], [(c, 0); (d, 0)]) :: rest,
     points).
Proof.
  intros Hab Hcd Had Hcb Hbig Hsmall.
  rewrite body_split.
  - rewrite !bbox_of_horizontal, !diagonal_of_horizontal by assumption.
    rewrite (Rltb_false (b - a) 1), (Rltb_true (d - c) 1) by lra.
    destruct (halves_of_segment (a, 0) (b, 0)) as [HL HR].
    simpl in HL, HR. simpl.
    replace ((0 + 0) / 2) with 0 in HL, HR by field.
    unfold MatrixX2d, Point, PointVector, Vector2d in *.
    rewrite HL, HR. reflexivity.
  - rewrite !bbox_of_horizontal, intersects_horizontal by assumption.
    now rewrite !Rleb_true.
  - rewrite !bbox_of_horizontal, !diagonal_of_horizontal by assumption.
    intros [H _]. lra.
Qed.

Lemma body_horizontal_accept a b c d rest points :
  a <= b -> c <= d -> a <= d -> c <= b -> b - a < 1 -> d - c < 1 ->
  intersections_body 2 1 [(a, 0); (b, 0)] [(c, 0); (d, 0)] rest points
  = (rest,
     if forallb (fun point =>
                   negb (Rltb (norm (psub point ((a + b) / 2, 0))) 1))
                points
     then points ++ [((a + b) / 2, 0)] else points).
Proof.
  intros Hab Hcd Had Hcb H1 H2.
  rewrite body_accept;
    rewrite ?bbox_of_horizontal, ?diagonal_of_horizontal by assumption;
    try assumption.
  - unfold center, padd, pdiv. simpl.
    replace ((0 + 0) / 2) with 0 by field. reflexivity.
  - rewrite intersects_horizontal. now rewrite !Rleb_true.
Qed.

Lemma body_horizontal_discard a b c d rest points :
  a <= b -> c <= d -> d < a ->
  intersections_body 2 1 [(a, 0); (b, 0)] [(c, 0); (d, 0)] rest points
  = (rest, points).
Proof.
  intros Hab Hcd Hda. apply body_discard.
  rewrite !bbox_of_horizontal, intersects_horizontal by assumption.
  rewrite (Rleb_false a d) by lra. reflexivity.
Qed.

Lemma norm_horizontal_difference x y : norm (psub (x, 0) (y, 0)) = Rabs (x - y).
Proof.
  unfold psub. simpl. replace (0 - 0) with 0 by field. apply norm_x_0.
Qed.

(** The state of the counterexample is reached: [intersections] of the
    segment (0,0)-(2,0) with the segment (1/2,0)-(1,0) and epsilon = 1
    returns the two points (1/4,0) and (5/4,0), which are exactly epsilon
    apart. *)
Example intersections_of_overlapping_segments (realRoots : VectorXd -> list R) :
  fst (intersections realRoots 7 (ref_other (new_Curve [(1 / 2, 0); (1, 0)])) 1
         (new_Curve [(0, 0); (2, 0)]))
  = Returns [(1 / 4, 0); (5 / 4, 0)].
Proof.
  unfold intersections, push_all.
  cbn [fst rev app N_ control_points_ new_Curve rows length].
  rewrite intersections_step, body_horizontal_split by lra. cbn [fst snd].
  rewrite intersections_step, body_horizontal_split by lra. cbn [fst snd].
  rewrite intersections_step, body_horizontal_accept by lra. cbn [fst snd].
  simpl forallb. cbv iota. simpl app.
  rewrite intersections_step, body_horizontal_accept by lra. cbn [fst snd].
  simpl forallb. rewrite norm_horizontal_difference.
  rewrite (Rltb_true (Rabs _) 1).
  2:{ unfold Rabs. destruct (Rcase_abs _); lra. }
  simpl negb. cbv iota. simpl andb. cbv iota.
  rewrite intersections_step, body_horizontal_split by lra. cbn [fst snd].
  rewrite intersections_step, body_horizontal_accept by lra. cbn [fst snd].
  simpl forallb. rewrite norm_horizontal_difference.
  rewrite (Rltb_false (Rabs _) 1).
  2:{ unfold Rabs. destruct (Rcase_abs _); lra. }
  simpl negb. simpl andb. cbv iota. simpl app.
  rewrite intersections_step, body_horizontal_discard by lra. cbn [fst snd].
  simpl. f_equal. points_eq.
Qed.

End IntersectionRun.

(** ** de Casteljau averages *)

Section Averages.

Variable z : R.

Lemma C_0 n : C n 0 = 1.
Proof.
  unfold C. rewrite Nat.sub_0_r. simpl. field. apply INR_fact_neq_0.
Qed.

Lemma sum_n_shift (g : nat -> R) (n : nat) :
  sum_n (fun m => g (S m)) n = sum_n g (S n) - g 0%nat.
Proof.
  induction n as [|n IH]; simpl in *; [ring|]. rewrite IH. ring.
Qed.

Lemma bernstein_recurrence (q j : nat) :
  (1 <= j <= q)%nat ->
  bernstein (S q) j z
  = (1 - z) * bernstein q j z + z * bernstein q (j - 1) z.
Proof.
  intros Hj. unfold bernstein.
  destruct j as [|j]; [lia|].
  replace (S j - 1)%nat with j by lia.
  rewrite <- (pascal q j) by lia.
  replace (S q - S j)%nat with (q - j)%nat by lia.
  replace (q - j)%nat with (S (q - S j)) by lia.
  simpl pow. ring.
Qed.

Lemma bernstein_first (q : nat) : bernstein q 0 z = (1 - z) ^ q.
Proof. unfold bernstein. rewrite C_0, Nat.sub_0_r. simpl. ring. Qed.

Lemma bernstein_last (q : nat) : bernstein q q z = z ^ q.
Proof. unfold bernstein. rewrite C_diag, Nat.sub_diag. simpl. ring. Qed.

(** The scheme of degree [q + 1] is the mean of two schemes of degree
    [q]. *)
Lemma binomial_average_step (q : nat) (p : nat -> R) (k : nat) :
  binomial_average z (S q) p k
  = (1 - z) * binomial_average z q p k + z * binomial_average z q p (k + 1).
Proof.
  unfold binomial_average.
  transitivity
    (sum_n (fun j => (if Nat.leb j q then (1 - z) * bernstein q j z else 0)
                     * p (k + j)%nat
                     + (if Nat.eqb j 0 then 0 else z * bernstein q (j - 1) z)
                       * p (k + j)%nat) (S (S q))).
  - apply sum_n_ext. intros j Hj.
    destruct (Nat.leb_spec j q) as [Hle|Hgt]; destruct (Nat.eqb_spec j 0) as [E|E].
    + subst j. rewrite !bernstein_first. simpl. ring.
    + rewrite bernstein_recurrence by lia. ring.
    + lia.
    + assert (j = S q) as -> by lia. rewrite bernstein_last.
      replace (S q - 1)%nat with q by lia. rewrite bernstein_last. simpl. ring.
  - rewrite sum_n_plus. f_equal.
    + rewrite (sum_n_truncate _ (S q) (S (S q))); [|lia|].
      * rewrite <- sum_n_scal. apply sum_n_ext. intros j Hj.
        replace (j <=? q)%nat with true by (symmetry; apply Nat.leb_le; lia).
        ring.
      * intros j Hj.
        replace (j <=? q)%nat with false by (symmetry; apply Nat.leb_gt; lia).
        ring.
    + set (G := fun j => (if Nat.eqb j 0 then 0 else z * bernstein q (j - 1) z)
                         * p (k + j)%nat).
      rewrite <- sum_n_scal.
      transitivity (sum_n G (S (S q)) - G 0%nat).
      * assert (G0 : G 0%nat = 0) by (unfold G; simpl; ring).
        rewrite G0. ring.
      * rewrite <- (sum_n_shift G (S q)). apply sum_n_ext. intros m Hm.
        unfold G. simpl Nat.eqb. cbv iota.
        replace (S m - 1)%nat with m by lia.
        replace (k + 1 + m)%nat with (k + S m)%nat by lia. ring.
Qed.

Lemma binomial_average_difference (q : nat) (p : nat -> R) (k : nat) :
  binomial_average z q p (k + 1) - binomial_average z q p k
  = binomial_average z q (fun j => p (j + 1)%nat - p j) k.
Proof.
  unfold binomial_average.
  transitivity
    (sum_n (fun m => bernstein q m z * p (k + 1 + m)%nat
                     + -1 * (bernstein q m z * p (k + m)%nat)) (S q)).
  - rewrite sum_n_plus, sum_n_scal. ring.
  - apply sum_n_ext. intros m Hm.
    replace (k + 1 + m)%nat with (k + m + 1)%nat by lia. ring.
Qed.

Lemma bernstein_partition (q : nat) : sum_n (fun m => bernstein q m z) (S q) = 1.
Proof.
  rewrite sum_n_sum_f_R0.
  transitivity ((z + (1 - z)) ^ q); [|replace (z + (1 - z)) with 1 by ring; apply pow1].
  rewrite binomial. apply sum_eq. intros i Hi. unfold bernstein. ring.
Qed.

Hypothesis z_range : 0 <= z <= 1.

Lemma bernstein_nonneg (q m : nat) : 0 <= bernstein q m z.
Proof.
  unfold bernstein. apply Rmult_le_pos; [apply Rmult_le_pos|].
  - apply Rlt_le, C_pos.
  - apply pow_le. lra.
  - apply pow_le. lra.
Qed.

End Averages.

(** ** The control points of the two halves *)

Section Halves.

Import Bezier.

Variable z : R.

Lemma rows_de_casteljau_left n : rows (de_casteljau_left n z) = n.
Proof. apply rows_tabulate. Qed.

Lemma rows_de_casteljau_right n : rows (de_casteljau_right n z) = n.
Proof. apply rows_tabulate. Qed.

Lemma cols_de_casteljau_left n : (0 < n)%nat -> cols (de_casteljau_left n z) = n.
Proof. intros. unfold de_casteljau_left. now apply cols_tabulate. Qed.

Lemma cols_de_casteljau_right n : (0 < n)%nat -> cols (de_casteljau_right n z) = n.
Proof. intros. unfold de_casteljau_right. now apply cols_tabulate. Qed.

Lemma length_split_left n P :
  length (mmul2 (splittingCoeffsLeft n z) P) = n.
Proof.
  now rewrite splittingCoeffsLeft_closed, length_mmul2, rows_de_casteljau_left.
Qed.

Lemma length_split_right n P :
  length (mmul2 (splittingCoeffsRight n z) P) = n.
Proof.
  now rewrite splittingCoeffsRight_closed, length_mmul2, rows_de_casteljau_right.
Qed.

Lemma row2_split_left n P i :
  (i < n)%nat ->
  row2 (mmul2 (splittingCoeffsLeft n z) P) i
  = (binomial_average z i (xs P) 0, binomial_average z i (ys P) 0).
Proof.
  intros Hi. rewrite splittingCoeffsLeft_closed.
  rewrite row2_mmul2 by (rewrite rows_de_casteljau_left; lia).
  rewrite cols_de_casteljau_left by lia.
  unfold binomial_average.
  f_equal.
  - rewrite (sum_n_truncate _ (S i) n); [|lia|].
    + apply sum_n_ext. intros k Hk. unfold de_casteljau_left.
      rewrite coeff_tabulate by lia.
      replace (k <=? i)%nat with true by (symmetry; apply Nat.leb_le; lia).
      reflexivity.
    + intros k Hk. unfold de_casteljau_left. rewrite coeff_tabulate by lia.
      replace (k <=? i)%nat with false by (symmetry; apply Nat.leb_gt; lia).
      ring.
  - rewrite (sum_n_truncate _ (S i) n); [|lia|].
    + apply sum_n_ext. intros k Hk. unfold de_casteljau_left.
      rewrite coeff_tabulate by lia.
      replace (k <=? i)%nat with true by (symmetry; apply Nat.leb_le; lia).
      reflexivity.
    + intros k Hk. unfold de_casteljau_left. rewrite coeff_tabulate by lia.
      replace (k <=? i)%nat with false by (symmetry; apply Nat.leb_gt; lia).
      ring.
Qed.

Lemma right_sum n k (p : nat -> R) :
  (k < n)%nat ->
  sum_n (fun c => coeff (de_casteljau_right n z) k c * p c) n
  = binomial_average z (n - 1 - k) p k.
Proof.
  intros Hk. unfold binomial_average.
  replace n with (k + (n - k))%nat at 1 by lia.
  rewrite sum_n_app, sum_n_zero.
  - rewrite Rplus_0_l. replace (S (n - 1 - k)) with (n - k)%nat by lia.
    apply sum_n_ext. intros m Hm. unfold de_casteljau_right.
    rewrite coeff_tabulate by lia.
    replace (k <=? k + m)%nat with true by (symmetry; apply Nat.leb_le; lia).
    replace (k + m - k)%nat with m by lia. reflexivity.
  - intros c Hc. unfold de_casteljau_right. rewrite coeff_tabulate by lia.
    replace (k <=? c)%nat with false by (symmetry; apply Nat.leb_gt; lia).
    ring.
Qed.

Lemma row2_split_right n P k :
  (k < n)%nat ->
  row2 (mmul2 (splittingCoeffsRight n z) P) k
  = (binomial_average z (n - 1 - k) (xs P) k,
     binomial_average z (n - 1 - k) (ys P) k).
Proof.
  intros Hk. rewrite splittingCoeffsRight_closed.
  rewrite row2_mmul2 by (rewrite rows_de_casteljau_right; lia).
  rewrite cols_de_casteljau_right by lia.
  f_equal; apply (right_sum n k); assumption.
Qed.

Hypothesis z_range : 0 <= z <= 1.

End Halves.

(** ** The columns of the control points *)

Section BoxBound.

Import Bezier.

Lemma vcoeff_col0 P i : vcoeff (col0 P) i = xs P i.
Proof.
  unfold vcoeff, col0, xs, row2. revert i.
  induction P as [|p P IH]; intros [|i]; simpl; auto.
Qed.

Lemma vcoeff_col1 P i : vcoeff (col1 P) i = ys P i.
Proof.
  unfold vcoeff, col1, ys, row2. revert i.
  induction P as [|p P IH]; intros [|i]; simpl; auto.
Qed.

End BoxBound.

(** ** Subdivision: the two halves trace the curve *)

Section Subdivision.

Import Bezier.

Lemma binomial_average_0 z (p : nat -> R) k : binomial_average z 0 p k = p (k + 0)%nat.
Proof. unfold binomial_average, bernstein. simpl. rewrite C_0. ring. Qed.

Lemma binomial_average_shift z q (p : nat -> R) k :
  binomial_average z q p (k + 1) = binomial_average z q (fun j => p (j + 1)%nat) k.
Proof.
  unfold binomial_average. apply sum_n_ext. intros m _.
  replace (k + 1 + m)%nat with (k + m + 1)%nat by lia. reflexivity.
Qed.

Lemma binomial_average_ext z q (p p' : nat -> R) k :
  (forall m, (m <= q)%nat -> p (k + m)%nat = p' (k + m)%nat) ->
  binomial_average z q p k = binomial_average z q p' k.
Proof.
  intros H. unfold binomial_average. apply sum_n_ext. intros m Hm.
  rewrite H by lia. reflexivity.
Qed.

Lemma binomial_average_linear z q (p p' : nat -> R) (a b : R) k :
  binomial_average z q (fun j => a * p j + b * p' j) k
  = a * binomial_average z q p k + b * binomial_average z q p' k.
Proof.
  unfold binomial_average. rewrite <- !sum_n_scal, <- sum_n_plus.
  apply sum_n_ext. intros m _. ring.
Qed.

Lemma bezier_reference_average (P : MatrixX2d) (t : R) :
  (0 < length P)%nat ->
  bezier_reference P t
  = (binomial_average t (length P - 1) (xs P) 0,
     binomial_average t (length P - 1) (ys P) 0).
Proof.
  intros H. unfold bezier_reference, binomial_average, xs, ys.
  replace (S (length P - 1)) with (length P) by lia. reflexivity.
Qed.

Lemma curve_value_average (P : MatrixX2d) (t : R) :
  (0 < length P)%nat ->
  curve_value P t
  = (binomial_average t (length P - 1) (xs P) 0,
     binomial_average t (length P - 1) (ys P) 0).
Proof.
  intros H. unfold curve_value.
  rewrite valueAt_bernstein by (simpl; unfold rows; lia || reflexivity).
  now apply bezier_reference_average.
Qed.

(** The averages of the averages from the left end are the averages at the
    product of the two parameters. *)
Lemma left_subdivision z t :
  forall N (p : nat -> R),
    binomial_average t N (fun i => binomial_average z i p 0) 0
    = binomial_average (z * t) N p 0.
Proof.
  induction N as [|N IH]; intros p.
  - rewrite ?binomial_average_0; cbv beta; rewrite ?binomial_average_0;
    reflexivity.
  - rewrite (binomial_average_step t N), (binomial_average_step (z * t) N).
    rewrite (binomial_average_shift t N), (binomial_average_shift (z * t) N).
    rewrite (binomial_average_ext t N
               (fun j => binomial_average z (j + 1) p 0)
               (fun j => (1 - z) * binomial_average z j p 0
                         + z * binomial_average z j (fun i => p (i + 1)%nat) 0)).
    + rewrite binomial_average_linear, !IH. simpl. ring.
    + intros m _. simpl. replace (m + 1)%nat with (S m) by lia.
      rewrite binomial_average_step, binomial_average_shift. reflexivity.
Qed.

(** The same from the right end, at [z + (1 - z) t]. *)
Lemma right_subdivision z t :
  forall N (p : nat -> R),
    binomial_average t N (fun k => binomial_average z (N - k) p k) 0
    = binomial_average (z + (1 - z) * t) N p 0.
Proof.
  induction N as [|N IH]; intros p.
  - rewrite ?binomial_average_0; cbv beta; rewrite ?binomial_average_0;
    reflexivity.
  - rewrite (binomial_average_step t N),
            (binomial_average_step (z + (1 - z) * t) N).
    rewrite (binomial_average_shift t N),
            (binomial_average_shift (z + (1 - z) * t) N).
    rewrite (binomial_average_ext t N
               (fun k => binomial_average z (S N - k) p k)
               (fun k => (1 - z) * binomial_average z (N - k) p k
                         + z * binomial_average z (N - k)
                                 (fun i => p (i + 1)%nat) k)).
    + rewrite (binomial_average_ext t N
                 (fun j => binomial_average z (S N - (j + 1)) p (j + 1))
                 (fun k => binomial_average z (N - k)
                             (fun i => p (i + 1)%nat) k)).
      * rewrite binomial_average_linear, !IH. ring.
      * intros m _. simpl Nat.add.
        replace (S N - (m + 1))%nat with (N - m)%nat by lia.
        now rewrite binomial_average_shift.
    + intros m Hm. simpl Nat.add.
      replace (S N - m)%nat with (S (N - m)) by lia.
      rewrite binomial_average_step, binomial_average_shift. reflexivity.
Qed.

Lemma xs_split_left n z P i :
  (i < n)%nat ->
  xs (mmul2 (splittingCoeffsLeft n z) P) i = binomial_average z i (xs P) 0
  /\ ys (mmul2 (splittingCoeffsLeft n z) P) i = binomial_average z i (ys P) 0.
Proof.
  intros Hi. unfold xs at 1, ys at 1. rewrite row2_split_left by lia. split; reflexivity.
Qed.

Lemma xs_split_right n z P k :
  (k < n)%nat ->
  xs (mmul2 (splittingCoeffsRight n z) P) k
  = binomial_average z (n - 1 - k) (xs P) k
  /\ ys (mmul2 (splittingCoeffsRight n z) P) k
     = binomial_average z (n - 1 - k) (ys P) k.
Proof.
  intros Hk. unfold xs at 1, ys at 1. rewrite row2_split_right by lia. split; reflexivity.
Qed.

Lemma curve_value_split_left (P : MatrixX2d) (z t : R) :
  (0 < length P)%nat ->
  curve_value (mmul2 (splittingCoeffsLeft (length P) z) P) t
  = curve_value P (z * t).
Proof.
  intros H. rewrite !curve_value_average by (rewrite ?length_split_left; lia).
  rewrite length_split_left. rewrite <- !left_subdivision.
  f_equal; apply binomial_average_ext; intros m Hm; simpl Nat.add;
    now apply xs_split_left; lia.
Qed.

Lemma curve_value_split_right (P : MatrixX2d) (z t : R) :
  (0 < length P)%nat ->
  curve_value (mmul2 (splittingCoeffsRight (length P) z) P) t
  = curve_value P (z + (1 - z) * t).
Proof.
  intros H. rewrite !curve_value_average by (rewrite ?length_split_right; lia).
  rewrite length_split_right. rewrite <- !right_subdivision.
  f_equal; apply binomial_average_ext; intros m Hm; simpl Nat.add;
    now apply xs_split_right; lia.
Qed.

End Subdivision.

(** ** End points, reversal and the box of the control points *)

Section EndPoints.

Import Bezier.

Lemma bernstein_at_0 m k : bernstein m k 0 = if Nat.eqb k 0 then 1 else 0.
Proof.
  unfold bernstein. destruct k as [|k]; simpl Nat.eqb; cbv iota.
  - rewrite C_0, Rminus_0_r, pow1. simpl. ring.
  - rewrite pow_i by lia. ring.
Qed.

Lemma curve_value_at_0 (P : MatrixX2d) :
  (0 < length P)%nat -> curve_value P 0 = row2 P 0.
Proof.
  intros H. rewrite curve_value_average by lia. unfold binomial_average.
  rewrite (surjective_pairing (row2 P 0)).
  f_equal; (rewrite (sum_n_single _ _ 0%nat);
            [rewrite bernstein_at_0; simpl; unfold xs, ys; ring | lia |
             intros k _ Hk; rewrite bernstein_at_0;
             destruct (Nat.eqb_spec k 0); [lia | ring]]).
Qed.

Lemma curve_value_at_1 (P : MatrixX2d) :
  (0 < length P)%nat -> curve_value P 1 = row2 P (length P - 1).
Proof.
  intros H. rewrite curve_value_average by lia. unfold binomial_average.
  rewrite (surjective_pairing (row2 P (length P - 1))).
  f_equal; (rewrite (sum_n_single _ _ (length P - 1)%nat);
            [rewrite bernstein_at_1 by lia; rewrite Nat.eqb_refl;
             simpl; unfold xs, ys; ring | lia |
             intros k Hlt Hk; rewrite bernstein_at_1 by lia;
             destruct (Nat.eqb_spec (length P - 1) k); [lia | ring]]).
Qed.

Lemma bernstein_mirror m k t :
  (k <= m)%nat -> bernstein m k (1 - t) = bernstein m (m - k) t.
Proof.
  intros H. unfold bernstein.
  rewrite <- (pascal_step1 m k) by lia.
  replace (m - (m - k))%nat with k by lia.
  replace (1 - (1 - t)) with t by ring. ring.
Qed.

Lemma sum_n_rev (f : nat -> R) (n : nat) :
  sum_n f n = sum_n (fun k => f (n - 1 - k)%nat) n.
Proof.
  induction n as [|n IH]; [reflexivity|].
  pose proof (sum_n_shift (fun k => f (S n - 1 - k)%nat) n) as E.
  cbv beta in E.
  replace (S n - 1 - 0)%nat with n in E by lia.
  assert (E' : sum_n (fun m => f (S n - 1 - S m)%nat) n
               = sum_n (fun k => f (n - 1 - k)%nat) n).
  { apply sum_n_ext. intros k Hk. f_equal. lia. }
  rewrite E', <- IH in E. simpl sum_n at 1. lra.
Qed.

Lemma row2_rev (P : MatrixX2d) k :
  (k < length P)%nat -> row2 (rev P) k = row2 P (length P - 1 - k).
Proof.
  intros H. unfold row2. rewrite rev_nth by lia. f_equal. lia.
Qed.

Lemma curve_value_rev (P : MatrixX2d) (t : R) :
  curve_value (rev P) t = curve_value P (1 - t).
Proof.
  destruct (Nat.eq_dec (length P) 0) as [E|E].
  - apply length_zero_iff_nil in E. subst P. reflexivity.
  - rewrite !curve_value_average by (rewrite ?length_rev; lia).
    rewrite length_rev. unfold binomial_average.
    replace (S (length P - 1)) with (length P) by lia.
    f_equal; rewrite (sum_n_rev _ (length P)); apply sum_n_ext; intros k Hk;
      rewrite bernstein_mirror by lia; unfold xs, ys; simpl Nat.add;
      rewrite row2_rev by lia;
      replace (length P - 1 - (length P - 1 - k))%nat with k by lia;
      reflexivity.
Qed.

Lemma sum_n_le (f g : nat -> R) (n : nat) :
  (forall k, (k < n)%nat -> f k <= g k) -> sum_n f n <= sum_n g n.
Proof.
  induction n as [|n IH]; intros H; simpl; [lra|].
  specialize (IH ltac:(intros; apply H; lia)).
  specialize (H n ltac:(lia)). lra.
Qed.

Lemma fold_left_Rmin_le (l : list R) (a : R) :
  fold_left Rmin l a <= a /\ forall x, In x l -> fold_left Rmin l a <= x.
Proof.
  revert a. induction l as [|y l IH]; intros a; simpl.
  - split; [lra|tauto].
  - destruct (IH (Rmin a y)) as [H1 H2].
    pose proof (Rmin_l a y). pose proof (Rmin_r a y).
    split; [lra|]. intros x [<-|Hin]; [lra|auto].
Qed.

Lemma fold_left_Rmax_ge (l : list R) (a : R) :
  a <= fold_left Rmax l a /\ forall x, In x l -> x <= fold_left Rmax l a.
Proof.
  revert a. induction l as [|y l IH]; intros a; simpl.
  - split; [lra|tauto].
  - destruct (IH (Rmax a y)) as [H1 H2].
    pose proof (Rmax_l a y). pose proof (Rmax_r a y).
    split; [lra|]. intros x [<-|Hin]; [lra|auto].
Qed.

Lemma minCoeff_le (v : VectorXd) i :
  (i < length v)%nat -> minCoeff v <= vcoeff v i.
Proof.
  destruct v as [|x v]; simpl; [lia|]. intros H.
  destruct (fold_left_Rmin_le v x) as [H1 H2].
  destruct i as [|i]; [exact H1|].
  apply H2. unfold vcoeff. simpl. apply nth_In. lia.
Qed.

Lemma maxCoeff_ge (v : VectorXd) i :
  (i < length v)%nat -> vcoeff v i <= maxCoeff v.
Proof.
  destruct v as [|x v]; simpl; [lia|]. intros H.
  destruct (fold_left_Rmax_ge v x) as [H1 H2].
  destruct i as [|i]; [exact H1|].
  apply H2. unfold vcoeff. simpl. apply nth_In. lia.
Qed.

(** A weighted average with Bernstein weights lies between any two bounds
    of the values it averages. *)
Lemma binomial_average_between t q (p : nat -> R) k lo hi :
  0 <= t <= 1 ->
  (forall m, (m <= q)%nat -> lo <= p (k + m)%nat <= hi) ->
  lo <= binomial_average t q p k <= hi.
Proof.
  intros Ht H. unfold binomial_average.
  pose proof (bernstein_partition t q) as Hone.
  split.
  - replace lo with (sum_n (fun m => bernstein q m t * lo) (S q))
      by (rewrite sum_n_scal_r, Hone; ring).
    apply sum_n_le. intros m Hm.
    apply Rmult_le_compat_l; [now apply bernstein_nonneg|]. apply H. lia.
  - replace hi with (sum_n (fun m => bernstein q m t * hi) (S q))
      by (rewrite sum_n_scal_r, Hone; ring).
    apply sum_n_le. intros m Hm.
    apply Rmult_le_compat_l; [now apply bernstein_nonneg|]. apply H. lia.
Qed.

Lemma curve_value_in_bbox (P : MatrixX2d) (t : R) :
  (0 < length P)%nat -> 0 <= t <= 1 ->
  fst (box_min (bbox P)) <= fst (curve_value P t) <= fst (box_max (bbox P))
  /\ snd (box_min (bbox P)) <= snd (curve_value P t) <= snd (box_max (bbox P)).
Proof.
  intros H Ht. rewrite curve_value_average by lia.
  unfold MatrixX2d, Vector2d in *.
  unfold bbox. cbn [fst snd box_min box_max].
  split; apply binomial_average_between; try assumption; intros m Hm;
    simpl Nat.add.
  - rewrite <- vcoeff_col0. split.
    + apply minCoeff_le. unfold col0. rewrite length_map. lia.
    + apply maxCoeff_ge. unfold col0. rewrite length_map. lia.
  - rewrite <- vcoeff_col1. split.
    + apply minCoeff_le. unfold col1. rewrite length_map. lia.
    + apply maxCoeff_ge. unfold col1. rewrite length_map. lia.
Qed.

End EndPoints.

(** ** The derivative curve is the derivative *)

Section Differentiation.

Import Bezier.

Lemma binomial_average_derivable (p : nat -> R) :
  forall N k t,
    derivable_pt_lim (fun u => binomial_average u N p k) t
      (INR N * binomial_average t (N - 1) (fun j => p (j + 1)%nat - p j) k).
Proof.
  induction N as [|N IH]; intros k t.
  - apply (derivable_pt_lim_ext (fct_cte (p (k + 0)%nat))).
    + intros u. now rewrite binomial_average_0.
    + simpl INR. rewrite Rmult_0_l. apply derivable_pt_lim_const.
  - apply (derivable_pt_lim_ext
             (plus_fct
                (mult_fct (minus_fct (fct_cte 1) id)
                          (fun u => binomial_average u N p k))
                (mult_fct id (fun u => binomial_average u N p (k + 1))))).
    + intros u. unfold plus_fct, mult_fct, minus_fct, fct_cte, id.
      now rewrite binomial_average_step.
    + set (D := fun j => p (j + 1)%nat - p j).
      replace (INR (S N) * binomial_average t (S N - 1) D k)
        with (((0 - 1) * binomial_average t N p k
               + (fct_cte 1 t - id t)
                 * (INR N * binomial_average t (N - 1) D k))
              + (1 * binomial_average t N p (k + 1)
                 + id t * (INR N * binomial_average t (N - 1) D (k + 1)))).
      * apply derivable_pt_lim_plus.
        -- apply (derivable_pt_lim_mult
                    (minus_fct (fct_cte 1) id)
                    (fun u => binomial_average u N p k)).
           ++ apply derivable_pt_lim_minus;
                [apply derivable_pt_lim_const | apply derivable_pt_lim_id].
           ++ apply IH.
        -- apply (derivable_pt_lim_mult id
                    (fun u => binomial_average u N p (k + 1))).
           ++ apply derivable_pt_lim_id.
           ++ apply IH.
      * unfold fct_cte, id.
        replace (S N - 1)%nat with N by lia.
        pose proof (binomial_average_difference t N p k) as Hd.
        fold D in Hd.
        destruct N as [|N'].
        -- simpl INR. lra.
        -- replace (S N' - 1)%nat with N' by lia.
           pose proof (binomial_average_step t N' D k) as Hs.
           rewrite (S_INR (S N')).
           set (x := INR (S N')).
           set (dS := binomial_average t (S N') D k) in *.
           replace ((x + 1) * dS) with (dS + x * dS) by ring.
           rewrite <- Hd at 1. rewrite Hs. ring.
Qed.

Lemma binomial_average_scal z q (p : nat -> R) (a : R) k :
  binomial_average z q (fun j => a * p j) k = a * binomial_average z q p k.
Proof.
  unfold binomial_average. rewrite <- sum_n_scal.
  apply sum_n_ext. intros m _. ring.
Qed.

Lemma length_derivative_cp (P : MatrixX2d) :
  (2 <= length P)%nat -> length (derivative_cp P) = (length P - 1)%nat.
Proof.
  intros H. unfold derivative_cp, new_derivative. simpl N_.
  unfold rows. destruct (Nat.eqb_spec (length P) 1) as [E|E]; [lia|].
  simpl control_points_. unfold derivative_points. simpl N_. simpl control_points_.
  unfold rows, topRows, bottomRows.
  rewrite !length_map, length_combine, length_skipn, length_firstn. lia.
Qed.

Lemma row2_derivative_cp (P : MatrixX2d) j :
  (j + 1 < length P)%nat ->
  row2 (derivative_cp P) j
  = pscale (INR (length P - 1)) (psub (row2 P (j + 1)) (row2 P j)).
Proof.
  intros H. unfold derivative_cp, new_derivative. simpl N_.
  unfold rows. destruct (Nat.eqb_spec (length P) 1) as [E|E]; [lia|].
  simpl control_points_. unfold derivative_points. simpl N_. simpl control_points_.
  unfold rows, topRows, bottomRows, row2.
  unfold MatrixX2d, Vector2d, Point in *.
  set (A := skipn (length P - (length P - 1)) P).
  set (B := firstn (length P - 1) P).
  assert (HA : length A = (length P - 1)%nat)
    by (unfold A; rewrite length_skipn; lia).
  assert (HB : length B = (length P - 1)%nat)
    by (unfold B; rewrite length_firstn; lia).
  rewrite (nth_indep _ (0, 0)
             (pscale (INR (length P - 1)) (psub (0, 0) (0, 0))))
    by (rewrite !length_map, length_combine; lia).
  rewrite (map_nth (pscale (INR (length P - 1)))).
  rewrite (map_nth (fun pq : (R * R) * (R * R) => psub (fst pq) (snd pq))
             (combine A B) ((0, 0), (0, 0))).
  rewrite combine_nth by lia. simpl fst. simpl snd.
  unfold A, B. rewrite nth_skipn, nth_firstn.
  replace (j <? length P - 1)%nat with true
    by (symmetry; apply Nat.ltb_lt; lia).
  replace (length P - (length P - 1) + j)%nat with (j + 1)%nat by lia.
  reflexivity.
Qed.

Lemma curve_value_derivative_cp (P : MatrixX2d) (t : R) :
  (0 < length P)%nat ->
  curve_value (derivative_cp P) t
  = (INR (length P - 1)
     * binomial_average t (length P - 1 - 1)
         (fun j => xs P (j + 1) - xs P j) 0,
     INR (length P - 1)
     * binomial_average t (length P - 1 - 1)
         (fun j => ys P (j + 1) - ys P j) 0).
Proof.
  intros H. destruct (Nat.eq_dec (length P) 1) as [E|E].
  - destruct P as [|p [|q P]]; simpl in E; try lia.
    unfold derivative_cp, new_derivative. simpl.
    rewrite curve_value_1. f_equal; ring.
  - rewrite curve_value_average by (rewrite length_derivative_cp; lia).
    rewrite length_derivative_cp by lia.
    rewrite <- !binomial_average_scal.
    f_equal; apply binomial_average_ext; intros m Hm; simpl Nat.add;
      unfold xs, ys; rewrite row2_derivative_cp by lia; simpl; ring.
Qed.

Lemma curve_value_derivable (P : MatrixX2d) (t : R) :
  (0 < length P)%nat ->
  derivable_pt_lim (fun u => fst (curve_value P u)) t
                   (fst (curve_value (derivative_cp P) t))
  /\ derivable_pt_lim (fun u => snd (curve_value P u)) t
                      (snd (curve_value (derivative_cp P) t)).
Proof.
  intros H. rewrite curve_value_derivative_cp by lia. simpl fst. simpl snd.
  split.
  - apply (derivable_pt_lim_ext
             (fun u => binomial_average u (length P - 1) (xs P) 0)).
    + intros u. now rewrite curve_value_average by lia.
    + apply binomial_average_derivable.
  - apply (derivable_pt_lim_ext
             (fun u => binomial_average u (length P - 1) (ys P) 0)).
    + intros u. now rewrite curve_value_average by lia.
    + apply binomial_average_derivable.
Qed.

End Differentiation.

(** ** Evaluation at many parameters *)

Section ManyParameters.

Import Bezier.

Lemma map_vcoeff_seq {A} (g : R -> A) (l : list R) :
  map (fun k => g (vcoeff l k)) (seq 0 (length l)) = map g l.
Proof.
  induction l as [|x l IH]; [reflexivity|].
  simpl. f_equal. rewrite <- seq_shift, map_map. exact IH.
Qed.

Lemma vcoeff_vec_mat v B j :
  (j < cols B)%nat ->
  vcoeff (vec_mat v B) j = sum_n (fun k => vcoeff v k * coeff B k j) (length v).
Proof.
  intros H. unfold vec_mat, vcoeff at 1.
  now rewrite (nth_map_seq
                 (fun j => sum_n (fun k => vcoeff v k * coeff B k j) (length v))).
Qed.

Lemma length_pow_array t l : length (pow_array t l) = length l.
Proof. unfold pow_array. apply length_map. Qed.

Lemma vcoeff_pow_array t (l : list nat) k :
  (k < length l)%nat -> vcoeff (pow_array t l) k = t ^ nth k l 0%nat.
Proof.
  intros H. unfold vcoeff, pow_array.
  rewrite (nth_indep _ 0 (t ^ 0)) by (rewrite length_map; lia).
  apply (map_nth (fun k => t ^ k)).
Qed.

Lemma length_LinSpaced_0 n : length (LinSpaced n 0 (n - 1)) = n.
Proof. rewrite LinSpaced_0. apply length_seq. Qed.

Lemma valueAt_vector_row (c : Curve) (t_vector : list R) k :
  (k < length t_vector)%nat ->
  row2 (mmul2 (mmul (tabulate (length t_vector) (N_ c)
                       (fun k j => vcoeff t_vector k
                                   ^ nth j (LinSpaced (N_ c) 0 (N_ c - 1)) 0%nat))
                    (bernsteinCoeffs (N_ c)))
              (control_points_ c)) k
  = valueAt c (vcoeff t_vector k).
Proof.
  intros Hk.
  rewrite row2_mmul2 by (rewrite rows_mmul, rows_tabulate; lia).
  rewrite cols_mmul by (rewrite rows_tabulate; lia).
  unfold valueAt. destruct (Nat.eqb_spec (N_ c) 0) as [E|E].
  - rewrite E. reflexivity.
  - rewrite cols_bernsteinCoeffs by lia.
    unfold vec_mat2. rewrite length_vec_mat, cols_bernsteinCoeffs by lia.
    f_equal; apply sum_n_ext; intros j Hj;
      (rewrite coeff_mmul
         by (rewrite ?rows_tabulate, ?cols_bernsteinCoeffs; lia));
      rewrite cols_tabulate by lia;
      (rewrite vcoeff_vec_mat by (rewrite cols_bernsteinCoeffs; lia));
      rewrite length_pow_array, length_LinSpaced_0;
      f_equal; apply sum_n_ext; intros i Hi;
      rewrite coeff_tabulate by lia;
      (rewrite vcoeff_pow_array by (rewrite length_LinSpaced_0; lia));
      reflexivity.
Qed.

Lemma valueAt_vector_map (c : Curve) (t_vector : list R) :
  valueAt_vector c t_vector = map (valueAt c) t_vector.
Proof.
  unfold valueAt_vector. unfold rows. rewrite length_mmul2, rows_mmul, rows_tabulate.
  rewrite <- (map_vcoeff_seq (valueAt c) t_vector).
  apply map_ext_in. intros k Hk. apply in_seq in Hk.
  apply valueAt_vector_row. lia.
Qed.

End ManyParameters.

(** ** Moving a control point; tangent and normal; high derivatives *)

Section SmallFacts.

Import Bezier.

Lemma length_set_row (P : MatrixX2d) i p : length (set_row P i p) = length P.
Proof.
  revert i. induction P as [|q P IH]; intros i; [reflexivity|].
  destruct i; simpl; [reflexivity|]. now rewrite IH.
Qed.

Lemma row2_set_row_same (P : MatrixX2d) i p :
  (i < length P)%nat -> row2 (set_row P i p) i = p.
Proof.
  revert i. induction P as [|q P IH]; intros i H; simpl in H; [lia|].
  destruct i; [reflexivity|]. simpl. unfold row2 in *. simpl.
  apply IH. lia.
Qed.

Lemma row2_set_row_other (P : MatrixX2d) i j p :
  j <> i -> row2 (set_row P i p) j = row2 P j.
Proof.
  revert i j. induction P as [|q P IH]; intros i j H; [reflexivity|].
  destruct i, j; try reflexivity; try lia.
  simpl. unfold row2 in *. simpl. apply IH. lia.
Qed.

Lemma sum_n_update (f g : nat -> R) (n i : nat) :
  (i < n)%nat -> (forall k, (k < n)%nat -> k <> i -> g k = f k) ->
  sum_n g n = sum_n f n + (g i - f i).
Proof.
  intros Hi H.
  replace (sum_n g n) with (sum_n (fun k => f k + (g k - f k)) n)
    by (apply sum_n_ext; intros; ring).
  rewrite sum_n_plus. f_equal.
  rewrite (sum_n_single _ n i); [reflexivity|lia|].
  intros k Hk Hne. rewrite H by assumption. ring.
Qed.

Lemma norm_normalized (p : Vector2d) : 0 < norm p -> norm (normalized p) = 1.
Proof.
  intros H. unfold normalized, pdiv. unfold norm at 1. simpl.
  assert (Hs : norm p * norm p = fst p * fst p + snd p * snd p).
  { unfold norm. apply sqrt_sqrt. nra. }
  replace (fst p / norm p * (fst p / norm p) + snd p / norm p * (snd p / norm p))
    with ((fst p * fst p + snd p * snd p) / (norm p * norm p)) by (field; lra).
  rewrite <- Hs.
  replace (norm p * norm p / (norm p * norm p)) with 1 by (field; lra).
  apply sqrt_1.
Qed.

Lemma norm_quarter_turn (p : Vector2d) : norm (- snd p, fst p) = norm p.
Proof. unfold norm. simpl. f_equal. ring. Qed.

Lemma norm_zero_vector (p : Vector2d) : norm p = 0 -> p = (0, 0).
Proof.
  unfold norm. intros H. apply sqrt_eq_0 in H; [|nra].
  destruct p as [x y]. simpl in H.
  assert (x = 0) by nra. assert (y = 0) by nra. now subst.
Qed.

Lemma derivative_cp_single (p : Point) : derivative_cp [p] = [(0, 0)].
Proof. reflexivity. Qed.

Lemma iter_derivative_cp_length (P : MatrixX2d) :
  forall k, (k < length P)%nat ->
    length (Nat.iter k derivative_cp P) = (length P - k)%nat.
Proof.
  induction k as [|k IH]; intros H; simpl; [lia|].
  rewrite length_derivative_cp; rewrite IH by lia; lia.
Qed.

Lemma iter_derivative_cp_zero (P : MatrixX2d) :
  forall n, (1 <= length P <= n)%nat -> Nat.iter n derivative_cp P = [(0, 0)].
Proof.
  intros n [H1 H2].
  replace n with ((n - length P) + S (length P - 1))%nat by lia.
  generalize (n - length P)%nat as j.
  assert (E : Nat.iter (S (length P - 1)) derivative_cp P = [(0, 0)]).
  { simpl.
    pose proof (iter_derivative_cp_length P (length P - 1) ltac:(lia)) as Hl.
    destruct (Nat.iter (length P - 1) derivative_cp P) as [|p [|q l]];
      simpl in Hl; try lia.
    reflexivity. }
  induction j as [|j IH]; [exact E|].
  simpl Nat.add. simpl Nat.iter. simpl Nat.iter in IH. rewrite IH. reflexivity.
Qed.

End SmallFacts.

(** ** Straight segments: length and its inversion *)

Section Segments.

Import Bezier.

Variable lg : LegendreGauss.table.
Variables p q : Point.

Lemma line_speed t : speed [p; q] t = norm (psub q p).
Proof. unfold speed. now rewrite derivative_cp_2, curve_value_1. Qed.


Lemma line_length t1 t2 :
  arc_length lg [p; q] t1 t2
  = sum_n (vcoeff (LegendreGauss.weights lg)) (LegendreGauss.N lg)
    * norm (psub q p) * (t2 - t1) / 2.
Proof.
  unfold arc_length. f_equal. f_equal. rewrite <- sum_n_scal_r.
  apply sum_n_ext. intros k _. now rewrite line_speed.
Qed.

Hypothesis weights_sum :
  sum_n (vcoeff (LegendreGauss.weights lg)) (LegendreGauss.N lg) = 2.

Lemma line_length_exact t1 t2 :
  arc_length lg [p; q] t1 t2 = norm (psub q p) * (t2 - t1).
Proof. rewrite line_length, weights_sum. field. Qed.




End Segments.

(** ** Quadratic and cubic curves in closed form *)

Section ClosedForms.

Import Bezier.

Lemma bezier_reference_3 (a b c : Point) (t : R) :
  bezier_reference [a; b; c] t
  = ((1 - t) ^ 2 * fst a + 2 * t * (1 - t) * fst b + t ^ 2 * fst c,
     (1 - t) ^ 2 * snd a + 2 * t * (1 - t) * snd b + t ^ 2 * snd c).
Proof.
  unfold bezier_reference, bernstein, C, row2. simpl. f_equal; field.
Qed.

Lemma bezier_reference_4 (a b c d : Point) (t : R) :
  bezier_reference [a; b; c; d] t
  = ((1 - t) ^ 3 * fst a + 3 * t * (1 - t) ^ 2 * fst b
     + 3 * t ^ 2 * (1 - t) * fst c + t ^ 3 * fst d,
     (1 - t) ^ 3 * snd a + 3 * t * (1 - t) ^ 2 * snd b
     + 3 * t ^ 2 * (1 - t) * snd c + t ^ 3 * snd d).
Proof.
  unfold bezier_reference, bernstein, C, row2. simpl. f_equal; field.
Qed.

Lemma manipulate_ratio_2 t :
  0 < t < 1 ->
  Rabs ((t ^ 2 + (1 - t) ^ 2 - 1) / (t ^ 2 + (1 - t) ^ 2))
  = 2 * t * (1 - t) / (t ^ 2 + (1 - t) ^ 2)
  /\ 0 < t ^ 2 + (1 - t) ^ 2.
Proof.
  intros Ht. assert (Hd : 0 < t ^ 2 + (1 - t) ^ 2) by nra.
  split; [|exact Hd].
  replace ((t ^ 2 + (1 - t) ^ 2 - 1) / (t ^ 2 + (1 - t) ^ 2))
    with (- (2 * t * (1 - t) / (t ^ 2 + (1 - t) ^ 2))) by (field; lra).
  rewrite Rabs_Ropp. apply Rabs_pos_eq.
  apply Rmult_le_pos; [nra|]. left. now apply Rinv_0_lt_compat.
Qed.

Lemma manipulate_ratio_3 t :
  0 < t < 1 ->
  Rabs ((t ^ 3 + (1 - t) ^ 3 - 1) / (t ^ 3 + (1 - t) ^ 3))
  = 3 * t * (1 - t) / (t ^ 3 + (1 - t) ^ 3)
  /\ 0 < t ^ 3 + (1 - t) ^ 3.
Proof.
  intros Ht.
  assert (Hd : 0 < t ^ 3 + (1 - t) ^ 3).
  { replace (t ^ 3 + (1 - t) ^ 3) with (1 - 3 * (t * (1 - t))) by ring. nra. }
  split; [|exact Hd].
  replace ((t ^ 3 + (1 - t) ^ 3 - 1) / (t ^ 3 + (1 - t) ^ 3))
    with (- (3 * t * (1 - t) / (t ^ 3 + (1 - t) ^ 3))) by (field; lra).
  rewrite Rabs_Ropp. apply Rabs_pos_eq.
  apply Rmult_le_pos; [nra|]. left. now apply Rinv_0_lt_compat.
Qed.

Lemma manipulateCurvature_quadratic (c : Curve) (a b d : Point) (t : R)
    (point : Point) :
  N_ c = 3%nat -> control_points_ c = [a; b; d] -> 0 < t < 1 ->
  exists A,
    manipulateCurvature t point c
    = (Returns tt, resetCache (set_control_points c [a; A; d]))
    /\ bezier_reference [a; A; d] t = point.
Proof.
  intros HN HP Ht. destruct (manipulate_ratio_2 t Ht) as [Hr Hd].
  unfold manipulateCurvature. rewrite HN, HP. simpl Nat.ltb. simpl orb. cbv iota.
  simpl Nat.sub. rewrite Hr.
  eexists. split; [reflexivity|].
  rewrite bezier_reference_3. unfold psub, pdiv, padd, pscale, row2. simpl.
  destruct point as [x y]. simpl. f_equal; field; lra.
Qed.

Lemma manipulateCurvature_cubic (c : Curve) (a b d e : Point) (t : R)
    (point : Point) :
  N_ c = 4%nat -> control_points_ c = [a; b; d; e] -> 0 < t < 1 ->
  exists A1 A2,
    manipulateCurvature t point c
    = (Returns tt, resetCache (set_control_points c [a; A1; A2; e]))
    /\ bezier_reference [a; A1; A2; e] t = point.
Proof.
  intros HN HP Ht. destruct (manipulate_ratio_3 t Ht) as [Hr Hd].
  unfold manipulateCurvature. rewrite HN, HP. simpl Nat.ltb. simpl orb. cbv iota.
  simpl Nat.sub. rewrite Hr.
  rewrite (valueAt_bernstein c) by (rewrite ?HN, ?HP; simpl; unfold rows; simpl; lia).
  rewrite HP.
  eexists. eexists. split; [reflexivity|].
  rewrite !bezier_reference_4. unfold psub, pdiv, padd, pscale, row2. simpl.
  destruct point as [x y]. simpl. f_equal; field; lra.
Qed.

End ClosedForms.

(** ** Boxes and distances *)

Section BoxGeometry.

Import Bezier.

Lemma Rleb_le x y : Rleb x y = true -> x <= y.
Proof. unfold Rleb. destruct (Rle_dec x y); [auto|discriminate]. Qed.

Lemma Rltb_lt x y : Rltb x y = true -> x < y.
Proof. unfold Rltb. destruct (Rlt_dec x y); [auto|discriminate]. Qed.

Lemma Rltb_ge x y : Rltb x y = false -> ~ x < y.
Proof. unfold Rltb. destruct (Rlt_dec x y); [discriminate|auto]. Qed.

Lemma norm_bound (p : Vector2d) (w h : R) :
  Rabs (fst p) <= w -> Rabs (snd p) <= h -> norm p <= sqrt (w * w + h * h).
Proof.
  intros Hw Hh. unfold norm. apply sqrt_le_1_alt.
  pose proof (Rabs_pos (fst p)). pose proof (Rabs_pos (snd p)).
  assert (fst p * fst p = Rabs (fst p) * Rabs (fst p)).
  { unfold Rabs. destruct (Rcase_abs (fst p)); ring. }
  assert (snd p * snd p = Rabs (snd p) * Rabs (snd p)).
  { unfold Rabs. destruct (Rcase_abs (snd p)); ring. }
  nra.
Qed.

Lemma norm_triangle (u v : Vector2d) : norm (padd u v) <= norm u + norm v.
Proof.
  pose proof (norm_nonneg u) as Hu. pose proof (norm_nonneg v) as Hv.
  assert (Eu : norm u * norm u = fst u * fst u + snd u * snd u)
    by (unfold norm; apply sqrt_sqrt; nra).
  assert (Ev : norm v * norm v = fst v * fst v + snd v * snd v)
    by (unfold norm; apply sqrt_sqrt; nra).
  rewrite <- (sqrt_square (norm u + norm v)) by lra.
  unfold norm at 1. apply sqrt_le_1_alt. unfold padd. simpl.
  assert (Hcs : fst u * fst v + snd u * snd v <= norm u * norm v).
  { destruct (Rle_dec (fst u * fst v + snd u * snd v) 0) as [Hn|Hp].
    - pose proof (Rmult_le_pos _ _ Hu Hv). lra.
    - apply Rnot_le_lt in Hp.
      apply Rsqr_incr_0_var; [|now apply Rmult_le_pos].
      unfold Rsqr.
      replace (norm u * norm v * (norm u * norm v))
        with ((norm u * norm u) * (norm v * norm v)) by ring.
      rewrite Eu, Ev.
      pose proof (Rle_0_sqr (fst u * snd v - snd u * fst v)) as Hsq.
      unfold Rsqr in Hsq. nra. }
  nra.
Qed.

Lemma in_box_distance (b : AlignedBox2d) (y z : Vector2d) :
  in_box b y -> in_box b z -> norm (psub z y) <= norm (diagonal b).
Proof.
  intros [Hy1 Hy2] [Hz1 Hz2]. unfold diagonal.
  set (d := psub (box_max b) (box_min b)).
  assert (Hw : 0 <= fst d) by (unfold d, psub; simpl; lra).
  assert (Hh : 0 <= snd d) by (unfold d, psub; simpl; lra).
  replace (norm d) with (sqrt (fst d * fst d + snd d * snd d)) by reflexivity.
  apply norm_bound; unfold d, psub; simpl; apply Rabs_le; lra.
Qed.

Lemma center_distance (b : AlignedBox2d) (y : Vector2d) :
  in_box b y -> norm (psub (center b) y) <= norm (diagonal b) / 2.
Proof.
  intros [Hy1 Hy2]. unfold diagonal.
  set (d := psub (box_max b) (box_min b)).
  assert (Hw : 0 <= fst d) by (unfold d, psub; simpl; lra).
  assert (Hh : 0 <= snd d) by (unfold d, psub; simpl; lra).
  replace (norm d / 2)
    with (sqrt (fst d / 2 * (fst d / 2) + snd d / 2 * (snd d / 2))).
  - apply norm_bound; unfold d, center, pdiv, padd, psub; simpl;
      apply Rabs_le; lra.
  - unfold norm.
    replace (fst d / 2 * (fst d / 2) + snd d / 2 * (snd d / 2))
      with ((fst d * fst d + snd d * snd d) * (/ 2 * / 2)) by field.
    rewrite sqrt_mult_alt by nra.
    rewrite sqrt_square by lra. field.
Qed.

Lemma first_row_in_bbox (A : MatrixX2d) :
  (0 < length A)%nat -> in_box (bbox A) (row2 A 0).
Proof.
  intros H. unfold in_box, bbox. simpl.
  change (fst (row2 A 0)) with (xs A 0). change (snd (row2 A 0)) with (ys A 0).
  rewrite <- vcoeff_col0, <- vcoeff_col1.
  repeat split;
    (apply minCoeff_le || apply maxCoeff_ge);
    unfold col0, col1; rewrite length_map; exact H.
Qed.

(** The centre of a box is near every point of a box that meets it. *)
Lemma center_near_other (bA bB : AlignedBox2d) (yA yB : Vector2d) :
  intersects bA bB = true -> in_box bA yA -> in_box bB yB ->
  norm (psub (center bA) yB) <= norm (diagonal bA) / 2 + norm (diagonal bB).
Proof.
  intros Hi HA HB. unfold intersects in Hi.
  apply andb_prop in Hi as [H1 H2].
  apply andb_prop in H1 as [Hx1 Hy1]. apply andb_prop in H2 as [Hx2 Hy2].
  apply Rleb_le in Hx1, Hy1, Hx2, Hy2.
  set (z := (Rmax (fst (box_min bA)) (fst (box_min bB)),
             Rmax (snd (box_min bA)) (snd (box_min bB)))).
  destruct HA as [HA1 HA2]. destruct HB as [HB1 HB2].
  assert (HzA : in_box bA z).
  { unfold in_box, z. simpl. repeat split;
      try apply Rmax_l; apply Rmax_lub; lra. }
  assert (HzB : in_box bB z).
  { unfold in_box, z. simpl. repeat split;
      try apply Rmax_r; apply Rmax_lub; lra. }
  replace (psub (center bA) yB) with (padd (psub (center bA) z) (psub z yB))
    by (unfold padd, psub; simpl; f_equal; ring).
  eapply Rle_trans; [apply norm_triangle|].
  apply Rplus_le_compat.
  - now apply center_distance.
  - apply in_box_distance; [split; assumption|assumption].
Qed.

End BoxGeometry.

(** ** What the intersection loop reports *)

Section IntersectionSound.

Import Bezier.

Variables P Q : MatrixX2d.
Variable epsilon : R.
Hypothesis P_points : (0 < length P)%nat.
Hypothesis Q_points : (0 < length Q)%nat.

Lemma piece_of_refl (X : MatrixX2d) : piece_of X X.
Proof.
  split; [reflexivity|]. exists 0, 1. repeat split; try lra.
  intros t. f_equal. ring.
Qed.

Lemma piece_of_left (X A : MatrixX2d) :
  (0 < length X)%nat -> piece_of X A ->
  piece_of X (mmul2 (splittingCoeffsLeft (length A) (1 / 2)) A).
Proof.
  intros HX [Hl (a & b & Ha & Hab & Hb & H)]. split.
  - rewrite length_split_left. exact Hl.
  - exists a, ((a + b) / 2). repeat split; try lra.
    intros t. rewrite curve_value_split_left by lia. rewrite H. f_equal. field.
Qed.

Lemma piece_of_right (X A : MatrixX2d) :
  (0 < length X)%nat -> piece_of X A ->
  piece_of X (mmul2 (splittingCoeffsRight (length A) (1 / 2)) A).
Proof.
  intros HX [Hl (a & b & Ha & Hab & Hb & H)]. split.
  - rewrite length_split_right. exact Hl.
  - exists ((a + b) / 2), b. repeat split; try lra.
    intros t. rewrite curve_value_split_right by lia. rewrite H. f_equal. field.
Qed.

Lemma piece_start (X A : MatrixX2d) :
  (0 < length X)%nat -> piece_of X A ->
  exists s, 0 <= s <= 1 /\ row2 A 0 = curve_value X s.
Proof.
  intros HX [Hl (a & b & Ha & Hab & Hb & H)].
  exists a. split; [lra|].
  rewrite <- curve_value_at_0 by lia. rewrite H. f_equal. ring.
Qed.

Lemma separated_snoc (points : list Vector2d) (x : Vector2d) :
  separated epsilon points ->
  (forall p, In p points -> epsilon <= norm (psub p x)) ->
  separated epsilon (points ++ [x]).
Proof.
  unfold separated. induction 1 as [|p l Hp Hl IH]; intros H; simpl.
  - constructor; constructor.
  - constructor.
    + apply Forall_app. split; [exact Hp|].
      constructor; [|constructor]. apply H. now left.
    + apply IH. intros r Hr. apply H. now right.
Qed.

Lemma forallb_far (c : Vector2d) (points : list Vector2d) :
  forallb (fun point => negb (Rltb (norm (psub point c)) epsilon)) points = true ->
  forall p, In p points -> epsilon <= norm (psub p c).
Proof.
  intros H p Hp. rewrite forallb_forall in H. specialize (H p Hp).
  apply negb_true_iff, Rltb_ge in H. lra.
Qed.

Lemma split_sound A B pairs :
  pair_of_pieces P Q (A, B) -> Forall (pair_of_pieces P Q) pairs ->
  Forall (pair_of_pieces P Q)
    (rev (flat_map
            (fun b => map (fun a => (a, b))
               (if Rltb (norm (diagonal (bbox A))) epsilon then [A]
                else [mmul2 (splittingCoeffsRight (length P) (1 / 2)) A;
                      mmul2 (splittingCoeffsLeft (length P) (1 / 2)) A]))
            (if Rltb (norm (diagonal (bbox B))) epsilon then [B]
             else [mmul2 (splittingCoeffsRight (rows B) (1 / 2)) B;
                   mmul2 (splittingCoeffsLeft (rows B) (1 / 2)) B]))
     ++ pairs).
Proof.
  intros [HA HB] Hpairs. simpl in HA, HB.
  assert (HlA : length A = length P) by (destruct HA; assumption).
  assert (SA : Forall (piece_of P)
                 (if Rltb (norm (diagonal (bbox A))) epsilon then [A]
                  else [mmul2 (splittingCoeffsRight (length P) (1 / 2)) A;
                        mmul2 (splittingCoeffsLeft (length P) (1 / 2)) A])).
  { destruct (Rltb (norm (diagonal (bbox A))) epsilon).
    - apply Forall_cons; [exact HA|apply Forall_nil].
    - rewrite <- HlA.
      apply Forall_cons; [now apply piece_of_right|].
      apply Forall_cons; [now apply piece_of_left|apply Forall_nil]. }
  assert (SB : Forall (piece_of Q)
                 (if Rltb (norm (diagonal (bbox B))) epsilon then [B]
                  else [mmul2 (splittingCoeffsRight (rows B) (1 / 2)) B;
                        mmul2 (splittingCoeffsLeft (rows B) (1 / 2)) B])).
  { destruct (Rltb (norm (diagonal (bbox B))) epsilon).
    - apply Forall_cons; [exact HB|apply Forall_nil].
    - unfold rows.
      apply Forall_cons; [now apply piece_of_right|].
      apply Forall_cons; [now apply piece_of_left|apply Forall_nil]. }
  apply Forall_app. split; [|exact Hpairs].
  apply Forall_rev. apply Forall_flat_map.
  eapply Forall_impl; [|exact SB]. intros b Hb.
  apply Forall_map. eapply Forall_impl; [|exact SA]. intros a Ha'.
  split; assumption.
Qed.

Lemma body_sound A B pairs points :
  pair_of_pieces P Q (A, B) -> Forall (pair_of_pieces P Q) pairs ->
  Forall (reported P Q epsilon) points -> separated epsilon points ->
  let result := intersections_body (length P) epsilon A B pairs points in
  Forall (pair_of_pieces P Q) (fst result)
  /\ Forall (reported P Q epsilon) (snd result) /\ separated epsilon (snd result).
Proof.
  intros HAB Hpairs Hpts Hsep. cbv zeta.
  pose proof HAB as [HA HB]. simpl in HA, HB.
  destruct (intersects (bbox A) (bbox B)) eqn:Hi.
  - destruct (Rlt_dec (norm (diagonal (bbox A))) epsilon) as [Ha|Ha];
      [destruct (Rlt_dec (norm (diagonal (bbox B))) epsilon) as [Hb|Hb]|].
    + rewrite body_accept by assumption. simpl fst. simpl snd.
      split; [exact Hpairs|].
      destruct (forallb _ points) eqn:Hfar; [|split; assumption].
      split.
      * apply Forall_app. split; [exact Hpts|]. constructor; [|constructor].
        destruct (piece_start P A P_points HA) as (s & Hs & Es).
        destruct (piece_start Q B Q_points HB) as (u & Hu & Eu).
        assert (LA : (0 < length A)%nat) by (destruct HA; lia).
        assert (LB : (0 < length B)%nat) by (destruct HB; lia).
        split.
        -- exists s. split; [exact Hs|]. rewrite <- Es.
           pose proof (center_distance (bbox A) (row2 A 0)
                         (first_row_in_bbox A LA)).
           lra.
        -- exists u. split; [exact Hu|]. rewrite <- Eu.
           pose proof (center_near_other (bbox A) (bbox B) (row2 A 0) (row2 B 0)
                         Hi (first_row_in_bbox A LA) (first_row_in_bbox B LB)).
           lra.
      * apply separated_snoc; [exact Hsep|]. now apply forallb_far.
    + rewrite body_split by (try assumption; tauto). simpl fst. simpl snd.
      split; [|split; assumption]. now apply split_sound.
    + rewrite body_split by (try assumption; tauto). simpl fst. simpl snd.
      split; [|split; assumption]. now apply split_sound.
  - rewrite body_discard by assumption. simpl. repeat split; assumption.
Qed.

Lemma intersections_while_sound :
  forall fuel pairs points r,
    Forall (pair_of_pieces P Q) pairs ->
    Forall (reported P Q epsilon) points -> separated epsilon points ->
    intersections_while fuel (length P) epsilon pairs points = Returns r ->
    Forall (reported P Q epsilon) r /\ separated epsilon r.
Proof.
  induction fuel as [|fuel IH]; intros pairs points r Hpairs Hpts Hsep Hr.
  - destruct pairs as [|[A B] pairs]; simpl in Hr; [|discriminate].
    inversion Hr; subst. split; assumption.
  - destruct pairs as [|[A B] pairs].
    + simpl in Hr. inversion Hr; subst. split; assumption.
    + rewrite intersections_step in Hr.
      inversion Hpairs as [|x l Hab Hrest]; subst.
      destruct (body_sound A B pairs points Hab Hrest Hpts Hsep)
        as (H1 & H2 & H3).
      exact (IH _ _ r H1 H2 H3 Hr).
Qed.

End IntersectionSound.

(** ** What the Sturm isolator reports *)

Section SturmSound.

Import Sturm.

Variable sturm_chain : MatrixXd.
Variable root_type : Z.
Variable epsilon : R.

Lemma iterate_state a b flag st :
  let st' := iterate sturm_chain root_type epsilon (a, b, flag) st in
  st' = st
  \/ (to_uint (interval sturm_chain a b) <> 0%Z
      /\ (a + b) / 2 - a < epsilon
      /\ st' = (fst st, snd st ++ [(a + (a + b) / 2) / 2]))
  \/ (exists flag', st' = split_item a ((a + b) / 2) b flag' st).
Proof.
  cbv zeta.
  destruct (Z.eq_dec (to_uint (interval sturm_chain a b)) 0) as [E|E].
  - left. now apply iterate_discard.
  - destruct (Rlt_dec ((a + b) / 2 - a) epsilon) as [Hw|Hw].
    + right. left. split; [exact E|]. split; [exact Hw|].
      now apply iterate_emit.
    + unfold iterate. rewrite (Rltb_false _ _ Hw). rewrite andb_false_r.
      destruct (to_uint (interval sturm_chain a b) =? 0)%Z; [now left|].
      destruct (to_uint (interval sturm_chain a b) =? 1)%Z;
        [|right; right; now exists flag].
      destruct (negb (root_type =? All)%Z && negb flag);
        [|right; right; now exists flag].
      destruct (Z.land root_type All =? 0)%Z;
        [|right; right; now exists flag].
      match goal with
      | |- context [if negb ?f then _ else _] => destruct f
      end; simpl negb; cbv iota.
      * right. right. eexists. reflexivity.
      * now left.
Qed.

Lemma iterate_sound a b flag st :
  within_unit (a, b, flag) ->
  Forall within_unit (fst st) ->
  Forall (emitted_from sturm_chain epsilon) (snd st) ->
  let st' := iterate sturm_chain root_type epsilon (a, b, flag) st in
  Forall within_unit (fst st')
  /\ Forall (emitted_from sturm_chain epsilon) (snd st').
Proof.
  intros Hab Hst Hrs. cbv zeta. unfold within_unit in Hab. simpl in Hab.
  destruct (iterate_state a b flag st) as [E|[(HV & Hw & E)|[flag' E]]];
    rewrite E.
  - split; assumption.
  - simpl. split; [assumption|].
    apply Forall_app. split; [assumption|].
    constructor; [|constructor].
    exists a, b. repeat split; try assumption; lra.
  - unfold split_item. simpl. split; [|assumption].
    constructor; [unfold within_unit; simpl; lra|].
    constructor; [unfold within_unit; simpl; lra|assumption].
Qed.

Lemma roots_while_sound :
  forall fuel st r,
    Forall within_unit (fst st) ->
    Forall (emitted_from sturm_chain epsilon) (snd st) ->
    roots_while fuel sturm_chain root_type epsilon st = Returns r ->
    Forall (emitted_from sturm_chain epsilon) r.
Proof.
  induction fuel as [|fuel IH]; intros [intervals rs] r Hst Hrs Hr;
    simpl fst in *; simpl snd in *.
  - destruct intervals as [|[[a b] flag] rest]; simpl in Hr; [|discriminate].
    now inversion Hr; subst.
  - destruct intervals as [|[[a b] flag] rest].
    + simpl in Hr. now inversion Hr; subst.
    + rewrite roots_while_step in Hr.
      inversion Hst as [|x l Hab Hrest]; subst.
      unfold within_unit in Hab. simpl in Hab.
      destruct (iterate_sound a ((a + b) / 2) flag (rest, rs)) as [H1 H2];
        try assumption; [unfold within_unit; simpl; lra|].
      destruct (iterate_sound ((a + b) / 2) b flag
                  (iterate sturm_chain root_type epsilon (a, (a + b) / 2, flag)
                           (rest, rs))) as [H3 H4];
        try assumption; [unfold within_unit; simpl; lra|].
      exact (IH _ r H3 H4 Hr).
Qed.

Lemma emitted_in_unit r :
  emitted_from sturm_chain epsilon r -> 0 <= r <= 1.
Proof. intros (a & b & Ha & Hab & Hb & _ & _ & ->). lra. Qed.

End SturmSound.

(** ** The Sturm isolator on a polynomial of degree one *)

Section SturmLinear.

Import Sturm.

Variables p0 p1 : R.
Variable epsilon : R.
Hypothesis p0_nonzero : p0 <> 0.
Hypothesis epsilon_pos : 0 < epsilon.

Lemma interval_additive (sturm_chain : MatrixXd) a b c :
  (interval sturm_chain a b + interval sturm_chain b c)%Z
  = interval sturm_chain a c.
Proof. unfold interval. ring. Qed.

Lemma linear_interval a b :
  a <= b ->
  interval (linear_chain p0 p1) a b = 0%Z
  \/ (interval (linear_chain p0 p1) a b = 1%Z
      /\ a <= - p1 / p0 <= b).
Proof.
  intros Hab.
  assert (Hr : p0 * (- p1 / p0) = - p1) by (field; assumption).
  set (r := - p1 / p0) in *.
  unfold linear_chain, interval, mat_vec, power_basis, cols, rows, LinSpaced,
    pow_array.
  simpl. unfold coeff, vcoeff. simpl. unfold signbit.
  replace (0 + p0 * (a * 1) + p1 * 1) with (p0 * a + p1) by ring.
  replace (0 + p0 * (b * 1) + p1 * 1) with (p0 * b + p1) by ring.
  replace (0 + 0 * (a * 1) + p0 * 1) with p0 by ring.
  replace (0 + 0 * (b * 1) + p0 * 1) with p0 by ring.
  destruct (Rlt_dec p0 0) as [Hn|Hp].
  - rewrite (Rltb_true p0 0 Hn).
    destruct (Rlt_dec (p0 * a + p1) 0) as [Ha|Ha].
    + rewrite (Rltb_true _ _ Ha).
      rewrite (Rltb_true (p0 * b + p1) 0) by nra. now left.
    + rewrite (Rltb_false _ _ Ha).
      destruct (Rlt_dec (p0 * b + p1) 0) as [Hb|Hb].
      * rewrite (Rltb_true _ _ Hb). right. split; [reflexivity|].
        split; nra.
      * rewrite (Rltb_false _ _ Hb). now left.
  - rewrite (Rltb_false p0 0 Hp). assert (0 < p0) by lra.
    destruct (Rlt_dec (p0 * b + p1) 0) as [Hb|Hb].
    + rewrite (Rltb_true _ _ Hb).
      rewrite (Rltb_true (p0 * a + p1) 0) by nra. now left.
    + rewrite (Rltb_false _ _ Hb).
      destruct (Rlt_dec (p0 * a + p1) 0) as [Ha|Ha].
      * rewrite (Rltb_true _ _ Ha). right. split; [reflexivity|].
        split; nra.
      * rewrite (Rltb_false _ _ Ha). now left.
Qed.

Lemma linear_interval_unit :
  (0 < p0 -> 0 < - p1 / p0 <= 1) -> (p0 < 0 -> 0 <= - p1 / p0 < 1) ->
  interval (linear_chain p0 p1) 0 1 = 1%Z.
Proof.
  intros Hpos Hneg.
  assert (Hr : p0 * (- p1 / p0) = - p1) by (field; assumption).
  set (r := - p1 / p0) in *.
  unfold linear_chain, interval, mat_vec, power_basis, cols, rows, LinSpaced,
    pow_array.
  simpl. unfold coeff, vcoeff. simpl. unfold signbit.
  replace (0 + p0 * (0 * 1) + p1 * 1) with p1 by ring.
  replace (0 + p0 * (1 * 1) + p1 * 1) with (p0 + p1) by ring.
  replace (0 + 0 * (0 * 1) + p0 * 1) with p0 by ring.
  replace (0 + 0 * (1 * 1) + p0 * 1) with p0 by ring.
  destruct (Rlt_dec p0 0) as [Hn|Hp].
  - specialize (Hneg Hn). rewrite (Rltb_true p0 0 Hn).
    rewrite (Rltb_false p1 0) by nra.
    rewrite (Rltb_true (p0 + p1) 0) by nra. reflexivity.
  - assert (H0 : 0 < p0) by lra. specialize (Hpos H0).
    rewrite (Rltb_false p0 0 Hp).
    rewrite (Rltb_true p1 0) by nra.
    rewrite (Rltb_false (p0 + p1) 0) by nra. reflexivity.
Qed.

Lemma linear_interval_outside :
  - p1 / p0 < 0 \/ 1 < - p1 / p0 ->
  interval (linear_chain p0 p1) 0 1 = 0%Z.
Proof.
  intros Hout.
  destruct (linear_interval 0 1 ltac:(lra)) as [E|[_ H]]; [exact E|lra].
Qed.

Lemma linear_iterate a b flag st :
  a <= b ->
  Forall ordered_item (fst st) -> Forall (close_to_root p0 p1 epsilon) (snd st) ->
  let st' := iterate (linear_chain p0 p1) All epsilon (a, b, flag) st in
  Forall ordered_item (fst st') /\ Forall (close_to_root p0 p1 epsilon) (snd st')
  /\ (stack_count (linear_chain p0 p1) (fst st')
      + Z.of_nat (length (snd st')))%Z
     = (stack_count (linear_chain p0 p1) (fst st)
        + Z.of_nat (length (snd st))
        + interval (linear_chain p0 p1) a b)%Z.
Proof.
  intros Hab Hst Hrs. cbv zeta.
  destruct (linear_interval a b Hab) as [E|[E Hr]].
  - rewrite iterate_discard by (rewrite E; reflexivity).
    rewrite E. repeat split; try assumption. ring.
  - destruct (Rlt_dec ((a + b) / 2 - a) epsilon) as [Hw|Hw].
    + rewrite iterate_emit by (try rewrite E; try assumption; discriminate).
      simpl fst. simpl snd. split; [assumption|]. split.
      * apply Forall_app. split; [assumption|].
        constructor; [|constructor].
        unfold close_to_root. apply Rabs_def1; lra.
      * unfold emplace_back. rewrite length_app. simpl length.
        rewrite E. rewrite Nat2Z.inj_add. simpl. ring.
    + rewrite iterate_split;
        [|rewrite E; discriminate|assumption|right; left; reflexivity].
      unfold split_item. simpl fst. simpl snd. split.
      * constructor; [unfold ordered_item; simpl; lra|].
        constructor; [unfold ordered_item; simpl; lra|assumption].
      * split; [assumption|]. simpl stack_count.
        rewrite <- (interval_additive _ a ((a + b) / 2) b). ring.
Qed.

Lemma linear_roots_while :
  forall fuel st r,
    Forall ordered_item (fst st) -> Forall (close_to_root p0 p1 epsilon) (snd st) ->
    roots_while fuel (linear_chain p0 p1) All epsilon st = Returns r ->
    Forall (close_to_root p0 p1 epsilon) r
    /\ Z.of_nat (length r)
       = (stack_count (linear_chain p0 p1) (fst st)
          + Z.of_nat (length (snd st)))%Z.
Proof.
  induction fuel as [|fuel IH]; intros [intervals rs] r Hst Hrs Hr;
    simpl fst in *; simpl snd in *.
  - destruct intervals as [|[[a b] flag] rest]; simpl in Hr; [|discriminate].
    inversion Hr; subst. split; [assumption|]. simpl. ring.
  - destruct intervals as [|[[a b] flag] rest].
    + simpl in Hr. inversion Hr; subst. split; [assumption|]. simpl. ring.
    + rewrite roots_while_step in Hr.
      inversion Hst as [|x l Hab Hrest]; subst.
      unfold ordered_item in Hab. simpl in Hab.
      destruct (linear_iterate a ((a + b) / 2) flag (rest, rs))
        as (H1 & H2 & H3); try assumption; [lra|].
      destruct (linear_iterate ((a + b) / 2) b flag
                  (iterate (linear_chain p0 p1) All epsilon
                           (a, (a + b) / 2, flag) (rest, rs)))
        as (H4 & H5 & H6); try assumption; [lra|].
      destruct (IH _ r H4 H5 Hr) as [H7 H8].
      split; [exact H7|].
      rewrite H8, H6, H3. simpl fst. simpl snd. simpl stack_count.
      rewrite <- (interval_additive _ a ((a + b) / 2) b). ring.
Qed.

Lemma linear_roots fuel r :
  roots fuel [p0; p1] All epsilon = Returns r ->
  Forall (close_to_root p0 p1 epsilon) r
  /\ Z.of_nat (length r) = interval (linear_chain p0 p1) 0 1.
Proof.
  unfold roots. rewrite chain_degree_one. fold (linear_chain p0 p1). intros H.
  destruct (linear_iterate 0 1 false ([], [])) as (H1 & H2 & H3);
    [lra|apply Forall_nil|apply Forall_nil|].
  destruct (linear_roots_while fuel _ r H1 H2 H) as [H4 H5].
  split; [exact H4|]. rewrite H5, H3. simpl. ring.
Qed.

End SturmLinear.

(** ** The polyline of two control points, and the cache *)

Section PolylineFacts.

Import Bezier.

Variable after_pop : nat -> Point.

Lemma new_polyline_segment (c : Curve) (flatness : R) (fuel : nat) :
  N_ c = rows (control_points_ c) -> N_ c = 2%nat ->
  new_polyline after_pop fuel flatness c
  = Returns [valueAt c 0; valueAt c 1].
Proof.
  intros Hinv H2. unfold new_polyline. rewrite H2. simpl Nat.eqb. cbv iota.
  rewrite !valueAt_curve_value by exact Hinv.
  unfold rows in Hinv.
  rewrite curve_value_at_0, curve_value_at_1 by lia.
  rewrite <- Hinv, H2. reflexivity.
Qed.

Lemma polyline_cached (c : Curve) (flatness' : R) (fuel : nat)
    (points : PointVector) :
  cached_polyline_ c = Some points ->
  Rabs (cached_polyline_flatness_ c - flatness') < 1 / 10 ^ 10 ->
  polyline after_pop fuel flatness' c = (Returns points, c).
Proof.
  intros Hc Hf. unfold polyline. rewrite Hc.
  now rewrite Rleb_false by lra.
Qed.

Lemma polyline_stale (c : Curve) (flatness' : R) (fuel : nat)
    (old points : PointVector) :
  cached_polyline_ c = Some old ->
  1 / 10 ^ 10 <= Rabs (cached_polyline_flatness_ c - flatness') ->
  new_polyline after_pop fuel flatness' c = Returns points ->
  polyline after_pop fuel flatness' c
  = (Returns points, set_cached_polyline c flatness' (Some points)).
Proof.
  intros Hc Hf Hn. unfold polyline. rewrite Hc, Hn.
  now rewrite Rleb_true by lra.
Qed.

Lemma polyline_fresh (c : Curve) (flatness : R) (fuel : nat)
    (points : PointVector) :
  cached_polyline_ c = None ->
  new_polyline after_pop fuel flatness c = Returns points ->
  polyline after_pop fuel flatness c
  = (Returns points, set_cached_polyline c flatness (Some points)).
Proof. intros Hc Hn. unfold polyline. now rewrite Hc, Hn. Qed.

End PolylineFacts.

(** ** The power basis *)

Section PowerBasis.

Import Bezier.

Lemma length_col0 (P : MatrixX2d) : length (col0 P) = length P.
Proof. unfold col0. apply length_map. Qed.

Lemma length_col1 (P : MatrixX2d) : length (col1 P) = length P.
Proof. unfold col1. apply length_map. Qed.

(** [valueAt] is the polynomial whose coefficients are the columns of
    [bernsteinCoeffs(N_) * control_points_]. *)
Lemma curve_value_power_basis (Q : MatrixX2d) (t : R) :
  (0 < length Q)%nat ->
  curve_value Q t
  = (poly_eval (col0 (mmul2 (bernsteinCoeffs (length Q)) Q)) t,
     poly_eval (col1 (mmul2 (bernsteinCoeffs (length Q)) Q)) t).
Proof.
  intros H. unfold curve_value, valueAt. simpl N_. simpl control_points_.
  unfold rows. destruct (Nat.eqb_spec (length Q) 0) as [E|E]; [lia|].
  unfold vec_mat2, poly_eval.
  rewrite length_vec_mat, cols_bernsteinCoeffs by lia.
  rewrite length_col0, length_col1, length_mmul2, rows_bernsteinCoeffs.
  f_equal.
  - transitivity
      (sum_n (fun j => sum_n (fun k => t ^ k
                                       * (coeff (bernsteinCoeffs (length Q)) k j
                                          * fst (row2 Q j)))
                             (length Q)) (length Q)).
    + apply sum_n_ext. intros j Hj.
      rewrite vcoeff_vec_mat by (rewrite cols_bernsteinCoeffs; lia).
      rewrite length_pow_array, length_LinSpaced_0.
      rewrite <- sum_n_scal_r. apply sum_n_ext. intros k Hk.
      rewrite vcoeff_pow_array by (rewrite length_LinSpaced_0; lia).
      rewrite LinSpaced_0, seq_nth by lia. simpl Nat.add. ring.
    + rewrite sum_n_swap. apply sum_n_ext. intros k Hk.
      rewrite vcoeff_col0. unfold xs.
      rewrite row2_mmul2 by (rewrite rows_bernsteinCoeffs; lia).
      rewrite cols_bernsteinCoeffs by lia. simpl fst.
      rewrite sum_n_scal. apply Rmult_comm.
  - transitivity
      (sum_n (fun j => sum_n (fun k => t ^ k
                                       * (coeff (bernsteinCoeffs (length Q)) k j
                                          * snd (row2 Q j)))
                             (length Q)) (length Q)).
    + apply sum_n_ext. intros j Hj.
      rewrite vcoeff_vec_mat by (rewrite cols_bernsteinCoeffs; lia).
      rewrite length_pow_array, length_LinSpaced_0.
      rewrite <- sum_n_scal_r. apply sum_n_ext. intros k Hk.
      rewrite vcoeff_pow_array by (rewrite length_LinSpaced_0; lia).
      rewrite LinSpaced_0, seq_nth by lia. simpl Nat.add. ring.
    + rewrite sum_n_swap. apply sum_n_ext. intros k Hk.
      rewrite vcoeff_col1. unfold ys.
      rewrite row2_mmul2 by (rewrite rows_bernsteinCoeffs; lia).
      rewrite cols_bernsteinCoeffs by lia. simpl snd.
      rewrite sum_n_scal. apply Rmult_comm.
Qed.

Lemma poly_eval_app_zeros (p : VectorXd) (k : nat) (t : R) :
  poly_eval (p ++ repeat 0 k) t = poly_eval p t.
Proof.
  unfold poly_eval. rewrite length_app, repeat_length, sum_n_app.
  rewrite (sum_n_zero _ k).
  - rewrite Rplus_0_r. apply sum_n_ext. intros j Hj.
    unfold vcoeff. now rewrite app_nth1 by lia.
  - intros j Hj. unfold vcoeff. rewrite app_nth2 by lia.
    replace (length p + j - length p)%nat with j by lia.
    rewrite nth_repeat. ring.
Qed.

Lemma poly_eval_trimZeroes (p : VectorXd) (t : R) :
  poly_eval (trimZeroes p) t = poly_eval p t.
Proof.
  destruct (trimZeroes_spec p) as (k & E & _).
  rewrite E at 2. now rewrite poly_eval_app_zeros.
Qed.

Lemma poly_eval_short (p : VectorXd) (t : R) :
  (length p <= 1)%nat -> poly_eval p t = vcoeff p 0.
Proof.
  intros H. destruct p as [|x [|y p]]; simpl in H; try lia.
  - unfold poly_eval, vcoeff. simpl. reflexivity.
  - unfold poly_eval, vcoeff. simpl. ring.
Qed.

(** A root in [0, 1] of a column is among the roots kept for it, unless
    the column is the zero polynomial. *)
Lemma column_root_found (realRoots : VectorXd -> list R) (column : VectorXd)
    (r : R) :
  ((2 <= length (trimZeroes column))%nat ->
   complete_on realRoots (trimZeroes column)) ->
  0 <= r <= 1 -> poly_eval column r = 0 ->
  In r (filter in_unit_interval (column_roots realRoots column))
  \/ forall t, poly_eval column t = 0.
Proof.
  intros Hc Hr H0. unfold column_roots.
  destruct (Nat.ltb_spec 1 (length (trimZeroes column))) as [Hl|Hl].
  - left. apply filter_In. split.
    + apply Hc; [lia|]. now rewrite poly_eval_trimZeroes.
    + now apply in_unit_interval_spec.
  - right. intros t. rewrite <- poly_eval_trimZeroes in H0 |- *.
    rewrite poly_eval_short in H0 |- * by lia. exact H0.
Qed.

End PowerBasis.

(** ** Where a derivable function is largest and smallest on [0, 1] *)

Section Extremes.

Variables g g' : R -> R.
Hypothesis g_derivable : forall t, derivable_pt_lim g t (g' t).

Lemma extreme_derivable : derivable g.
Proof. intros x. exists (g' x). apply g_derivable. Qed.

Lemma largest_candidate (t0 : R) :
  0 <= t0 <= 1 ->
  exists tM, 0 <= tM <= 1 /\ g t0 <= g tM /\ (tM = 0 \/ tM = 1 \/ g' tM = 0).
Proof.
  intros Ht0.
  destruct (continuity_ab_maj g 0 1 ltac:(lra)) as (Mx & Hmax & HMx).
  - intros c _. apply (derivable_continuous g extreme_derivable).
  - exists Mx. split; [exact HMx|]. split; [now apply Hmax|].
    destruct (Req_dec Mx 0) as [E0|E0]; [now left|].
    destruct (Req_dec Mx 1) as [E1|E1]; [now right; left|].
    right. right.
    pose proof (deriv_maximum g 0 1 Mx (extreme_derivable Mx)
                  ltac:(lra) ltac:(lra)) as H.
    rewrite (derive_pt_eq_0 g Mx (g' Mx) _ (g_derivable Mx)) in H.
    apply H. intros x Hx0 Hx1. apply Hmax. lra.
Qed.

Lemma smallest_candidate (t0 : R) :
  0 <= t0 <= 1 ->
  exists tm, 0 <= tm <= 1 /\ g tm <= g t0 /\ (tm = 0 \/ tm = 1 \/ g' tm = 0).
Proof.
  intros Ht0.
  destruct (continuity_ab_min g 0 1 ltac:(lra)) as (mx & Hmin & Hmx).
  - intros c _. apply (derivable_continuous g extreme_derivable).
  - exists mx. split; [exact Hmx|]. split; [now apply Hmin|].
    destruct (Req_dec mx 0) as [E0|E0]; [now left|].
    destruct (Req_dec mx 1) as [E1|E1]; [now right; left|].
    right. right.
    pose proof (deriv_minimum g 0 1 mx (extreme_derivable mx)
                  ltac:(lra) ltac:(lra)) as H.
    rewrite (derive_pt_eq_0 g mx (g' mx) _ (g_derivable mx)) in H.
    apply H. intros x Hx0 Hx1. apply Hmin. lra.
Qed.

Lemma constant_when_flat : (forall t, g' t = 0) -> forall x y, g x = g y.
Proof.
  intros H. apply (null_derivative_1 g extreme_derivable).
  intros x. rewrite (derive_pt_eq_0 g x (g' x) _ (g_derivable x)). apply H.
Qed.

End Extremes.

(** ** The bounding box *)

Section BoundingBox.

Import Bezier.

Lemma min_element_from_spec {A} (k : A -> R) (l : list A) :
  forall best,
    let m := min_element_from (fun lhs rhs => Rltb (k lhs) (k rhs)) best l in
    In m (best :: l) /\ forall x, In x (best :: l) -> k m <= k x.
Proof.
  induction l as [|y l IH]; intros best; cbv zeta.
  - simpl. split; [now left|]. intros x [<-|[]]. lra.
  - simpl min_element_from.
    destruct (IH (if Rltb (k y) (k best) then y else best)) as [Hin Hle].
    cbv zeta in Hin, Hle.
    set (m := min_element_from (fun lhs rhs => Rltb (k lhs) (k rhs))
                (if Rltb (k y) (k best) then y else best) l) in *.
    assert (Hb : k m <= k (if Rltb (k y) (k best) then y else best))
      by (apply Hle; now left).
    split.
    + destruct Hin as [E|Hin]; [|right; now right].
      rewrite <- E. destruct (Rltb (k y) (k best)); [right; now left|now left].
    + intros x [<-|[<-|Hx]].
      * destruct (Rlt_dec (k y) (k best)) as [H|H].
        -- rewrite (Rltb_true _ _ H) in Hb. lra.
        -- now rewrite (Rltb_false _ _ H) in Hb.
      * destruct (Rlt_dec (k y) (k best)) as [H|H].
        -- now rewrite (Rltb_true _ _ H) in Hb.
        -- rewrite (Rltb_false _ _ H) in Hb. lra.
      * apply Hle. now right.
Qed.

Lemma max_element_from_spec {A} (k : A -> R) (l : list A) :
  forall best,
    let m := max_element_from (fun lhs rhs => Rltb (k lhs) (k rhs)) best l in
    In m (best :: l) /\ forall x, In x (best :: l) -> k x <= k m.
Proof.
  induction l as [|y l IH]; intros best; cbv zeta.
  - simpl. split; [now left|]. intros x [<-|[]]. lra.
  - simpl max_element_from.
    destruct (IH (if Rltb (k y) (k best) then best else y)) as [Hin Hle].
    cbv zeta in Hin, Hle.
    set (m := max_element_from (fun lhs rhs => Rltb (k lhs) (k rhs))
                (if Rltb (k y) (k best) then best else y) l) in *.
    assert (Hb : k (if Rltb (k y) (k best) then best else y) <= k m)
      by (apply Hle; now left).
    split.
    + destruct Hin as [E|Hin]; [|right; now right].
      rewrite <- E. destruct (Rltb (k y) (k best)); [now left|right; now left].
    + intros x [<-|[<-|Hx]].
      * destruct (Rlt_dec (k y) (k best)) as [H|H].
        -- now rewrite (Rltb_true _ _ H) in Hb.
        -- rewrite (Rltb_false _ _ H) in Hb. lra.
      * destruct (Rlt_dec (k y) (k best)) as [H|H].
        -- rewrite (Rltb_true _ _ H) in Hb. lra.
        -- now rewrite (Rltb_false _ _ H) in Hb.
      * apply Hle. now right.
Qed.

(** The box of a list of points holds each of them, and each of its four
    sides passes through one of them. *)
Lemma box_of_spec (extremes : list Vector2d) :
  extremes <> [] ->
  (forall e, In e extremes -> in_box (box_of extremes) e)
  /\ (exists e, In e extremes /\ fst e = fst (box_min (box_of extremes)))
  /\ (exists e, In e extremes /\ snd e = snd (box_min (box_of extremes)))
  /\ (exists e, In e extremes /\ fst e = fst (box_max (box_of extremes)))
  /\ (exists e, In e extremes /\ snd e = snd (box_max (box_of extremes))).
Proof.
  intros Hne. destruct extremes as [|e0 l]; [congruence|].
  unfold box_of, minmax_element. cbn [fst snd box_min box_max].
  destruct (min_element_from_spec (fun p : Vector2d => fst p) l e0) as [I1 L1].
  destruct (min_element_from_spec (fun p : Vector2d => snd p) l e0) as [I2 L2].
  destruct (max_element_from_spec (fun p : Vector2d => fst p) l e0) as [I3 L3].
  destruct (max_element_from_spec (fun p : Vector2d => snd p) l e0) as [I4 L4].
  cbv zeta beta in *.
  split; [|split; [|split; [|split]]].
  - intros e He. unfold in_box. cbn [fst snd box_min box_max].
    repeat split; [apply L1|apply L3|apply L2|apply L4]; exact He.
  - eexists. split; [exact I1|reflexivity].
  - eexists. split; [exact I2|reflexivity].
  - eexists. split; [exact I3|reflexivity].
  - eexists. split; [exact I4|reflexivity].
Qed.

Variable realRoots : VectorXd -> list R.

Lemma boundingBox_fresh (c : Curve) :
  cached_bounding_box_ c = None -> cached_derivative_ c = None ->
  boundingBox realRoots c
  = (Returns (box_of (fresh_extremes realRoots c)),
     with_bounding_box realRoots c).
Proof.
  intros Hb Hd. unfold boundingBox. rewrite Hb.
  unfold bind, extrema, on_derivative, bind, derivative. rewrite Hd.
  unfold roots. simpl cached_roots_.
  replace (cached_roots_ (new_derivative c)) with (@None (list R))
    by (unfold new_derivative; destruct (N_ c =? 1)%nat; reflexivity).
  unfold with_bounding_box, fresh_extremes, box_of, emplace_back.
  rewrite valueAt_vector_map. simpl control_points_. simpl N_.
  rewrite <- app_assoc. reflexivity.
Qed.

Lemma boundingBox_cached (c : Curve) (b : BoundingBox) :
  cached_bounding_box_ c = Some b -> boundingBox realRoots c = (Returns b, c).
Proof. intros H. unfold boundingBox. now rewrite H. Qed.

End BoundingBox.

(** ** The bounding box holds the curve *)

Section BoxHoldsCurve.

Import Bezier.

Variable realRoots : VectorXd -> list R.
Variable c : Curve.
Hypothesis c_count : N_ c = rows (control_points_ c).
Hypothesis c_points : (1 <= N_ c)%nat.

Section Coordinate.

Variable pr : Vector2d -> R.
Variable column : VectorXd.
Hypothesis pr_derivable :
  forall t, derivable_pt_lim (fun u => pr (valueAt c u)) t (poly_eval column t).
Hypothesis column_kept :
  forall r, In r (filter in_unit_interval (column_roots realRoots column)) ->
            In r (new_roots realRoots (new_derivative c)).
Hypothesis column_complete :
  (2 <= length (trimZeroes column))%nat ->
  complete_on realRoots (trimZeroes column).

Lemma candidate_in_extremes (tM : R) :
  0 <= tM <= 1 -> tM = 0 \/ tM = 1 \/ poly_eval column tM = 0 ->
  exists e, In e (fresh_extremes realRoots c) /\ pr e = pr (valueAt c tM).
Proof.
  intros HtM Hcase. unfold rows in c_count.
  assert (H0 : valueAt c 0 = row2 (control_points_ c) 0).
  { rewrite valueAt_curve_value by assumption. apply curve_value_at_0. lia. }
  assert (H1 : valueAt c 1 = row2 (control_points_ c) (N_ c - 1)).
  { rewrite valueAt_curve_value by assumption. rewrite c_count.
    apply curve_value_at_1. lia. }
  assert (E0 : In (valueAt c 0) (fresh_extremes realRoots c)).
  { unfold fresh_extremes. apply in_or_app. right. rewrite H0. now left. }
  destruct Hcase as [->|[->|Hroot]].
  - exists (valueAt c 0). split; [exact E0|reflexivity].
  - exists (valueAt c 1). split; [|reflexivity].
    unfold fresh_extremes. apply in_or_app. right. rewrite H1. right. now left.
  - destruct (column_root_found realRoots column tM column_complete HtM Hroot)
      as [Hin|Hzero].
    + exists (valueAt c tM). split; [|reflexivity].
      unfold fresh_extremes. apply in_or_app. left.
      apply in_map. now apply column_kept.
    + exists (valueAt c 0). split; [exact E0|].
      apply (constant_when_flat (fun u => pr (valueAt c u)) (poly_eval column)
               pr_derivable Hzero).
Qed.

Lemma extreme_above (t0 : R) :
  0 <= t0 <= 1 ->
  exists e, In e (fresh_extremes realRoots c) /\ pr (valueAt c t0) <= pr e.
Proof.
  intros Ht0.
  destruct (largest_candidate (fun u => pr (valueAt c u)) (poly_eval column)
              pr_derivable t0 Ht0) as (tM & HtM & Hle & Hcase).
  destruct (candidate_in_extremes tM HtM Hcase) as (e & He & E).
  exists e. split; [exact He|]. rewrite E. exact Hle.
Qed.

Lemma extreme_below (t0 : R) :
  0 <= t0 <= 1 ->
  exists e, In e (fresh_extremes realRoots c) /\ pr e <= pr (valueAt c t0).
Proof.
  intros Ht0.
  destruct (smallest_candidate (fun u => pr (valueAt c u)) (poly_eval column)
              pr_derivable t0 Ht0) as (tm & Htm & Hle & Hcase).
  destruct (candidate_in_extremes tm Htm Hcase) as (e & He & E).
  exists e. split; [exact He|]. rewrite E. exact Hle.
Qed.

End Coordinate.

Lemma new_derivative_count :
  N_ (new_derivative c) = rows (control_points_ (new_derivative c))
  /\ (0 < rows (control_points_ (new_derivative c)))%nat.
Proof.
  split.
  - unfold new_derivative. destruct (N_ c =? 1)%nat; reflexivity.
  - unfold rows in *. rewrite new_derivative_cp by assumption.
    destruct (Nat.eq_dec (N_ c) 1) as [E|E].
    + rewrite c_count in E.
      destruct (control_points_ c) as [|p [|q l]]; simpl in E; try lia.
      rewrite derivative_cp_single. simpl. lia.
    + rewrite length_derivative_cp by lia. lia.
Qed.

Lemma derivative_columns (t : R) :
  let d := new_derivative c in
  let Q := mmul2 (bernsteinCoeffs (N_ d)) (control_points_ d) in
  derivable_pt_lim (fun u => fst (valueAt c u)) t (poly_eval (col0 Q) t)
  /\ derivable_pt_lim (fun u => snd (valueAt c u)) t (poly_eval (col1 Q) t).
Proof.
  cbv zeta. destruct new_derivative_count as [Hd1 Hd2].
  unfold rows in c_count, Hd1, Hd2.
  destruct (curve_value_derivable (control_points_ c) t ltac:(lia)) as [Hx Hy].
  rewrite <- new_derivative_cp in Hx, Hy by assumption.
  rewrite curve_value_power_basis in Hx, Hy by assumption.
  rewrite <- Hd1 in Hx, Hy. simpl fst in Hx. simpl snd in Hy.
  split.
  - apply (derivable_pt_lim_ext
             (fun u => fst (curve_value (control_points_ c) u))); [|exact Hx].
    intros u. now rewrite valueAt_curve_value.
  - apply (derivable_pt_lim_ext
             (fun u => snd (curve_value (control_points_ c) u))); [|exact Hy].
    intros u. now rewrite valueAt_curve_value.
Qed.

Lemma box_holds_curve :
  let d := new_derivative c in
  let Q := mmul2 (bernsteinCoeffs (N_ d)) (control_points_ d) in
  ((2 <= length (trimZeroes (col0 Q)))%nat ->
   complete_on realRoots (trimZeroes (col0 Q))) ->
  ((2 <= length (trimZeroes (col1 Q)))%nat ->
   complete_on realRoots (trimZeroes (col1 Q))) ->
  forall t, 0 <= t <= 1 ->
    in_box (box_of (fresh_extremes realRoots c)) (valueAt c t).
Proof.
  intros d Q Hcx Hcy t Ht.
  assert (Hne : fresh_extremes realRoots c <> []).
  { unfold fresh_extremes. intros E. apply app_eq_nil in E. destruct E.
    discriminate. }
  destruct (box_of_spec _ Hne) as [Hbox _].
  assert (Hkx : forall r,
             In r (filter in_unit_interval (column_roots realRoots (col0 Q))) ->
             In r (new_roots realRoots d)).
  { intros r Hr. rewrite new_roots_eq. apply in_or_app. now left. }
  assert (Hky : forall r,
             In r (filter in_unit_interval (column_roots realRoots (col1 Q))) ->
             In r (new_roots realRoots d)).
  { intros r Hr. rewrite new_roots_eq. apply in_or_app. now right. }
  destruct (extreme_above fst (col0 Q)
              (fun u => proj1 (derivative_columns u)) Hkx Hcx t Ht)
    as (e1 & He1 & L1).
  destruct (extreme_below fst (col0 Q)
              (fun u => proj1 (derivative_columns u)) Hkx Hcx t Ht)
    as (e2 & He2 & L2).
  destruct (extreme_above snd (col1 Q)
              (fun u => proj2 (derivative_columns u)) Hky Hcy t Ht)
    as (e3 & He3 & L3).
  destruct (extreme_below snd (col1 Q)
              (fun u => proj2 (derivative_columns u)) Hky Hcy t Ht)
    as (e4 & He4 & L4).
  pose proof (Hbox e1 He1) as [[_ B1] _].
  pose proof (Hbox e2 He2) as [[B2 _] _].
  pose proof (Hbox e3 He3) as [_ [_ B3]].
  pose proof (Hbox e4 He4) as [_ [B4 _]].
  unfold in_box. repeat split; lra.
Qed.

(** Every point the box is made from is a point of the curve at a
    parameter in [0, 1]. *)
Lemma extremes_on_curve (e : Vector2d) :
  In e (fresh_extremes realRoots c) ->
  exists t, 0 <= t <= 1 /\ e = valueAt c t.
Proof.
  intros He. unfold fresh_extremes in He. unfold rows in c_count.
  apply in_app_or in He as [He|[<-|[<-|[]]]].
  - apply in_map_iff in He as (t & <- & Ht).
    exists t. split; [|reflexivity].
    rewrite new_roots_eq in Ht.
    apply in_app_or in Ht as [Ht|Ht]; apply filter_In in Ht as [_ Ht];
      now apply in_unit_interval_spec.
  - exists 0. split; [lra|].
    rewrite valueAt_curve_value by assumption.
    symmetry. apply curve_value_at_0. lia.
  - exists 1. split; [lra|].
    rewrite valueAt_curve_value by assumption. rewrite c_count.
    symmetry. apply curve_value_at_1. lia.
Qed.

End BoxHoldsCurve.

(** ** Projection: the loop over the candidates *)

Section ProjectionLoop.

Import Bezier.

Variable c : Curve.
Variable point : Point.

Lemma projection_best_spec (candidates : list R) :
  forall start,
    0 <= fst start <= 1 ->
    snd start = norm (psub point (valueAt c (fst start))) ->
    let best := projection_best c point candidates start in
    0 <= fst best <= 1
    /\ snd best = norm (psub point (valueAt c (fst best)))
    /\ snd best <= snd start
    /\ forall r, In r candidates -> 0 <= r <= 1 ->
         snd best <= norm (psub point (valueAt c r)).
Proof.
  unfold projection_best.
  induction candidates as [|x l IH]; intros start Hs Hd; cbv zeta.
  - simpl. split; [exact Hs|]. split; [exact Hd|]. split; [lra|].
    intros r [].
  - simpl fold_left.
    set (next := if Rltb x 0 || Rltb 1 x then start
                 else if Rltb (norm (psub point (valueAt c x))) (snd start)
                      then (x, norm (psub point (valueAt c x))) else start).
    assert (Hn : 0 <= fst next <= 1
                 /\ snd next = norm (psub point (valueAt c (fst next)))
                 /\ snd next <= snd start
                 /\ (0 <= x <= 1 -> snd next <= norm (psub point (valueAt c x)))).
    { unfold next.
      destruct (Rlt_dec x 0) as [H0|H0].
      - rewrite (Rltb_true _ _ H0). simpl orb. cbv iota.
        repeat split; try lra; try assumption; try (intros; lra).
      - rewrite (Rltb_false _ _ H0). simpl orb.
        destruct (Rlt_dec 1 x) as [H1|H1].
        + rewrite (Rltb_true _ _ H1).
          repeat split; try lra; try assumption; try (intros; lra).
        + rewrite (Rltb_false _ _ H1).
          destruct (Rlt_dec (norm (psub point (valueAt c x))) (snd start))
            as [Hlt|Hge].
          * rewrite (Rltb_true _ _ Hlt). simpl.
            repeat split; try lra; try (intros; lra).
          * rewrite (Rltb_false _ _ Hge).
            repeat split; try lra; try assumption; try (intros; lra). }
    destruct Hn as (Hn1 & Hn2 & Hn3 & Hn4).
    destruct (IH next Hn1 Hn2) as (H1 & H2 & H3 & H4). cbv zeta in *.
    split; [exact H1|]. split; [exact H2|]. split; [lra|].
    intros r [<-|Hr] Hr01.
    + specialize (Hn4 Hr01). lra.
    + now apply H4.
Qed.

End ProjectionLoop.

(** ** Projection: the polynomial whose roots are the candidates *)

Section ProjectionPolynomial.

Import Bezier.

Lemma sum_n_product (f g : nat -> R) (a b : nat) :
  sum_n f a * sum_n g b = sum_n (fun k => sum_n (fun i => f k * g i) b) a.
Proof.
  rewrite <- sum_n_scal_r. apply sum_n_ext. intros k _.
  now rewrite sum_n_scal.
Qed.

Lemma sum_n_minus (f g : nat -> R) (n : nat) :
  sum_n (fun k => f k - g k) n = sum_n f n - sum_n g n.
Proof. induction n as [|n IH]; simpl; [lra | rewrite IH; lra]. Qed.

Lemma window_sum (F : nat -> R) (k b total : nat) (t : R) :
  (k + b <= total)%nat ->
  sum_n (fun m => (if Nat.leb k m && Nat.ltb m (k + b) then F (m - k)%nat else 0)
                  * t ^ m) total
  = sum_n (fun i => F i * t ^ (k + i)) b.
Proof.
  intros H. replace total with (k + (b + (total - k - b)))%nat by lia.
  rewrite sum_n_app. rewrite (sum_n_zero _ k).
  - rewrite Rplus_0_l, sum_n_app. rewrite (sum_n_zero _ (total - k - b)).
    + rewrite Rplus_0_r. apply sum_n_ext. intros i Hi.
      replace (k <=? k + i)%nat with true by (symmetry; apply Nat.leb_le; lia).
      replace (k + i <? k + b)%nat with true
        by (symmetry; apply Nat.ltb_lt; lia).
      simpl andb. cbv iota. f_equal. f_equal. lia.
    + intros j Hj.
      replace (k + (b + j) <? k + b)%nat with false
        by (symmetry; apply Nat.ltb_ge; lia).
      rewrite andb_false_r. ring.
  - intros m Hm.
    replace (k <=? m)%nat with false by (symmetry; apply Nat.leb_gt; lia).
    simpl andb. cbv iota. ring.
Qed.

Lemma part_fold (f : nat -> nat -> R) (a : nat) (init : VectorXd) :
  let r := fold_left
             (fun part k =>
                map (fun m => vcoeff part m + f k m) (seq 0 (length part)))
             (seq 0 a) init in
  length r = length init
  /\ forall m, (m < length init)%nat ->
       vcoeff r m = vcoeff init m + sum_n (fun k => f k m) a.
Proof.
  induction a as [|a [IH1 IH2]]; cbv zeta.
  - simpl. split; [reflexivity|]. intros; ring.
  - rewrite seq_S, fold_left_app. simpl Nat.add.
    cbv zeta in IH1, IH2.
    set (r := fold_left _ (seq 0 a) init) in *.
    cbn [fold_left].
    split.
    + rewrite length_map, length_seq. exact IH1.
    + intros m Hm. unfold vcoeff at 1.
      rewrite (nth_map_seq (fun m => vcoeff r m + f a m)) by lia.
      rewrite IH2 by lia. simpl sum_n. ring.
Qed.

Variables U V : MatrixX2d.
Hypothesis U_rows : (0 < length U)%nat.
Hypothesis V_rows : (0 < length V)%nat.

Lemma rows_to_MatrixXd (X : MatrixX2d) : rows (to_MatrixXd X) = length X.
Proof. unfold rows, to_MatrixXd. apply length_map. Qed.

Lemma cols_to_MatrixXd (X : MatrixX2d) :
  (0 < length X)%nat -> cols (to_MatrixXd X) = 2%nat.
Proof. destruct X; simpl; [lia|reflexivity]. Qed.

Lemma coeff_to_MatrixXd (X : MatrixX2d) i :
  (i < length X)%nat ->
  coeff (to_MatrixXd X) i 0 = xs X i /\ coeff (to_MatrixXd X) i 1 = ys X i.
Proof.
  intros H. unfold coeff, to_MatrixXd, xs, ys, row2.
  unfold MatrixX2d, Vector2d in *.
  rewrite (nth_indep _ [] [fst (0, 0); snd (0, 0)]) by (rewrite length_map; lia).
  rewrite (map_nth (fun p : R * R => [fst p; snd p])). split; reflexivity.
Qed.

Lemma mat_vec_row (x y : R) i :
  (i < length V)%nat ->
  vcoeff (mat_vec (to_MatrixXd V) [x; y]) i = xs V i * x + ys V i * y.
Proof.
  intros H. unfold mat_vec, vcoeff at 1.
  rewrite rows_to_MatrixXd, cols_to_MatrixXd by assumption.
  rewrite (nth_map_seq
             (fun i => sum_n (fun k => coeff (to_MatrixXd V) i k * vcoeff [x; y] k) 2))
    by lia.
  cbn [sum_n].
  destruct (coeff_to_MatrixXd V i H) as [-> ->].
  unfold vcoeff. simpl. ring.
Qed.

Lemma nth_to_MatrixXd (X : MatrixX2d) k :
  (k < length X)%nat -> nth k (to_MatrixXd X) [] = [xs X k; ys X k].
Proof.
  intros H. unfold to_MatrixXd, xs, ys, row2.
  unfold MatrixX2d, Vector2d in *.
  rewrite (nth_indep _ [] [fst (0, 0); snd (0, 0)]) by (rewrite length_map; lia).
  apply (map_nth (fun p : R * R => [fst p; snd p])).
Qed.

Lemma poly_eval_col0 (X : MatrixX2d) t :
  poly_eval (col0 X) t = sum_n (fun k => xs X k * t ^ k) (length X).
Proof.
  unfold poly_eval. rewrite length_col0. apply sum_n_ext. intros k _.
  now rewrite vcoeff_col0.
Qed.

Lemma poly_eval_col1 (X : MatrixX2d) t :
  poly_eval (col1 X) t = sum_n (fun k => ys X k * t ^ k) (length X).
Proof.
  unfold poly_eval. rewrite length_col1. apply sum_n_ext. intros k _.
  now rewrite vcoeff_col1.
Qed.

Lemma length_projection_part :
  length (projection_polynomial_part (to_MatrixXd U) (to_MatrixXd V))
  = (length U + length V - 1)%nat.
Proof.
  unfold projection_polynomial_part.
  destruct (part_fold
              (fun k m =>
                 if Nat.leb k m && Nat.ltb m (k + rows (to_MatrixXd V))
                 then vcoeff (mat_vec (to_MatrixXd V) (nth k (to_MatrixXd U) []))
                             (m - k)
                 else 0)
              (rows (to_MatrixXd U))
              (repeat 0 (rows (to_MatrixXd U) + rows (to_MatrixXd V) - 1)))
    as [H _].
  cbv zeta in H. rewrite H, repeat_length, !rows_to_MatrixXd. reflexivity.
Qed.

Lemma poly_eval_projection_part (t : R) :
  poly_eval (projection_polynomial_part (to_MatrixXd U) (to_MatrixXd V)) t
  = poly_eval (col0 U) t * poly_eval (col0 V) t
    + poly_eval (col1 U) t * poly_eval (col1 V) t.
Proof.
  unfold poly_eval at 1. rewrite length_projection_part.
  unfold projection_polynomial_part.
  destruct (part_fold
              (fun k m =>
                 if Nat.leb k m && Nat.ltb m (k + rows (to_MatrixXd V))
                 then vcoeff (mat_vec (to_MatrixXd V) (nth k (to_MatrixXd U) []))
                             (m - k)
                 else 0)
              (rows (to_MatrixXd U))
              (repeat 0 (rows (to_MatrixXd U) + rows (to_MatrixXd V) - 1)))
    as [_ H].
  cbv zeta in H. rewrite repeat_length, !rows_to_MatrixXd in H.
  rewrite !rows_to_MatrixXd.
  transitivity
    (sum_n (fun m =>
              sum_n (fun k =>
                       (if Nat.leb k m && Nat.ltb m (k + length V)
                        then xs V (m - k) * xs U k + ys V (m - k) * ys U k
                        else 0) * t ^ m) (length U))
           (length U + length V - 1)).
  - apply sum_n_ext. intros m Hm. rewrite H by lia.
    unfold vcoeff at 1. rewrite nth_repeat, Rplus_0_l.
    rewrite <- sum_n_scal_r. apply sum_n_ext. intros k Hk.
    destruct (Nat.leb k m && Nat.ltb m (k + length V)) eqn:Hc; [|reflexivity].
    apply andb_prop in Hc as [Hc1 Hc2].
    apply Nat.leb_le in Hc1. apply Nat.ltb_lt in Hc2.
    rewrite nth_to_MatrixXd by lia. now rewrite mat_vec_row by lia.
  - rewrite sum_n_swap.
    rewrite !poly_eval_col0, !poly_eval_col1, !sum_n_product, <- sum_n_plus.
    apply sum_n_ext. intros k Hk.
    rewrite (window_sum (fun i => xs V i * xs U k + ys V i * ys U k)
               k (length V) (length U + length V - 1) t) by lia.
    rewrite <- sum_n_plus. apply sum_n_ext. intros i Hi.
    rewrite pow_add. ring.
Qed.

Lemma poly_eval_projection_polynomial (point : Point) (t : R) :
  poly_eval (projection_polynomial
               (projection_polynomial_part (to_MatrixXd U) (to_MatrixXd V))
               (to_MatrixXd V) point) t
  = (poly_eval (col0 U) t - fst point) * poly_eval (col0 V) t
    + (poly_eval (col1 U) t - snd point) * poly_eval (col1 V) t.
Proof.
  transitivity
    (poly_eval (projection_polynomial_part (to_MatrixXd U) (to_MatrixXd V)) t
     - (fst point * poly_eval (col0 V) t + snd point * poly_eval (col1 V) t));
    [|rewrite poly_eval_projection_part; ring].
  unfold poly_eval at 1 2. unfold projection_polynomial.
  rewrite length_map, length_seq, length_projection_part, rows_to_MatrixXd.
  transitivity
    (sum_n (fun m =>
              vcoeff (projection_polynomial_part (to_MatrixXd U) (to_MatrixXd V)) m
              * t ^ m
              - (if Nat.leb 0 m && Nat.ltb m (0 + length V)
                 then xs V (m - 0) * fst point + ys V (m - 0) * snd point
                 else 0) * t ^ m)
           (length U + length V - 1)).
  - apply sum_n_ext. intros m Hm. unfold vcoeff at 1.
    rewrite (nth_map_seq
               (fun m =>
                  vcoeff (projection_polynomial_part (to_MatrixXd U)
                                                     (to_MatrixXd V)) m
                  - (if Nat.ltb m (length V)
                     then vcoeff (mat_vec (to_MatrixXd V)
                                          [fst point; snd point]) m
                     else 0)))
      by lia.
    simpl Nat.leb. simpl andb. simpl Nat.add.
    destruct (Nat.ltb_spec m (length V)) as [Hl|Hl].
    + rewrite mat_vec_row by lia. rewrite Nat.sub_0_r. ring.
    + ring.
  - rewrite sum_n_minus. f_equal.
    rewrite (window_sum (fun i => xs V i * fst point + ys V i * snd point)
               0 (length V) (length U + length V - 1) t) by lia.
    rewrite !poly_eval_col0, !poly_eval_col1, <- !sum_n_scal, <- sum_n_plus.
    apply sum_n_ext. intros i Hi. simpl Nat.add. ring.
Qed.

End ProjectionPolynomial.

(** ** Projection of a point *)

Section Projection.

Import Bezier.

Variable realRoots : VectorXd -> list R.
Variable point : Point.

Lemma projection_polynomial_value (P : MatrixX2d) (u : R) :
  (2 <= length P)%nat ->
  poly_eval (projection_polynomial_of P point) u
  = (fst (curve_value P u) - fst point) * fst (curve_value (derivative_cp P) u)
    + (snd (curve_value P u) - snd point)
      * snd (curve_value (derivative_cp P) u).
Proof.
  intros H. unfold projection_polynomial_of. cbv zeta.
  rewrite poly_eval_projection_polynomial
    by (rewrite length_mmul2, rows_bernsteinCoeffs; lia).
  rewrite (curve_value_power_basis P) by lia.
  rewrite (curve_value_power_basis (derivative_cp P))
    by (rewrite length_derivative_cp; lia).
  rewrite length_derivative_cp by lia. reflexivity.
Qed.

Lemma square_distance_derivable (P : MatrixX2d) (u : R) :
  (2 <= length P)%nat ->
  derivable_pt_lim (square_distance P point) u
    (2 * poly_eval (projection_polynomial_of P point) u).
Proof.
  intros H. rewrite projection_polynomial_value by assumption.
  destruct (curve_value_derivable P u ltac:(lia)) as [Hx Hy].
  set (fx := fun v => fst (curve_value P v)) in *.
  set (fy := fun v => snd (curve_value P v)) in *.
  set (dx := fst (curve_value (derivative_cp P) u)) in *.
  set (dy := snd (curve_value (derivative_cp P) u)) in *.
  apply (derivable_pt_lim_ext
           (plus_fct
              (mult_fct (minus_fct fx (fct_cte (fst point)))
                        (minus_fct fx (fct_cte (fst point))))
              (mult_fct (minus_fct fy (fct_cte (snd point)))
                        (minus_fct fy (fct_cte (snd point)))))).
  - intros v. reflexivity.
  - assert (Dx : derivable_pt_lim (minus_fct fx (fct_cte (fst point))) u (dx - 0))
      by (apply derivable_pt_lim_minus;
          [exact Hx|apply derivable_pt_lim_const]).
    assert (Dy : derivable_pt_lim (minus_fct fy (fct_cte (snd point))) u (dy - 0))
      by (apply derivable_pt_lim_minus;
          [exact Hy|apply derivable_pt_lim_const]).
    pose proof (derivable_pt_lim_plus _ _ _ _ _
                  (derivable_pt_lim_mult _ _ _ _ _ Dx Dx)
                  (derivable_pt_lim_mult _ _ _ _ _ Dy Dy)) as D.
    replace (2 * ((fst (curve_value P u) - fst point) * dx
                  + (snd (curve_value P u) - snd point) * dy))
      with ((dx - 0) * minus_fct fx (fct_cte (fst point)) u
            + minus_fct fx (fct_cte (fst point)) u * (dx - 0)
            + ((dy - 0) * minus_fct fy (fct_cte (snd point)) u
               + minus_fct fy (fct_cte (snd point)) u * (dy - 0)))
      by (unfold minus_fct, fct_cte, fx, fy; ring).
    exact D.
Qed.

Lemma norm_square_distance (P : MatrixX2d) (u : R) :
  norm (psub point (curve_value P u)) = sqrt (square_distance P point u).
Proof. unfold norm, square_distance, psub. simpl. f_equal. ring. Qed.

(** What [projectPoint] returns on a curve with no projection cached. *)
Lemma projectPoint_run (c : Curve) :
  cache_ok c -> (2 <= N_ c)%nat ->
  cached_projection_polynomial_part_ c = None ->
  exists c',
    projectPoint realRoots point c
    = (Returns
         (fst (projection_best c' point
                 (column_roots realRoots
                    (projection_polynomial_of (control_points_ c) point))
                 (let projection :=
                    if Rltb (norm (psub point (valueAt c' 0)))
                            (norm (psub point (valueAt c' 1)))
                    then 0 else 1 in
                  (projection, norm (psub point (valueAt c' projection)))))),
       c')
    /\ control_points_ c' = control_points_ c /\ N_ c' = N_ c.
Proof.
  intros Hc Hn Hp. pose proof (cache_ok_N c Hc) as Hinv. unfold rows in Hinv.
  unfold projectPoint, bind, projection_fill. rewrite Hp.
  unfold bind, derivative.
  destruct (cached_derivative_ c) as [d|] eqn:Hd.
  - assert (Ed : control_points_ d = derivative_cp (control_points_ c)).
    { destruct c; simpl in *. rewrite Hd in Hc. destruct Hc as [_ [E _]].
      rewrite E. apply new_derivative_cp. exact Hinv. }
    eexists. split.
    + simpl cached_projection_polynomial_part_.
      simpl cached_projection_polynomial_derivative_.
      unfold projection_polynomial_of. cbv zeta.
      rewrite Ed, Hinv. reflexivity.
    + split; reflexivity.
  - eexists. split.
    + simpl cached_projection_polynomial_part_.
      simpl cached_projection_polynomial_derivative_.
      simpl control_points_. simpl N_.
      unfold projection_polynomial_of. cbv zeta.
      rewrite new_derivative_cp by exact Hinv. rewrite Hinv. reflexivity.
    + split; reflexivity.
Qed.

Lemma projection_is_nearest (c : Curve) (t : R) :
  N_ c = rows (control_points_ c) -> (2 <= N_ c)%nat ->
  ((2 <= length (trimZeroes
                   (projection_polynomial_of (control_points_ c) point)))%nat ->
   complete_on realRoots
     (trimZeroes (projection_polynomial_of (control_points_ c) point))) ->
  let projection :=
    if Rltb (norm (psub point (valueAt c 0))) (norm (psub point (valueAt c 1)))
    then 0 else 1 in
  t = fst (projection_best c point
             (column_roots realRoots
                (projection_polynomial_of (control_points_ c) point))
             (projection, norm (psub point (valueAt c projection)))) ->
  0 <= t <= 1
  /\ norm (psub point (valueAt c t)) <= norm (psub point (valueAt c 0))
  /\ norm (psub point (valueAt c t)) <= norm (psub point (valueAt c 1))
  /\ forall u, 0 <= u <= 1 ->
       norm (psub point (valueAt c t)) <= norm (psub point (valueAt c u)).
Proof.
  intros Hinv Hn Hcomplete projection Et. unfold rows in Hinv.
  set (P := control_points_ c) in *.
  set (candidates := column_roots realRoots (projection_polynomial_of P point))
    in *.
  assert (Hstart : 0 <= projection <= 1).
  { unfold projection. destruct (Rltb _ _); lra. }
  set (start := (projection, norm (psub point (valueAt c projection)))) in *.
  assert (Hs1 : 0 <= fst start <= 1) by exact Hstart.
  assert (Hs2 : snd start = norm (psub point (valueAt c (fst start))))
    by (unfold start; cbn [fst snd]; reflexivity).
  destruct (projection_best_spec c point candidates start Hs1 Hs2)
    as (H1 & H2 & H3 & H4).
  cbv zeta in H1, H2, H3, H4. rewrite <- Et in H1, H2.
  change (snd start) with (norm (psub point (valueAt c projection))) in H3.
  assert (Hends : norm (psub point (valueAt c projection))
                  <= norm (psub point (valueAt c 0))
                  /\ norm (psub point (valueAt c projection))
                     <= norm (psub point (valueAt c 1))).
  { unfold projection.
    destruct (Rlt_dec (norm (psub point (valueAt c 0)))
                      (norm (psub point (valueAt c 1)))) as [Hlt|Hge].
    - rewrite (Rltb_true _ _ Hlt). lra.
    - rewrite (Rltb_false _ _ Hge). lra. }
  rewrite H2 in H3, H4.
  split; [exact H1|]. split; [lra|]. split; [lra|].
  intros u Hu.
  assert (Hlen : (2 <= length P)%nat) by lia.
  destruct (smallest_candidate (square_distance P point)
              (fun v => 2 * poly_eval (projection_polynomial_of P point) v)
              (fun v => square_distance_derivable P v Hlen) u Hu)
    as (um & Hum & Hle & Hcase).
  assert (Hsq : forall v, 0 <= square_distance P point v).
  { intros v. unfold square_distance.
    apply Rplus_le_le_0_compat; apply Rle_0_sqr. }
  assert (Hv : forall v, norm (psub point (valueAt c v))
                         = sqrt (square_distance P point v)).
  { intros v. rewrite valueAt_curve_value by exact Hinv.
    apply norm_square_distance. }
  apply Rle_trans with (norm (psub point (valueAt c um))).
  - destruct Hcase as [->|[->|Hroot]]; [lra|lra|].
    assert (Hroot' : poly_eval (projection_polynomial_of P point) um = 0) by lra.
    destruct (column_root_found realRoots (projection_polynomial_of P point) um
                Hcomplete Hum Hroot') as [Hin|Hzero].
    + apply H4; [|exact Hum].
      apply filter_In in Hin. tauto.
    + assert (E : square_distance P point um = square_distance P point 0).
      { apply (constant_when_flat (square_distance P point)
                 (fun v => 2 * poly_eval (projection_polynomial_of P point) v)
                 (fun v => square_distance_derivable P v Hlen)).
        intros v. rewrite Hzero. ring. }
      rewrite (Hv um), E, <- (Hv 0). lra.
  - rewrite !Hv. apply sqrt_le_1_alt. exact Hle.
Qed.

End Projection.

Section ProjectionCache.

Import Bezier.

Variable realRoots : VectorXd -> list R.

(** The first call of [projectPoint] fills the projection cache. *)
Lemma projectPoint_fills (point : Point) (c : Curve) :
  cache_ok c -> (2 <= N_ c)%nat ->
  cached_projection_polynomial_part_ c = None ->
  projection_cached (snd (projectPoint realRoots point c)).
Proof.
  intros Hc Hn Hp. pose proof (cache_ok_N c Hc) as Hinv. unfold rows in Hinv.
  unfold projectPoint, bind, projection_fill. rewrite Hp.
  unfold bind, derivative, projection_cached.
  destruct (cached_derivative_ c) as [d|] eqn:Hd.
  - assert (Ed : control_points_ d = derivative_cp (control_points_ c)).
    { destruct c; simpl in *. rewrite Hd in Hc. destruct Hc as [_ [E _]].
      rewrite E. apply new_derivative_cp. exact Hinv. }
    cbn [snd]. simpl cached_projection_polynomial_part_.
    simpl cached_projection_polynomial_derivative_. simpl control_points_.
    rewrite Ed, Hinv. split; reflexivity.
  - cbn [snd]. simpl cached_projection_polynomial_part_.
    simpl cached_projection_polynomial_derivative_. simpl control_points_.
    simpl N_. rewrite new_derivative_cp by exact Hinv. rewrite Hinv.
    split; reflexivity.
Qed.

(** A call of [projectPoint] on a filled cache, for any point. *)
Lemma projectPoint_cached (point : Point) (c : Curve) :
  projection_cached c ->
  projectPoint realRoots point c
  = (Returns
       (fst (projection_best c point
               (column_roots realRoots
                  (projection_polynomial_of (control_points_ c) point))
               (let projection :=
                  if Rltb (norm (psub point (valueAt c 0)))
                          (norm (psub point (valueAt c 1)))
                  then 0 else 1 in
                (projection, norm (psub point (valueAt c projection)))))),
     c).
Proof.
  intros [Hp Hd]. cbv zeta in Hp, Hd.
  unfold projectPoint, bind, projection_fill. rewrite Hp. cbv zeta.
  rewrite Hp, Hd. reflexivity.
Qed.

Lemma bernsteinCoeffs_1 : bernsteinCoeffs 1 = [[1]].
Proof.
  apply (matrix_ext 1 1).
  - apply bernsteinCoeffs_shape.
  - split; [reflexivity|]. repeat constructor.
  - intros i j Hi Hj. rewrite coeff_bernsteinCoeffs by auto.
    destruct i as [|i]; destruct j as [|j]; try lia;
      unfold C, coeff; simpl; field.
Qed.

(** The polynomial given to the solver for the segment from (0, 0) to (2, 0)
    and the point (1, 1), and its root. *)
Lemma projection_polynomial_of_segment :
  trimZeroes (projection_polynomial_of [(0, 0); (2, 0)] (1, 1)) = [-2; 4].
Proof.
  unfold projection_polynomial_of. simpl length. simpl Nat.sub.
  rewrite bernsteinCoeffs_2, bernsteinCoeffs_1.
  unfold derivative_cp, mmul2, to_MatrixXd, projection_polynomial_part,
    projection_polynomial, mat_vec, rows, coeff, row2, vcoeff, psub, pscale.
  simpl.
  match goal with |- trimZeroes [?a; ?b] = _ =>
    replace a with (-2) by ring; replace b with 4 by ring end.
  unfold trimZeroes. simpl. r_decide. reflexivity.
Qed.

Lemma complete_on_segment :
  complete_on realRoots_degree_one
    (trimZeroes (projection_polynomial_of [(0, 0); (2, 0)] (1, 1))).
Proof.
  rewrite projection_polynomial_of_segment. intros r Hr.
  unfold poly_eval, vcoeff in Hr. simpl in Hr. left. lra.
Qed.

(** Without any assumption on the solver, what [projectPoint] returns is in
    [0, 1] and no farther from the point than either end of the curve. *)
Lemma projection_in_range (point : Point) (c : Curve) (candidates : list R) :
  let projection :=
    if Rltb (norm (psub point (valueAt c 0))) (norm (psub point (valueAt c 1)))
    then 0 else 1 in
  let t := fst (projection_best c point candidates
                  (projection, norm (psub point (valueAt c projection)))) in
  0 <= t <= 1
  /\ norm (psub point (valueAt c t)) <= norm (psub point (valueAt c 0))
  /\ norm (psub point (valueAt c t)) <= norm (psub point (valueAt c 1)).
Proof.
  intros projection t.
  assert (Hstart : 0 <= projection <= 1).
  { unfold projection. destruct (Rltb _ _); lra. }
  set (start := (projection, norm (psub point (valueAt c projection)))) in *.
  assert (Hs1 : 0 <= fst start <= 1) by exact Hstart.
  assert (Hs2 : snd start = norm (psub point (valueAt c (fst start))))
    by (unfold start; cbn [fst snd]; reflexivity).
  destruct (projection_best_spec c point candidates start Hs1 Hs2)
    as (H1 & H2 & H3 & _).
  cbv zeta in H1, H2, H3. fold t in H1, H2.
  change (snd start) with (norm (psub point (valueAt c projection))) in H3.
  assert (Hends : norm (psub point (valueAt c projection))
                  <= norm (psub point (valueAt c 0))
                  /\ norm (psub point (valueAt c projection))
                     <= norm (psub point (valueAt c 1))).
  { unfold projection.
    destruct (Rlt_dec (norm (psub point (valueAt c 0)))
                      (norm (psub point (valueAt c 1)))) as [Hlt|Hge].
    - rewrite (Rltb_true _ _ Hlt). lra.
    - rewrite (Rltb_false _ _ Hge). lra. }
  rewrite H2 in H3.
  split; [exact H1|]. split; lra.
Qed.

End ProjectionCache.

Section RootsMeaning.

Import Bezier.

Variable realRoots : VectorXd -> list R.

Lemma column_roots_sound (column : VectorXd) (r : R) :
  ((2 <= length (trimZeroes column))%nat ->
   sound_on realRoots (trimZeroes column)) ->
  In r (filter in_unit_interval (column_roots realRoots column)) ->
  0 <= r <= 1 /\ poly_eval column r = 0.
Proof.
  intros Hsound Hin. apply filter_In in Hin. destruct Hin as [Hin Hunit].
  split; [now apply in_unit_interval_spec|].
  unfold column_roots in Hin.
  destruct (Nat.ltb_spec 1 (length (trimZeroes column))) as [Hlen|Hlen].
  - rewrite <- poly_eval_trimZeroes. apply Hsound; [lia|exact Hin].
  - destruct Hin.
Qed.

(** The list [roots] computes, read on the two coordinate polynomials. *)
Lemma new_roots_meaning (c : Curve) :
  let Q := mmul2 (bernsteinCoeffs (N_ c)) (control_points_ c) in
  ((2 <= length (trimZeroes (col0 Q)))%nat ->
   sound_on realRoots (trimZeroes (col0 Q))
   /\ complete_on realRoots (trimZeroes (col0 Q))) ->
  ((2 <= length (trimZeroes (col1 Q)))%nat ->
   sound_on realRoots (trimZeroes (col1 Q))
   /\ complete_on realRoots (trimZeroes (col1 Q))) ->
  (forall t, In t (new_roots realRoots c) ->
     0 <= t <= 1 /\ (poly_eval (col0 Q) t = 0 \/ poly_eval (col1 Q) t = 0))
  /\ (forall t, 0 <= t <= 1 -> poly_eval (col0 Q) t = 0 ->
        (exists u, poly_eval (col0 Q) u <> 0) -> In t (new_roots realRoots c))
  /\ (forall t, 0 <= t <= 1 -> poly_eval (col1 Q) t = 0 ->
        (exists u, poly_eval (col1 Q) u <> 0) -> In t (new_roots realRoots c)).
Proof.
  intros Q Hx Hy. rewrite new_roots_eq. fold Q. split; [|split].
  - intros t Hin. apply in_app_or in Hin. destruct Hin as [Hin|Hin].
    + destruct (column_roots_sound (col0 Q) t (fun Hlen => proj1 (Hx Hlen)) Hin)
        as [H1 H2].
      split; [exact H1|left; exact H2].
    + destruct (column_roots_sound (col1 Q) t (fun Hlen => proj1 (Hy Hlen)) Hin)
        as [H1 H2].
      split; [exact H1|right; exact H2].
  - intros t Ht Hroot [u Hu]. apply in_or_app. left.
    destruct (column_root_found realRoots (col0 Q) t
                (fun Hlen => proj2 (Hx Hlen)) Ht Hroot) as [Hin|Hzero].
    + exact Hin.
    + destruct Hu. apply Hzero.
  - intros t Ht Hroot [u Hu]. apply in_or_app. right.
    destruct (column_root_found realRoots (col1 Q) t
                (fun Hlen => proj2 (Hy Hlen)) Ht Hroot) as [Hin|Hzero].
    + exact Hin.
    + destruct Hu. apply Hzero.
Qed.

(** The two coordinates of the curve are the two coordinate polynomials. *)
Lemma valueAt_columns (c : Curve) (t : R) :
  N_ c = rows (control_points_ c) -> (1 <= N_ c)%nat ->
  let Q := mmul2 (bernsteinCoeffs (N_ c)) (control_points_ c) in
  fst (valueAt c t) = poly_eval (col0 Q) t
  /\ snd (valueAt c t) = poly_eval (col1 Q) t.
Proof.
  intros Hinv Hn Q. rewrite valueAt_curve_value by exact Hinv.
  unfold rows in Hinv. unfold Q. rewrite Hinv.
  rewrite curve_value_power_basis by lia. split; reflexivity.
Qed.

(** [extrema] on a curve with no derivative cached. *)
Lemma extrema_fresh (c : Curve) :
  cached_derivative_ c = None ->
  exists c',
    extrema realRoots c
    = (Returns (new_roots realRoots (new_derivative c)), c')
    /\ control_points_ c' = control_points_ c.
Proof.
  intros Hd. unfold extrema, on_derivative, bind, derivative. rewrite Hd.
  unfold roots. simpl cached_roots_.
  replace (cached_roots_ (new_derivative c)) with (@None (list R))
    by (unfold new_derivative; destruct (N_ c =? 1)%nat; reflexivity).
  eexists. split; reflexivity.
Qed.

End RootsMeaning.

Section Curvature.

Import Bezier.

(** The quotient rule on the signed curvature of a plane curve whose
    velocity is [(x1, y1)], where the velocity is not zero. *)
Lemma curvature_derivative (x1 y1 x2 y2 : R -> R) (x3 y3 t : R) :
  derivable_pt_lim x1 t (x2 t) -> derivable_pt_lim y1 t (y2 t) ->
  derivable_pt_lim x2 t x3 -> derivable_pt_lim y2 t y3 ->
  0 < x1 t * x1 t + y1 t * y1 t ->
  derivable_pt_lim
    (fun u => (x1 u * y2 u - y1 u * x2 u)
              / sqrt (x1 u * x1 u + y1 u * y1 u) ^ 3) t
    ((x1 t * y3 - y1 t * x3) / sqrt (x1 t * x1 t + y1 t * y1 t) ^ 3
     - 3 * (x1 t * x2 t + y1 t * y2 t) * (x1 t * y2 t - y1 t * x2 t)
       / sqrt (x1 t * x1 t + y1 t * y1 t) ^ 5).
Proof.
  intros Hx1 Hy1 Hx2 Hy2 Hpos.
  set (S := plus_fct (mult_fct x1 x1) (mult_fct y1 y1)).
  set (Nf := minus_fct (mult_fct x1 y2) (mult_fct y1 x2)).
  set (D3 := comp (fun y => y ^ 3) (comp sqrt S)).
  assert (HS : derivable_pt_lim S t
                 (x2 t * x1 t + x1 t * x2 t + (y2 t * y1 t + y1 t * y2 t))).
  { apply derivable_pt_lim_plus; apply derivable_pt_lim_mult; assumption. }
  assert (HN : derivable_pt_lim Nf t
                 (x2 t * y2 t + x1 t * y3 - (y2 t * x2 t + y1 t * x3))).
  { apply derivable_pt_lim_minus; apply derivable_pt_lim_mult; assumption. }
  assert (ES : S t = x1 t * x1 t + y1 t * y1 t) by reflexivity.
  assert (HD : derivable_pt_lim (comp sqrt S) t
                 (/ (2 * sqrt (S t))
                  * (x2 t * x1 t + x1 t * x2 t + (y2 t * y1 t + y1 t * y2 t)))).
  { apply derivable_pt_lim_comp; [exact HS|].
    apply derivable_pt_lim_sqrt. rewrite ES. exact Hpos. }
  assert (HD3 : derivable_pt_lim D3 t
                  (INR 3 * comp sqrt S t ^ pred 3
                   * (/ (2 * sqrt (S t))
                      * (x2 t * x1 t + x1 t * x2 t
                         + (y2 t * y1 t + y1 t * y2 t))))).
  { apply derivable_pt_lim_comp; [exact HD|]. apply derivable_pt_lim_pow. }
  assert (Hs : 0 < sqrt (S t)) by (apply sqrt_lt_R0; rewrite ES; exact Hpos).
  assert (Hne : D3 t <> 0).
  { unfold D3, comp. apply pow_nonzero. lra. }
  pose proof (derivable_pt_lim_div Nf D3 t _ _ HN HD3 Hne) as H.
  apply (derivable_pt_lim_ext (div_fct Nf D3)).
  - intros u. reflexivity.
  - replace ((x1 t * y3 - y1 t * x3) / sqrt (x1 t * x1 t + y1 t * y1 t) ^ 3
             - 3 * (x1 t * x2 t + y1 t * y2 t) * (x1 t * y2 t - y1 t * x2 t)
               / sqrt (x1 t * x1 t + y1 t * y1 t) ^ 5)
      with (((x2 t * y2 t + x1 t * y3 - (y2 t * x2 t + y1 t * x3)) * D3 t
             - INR 3 * comp sqrt S t ^ pred 3
               * (/ (2 * sqrt (S t))
                  * (x2 t * x1 t + x1 t * x2 t + (y2 t * y1 t + y1 t * y2 t)))
               * Nf t) / Rsqr (D3 t)); [exact H|].
    unfold D3, comp, Nf, minus_fct, mult_fct, Rsqr. rewrite <- ES.
    simpl INR. simpl pred. field. lra.
Qed.

Lemma derivative_cp_nonempty (P : MatrixX2d) :
  (0 < length P)%nat -> (0 < length (derivative_cp P))%nat.
Proof.
  intros H. destruct P as [|p [|q P]].
  - simpl in H. lia.
  - rewrite derivative_cp_single. simpl. lia.
  - rewrite length_derivative_cp by (simpl; lia). simpl. lia.
Qed.

Lemma computes_derivativeAt_3 t :
  computes (derivativeAt_n 3 t)
    (fun P => Returns
       (curve_value (derivative_cp (derivative_cp (derivative_cp P))) t)).
Proof.
  unfold derivativeAt_n, on_derivative_n. simpl Nat.eqb. cbv iota.
  exact (computes_on_nth_derivative _ _ 3 (computes_valueAt t)).
Qed.

Lemma computes_curvatureAt t :
  computes (curvatureAt t)
    (fun P =>
       let d1 := curve_value (derivative_cp P) t in
       let d2 := curve_value (derivative_cp (derivative_cp P)) t in
       Returns ((fst d1 * snd d2 - snd d1 * fst d2) / norm d1 ^ 3)).
Proof.
  unfold curvatureAt. eapply computes_ext.
  - apply computes_bind; [apply computes_derivativeAt|].
    intros d1. apply computes_bind; [apply computes_derivativeAt_2|].
    intros d2. apply computes_ret.
  - intros P. reflexivity.
Qed.

Lemma computes_curvatureDerivativeAt t :
  computes (curvatureDerivativeAt t)
    (fun P =>
       let d1 := curve_value (derivative_cp P) t in
       let d2 := curve_value (derivative_cp (derivative_cp P)) t in
       let d3 :=
         curve_value (derivative_cp (derivative_cp (derivative_cp P))) t in
       Returns ((fst d1 * snd d3 - snd d1 * fst d3) / norm d1 ^ 3
                - 3 * dot d1 d2 * (fst d1 * snd d2 - snd d1 * fst d2)
                  / norm d1 ^ 5)).
Proof.
  unfold curvatureDerivativeAt. eapply computes_ext.
  - apply computes_bind; [apply computes_derivativeAt|].
    intros d1. apply computes_bind; [apply computes_derivativeAt_2|].
    intros d2. apply computes_bind; [apply computes_derivativeAt_3|].
    intros d3. apply computes_ret.
  - intros P. reflexivity.
Qed.

End Curvature.

Section OrderRoundTrip.

Import Bezier.

Lemma rows_transpose A : rows (transpose A) = cols A.
Proof. apply rows_tabulate. Qed.

Lemma cols_transpose A : (0 < cols A)%nat -> cols (transpose A) = rows A.
Proof. intros H. unfold transpose. now apply cols_tabulate. Qed.

Lemma mmul_assoc_rect A B C :
  (0 < rows A)%nat -> (0 < rows B)%nat ->
  cols A = rows B -> cols B = rows C ->
  mmul (mmul A B) C = mmul A (mmul B C).
Proof.
  intros HA HB HAB HBC.
  apply (matrix_ext (rows A) (cols C)).
  - apply well_shaped_mmul'; [apply rows_mmul|reflexivity].
  - apply well_shaped_mmul'; [reflexivity|now apply cols_mmul].
  - intros i j Hi Hj.
    rewrite (coeff_mmul (mmul A B) C) by (rewrite ?rows_mmul; lia).
    rewrite (coeff_mmul A (mmul B C)) by (rewrite ?cols_mmul; lia).
    rewrite cols_mmul by lia.
    rewrite (sum_n_ext _ (fun k => sum_n (fun l => coeff A i l * coeff B l k
                                                   * coeff C k j) (cols A))).
    2:{ intros k Hk. rewrite coeff_mmul by lia.
        rewrite <- sum_n_scal_r. reflexivity. }
    rewrite sum_n_swap. apply sum_n_ext. intros l Hl.
    rewrite coeff_mmul by lia. rewrite <- sum_n_scal.
    apply sum_n_ext. intros k Hk. ring.
Qed.

Lemma mmul2_assoc A B (P : MatrixX2d) :
  (0 < rows A)%nat -> cols A = rows B ->
  mmul2 (mmul A B) P = mmul2 A (mmul2 B P).
Proof.
  intros HA HAB. unfold mmul2 at 1 2. rewrite rows_mmul.
  apply map_ext_in. intros i Hi. apply in_seq in Hi.
  rewrite cols_mmul by lia.
  f_equal.
  - rewrite (sum_n_ext _ (fun k => sum_n (fun l => coeff A i l * coeff B l k
                                                   * fst (row2 P k)) (cols A))).
    2:{ intros k Hk. rewrite coeff_mmul by lia.
        rewrite <- sum_n_scal_r. reflexivity. }
    rewrite sum_n_swap. apply sum_n_ext. intros l Hl.
    rewrite row2_mmul2 by lia. cbn [fst]. rewrite <- sum_n_scal.
    apply sum_n_ext. intros k Hk. ring.
  - rewrite (sum_n_ext _ (fun k => sum_n (fun l => coeff A i l * coeff B l k
                                                   * snd (row2 P k)) (cols A))).
    2:{ intros k Hk. rewrite coeff_mmul by lia.
        rewrite <- sum_n_scal_r. reflexivity. }
    rewrite sum_n_swap. apply sum_n_ext. intros l Hl.
    rewrite row2_mmul2 by lia. cbn [snd]. rewrite <- sum_n_scal.
    apply sum_n_ext. intros k Hk. ring.
Qed.

Lemma mmul2_Identity n (P : MatrixX2d) :
  length P = n -> mmul2 (Identity n) P = P.
Proof.
  intros HP. destruct (Nat.eq_dec n 0) as [->|Hn].
  - apply length_zero_iff_nil in HP. now subst.
  - apply (nth_ext _ _ (0, 0) (0, 0)).
    + now rewrite length_mmul2, rows_Identity.
    + intros i Hi. rewrite length_mmul2, rows_Identity in Hi.
      change (row2 (mmul2 (Identity n) P) i = row2 P i).
      rewrite row2_mmul2 by now rewrite rows_Identity.
      rewrite cols_Identity by lia.
      rewrite (sum_n_single _ n i), (sum_n_single _ n i); try lia.
      * rewrite coeff_Identity, Nat.eqb_refl by lia.
        rewrite !Rmult_1_l. symmetry. apply surjective_pairing.
      * intros k Hk Hne. rewrite coeff_Identity by lia.
        destruct (Nat.eqb_spec i k); [lia|ring].
      * intros k Hk Hne. rewrite coeff_Identity by lia.
        destruct (Nat.eqb_spec i k); [lia|ring].
Qed.

(** [lowerOrderCoeffs(n + 1) * elevateOrderCoeffs(n)] is the identity when
    the matrix that [lowerOrderCoeffs] inverts has an inverse. *)
Lemma lower_after_elevate (n : nat) (P : MatrixX2d) :
  (0 < n)%nat -> length P = n ->
  (exists B,
     is_inverse (mmul (transpose (elevateOrderCoeffs n))
                      (elevateOrderCoeffs n)) B) ->
  mmul2 (lowerOrderCoeffs (n + 1)) (mmul2 (elevateOrderCoeffs n) P) = P.
Proof.
  intros Hn HP Hinv. unfold lowerOrderCoeffs.
  replace (n + 1 - 1)%nat with n by lia.
  set (E := elevateOrderCoeffs n) in *.
  set (G := mmul (transpose E) E) in *.
  assert (HrE : rows E = (n + 1)%nat)
    by apply (proj1 (elevateOrderCoeffs_shape n)).
  assert (HcE : cols E = n) by apply cols_elevateOrderCoeffs.
  assert (HrT : rows (transpose E) = n) by now rewrite rows_transpose.
  assert (HcT : cols (transpose E) = (n + 1)%nat)
    by (rewrite cols_transpose; lia).
  assert (HrG : rows G = n) by (unfold G; now rewrite rows_mmul).
  assert (HG : is_inverse G (inverse G)).
  { unfold inverse. apply epsilon_spec. exact Hinv. }
  destruct HG as (Hshape & _ & Hleft). rewrite HrG in Hshape, Hleft.
  assert (HrI : rows (inverse G) = n) by apply Hshape.
  assert (HcI : cols (inverse G) = n)
    by (apply (well_shaped_cols n); [lia|exact Hshape]).
  rewrite <- mmul2_assoc
    by (rewrite ?rows_mmul, ?cols_mmul; lia).
  rewrite mmul_assoc_rect by lia.
  fold G. rewrite Hleft. now apply mmul2_Identity.
Qed.

End OrderRoundTrip.

(** * The claims *)

Section Claims.

Import Bezier.

(** C1. For a curve with n >= 1 control points and t in [0,1], [valueAt]
    is [[1, t, ..., t^(n-1)] * B_n * P], and this is the Bernstein sum
    [sum_k C(n-1,k) (1-t)^(n-1-k) t^k P_k]; with no control point it is the
    origin. *)
Theorem C1_valueAt_bernstein (c : Curve) (t : R) :
  N_ c = rows (control_points_ c) -> 0 <= t <= 1 ->
  ((1 <= N_ c)%nat ->
   valueAt c t
   = vec_mat2 (vec_mat (pow_array t (seq 0 (N_ c))) (bernsteinCoeffs (N_ c)))
              (control_points_ c)
   /\ valueAt c t = bezier_reference (control_points_ c) t)
  /\ (N_ c = 0%nat -> valueAt c t = (0, 0)).
Proof.
  intros Hinv Ht. split.
  - intros Hn. split.
    + unfold valueAt. destruct (Nat.eqb_spec (N_ c) 0); [lia|reflexivity].
    + apply valueAt_bernstein; auto.
  - intros Hn. unfold valueAt. now rewrite Hn.
Qed.

Lemma C1_witness :
  let c := new_Curve [(0, 0); (1, 2); (2, -1); (3, 0)] in
  (N_ c = rows (control_points_ c) /\ 0 <= 1 / 2 <= 1) /\
  valueAt c (1 / 2) = bezier_reference (control_points_ c) (1 / 2).
Proof.
  intros c. split.
  - split; [reflexivity|lra].
  - apply (C1_valueAt_bernstein c (1 / 2)); [reflexivity|lra|simpl; lia].
Defined.

(** Scenario S1 of the specification: the cubic through (0,0), (1,2),
    (2,-1), (3,0) passes through (1.5, 0.375) at t = 0.5. *)
Example S1_cubic_evaluation :
  valueAt (new_Curve [(0, 0); (1, 2); (2, -1); (3, 0)]) (1 / 2) = (3 / 2, 3 / 8).
Proof.
  rewrite valueAt_bernstein by (simpl; auto; lia).
  unfold bezier_reference, bernstein, C. simpl. f_equal; field.
Qed.

(** C5. For a curve with n >= 2 control points, [elevateOrder] replaces P by
    E_n * P, where E_n is the (n+1) x n matrix with main diagonal 1 - k/n and
    sub-diagonal (k+1)/n; the order grows by one and the curve keeps its
    value at every t. *)
Theorem C5_elevateOrder_preserves_curve (c : Curve) :
  N_ c = rows (control_points_ c) -> (2 <= N_ c)%nat ->
  exists c',
    elevateOrder c = (Returns tt, c') /\
    control_points_ c' = mmul2 (elevateOrderCoeffs (N_ c)) (control_points_ c) /\
    well_shaped (N_ c + 1) (N_ c) (elevateOrderCoeffs (N_ c)) /\
    (forall i k, (i < N_ c + 1)%nat -> (k < N_ c)%nat ->
       coeff (elevateOrderCoeffs (N_ c)) i k
       = if Nat.eqb i k then 1 - INR k / INR (N_ c)
         else if Nat.eqb i (S k) then INR (k + 1) / INR (N_ c)
         else 0) /\
    N_ c' = rows (control_points_ c') /\
    order c' = (order c + 1)%nat /\
    forall t, valueAt c' t = valueAt c t.
Proof.
  intros Hinv Hn.
  exists (resetCache (set_control_points c
            (mmul2 (elevateOrderCoeffs (N_ c)) (control_points_ c)))).
  assert (Hrows : rows (mmul2 (elevateOrderCoeffs (N_ c)) (control_points_ c))
                  = (N_ c + 1)%nat).
  { unfold rows. rewrite length_mmul2.
    apply (proj1 (elevateOrderCoeffs_shape (N_ c))). }
  split; [reflexivity|]. split; [reflexivity|].
  split; [apply elevateOrderCoeffs_shape|].
  split.
  { intros i k Hi Hk. rewrite coeff_elevateOrderCoeffs by auto.
    destruct (Nat.eqb_spec i k) as [E|E];
      destruct (Nat.eqb_spec i (S k)) as [E'|E']; try reflexivity. lia. }
  split; [reflexivity|].
  split.
  { unfold order. simpl. rewrite Hrows. lia. }
  intros t.
  rewrite (valueAt_bernstein c t) by (auto; lia).
  rewrite valueAt_bernstein; simpl.
  - rewrite Hinv. apply bezier_reference_elevate. unfold rows in Hinv. lia.
  - reflexivity.
  - rewrite Hrows. lia.
Qed.

Lemma C5_witness :
  let c := new_Curve [(0, 0); (1, 2); (2, 0)] in
  (N_ c = rows (control_points_ c) /\ (2 <= N_ c)%nat) /\
  exists c', elevateOrder c = (Returns tt, c') /\
             order c' = (order c + 1)%nat /\
             forall t, valueAt c' t = valueAt c t.
Proof.
  intros c. split.
  - split; [reflexivity|simpl; lia].
  - destruct (C5_elevateOrder_preserves_curve c) as (c' & H1 & _ & _ & _ & _ & H2 & H3);
      [reflexivity|simpl; lia|].
    exists c'. auto.
Defined.

(** C2. [lowerOrder] on a curve of two control points, [manipulateCurvature]
    on a curve whose count of control points is not 3 or 4, and
    [derivative(0)] each throw a logic error of their own, and the object
    is left as it was (control points, count and cache). *)
Theorem C2_precondition_violations (c : Curve) :
  (N_ c = 2%nat ->
   lowerOrder c
   = (Throws (logic_error "Cannot further reduce the order of curve."), c)) /\
  (forall t point, N_ c <> 3%nat -> N_ c <> 4%nat ->
   manipulateCurvature t point c
   = (Throws (logic_error "Only quadratic and cubic curves can be manipulated"), c)) /\
  derivative_n 0 c = (Throws (invalid_argument "double 'n' cannot be zero."), c) /\
  (forall t, derivativeAt_n 0 t c
             = (Throws (invalid_argument "double 'n' cannot be zero."), c)) /\
  is_logic_error (logic_error "Cannot further reduce the order of curve.") = true /\
  is_logic_error (logic_error "Only quadratic and cubic curves can be manipulated") = true /\
  is_logic_error (invalid_argument "double 'n' cannot be zero.") = true /\
  logic_error "Cannot further reduce the order of curve."
  <> logic_error "Only quadratic and cubic curves can be manipulated" /\
  logic_error "Cannot further reduce the order of curve."
  <> invalid_argument "double 'n' cannot be zero." /\
  logic_error "Only quadratic and cubic curves can be manipulated"
  <> invalid_argument "double 'n' cannot be zero.".
Proof.
  split.
  { intros Hn. unfold lowerOrder. now rewrite Hn. }
  split.
  { intros t point H3 H4. unfold manipulateCurvature.
    destruct (Nat.ltb_spec (N_ c) 3) as [Hlt|Hge]; [reflexivity|].
    destruct (Nat.ltb_spec 4 (N_ c)) as [Hgt|Hle]; [reflexivity|lia]. }
  repeat split; try reflexivity; discriminate.
Qed.

Lemma C2_witness :
  let c := new_Curve [(0, 0); (1, 1)] in
  (N_ c = 2%nat /\ N_ c <> 3%nat /\ N_ c <> 4%nat) /\
  lowerOrder c
  = (Throws (logic_error "Cannot further reduce the order of curve."), c) /\
  manipulateCurvature (1 / 2) (1, 0) c
  = (Throws (logic_error "Only quadratic and cubic curves can be manipulated"), c).
Proof.
  intros c. split.
  - simpl. repeat split; discriminate.
  - split.
    + apply (proj1 (C2_precondition_violations c)). reflexivity.
    + apply (proj1 (proj2 (C2_precondition_violations c))); simpl; discriminate.
Defined.

(** C3, as stated: a call of [valueAt] with t outside [0,1] is reported to
    the caller.  It is not: on the segment from (0,0) to (1,1), [valueAt(2)]
    returns the point (2,2). *)
Lemma C3_counterexample :
  let c := new_Curve [(0, 0); (1, 1)] in
  ~ (0 <= 2 <= 1) /\
  call_valueAt 2 c = (Returns (2, 2), c) /\
  ~ (exists e, fst (call_valueAt 2 c) = Throws e).
Proof.
  intros c.
  assert (E : call_valueAt 2 c = (Returns (2, 2), c)).
  { unfold call_valueAt, gets. f_equal. f_equal.
    rewrite valueAt_bernstein by (simpl; auto; lia).
    unfold bezier_reference, bernstein, C. simpl. f_equal; field. }
  split; [lra|]. split; [exact E|].
  rewrite E. intros [e He]. discriminate.
Qed.

(** C3, amended. [valueAt] checks no domain: for every real t, inside [0,1]
    or not, the call returns, leaves the object as it is, and its value is
    the Bernstein sum extended to t. *)
Theorem C3_valueAt_total (c : Curve) (t : R) :
  call_valueAt t c = (Returns (valueAt c t), c) /\
  (N_ c = rows (control_points_ c) -> (1 <= N_ c)%nat ->
   valueAt c t = bezier_reference (control_points_ c) t).
Proof.
  split; [reflexivity|]. intros Hinv Hn. apply valueAt_bernstein; auto.
Qed.

Lemma C3_witness :
  let c := new_Curve [(0, 0); (1, 1)] in
  (N_ c = rows (control_points_ c) /\ (1 <= N_ c)%nat) /\
  valueAt c 2 = bezier_reference (control_points_ c) 2.
Proof.
  intros c. split.
  - split; [reflexivity|simpl; lia].
  - apply (proj2 (C3_valueAt_total c 2)); [reflexivity|simpl; lia].
Defined.

(** C4. [roots] forms Q = B_n * P, trims the trailing zeros of the two
    columns of Q one by one, solves each trimmed column with the
    companion-matrix solver (a column left with at most one coefficient has
    no root and is not given to the solver), keeps the roots t with
    0 <= t <= 1 and returns those of the x column followed by those of the
    y column, in the order of the solver and with their repetitions. *)
Theorem C4_roots (realRoots : VectorXd -> list R) (c : Curve) :
  roots_cache_ok realRoots c ->
  let Q := mmul2 (bernsteinCoeffs (N_ c)) (control_points_ c) in
  (exists c',
     roots realRoots c
     = (Returns (filter in_unit_interval (column_roots realRoots (col0 Q))
                 ++ filter in_unit_interval (column_roots realRoots (col1 Q))),
        c')
     /\ control_points_ c' = control_points_ c /\ N_ c' = N_ c
     /\ roots_cache_ok realRoots c') /\
  (forall column,
     column_roots realRoots column
     = if Nat.ltb 1 (length (trimZeroes column))
       then realRoots (trimZeroes column) else []) /\
  (forall v, exists k,
     v = trimZeroes v ++ repeat 0 k /\ last (trimZeroes v) 1 <> 0) /\
  (forall t, in_unit_interval t = true <-> 0 <= t <= 1).
Proof.
  intros Hcache Q. split; [|split; [reflexivity|split]].
  - unfold roots. destruct (cached_roots_ c) as [r|] eqn:E.
    + exists c. rewrite (Hcache r E), new_roots_eq. auto.
    + exists (set_cached_roots c (Some (new_roots realRoots c))).
      rewrite new_roots_eq at 1. repeat split.
      intros r Hr. simpl in Hr. injection Hr as <-. reflexivity.
  - apply trimZeroes_spec.
  - apply in_unit_interval_spec.
Qed.

(** The segment from (-1,-1) to (1,1) crosses both axes at t = 1/2: the
    root is returned twice, once per column. *)
Lemma C4_witness :
  let c := new_Curve [(-1, -1); (1, 1)] in
  roots_cache_ok realRoots_degree_one c /\
  fst (roots realRoots_degree_one c) = Returns [1 / 2; 1 / 2].
Proof.
  intros c.
  assert (Hc : roots_cache_ok realRoots_degree_one c) by (intros r Hr; discriminate).
  split; [exact Hc|].
  destruct (proj1 (C4_roots realRoots_degree_one c Hc)) as (c' & E & _).
  rewrite E. cbn [fst]. f_equal.
  change (N_ c) with 2%nat. rewrite bernsteinCoeffs_2.
  assert (EQ : mmul2 [[1; 0]; [-1; 1]] (control_points_ c) = [(-1, -1); (2, 2)]).
  { unfold mmul2, coeff, row2. simpl. repeat f_equal; ring. }
  rewrite EQ. unfold col0, col1, column_roots, trimZeroes. simpl.
  r_decide. simpl. unfold in_unit_interval. r_decide. simpl.
  repeat f_equal; field.
Defined.

(** C10. Called on the curve itself, [intersections] seeds no pair when the
    list of extrema is empty, and returns no point. *)
Theorem C10_self_intersection_without_extrema
    (realRoots : VectorXd -> list R) (fuel : nat) (epsilon : R) (c c1 : Curve) :
  extrema realRoots c = (Returns [], c1) ->
  intersections realRoots fuel ref_this epsilon c = (Returns [], c1).
Proof.
  intros H. unfold intersections, bind. rewrite H.
  unfold self_subcurves, sort. simpl.
  destruct fuel; reflexivity.
Qed.

Lemma C10_witness :
  let c := new_Curve [(0, 0); (1, 1)] in
  exists c1,
    extrema realRoots_degree_one c = (Returns [], c1) /\
    intersections realRoots_degree_one 0 ref_this (1 / 10000) c = (Returns [], c1).
Proof.
  intros c.
  assert (E : exists c1, extrema realRoots_degree_one c = (Returns [], c1)).
  { eexists. reflexivity. }
  destruct E as [c1 E]. exists c1. split; [exact E|].
  apply (C10_self_intersection_without_extrema _ _ _ _ _ E).
Defined.

(** The interval (0, 1) holds the single root of x - 1/3. *)
Lemma interval_x_minus_third :
  Sturm.interval (Sturm.chain [1; - (1 / 3)] (1 / 1000)) 0 1 = 1%Z.
Proof.
  rewrite chain_degree_one.
  unfold Sturm.interval, Sturm.power_basis, mat_vec, pow_array, LinSpaced.
  cbn. unfold Sturm.signbit. r_decide. reflexivity.
Qed.

(** C6, as stated: an interval with one root that is not narrower than
    epsilon is split at its midpoint.  For x - 1/3 and epsilon = 3/4 the
    interval (0, 1) holds one root and has width 1, yet [iterate] emits a
    root for it and pushes nothing: the test of the source is on the half
    width. *)
Lemma C6_counterexample :
  ~ C6_as_stated (Sturm.chain [1; - (1 / 3)] (1 / 1000)) Sturm.All (3 / 4)
      0 1 false ([], []).
Proof.
  unfold C6_as_stated. intros (_ & _ & H).
  rewrite interval_x_minus_third in H.
  assert (E : Sturm.iterate (Sturm.chain [1; - (1 / 3)] (1 / 1000)) Sturm.All
                (3 / 4) (0, 1, false) ([], [])
              = ([], [(0 + (0 + 1) / 2) / 2])).
  { apply (iterate_emit _ _ _ 0 1 false ([], [])).
    - rewrite interval_x_minus_third. discriminate.
    - lra. }
  rewrite E in H. unfold Sturm.split_item in H. simpl in H.
  assert (H' : ([] : list Sturm.work_item, [(0 + (0 + 1) / 2) / 2])
               = ([((0 + 1) / 2, 1, false); (0, (0 + 1) / 2, false)], [])).
  { apply H. split; [discriminate|]. intros [_ Hw]. lra. }
  discriminate H'.
Qed.

(** C6, amended.  With V the root count of the interval (a, b) as [iterate]
    reads it and M = (a + b) / 2: the interval is discarded when V = 0;
    when V is not 0 and the half width M - a is below epsilon, one root is
    emitted for the interval and nothing is pushed; when V is not 0, the
    half width is at least epsilon and V is not 1, or the root type is All,
    or the flag is set, the halves (a, M) and (M, b) are pushed; and a round
    of the loop pops one interval and gives its two halves to [iterate]. *)
Theorem C6_iterate_cases (sturm_chain : MatrixXd) (root_type : Z) (epsilon : R)
    (a b : R) (flag : bool) (st : Sturm.state) :
  let V := Sturm.to_uint (Sturm.interval sturm_chain a b) in
  let M := (a + b) / 2 in
  let st' := Sturm.iterate sturm_chain root_type epsilon (a, b, flag) st in
  (V = 0%Z -> st' = st) /\
  (V <> 0%Z -> M - a < epsilon ->
   exists root, st' = (fst st, emplace_back (snd st) root)) /\
  (V <> 0%Z -> ~ M - a < epsilon ->
   V <> 1%Z \/ root_type = Sturm.All \/ flag = true ->
   st' = ((M, b, flag) :: (a, M, flag) :: fst st, snd st)) /\
  (forall fuel intervals roots,
     Sturm.roots_while (S fuel) sturm_chain root_type epsilon
       ((a, b, flag) :: intervals, roots)
     = Sturm.roots_while fuel sturm_chain root_type epsilon
         (Sturm.iterate sturm_chain root_type epsilon (M, b, flag)
            (Sturm.iterate sturm_chain root_type epsilon (a, M, flag)
               (intervals, roots)))).
Proof.
  intros V M st'. split; [|split; [|split]].
  - apply iterate_discard.
  - intros HV Hw. eexists. apply iterate_emit; assumption.
  - intros HV Hw Hc. apply iterate_split; assumption.
  - reflexivity.
Qed.

Lemma C6_witness :
  let ch := Sturm.chain [1; - (1 / 3)] (1 / 1000) in
  (Sturm.to_uint (Sturm.interval ch 0 1) <> 0%Z /\ (0 + 1) / 2 - 0 < 3 / 4) /\
  exists root,
    Sturm.iterate ch Sturm.All (3 / 4) (0, 1, false) ([], []) = ([], [root]).
Proof.
  intros ch. split.
  - split; [unfold ch; rewrite interval_x_minus_third; discriminate|lra].
  - apply (proj1 (proj2 (C6_iterate_cases ch Sturm.All (3 / 4) 0 1 false ([], [])))).
    + unfold ch. rewrite interval_x_minus_third. discriminate.
    + lra.
Defined.

(** The segment from (0,0) to (1,0) has unit speed, and length t up to t
    under the one-point rule. *)
Lemma segment_speed t : speed [(0, 0); (1, 0)] t = 1.
Proof.
  unfold speed. rewrite derivative_cp_2, curve_value_1. simpl.
  replace (1 - 0) with 1 by ring. replace (0 - 0) with 0 by ring.
  rewrite norm_x_0. apply Rabs_R1.
Qed.

Lemma segment_accel t : accel [(0, 0); (1, 0)] t = 0.
Proof.
  unfold accel. rewrite derivative_cp_2.
  unfold derivative_cp, new_derivative. simpl.
  rewrite curve_value_1, norm_x_0. apply Rabs_R0.
Qed.

Lemma segment_length t : arc_length one_point_rule [(0, 0); (1, 0)] 0 t = t.
Proof.
  unfold arc_length. simpl. rewrite segment_speed. unfold vcoeff. simpl. field.
Qed.

(** C7, as stated: the loop runs until |f| < epsilon.  On the segment from
    (0,0) to (1,0), [iterateByLength(0, 1/2, 1/2)] starts with |f| = 1/2,
    which is not above epsilon, and returns the start 0, where |f| is not
    below epsilon. *)
Lemma C7_counterexample :
  ~ C7_as_stated one_point_rule (new_Curve [(0, 0); (1, 0)]) 0 (1 / 2) (1 / 2).
Proof.
  unfold C7_as_stated. simpl control_points_. intros H.
  assert (Hrun : fst (iterateByLength one_point_rule 0 0 (1 / 2) (1 / 2)
                        (new_Curve [(0, 0); (1, 0)])) = Returns 0).
  { destruct (iterateByLength_cases one_point_rule 0 0 (1 / 2) (1 / 2)
                (new_Curve [(0, 0); (1, 0)]) (cache_ok_new_Curve _))
      as (c' & Hc' & P' & [[Hu _]|[(_ & Ho & _)|(_ & _ & E)]]);
      simpl control_points_ in *.
    - rewrite segment_length in Hu. lra.
    - rewrite !segment_length in Ho. lra.
    - rewrite E. simpl. unfold halley_f. rewrite !segment_length.
      rewrite Rltb_false; [reflexivity|].
      replace (0 - 0 - 1 / 2) with (- (1 / 2)) by ring.
      rewrite Rabs_Ropp, Rabs_pos_eq by lra. lra. }
  specialize (H ltac:(rewrite !segment_length; lra) 0%nat 0 Hrun).
  unfold halley_f in H. rewrite !segment_length in H.
  replace (0 - 0 - 1 / 2) with (- (1 / 2)) in H by ring.
  rewrite Rabs_Ropp, Rabs_pos_eq in H by lra. lra.
Qed.

(** C7, amended.  With s_t = length(t0): [iterateByLength] returns 0 when
    s_t + s < 0 and 1 when s_t + s > length() (the weights of the table not
    being negative); otherwise it runs Halley's update
    t <- t - 2 f f' / (2 f'^2 - f f'') from t0, with f = length(t) - s_t - s,
    f' the norm of the first and f'' that of the second derivative at t, and
    returns the first iterate at which |f| <= epsilon (it goes on while
    |f| > epsilon). *)
Theorem C7_iterateByLength (lg : LegendreGauss.table) (c : Curve)
    (t0 s epsilon : R) :
  cache_ok c ->
  let P := control_points_ c in
  let x := halley_iterate lg P t0 s in
  let f := halley_f lg P t0 s in
  (arc_length lg P 0 t0 + s < 0 ->
   forall fuel, fst (iterateByLength lg fuel t0 s epsilon c) = Returns 0) /\
  ((forall k, 0 <= vcoeff (LegendreGauss.weights lg) k) ->
   arc_length lg P 0 1 < arc_length lg P 0 t0 + s ->
   forall fuel, fst (iterateByLength lg fuel t0 s epsilon c) = Returns 1) /\
  (0 <= arc_length lg P 0 t0 + s <= arc_length lg P 0 1 ->
   forall k,
     (forall i, (i < k)%nat -> epsilon < Rabs (f (x i))) ->
     Rabs (f (x k)) <= epsilon ->
     forall fuel, (k <= fuel)%nat ->
       fst (iterateByLength lg fuel t0 s epsilon c) = Returns (x k)) /\
  x 0%nat = t0 /\
  (forall i,
     x (S i)
     = x i - (2 * f (x i) * speed P (x i))
             / (2 * speed P (x i) * speed P (x i) - f (x i) * accel P (x i))) /\
  (forall t, f t = arc_length lg P 0 t - arc_length lg P 0 t0 - s).
Proof.
  intros Hc P x f. subst P.
  split; [|split; [|split; [|split; [reflexivity|split; reflexivity]]]].
  - intros Hu fuel.
    destruct (iterateByLength_cases lg fuel t0 s epsilon c Hc)
      as (c' & _ & _ & [[_ E]|[(Hn & _)|(Hn & _)]]);
      [now rewrite E|contradiction|contradiction].
  - intros Hw Ho fuel. pose proof (arc_length_nonneg lg (control_points_ c) Hw) as HL.
    destruct (iterateByLength_cases lg fuel t0 s epsilon c Hc)
      as (c' & _ & _ & [[Hu _]|[(_ & _ & E)|(_ & Hn & _)]]);
      [lra|now rewrite E|contradiction].
  - intros [Hlo Hhi] k Hbig Hend fuel Hfuel.
    destruct (iterateByLength_cases lg fuel t0 s epsilon c Hc)
      as (c' & Hc' & P' & [[Hu _]|[(_ & Ho & _)|(_ & _ & E)]]);
      [lra|lra|].
    rewrite E.
    destruct (while_returns lg (control_points_ c) t0 s epsilon k fuel 0%nat c' Hc' P' Hfuel)
      as (c'' & E' & _).
    + intros i Hi. apply Hbig. lia.
    + exact Hend.
    + simpl halley_iterate in E'. rewrite E'. reflexivity.
Qed.

Lemma C7_witness :
  let c := new_Curve [(0, 0); (1, 0)] in
  (cache_ok c /\
   0 <= arc_length one_point_rule (control_points_ c) 0 0 + 1 / 2
     <= arc_length one_point_rule (control_points_ c) 0 1) /\
  fst (iterateByLength one_point_rule 1 0 (1 / 2) (1 / 4) c) = Returns (1 / 2).
Proof.
  intros c.
  assert (Hc : cache_ok c) by apply cache_ok_new_Curve.
  assert (Hr : 0 <= arc_length one_point_rule (control_points_ c) 0 0 + 1 / 2
                 <= arc_length one_point_rule (control_points_ c) 0 1).
  { simpl control_points_. rewrite !segment_length. lra. }
  split; [split; assumption|].
  assert (Hx1 : halley_iterate one_point_rule (control_points_ c) 0 (1 / 2) 1
                = 1 / 2).
  { simpl. unfold halley_step, halley_f.
    rewrite !segment_length, segment_speed, segment_accel. field. }
  replace (Returns (1 / 2))
    with (Returns (halley_iterate one_point_rule (control_points_ c) 0 (1 / 2) 1))
    by now rewrite Hx1.
  apply (proj1 (proj2 (proj2 (C7_iterateByLength one_point_rule c 0 (1 / 2) (1 / 4) Hc)))
           Hr 1%nat).
  - intros i Hi. assert (i = 0%nat) as -> by lia. simpl.
    unfold halley_f. rewrite !segment_length.
    replace (0 - 0 - 1 / 2) with (- (1 / 2)) by ring.
    rewrite Rabs_Ropp, Rabs_pos_eq by lra. lra.
  - rewrite Hx1. unfold halley_f. simpl control_points_. rewrite !segment_length.
    replace (1 / 2 - 0 - 1 / 2) with 0 by ring. rewrite Rabs_R0. lra.
  - lia.
Defined.

(** C8, as stated: the Halley loop of [iterateByLength] returns on every
    input within its preconditions.  On the quadratic (0,0), (0,0), (1,0),
    whose speed at the start is zero, the call from t = 0 for half the
    length of the curve (1/4 under the one-point rule) with epsilon = 1/8
    never returns: the update leaves t at 0. *)
Lemma C8_counterexample :
  ~ C8_as_stated one_point_rule (new_Curve [(0, 0); (0, 0); (1, 0)])
      0 (arc_length one_point_rule [(0, 0); (0, 0); (1, 0)] 0 1 / 2)
      (arc_length one_point_rule [(0, 0); (0, 0); (1, 0)] 0 1 / 4).
Proof.
  assert (HN : (0 < LegendreGauss.N one_point_rule)%nat) by (simpl; lia).
  assert (Hk : forall k, (k < LegendreGauss.N one_point_rule)%nat ->
                 0 < vcoeff (LegendreGauss.weights one_point_rule) k
                 /\ -1 < vcoeff (LegendreGauss.abcissae one_point_rule) k).
  { intros k Hlt. simpl in Hlt. assert (k = 0%nat) as -> by lia.
    unfold vcoeff. simpl. lra. }
  pose proof (cusp_length_pos one_point_rule HN Hk) as HL.
  pose proof (cusp_never_returns one_point_rule HN Hk) as Hloop.
  simpl in Hloop.
  unfold C8_as_stated. simpl control_points_. intros H.
  destruct H as (fuel & r & Hr).
  - lra.
  - lra.
  - rewrite arc_length_same. lra.
  - rewrite Hloop in Hr. discriminate.
Qed.

(** C9, as stated: an accepted centre is added only if its distance to
    every point found so far exceeds epsilon.  With epsilon = 1, the pair
    of the segments (1,0)-(3/2,0) and (1/2,0)-(1,0), and the point (1/4,0)
    already found, the centre (5/4,0) lies at distance exactly 1 from that
    point and is added all the same. *)
Lemma C9_counterexample :
  ~ C9_as_stated 2 1 [(1, 0); (3 / 2, 0)] [(1 / 2, 0); (1, 0)] [] [(1 / 4, 0)].
Proof.
  unfold C9_as_stated. intros (_ & H & _).
  rewrite !bbox_of_horizontal in H by lra.
  rewrite !diagonal_of_horizontal in H by lra.
  assert (Hi : intersects (mkAlignedBox2d (1, 0) (3 / 2, 0))
                          (mkAlignedBox2d (1 / 2, 0) (1, 0)) = true).
  { unfold intersects. simpl. r_decide. reflexivity. }
  destruct (H Hi ltac:(lra) ltac:(lra)) as [_ Hnot].
  assert (Hd : norm (psub (1 / 4, 0)
                          (center (mkAlignedBox2d (1, 0) (3 / 2, 0)))) = 1).
  { unfold center, psub, padd, pdiv. simpl.
    replace (0 - (0 + 0) / 2) with 0 by field.
    rewrite norm_x_0.
    replace (1 / 4 - (1 + 3 / 2) / 2) with (- (1)) by field.
    rewrite Rabs_Ropp. apply Rabs_R1. }
  assert (Hrun : intersections_body 2 1 [(1, 0); (3 / 2, 0)] [(1 / 2, 0); (1, 0)]
                   [] [(1 / 4, 0)]
                 = ([], [(1 / 4, 0)] ++ [center (mkAlignedBox2d (1, 0) (3 / 2, 0))])).
  { rewrite body_accept;
      rewrite ?bbox_of_horizontal, ?diagonal_of_horizontal by lra;
      try lra; try exact Hi.
    rewrite forallb_far_true; [reflexivity|].
    intros p [<-|[]]. rewrite Hd. lra. }
  rewrite Hrun in Hnot.
  assert (Hbad : ([] : list (MatrixX2d * MatrixX2d),
                  [(1 / 4, 0)] ++ [center (mkAlignedBox2d (1, 0) (3 / 2, 0))])
                 = ([], [(1 / 4, 0)])).
  { apply Hnot. intros Hall. specialize (Hall (1 / 4, 0) (or_introl eq_refl)).
    rewrite Hd in Hall. lra. }
  simpl in Hbad. discriminate Hbad.
Qed.

(** C9, amended.  For the pair (A, B) just popped: when the boxes of the
    control points do not intersect the pair is dropped; when both box
    diagonals are below epsilon the centre of box(A) is added to the output
    if no point found so far is closer to it than epsilon (distance at
    least epsilon to each) and is not added otherwise; in the remaining case
    each side whose diagonal is at least epsilon is replaced by its two
    halves at 1/2, the other side is kept, and every combination is
    pushed. *)
Theorem C9_intersections_body (n : nat) (epsilon : R)
    (part_a part_b : MatrixX2d)
    (subcurve_pairs : list (MatrixX2d * MatrixX2d)) (points : list Vector2d) :
  let bbox1 := bbox part_a in
  let bbox2 := bbox part_b in
  let small1 := norm (diagonal bbox1) < epsilon in
  let small2 := norm (diagonal bbox2) < epsilon in
  let result :=
    intersections_body n epsilon part_a part_b subcurve_pairs points in
  (intersects bbox1 bbox2 = false -> result = (subcurve_pairs, points)) /\
  (intersects bbox1 bbox2 = true -> small1 -> small2 ->
   ((forall p, In p points -> epsilon <= norm (psub p (center bbox1))) ->
    result = (subcurve_pairs, points ++ [center bbox1])) /\
   ((exists p, In p points /\ norm (psub p (center bbox1)) < epsilon) ->
    result = (subcurve_pairs, points))) /\
  (intersects bbox1 bbox2 = true -> ~ (small1 /\ small2) ->
   exists sides_a sides_b,
     (small1 -> sides_a = [part_a]) /\
     (~ small1 ->
      sides_a = [mmul2 (splittingCoeffsRight n (1 / 2)) part_a;
                 mmul2 (splittingCoeffsLeft n (1 / 2)) part_a]) /\
     (small2 -> sides_b = [part_b]) /\
     (~ small2 ->
      sides_b = [mmul2 (splittingCoeffsRight (rows part_b) (1 / 2)) part_b;
                 mmul2 (splittingCoeffsLeft (rows part_b) (1 / 2)) part_b]) /\
     result
     = (rev (flat_map (fun b => map (fun a => (a, b)) sides_a) sides_b)
        ++ subcurve_pairs,
        points)) /\
  (forall z, splittingCoeffsLeft n z = de_casteljau_left n z
             /\ splittingCoeffsRight n z = de_casteljau_right n z).
Proof.
  intros bbox1 bbox2 small1 small2 result.
  split; [|split; [|split]].
  - apply body_discard.
  - intros Hi H1 H2. unfold result. rewrite body_accept by assumption.
    split.
    + intros Hfar. now rewrite forallb_far_true.
    + intros Hnear. now rewrite forallb_far_false.
  - intros Hi Hns. unfold result. rewrite body_split by assumption.
    eexists. eexists.
    split; [|split; [|split; [|split; [|reflexivity]]]].
    + intros H. fold bbox1. now rewrite (Rltb_true _ _ H).
    + intros H. fold bbox1. now rewrite (Rltb_false _ _ H).
    + intros H. fold bbox2. now rewrite (Rltb_true _ _ H).
    + intros H. fold bbox2. now rewrite (Rltb_false _ _ H).
  - intros z. split;
      [apply splittingCoeffsLeft_closed|apply splittingCoeffsRight_closed].
Qed.

Lemma C9_witness :
  let A := [(1, 0); (3 / 2, 0)] in
  let B := [(1 / 2, 0); (1, 0)] in
  (intersects (bbox A) (bbox B) = true /\
   norm (diagonal (bbox A)) < 1 /\ norm (diagonal (bbox B)) < 1 /\
   (forall p, In p [(1 / 4, 0)] -> 1 <= norm (psub p (center (bbox A))))) /\
  intersections_body 2 1 A B [] [(1 / 4, 0)]
  = ([], [(1 / 4, 0)] ++ [center (bbox A)]).
Proof.
  intros A B.
  assert (Hi : intersects (bbox A) (bbox B) = true).
  { unfold A, B. rewrite !bbox_of_horizontal by lra.
    unfold intersects. simpl. r_decide. reflexivity. }
  assert (H1 : norm (diagonal (bbox A)) < 1).
  { unfold A. rewrite bbox_of_horizontal, diagonal_of_horizontal by lra. lra. }
  assert (H2 : norm (diagonal (bbox B)) < 1).
  { unfold B. rewrite bbox_of_horizontal, diagonal_of_horizontal by lra. lra. }
  assert (Hfar : forall p, In p [(1 / 4, 0)] ->
                           1 <= norm (psub p (center (bbox A)))).
  { intros p [<-|[]]. unfold A. rewrite bbox_of_horizontal by lra.
    unfold center, psub, padd, pdiv. simpl.
    replace (0 - (0 + 0) / 2) with 0 by field.
    rewrite norm_x_0.
    replace (1 / 4 - (1 + 3 / 2) / 2) with (- (1)) by field.
    rewrite Rabs_Ropp, Rabs_R1. lra. }
  split; [auto|].
  exact (proj1 (proj1 (proj2 (C9_intersections_body 2 1 A B [] [(1 / 4, 0)]))
                  Hi H1 H2) Hfar).
Defined.

(** C8, amended.  The loop of the Sturm isolation is bounded through
    epsilon: for every epsilon of at least 2^-50 (the range in which the
    end points of the intervals, which are multiples of powers of two, are
    exact in double precision) it returns after at most 4 / (3 epsilon)
    rounds, on whatever chain and for whatever root type it is run.  The
    Halley loop of [iterateByLength] has neither a
    bound through epsilon nor a guard on its rounds, and it hands back no
    estimate: on a target within the curve, as long as |f| > epsilon at the
    iterates x_0 .. x_k of Halley's update (whose denominator is not zero at
    them), the call is still in its loop after k rounds. *)
Theorem C8_termination :
  (forall (sturm_chain : MatrixXd) (root_type : Z) (epsilon : R) (fuel : nat),
     / 2 ^ 50 <= epsilon -> 4 / (3 * epsilon) <= INR fuel ->
     exists r,
       Sturm.roots_while fuel sturm_chain root_type epsilon
         (Sturm.iterate sturm_chain root_type epsilon (0, 1, false) ([], []))
       = Returns r) /\
  (forall (lg : LegendreGauss.table) (c : Curve) (t0 s epsilon : R)
          (fuel : nat),
     cache_ok c ->
     let P := control_points_ c in
     let x := halley_iterate lg P t0 s in
     let f := halley_f lg P t0 s in
     0 <= arc_length lg P 0 t0 + s <= arc_length lg P 0 1 ->
     (forall i, (i <= fuel)%nat -> epsilon < Rabs (f (x i))) ->
     (forall i, (i < fuel)%nat ->
        2 * speed P (x i) * speed P (x i) - f (x i) * accel P (x i) <> 0) ->
     fst (iterateByLength lg fuel t0 s epsilon c) = OutOfFuel).
Proof.
  split.
  - intros sturm_chain root_type epsilon fuel Heps Hfuel.
    apply Sturm_loop_terminates; [now apply precision_pos|exact Hfuel].
  - intros lg c t0 s epsilon fuel Hc P x f [Hlo Hhi] Hbig _.
    destruct (iterateByLength_cases lg fuel t0 s epsilon c Hc)
      as (c' & Hc' & P' & [[Hu _]|[(_ & Ho & _)|(_ & _ & E)]]);
      fold P in Hu || fold P in Ho || idtac; [lra|lra|].
    rewrite E.
    apply (while_out_of_fuel lg (control_points_ c) t0 s epsilon fuel 0%nat c'
             Hc' P').
    intros i Hi. apply Hbig. lia.
Qed.

Lemma C8_witness :
  ((/ 2 ^ 50 <= 1 / 2 /\ 4 / (3 * (1 / 2)) <= INR 3) /\
   exists r,
     Sturm.roots_while 3 (linear_chain 1 (- (1 / 3))) Sturm.All (1 / 2)
       (Sturm.iterate (linear_chain 1 (- (1 / 3))) Sturm.All (1 / 2)
          (0, 1, false) ([], []))
     = Returns r) /\
  (let c := new_Curve [(0, 0); (0, 0); (1, 0)] in
   let P := control_points_ c in
   let L := arc_length one_point_rule P 0 1 in
   let x := halley_iterate one_point_rule P 0 (L / 2) in
   let f := halley_f one_point_rule P 0 (L / 2) in
   (cache_ok c /\
    0 <= arc_length one_point_rule P 0 0 + L / 2 <= L /\
    (forall i, (i <= 2)%nat -> L / 4 < Rabs (f (x i))) /\
    (forall i, (i < 2)%nat ->
       2 * speed P (x i) * speed P (x i) - f (x i) * accel P (x i) <> 0)) /\
   fst (iterateByLength one_point_rule 2 0 (L / 2) (L / 4) c) = OutOfFuel).
Proof.
  split.
  - assert (H : / 2 ^ 50 <= 1 / 2 /\ 4 / (3 * (1 / 2)) <= INR 3).
    { split; [apply precision_half|]. simpl.
      apply (Rmult_le_reg_r (3 * (1 / 2))); [lra|].
      unfold Rdiv. rewrite Rmult_assoc, Rinv_l by lra. lra. }
    split; [exact H|]. apply (proj1 C8_termination); apply H.
  - intros c P L x f.
    assert (HN : (0 < LegendreGauss.N one_point_rule)%nat) by (simpl; lia).
    assert (Hk : forall k, (k < LegendreGauss.N one_point_rule)%nat ->
                   0 < vcoeff (LegendreGauss.weights one_point_rule) k
                   /\ -1 < vcoeff (LegendreGauss.abcissae one_point_rule) k).
    { intros k Hlt. simpl in Hlt. assert (k = 0%nat) as -> by lia.
      unfold vcoeff. simpl. lra. }
    pose proof (cusp_length_pos one_point_rule HN Hk) as HL.
    change (0 < L) in HL.
    assert (H0 : arc_length one_point_rule P 0 0 = 0)
      by apply arc_length_same.
    assert (Hx : forall i, x i = 0)
      by (intros i; apply cusp_iterate_stays).
    assert (Hf : f 0 = - (L / 2)).
    { unfold f, halley_f. rewrite H0. ring. }
    assert (Hc : cache_ok c) by apply cache_ok_new_Curve.
    assert (Hr : 0 <= arc_length one_point_rule P 0 0 + L / 2 <= L)
      by (rewrite H0; lra).
    assert (Hbig : forall i, (i <= 2)%nat -> L / 4 < Rabs (f (x i))).
    { intros i _. rewrite Hx, Hf, Rabs_Ropp, Rabs_pos_eq by lra. lra. }
    assert (Hden : forall i, (i < 2)%nat ->
              2 * speed P (x i) * speed P (x i) - f (x i) * accel P (x i)
              <> 0).
    { intros i _. rewrite Hx, Hf. unfold P. simpl control_points_.
      rewrite cusp_speed, cusp_accel.
      replace (2 * 0) with 0 by ring. rewrite Rabs_R0. lra. }
    split; [split; [exact Hc|split; [exact Hr|split; assumption]]|].
    exact (proj2 C8_termination one_point_rule c 0 (L / 2) (L / 4) 2%nat
             Hc Hr Hbig Hden).
Defined.

End Claims.

(** * Further properties of the code *)

Section Properties.

Import Bezier.

(** X1. [splitCurve(z)] cuts the curve at [z]: the first half traces the
    curve over [0, z] and the second over [z, 1], for every real [z] and
    [t], and the two halves meet at the point of the curve at [z]. *)
Theorem X1_splitCurve_traces_curve (c : Curve) (z t : R) :
  N_ c = rows (control_points_ c) -> (1 <= N_ c)%nat ->
  valueAt (fst (splitCurve c z)) t = valueAt c (z * t)
  /\ valueAt (snd (splitCurve c z)) t = valueAt c (z + (1 - z) * t)
  /\ snd (endPoints (fst (splitCurve c z))) = valueAt c z
  /\ fst (endPoints (snd (splitCurve c z))) = valueAt c z.
Proof.
  intros Hinv Hn. unfold rows in Hinv.
  assert (Hl : valueAt (fst (splitCurve c z)) t = valueAt c (z * t)).
  { rewrite (valueAt_curve_value c) by exact Hinv.
    unfold splitCurve. simpl fst. rewrite Hinv.
    apply curve_value_split_left. lia. }
  assert (Hr : valueAt (snd (splitCurve c z)) t = valueAt c (z + (1 - z) * t)).
  { rewrite (valueAt_curve_value c) by exact Hinv.
    unfold splitCurve. simpl snd. rewrite Hinv.
    apply curve_value_split_right. lia. }
  split; [exact Hl|]. split; [exact Hr|].
  rewrite (valueAt_curve_value c) by exact Hinv.
  unfold splitCurve, endPoints. simpl. unfold rows.
  rewrite Hinv, length_split_left.
  split.
  - rewrite <- (length_split_left z (length (control_points_ c))
                  (control_points_ c)) at 2.
    rewrite <- curve_value_at_1 by (rewrite length_split_left; lia).
    rewrite curve_value_split_left by lia. f_equal. ring.
  - rewrite <- curve_value_at_0 by (rewrite length_split_right; lia).
    rewrite curve_value_split_right by lia. f_equal. ring.
Qed.

Lemma X1_witness :
  let c := new_Curve [(0, 0); (1, 2); (3, 1)] in
  (N_ c = rows (control_points_ c) /\ (1 <= N_ c)%nat) /\
  valueAt (fst (splitCurve c (1 / 4))) (1 / 2) = valueAt c (1 / 4 * (1 / 2)).
Proof.
  intros c. split.
  - split; [reflexivity|simpl; lia].
  - apply (X1_splitCurve_traces_curve c (1 / 4) (1 / 2));
      [reflexivity|simpl; lia].
Defined.

(** X2. A curve starts at its first control point and ends at its last:
    [valueAt(0)] and [valueAt(1)] are the two points [endPoints()] returns. *)
Theorem X2_valueAt_end_points (c : Curve) :
  N_ c = rows (control_points_ c) -> (1 <= N_ c)%nat ->
  valueAt c 0 = fst (endPoints c) /\ valueAt c 1 = snd (endPoints c).
Proof.
  intros Hinv Hn. unfold rows in Hinv.
  rewrite !(valueAt_curve_value c) by exact Hinv.
  unfold endPoints. simpl. rewrite Hinv. split.
  - apply curve_value_at_0. lia.
  - apply curve_value_at_1. lia.
Qed.

Lemma X2_witness :
  let c := new_Curve [(0, 0); (1, 2); (3, 1)] in
  (N_ c = rows (control_points_ c) /\ (1 <= N_ c)%nat) /\
  valueAt c 0 = (0, 0) /\ valueAt c 1 = (3, 1).
Proof.
  intros c. split.
  - split; [reflexivity|simpl; lia].
  - apply (X2_valueAt_end_points c); [reflexivity|simpl; lia].
Defined.

(** X3. [reverse()] turns the parameter round: the reversed curve at [t] is
    the curve at [1 - t]; the number of control points is kept, the cached
    derivative and roots are dropped, and reversing twice gives the control
    points back. *)
Theorem X3_reverse (c : Curve) (t : R) :
  N_ c = rows (control_points_ c) ->
  let c' := snd (reverse c) in
  fst (reverse c) = Returns tt
  /\ valueAt c' t = valueAt c (1 - t)
  /\ N_ c' = N_ c
  /\ cached_derivative_ c' = None /\ cached_roots_ c' = None
  /\ control_points_ (snd (reverse c')) = control_points_ c.
Proof.
  intros Hinv c'. unfold c', reverse, modify. simpl.
  split; [reflexivity|].
  split.
  - rewrite !valueAt_curve_value by (simpl; unfold rows; now rewrite ?length_rev).
    simpl. apply curve_value_rev.
  - split; [unfold rows in *; now rewrite length_rev|].
    split; [reflexivity|]. split; [reflexivity|]. apply rev_involutive.
Qed.

Lemma X3_witness :
  let c := new_Curve [(0, 0); (1, 2); (3, 1)] in
  N_ c = rows (control_points_ c) /\
  valueAt (snd (reverse c)) (1 / 3) = valueAt c (1 - 1 / 3).
Proof.
  intros c. split; [reflexivity|].
  apply (X3_reverse c (1 / 3)). reflexivity.
Defined.

(** X4. [derivativeAt(t)] is the derivative of [valueAt] at [t], in each
    coordinate, for every real [t]; the call may fill the cache but leaves
    the control points as they are. *)
Theorem X4_derivativeAt_is_derivative (c : Curve) (t : R) :
  cache_ok c -> (1 <= N_ c)%nat ->
  exists v c',
    derivativeAt t c = (Returns v, c')
    /\ control_points_ c' = control_points_ c
    /\ derivable_pt_lim (fun u => fst (valueAt c u)) t (fst v)
    /\ derivable_pt_lim (fun u => snd (valueAt c u)) t (snd v).
Proof.
  intros Hc Hn.
  destruct (computes_derivativeAt t c Hc) as (c' & E & _ & Hcp).
  pose proof (cache_ok_N c Hc) as Hinv. unfold rows in Hinv.
  exists (curve_value (derivative_cp (control_points_ c)) t), c'.
  split; [exact E|]. split; [exact Hcp|].
  destruct (curve_value_derivable (control_points_ c) t) as [Hx Hy]; [lia|].
  split.
  - apply (derivable_pt_lim_ext
             (fun u => fst (curve_value (control_points_ c) u))); [|exact Hx].
    intros u. now rewrite valueAt_curve_value.
  - apply (derivable_pt_lim_ext
             (fun u => snd (curve_value (control_points_ c) u))); [|exact Hy].
    intros u. now rewrite valueAt_curve_value.
Qed.

Lemma X4_witness :
  let c := new_Curve [(0, 0); (1, 2); (3, 1)] in
  (cache_ok c /\ (1 <= N_ c)%nat) /\
  exists v c',
    derivativeAt (1 / 2) c = (Returns v, c')
    /\ control_points_ c' = control_points_ c
    /\ derivable_pt_lim (fun u => fst (valueAt c u)) (1 / 2) (fst v)
    /\ derivable_pt_lim (fun u => snd (valueAt c u)) (1 / 2) (snd v).
Proof.
  intros c.
  assert (H : cache_ok c /\ (1 <= N_ c)%nat).
  { split; [apply cache_ok_new_Curve|simpl; lia]. }
  split; [exact H|].
  apply (X4_derivativeAt_is_derivative c (1 / 2)); apply H.
Defined.

(** X5. For [t] in [0, 1] the point [valueAt(t)] lies in the axis-aligned
    box of the control points, the box [intersections] prunes with. *)
Theorem X5_valueAt_in_control_box (c : Curve) (t : R) :
  N_ c = rows (control_points_ c) -> (1 <= N_ c)%nat -> 0 <= t <= 1 ->
  let box := bbox (control_points_ c) in
  fst (box_min box) <= fst (valueAt c t) <= fst (box_max box)
  /\ snd (box_min box) <= snd (valueAt c t) <= snd (box_max box).
Proof.
  intros Hinv Hn Ht box. unfold rows in Hinv.
  rewrite valueAt_curve_value by exact Hinv.
  apply curve_value_in_bbox; [lia|exact Ht].
Qed.

Lemma X5_witness :
  let c := new_Curve [(0, 0); (1, 2); (3, 1)] in
  (N_ c = rows (control_points_ c) /\ (1 <= N_ c)%nat /\ 0 <= 1 / 2 <= 1) /\
  fst (box_min (bbox (control_points_ c))) <= fst (valueAt c (1 / 2))
    <= fst (box_max (bbox (control_points_ c))).
Proof.
  intros c. split.
  - split; [reflexivity|]. split; [simpl; lia|lra].
  - apply (X5_valueAt_in_control_box c (1 / 2)); [reflexivity|simpl; lia|lra].
Defined.

(** X6. On a curve with at least one control point, [valueAt] on a vector
    of parameters returns, in order, the points [valueAt] returns for each
    of them; an empty vector gives no point. *)
Theorem X6_valueAt_vector (c : Curve) (t_vector : list R) :
  (1 <= N_ c)%nat ->
  valueAt_vector c t_vector = map (valueAt c) t_vector.
Proof. intros _. apply valueAt_vector_map. Qed.

Lemma X6_witness :
  let c := new_Curve [(0, 0); (1, 2); (3, 1)] in
  (1 <= N_ c)%nat /\
  valueAt_vector c [0; 1 / 2; 1] = map (valueAt c) [0; 1 / 2; 1].
Proof.
  intros c.
  assert (H : (1 <= N_ c)%nat) by (simpl; lia).
  split; [exact H|]. exact (X6_valueAt_vector c [0; 1 / 2; 1] H).
Defined.

(** X7. [moveControlPoint(idx, point)] on an existing index replaces that
    control point and no other, keeps their number and drops the cache; the
    curve moves at every [t] by the displacement of the control point
    weighted by its Bernstein polynomial. *)
Theorem X7_moveControlPoint (c : Curve) (idx : nat) (point : Point) (t : R) :
  N_ c = rows (control_points_ c) -> (idx < N_ c)%nat ->
  let c' := snd (moveControlPoint idx point c) in
  fst (moveControlPoint idx point c) = Returns tt
  /\ controlPoint c' idx = point
  /\ (forall j, j <> idx -> controlPoint c' j = controlPoint c j)
  /\ N_ c' = N_ c
  /\ cached_derivative_ c' = None /\ cached_roots_ c' = None
  /\ valueAt c' t
     = padd (valueAt c t)
            (pscale (bernstein (N_ c - 1) idx t)
                    (psub point (controlPoint c idx))).
Proof.
  intros Hinv Hidx c'. unfold rows in Hinv.
  unfold c', moveControlPoint, modify, controlPoint. simpl.
  split; [reflexivity|].
  split; [apply row2_set_row_same; lia|].
  split; [intros j Hj; now apply row2_set_row_other|].
  split; [unfold rows; rewrite length_set_row; lia|].
  split; [reflexivity|]. split; [reflexivity|].
  rewrite !valueAt_bernstein;
    try (simpl; unfold rows; rewrite ?length_set_row; lia).
  simpl control_points_. unfold bezier_reference, padd, pscale, psub.
  rewrite length_set_row. simpl fst. simpl snd. rewrite Hinv.
  f_equal.
  - rewrite (sum_n_update
               (fun k => bernstein (length (control_points_ c) - 1) k t
                         * fst (row2 (control_points_ c) k))
               _ _ idx) by
      (try lia; intros k _ Hk; now rewrite row2_set_row_other).
    rewrite row2_set_row_same by lia. ring.
  - rewrite (sum_n_update
               (fun k => bernstein (length (control_points_ c) - 1) k t
                         * snd (row2 (control_points_ c) k))
               _ _ idx) by
      (try lia; intros k _ Hk; now rewrite row2_set_row_other).
    rewrite row2_set_row_same by lia. ring.
Qed.

Lemma X7_witness :
  let c := new_Curve [(0, 0); (1, 2); (3, 1)] in
  (N_ c = rows (control_points_ c) /\ (1 < N_ c)%nat) /\
  controlPoint (snd (moveControlPoint 1 (5, 5) c)) 1 = (5, 5).
Proof.
  intros c. split.
  - split; [reflexivity|simpl; lia].
  - apply (X7_moveControlPoint c 1 (5, 5) 0); [reflexivity|simpl; lia].
Defined.

(** X8. [normalAt] is [tangentAt] turned by a quarter turn: the two are
    perpendicular and of the same length.  With [normalize] set both have
    length one where the derivative is not zero, and where the derivative
    is zero both are the zero vector (nothing is divided by zero). *)
Theorem X8_tangent_and_normal (c : Curve) (t : R) (normalize : bool) :
  cache_ok c ->
  exists T Nv c1 c2,
    tangentAt t normalize c = (Returns T, c1)
    /\ normalAt t normalize c = (Returns Nv, c2)
    /\ Nv = (- snd T, fst T)
    /\ dot T Nv = 0 /\ norm Nv = norm T
    /\ (normalize = true ->
        (curve_value (derivative_cp (control_points_ c)) t <> (0, 0) ->
         norm T = 1)
        /\ (curve_value (derivative_cp (control_points_ c)) t = (0, 0) ->
            T = (0, 0) /\ Nv = (0, 0)))
    /\ (normalize = false ->
        T = curve_value (derivative_cp (control_points_ c)) t).
Proof.
  intros Hc.
  destruct (computes_derivativeAt t c Hc) as (c' & E & _ & _).
  set (v := curve_value (derivative_cp (control_points_ c)) t) in *.
  set (T := if normalize && Rltb 0 (norm v) then normalized v else v).
  exists T, (- snd T, fst T), c', c'.
  assert (ET : tangentAt t normalize c = (Returns T, c')).
  { unfold tangentAt, bind. rewrite E. reflexivity. }
  split; [exact ET|].
  split; [unfold normalAt, bind; rewrite ET; reflexivity|].
  split; [reflexivity|].
  split; [unfold dot; simpl; ring|].
  split; [apply norm_quarter_turn|].
  split.
  - intros ->. unfold T. simpl andb. split.
    + intros Hv.
      assert (0 < norm v).
      { pose proof (norm_nonneg v).
        destruct (Req_dec (norm v) 0) as [E0|E0]; [|lra].
        now apply norm_zero_vector in E0. }
      rewrite Rltb_true by assumption. now apply norm_normalized.
    + intros Hv. rewrite Hv.
      rewrite Rltb_false
        by (unfold norm; simpl; rewrite Rmult_0_l, Rplus_0_l, sqrt_0; lra).
      split; [reflexivity|]. simpl. f_equal; ring.
  - intros ->. reflexivity.
Qed.

Lemma X8_witness :
  let c := new_Curve [(0, 0); (1, 2); (3, 1)] in
  cache_ok c /\
  exists T Nv c1 c2,
    tangentAt (1 / 2) true c = (Returns T, c1)
    /\ normalAt (1 / 2) true c = (Returns Nv, c2)
    /\ Nv = (- snd T, fst T)
    /\ dot T Nv = 0 /\ norm Nv = norm T.
Proof.
  intros c.
  assert (H : cache_ok c) by apply cache_ok_new_Curve.
  split; [exact H|].
  destruct (X8_tangent_and_normal c (1 / 2) true H)
    as (T & Nv & c1 & c2 & H1 & H2 & H3 & H4 & H5 & _).
  exists T, Nv, c1, c2. repeat split; assumption.
Defined.

(** X9. A curve of [N_] control points is a polynomial of degree [N_ - 1]:
    [derivativeAt(n, t)] is the zero vector for every [n >= N_].  The
    derivative of a single point is a curve of one control point at the
    origin, not an empty curve. *)
Theorem X9_high_derivatives_vanish (c : Curve) (n : nat) (t : R) :
  cache_ok c -> (1 <= N_ c)%nat -> (N_ c <= n)%nat ->
  exists c',
    derivativeAt_n n t c = (Returns (0, 0), c')
    /\ control_points_ c' = control_points_ c.
Proof.
  intros Hc H1 Hn.
  pose proof (cache_ok_N c Hc) as Hinv. unfold rows in Hinv.
  destruct (computes_on_nth_derivative
              (gets (fun d => valueAt d t))
              (fun P => Returns (curve_value P t)) n
              (computes_valueAt t) c Hc) as (c' & E & _ & Hcp).
  exists c'. split; [|exact Hcp].
  unfold derivativeAt_n, on_derivative_n.
  destruct (Nat.eqb_spec n 0) as [E0|E0]; [lia|].
  rewrite E. rewrite iter_derivative_cp_zero by lia.
  now rewrite curve_value_1.
Qed.

Lemma X9_witness :
  let c := new_Curve [(0, 0); (1, 2); (3, 1)] in
  (cache_ok c /\ (1 <= N_ c)%nat /\ (N_ c <= 3)%nat) /\
  exists c',
    derivativeAt_n 3 (1 / 2) c = (Returns (0, 0), c')
    /\ control_points_ c' = control_points_ c.
Proof.
  intros c.
  assert (H : cache_ok c /\ (1 <= N_ c)%nat /\ (N_ c <= 3)%nat).
  { split; [apply cache_ok_new_Curve|simpl; lia]. }
  split; [exact H|].
  apply (X9_high_derivatives_vanish c 3 (1 / 2)); apply H.
Defined.

(** X10. On a straight segment, with a quadrature table whose weights sum
    to 2, [length(t1, t2)] is the distance between the end points times
    [t2 - t1]; the control points are left as they are. *)
Theorem X10_length_of_segment (lg : LegendreGauss.table) (c : Curve)
    (p q : Point) (t1 t2 : R) :
  cache_ok c -> control_points_ c = [p; q] ->
  sum_n (vcoeff (LegendreGauss.weights lg)) (LegendreGauss.N lg) = 2 ->
  exists c',
    length_t1_t2 lg t1 t2 c = (Returns (norm (psub q p) * (t2 - t1)), c')
    /\ control_points_ c' = control_points_ c.
Proof.
  intros Hc HP Hw.
  destruct (computes_length_t1_t2 lg t1 t2 c Hc) as (c' & E & _ & Hcp).
  exists c'. split; [|exact Hcp].
  rewrite E, HP. now rewrite line_length_exact.
Qed.

Lemma X10_witness :
  let c := new_Curve [(0, 0); (3, 0)] in
  (cache_ok c /\ control_points_ c = [(0, 0); (3, 0)] /\
   sum_n (vcoeff (LegendreGauss.weights one_point_rule))
         (LegendreGauss.N one_point_rule) = 2) /\
  exists c',
    length_t1_t2 one_point_rule 0 1 c
    = (Returns (norm (psub (3, 0) (0, 0)) * (1 - 0)), c')
    /\ control_points_ c' = control_points_ c.
Proof.
  intros c.
  assert (H : cache_ok c /\ control_points_ c = [(0, 0); (3, 0)] /\
              sum_n (vcoeff (LegendreGauss.weights one_point_rule))
                    (LegendreGauss.N one_point_rule) = 2).
  { split; [apply cache_ok_new_Curve|]. split; [reflexivity|].
    simpl. unfold vcoeff. simpl. ring. }
  split; [exact H|].
  apply (X10_length_of_segment one_point_rule c (0, 0) (3, 0) 0 1); apply H.
Defined.



(** X12. On a quadratic or cubic curve and for [0 < t < 1],
    [manipulateCurvature(t, point)] makes the curve pass through [point] at
    [t]; it moves inner control points only, so the end points and the
    number of control points stay. *)
Theorem X12_manipulateCurvature_hits_point (c : Curve) (t : R) (point : Point) :
  N_ c = rows (control_points_ c) -> (N_ c = 3 \/ N_ c = 4)%nat ->
  0 < t < 1 ->
  let c' := snd (manipulateCurvature t point c) in
  fst (manipulateCurvature t point c) = Returns tt
  /\ valueAt c' t = point
  /\ endPoints c' = endPoints c
  /\ N_ c' = N_ c.
Proof.
  intros Hinv HN Ht c'. unfold rows in Hinv. subst c'.
  destruct HN as [HN|HN].
  - destruct (control_points_ c) as [|a [|b [|d [|e l]]]] eqn:HP;
      rewrite HN in Hinv; simpl in Hinv; try lia.
    destruct (manipulateCurvature_quadratic c a b d t point HN HP Ht)
      as (A & E & Hv).
    rewrite E. simpl fst. simpl snd.
    split; [reflexivity|].
    split; [rewrite valueAt_bernstein by (simpl; unfold rows; simpl; lia);
            exact Hv|].
    unfold endPoints. simpl. rewrite HN, HP. split; reflexivity.
  - destruct (control_points_ c) as [|a [|b [|d [|e [|f l]]]]] eqn:HP;
      rewrite HN in Hinv; simpl in Hinv; try lia.
    destruct (manipulateCurvature_cubic c a b d e t point HN HP Ht)
      as (A1 & A2 & E & Hv).
    rewrite E. simpl fst. simpl snd.
    split; [reflexivity|].
    split; [rewrite valueAt_bernstein by (simpl; unfold rows; simpl; lia);
            exact Hv|].
    unfold endPoints. simpl. rewrite HN, HP. split; reflexivity.
Qed.

Lemma X12_witness :
  let c := new_Curve [(0, 0); (1, 2); (3, 1)] in
  (N_ c = rows (control_points_ c) /\ (N_ c = 3 \/ N_ c = 4)%nat /\
   0 < 1 / 3 < 1) /\
  valueAt (snd (manipulateCurvature (1 / 3) (2, 2) c)) (1 / 3) = (2, 2).
Proof.
  intros c. split.
  - split; [reflexivity|]. split; [left; reflexivity|lra].
  - apply (X12_manipulateCurvature_hits_point c (1 / 3) (2, 2));
      [reflexivity|left; reflexivity|lra].
Defined.

(** X13. Every point [intersections] returns against another curve is
    nearer than epsilon / 2 to a point of this curve and nearer than
    3 epsilon / 2 to a point of the other curve, both at parameters in
    [0, 1]. *)
Theorem X13_intersections_near_both_curves (realRoots : VectorXd -> list R)
    (other c : Curve) (epsilon : R) (fuel : nat) (points : PointVector)
    (c' : Curve) :
  N_ c = rows (control_points_ c) -> (1 <= N_ c)%nat ->
  N_ other = rows (control_points_ other) -> (1 <= N_ other)%nat ->
  intersections realRoots fuel (ref_other other) epsilon c
  = (Returns points, c') ->
  Forall (fun x =>
            (exists s, 0 <= s <= 1
                       /\ norm (psub x (valueAt c s)) < epsilon / 2)
            /\ (exists u, 0 <= u <= 1
                          /\ norm (psub x (valueAt other u))
                             < 3 * epsilon / 2))
         points.
Proof.
  intros Hinv Hn Hinv' Hn' H. unfold intersections in H.
  unfold rows in Hinv, Hinv'.
  assert (E : intersections_while fuel (N_ c) epsilon
                (push_all [(control_points_ c, control_points_ other)] []) []
              = Returns points) by congruence.
  rewrite Hinv in E.
  destruct (intersections_while_sound (control_points_ c)
              (control_points_ other) epsilon ltac:(lia) ltac:(lia)
              fuel (push_all [(control_points_ c, control_points_ other)] []) []
              points) as [Hr _]; try exact E.
  - constructor; [|constructor]. split; apply piece_of_refl.
  - constructor.
  - constructor.
  - eapply Forall_impl; [|exact Hr].
    intros x [(s & Hs & H1) (u & Hu & H2)]. split.
    + exists s. split; [exact Hs|]. now rewrite valueAt_curve_value.
    + exists u. split; [exact Hu|]. now rewrite valueAt_curve_value.
Qed.

Lemma X13_witness :
  let c := new_Curve [(0, 0); (2, 0)] in
  let other := new_Curve [(1 / 2, 0); (1, 0)] in
  (N_ c = rows (control_points_ c) /\ (1 <= N_ c)%nat /\
   N_ other = rows (control_points_ other) /\ (1 <= N_ other)%nat /\
   intersections (fun _ => []) 7 (ref_other other) 1 c
   = (Returns [(1 / 4, 0); (5 / 4, 0)], c)) /\
  Forall (fun x =>
            (exists s, 0 <= s <= 1
                       /\ norm (psub x (valueAt c s)) < 1 / 2)
            /\ (exists u, 0 <= u <= 1
                          /\ norm (psub x (valueAt other u)) < 3 * 1 / 2))
         [(1 / 4, 0); (5 / 4, 0)].
Proof.
  intros c other.
  assert (E : intersections (fun _ => []) 7 (ref_other other) 1 c
              = (Returns [(1 / 4, 0); (5 / 4, 0)], c)).
  { rewrite (surjective_pairing
               (intersections (fun _ => []) 7 (ref_other other) 1 c)).
    f_equal. exact (intersections_of_overlapping_segments (fun _ => [])). }
  assert (H : N_ c = rows (control_points_ c) /\ (1 <= N_ c)%nat /\
              N_ other = rows (control_points_ other) /\ (1 <= N_ other)%nat).
  { split; [reflexivity|]. split; [simpl; lia|]. split; [reflexivity|].
    simpl; lia. }
  split; [tauto|].
  apply (X13_intersections_near_both_curves (fun _ => []) other c 1 7 _ c);
    try apply H. exact E.
Defined.

(** X14. The points [intersections] returns against another curve are
    pairwise at least epsilon apart: a centre is not reported twice, nor
    next to one reported before. *)
Theorem X14_intersections_separated (realRoots : VectorXd -> list R)
    (other c : Curve) (epsilon : R) (fuel : nat) (points : PointVector)
    (c' : Curve) :
  N_ c = rows (control_points_ c) -> (1 <= N_ c)%nat ->
  N_ other = rows (control_points_ other) -> (1 <= N_ other)%nat ->
  intersections realRoots fuel (ref_other other) epsilon c
  = (Returns points, c') ->
  separated epsilon points.
Proof.
  intros Hinv Hn Hinv' Hn' H. unfold intersections in H.
  unfold rows in Hinv, Hinv'.
  assert (E : intersections_while fuel (N_ c) epsilon
                (push_all [(control_points_ c, control_points_ other)] []) []
              = Returns points) by congruence.
  rewrite Hinv in E.
  destruct (intersections_while_sound (control_points_ c)
              (control_points_ other) epsilon ltac:(lia) ltac:(lia)
              fuel (push_all [(control_points_ c, control_points_ other)] []) []
              points) as [_ Hs]; try exact E.
  - constructor; [|constructor]. split; apply piece_of_refl.
  - constructor.
  - constructor.
  - exact Hs.
Qed.

Lemma X14_witness :
  let c := new_Curve [(0, 0); (2, 0)] in
  let other := new_Curve [(1 / 2, 0); (1, 0)] in
  (N_ c = rows (control_points_ c) /\ (1 <= N_ c)%nat /\
   N_ other = rows (control_points_ other) /\ (1 <= N_ other)%nat /\
   intersections (fun _ => []) 7 (ref_other other) 1 c
   = (Returns [(1 / 4, 0); (5 / 4, 0)], c)) /\
  separated 1 [(1 / 4, 0); (5 / 4, 0)].
Proof.
  intros c other.
  assert (E : intersections (fun _ => []) 7 (ref_other other) 1 c
              = (Returns [(1 / 4, 0); (5 / 4, 0)], c)).
  { rewrite (surjective_pairing
               (intersections (fun _ => []) 7 (ref_other other) 1 c)).
    f_equal. exact (intersections_of_overlapping_segments (fun _ => [])). }
  assert (H : N_ c = rows (control_points_ c) /\ (1 <= N_ c)%nat /\
              N_ other = rows (control_points_ other) /\ (1 <= N_ other)%nat).
  { split; [reflexivity|]. split; [simpl; lia|]. split; [reflexivity|].
    simpl; lia. }
  split; [tauto|].
  apply (X14_intersections_separated (fun _ => []) other c 1 7 _ c);
    try apply H. exact E.
Defined.

(** X15. For an epsilon of at least 2^-50 and enough rounds, the loop of
    [Sturm::roots] returns on whatever chain it is run, and every value it
    returns lies in [0, 1]: it is the point a quarter of the way along an
    interval (a, b) of [0, 1] of half width below epsilon on which the chain
    counts at least one root. *)
Theorem X15_Sturm_roots_reported (sturm_chain : MatrixXd) (root_type : Z)
    (epsilon : R) (fuel : nat) :
  / 2 ^ 50 <= epsilon -> 4 / (3 * epsilon) <= INR fuel ->
  exists r,
    Sturm.roots_while fuel sturm_chain root_type epsilon
      (Sturm.iterate sturm_chain root_type epsilon (0, 1, false) ([], []))
    = Returns r
    /\ Forall (fun x =>
                 0 <= x <= 1
                 /\ exists a b,
                      0 <= a /\ a <= b /\ b <= 1
                      /\ Sturm.to_uint (Sturm.interval sturm_chain a b) <> 0%Z
                      /\ (a + b) / 2 - a < epsilon
                      /\ x = (a + (a + b) / 2) / 2)
              r.
Proof.
  intros Hprec Hfuel. pose proof (precision_pos epsilon Hprec) as Heps.
  destruct (Sturm_loop_terminates sturm_chain root_type epsilon fuel Heps Hfuel)
    as [r Hr].
  exists r. split; [exact Hr|].
  destruct (iterate_sound sturm_chain root_type epsilon 0 1 false ([], []))
    as [H1 H2]; try constructor; try (unfold within_unit; simpl; lra).
  pose proof (roots_while_sound sturm_chain root_type epsilon fuel _ r H1 H2 Hr)
    as Hall.
  eapply Forall_impl; [|exact Hall].
  intros x Hx. split; [exact (emitted_in_unit _ _ _ Hx)|exact Hx].
Qed.

Lemma X15_witness :
  (/ 2 ^ 50 <= 1 / 2 /\ 4 / (3 * (1 / 2)) <= INR 3) /\
  exists r,
    Sturm.roots_while 3 (linear_chain 1 (- (1 / 3))) Sturm.All (1 / 2)
      (Sturm.iterate (linear_chain 1 (- (1 / 3))) Sturm.All (1 / 2)
         (0, 1, false) ([], []))
    = Returns r
    /\ Forall (fun x => 0 <= x <= 1) r.
Proof.
  assert (H : / 2 ^ 50 <= 1 / 2 /\ 4 / (3 * (1 / 2)) <= INR 3).
  { split; [apply precision_half|]. simpl.
    apply (Rmult_le_reg_r (3 * (1 / 2))); [lra|].
    unfold Rdiv. rewrite Rmult_assoc, Rinv_l by lra. lra. }
  split; [exact H|].
  destruct (X15_Sturm_roots_reported (linear_chain 1 (- (1 / 3))) Sturm.All
              (1 / 2) 3 (proj1 H) (proj2 H)) as (r & Hr & Hall).
  exists r. split; [exact Hr|].
  eapply Forall_impl; [|exact Hall]. intros x Hx. exact (proj1 Hx).
Defined.

(** X16. On a polynomial of degree one, [p0 x + p1] with [p0] not zero,
    [Sturm::roots] for all root types, an epsilon of at least 2^-50 and
    enough rounds finds the root: when the root lies in (0, 1] (for
    [p0 > 0]) or in [0, 1) (for [p0 < 0]) it returns exactly one value,
    nearer than [3 epsilon / 2] to the root; when the root lies outside
    [0, 1] it returns none. *)
Theorem X16_Sturm_roots_degree_one (p0 p1 epsilon : R) (fuel : nat) :
  p0 <> 0 -> / 2 ^ 50 <= epsilon -> 4 / (3 * epsilon) <= INR fuel ->
  ((0 < p0 -> 0 < - p1 / p0 <= 1) -> (p0 < 0 -> 0 <= - p1 / p0 < 1) ->
   exists x,
     Sturm.roots fuel [p0; p1] Sturm.All epsilon = Returns [x]
     /\ Rabs (x - - p1 / p0) < 3 * epsilon / 2)
  /\ (- p1 / p0 < 0 \/ 1 < - p1 / p0 ->
      Sturm.roots fuel [p0; p1] Sturm.All epsilon = Returns []).
Proof.
  intros Hp0 Hprec Hfuel. pose proof (precision_pos epsilon Hprec) as Heps.
  destruct (Sturm_loop_terminates (Sturm.chain [p0; p1] (1 / 1000)) Sturm.All
              epsilon fuel Heps Hfuel) as [r Hr].
  change (Sturm.roots fuel [p0; p1] Sturm.All epsilon = Returns r) in Hr.
  destruct (linear_roots p0 p1 epsilon Hp0 Heps fuel r Hr) as [Hclose Hlen].
  split.
  - intros Hpos Hneg.
    rewrite (linear_interval_unit p0 p1 Hp0 Hpos Hneg) in Hlen.
    destruct r as [|x [|y r]]; simpl length in Hlen; try lia.
    exists x. split; [exact Hr|]. now inversion Hclose.
  - intros Hout.
    rewrite (linear_interval_outside p0 p1 Hp0 Hout) in Hlen.
    destruct r as [|x r]; simpl length in Hlen; [exact Hr|lia].
Qed.

Lemma X16_witness :
  (1 <> 0 /\ / 2 ^ 50 <= 1 / 2 /\ 4 / (3 * (1 / 2)) <= INR 3) /\
  exists x,
    Sturm.roots 3 [1; - (1 / 3)] Sturm.All (1 / 2) = Returns [x]
    /\ Rabs (x - - - (1 / 3) / 1) < 3 * (1 / 2) / 2.
Proof.
  assert (H : 1 <> 0 /\ / 2 ^ 50 <= 1 / 2 /\ 4 / (3 * (1 / 2)) <= INR 3).
  { split; [lra|]. split; [apply precision_half|]. simpl.
    apply (Rmult_le_reg_r (3 * (1 / 2))); [lra|].
    unfold Rdiv. rewrite Rmult_assoc, Rinv_l by lra. lra. }
  split; [exact H|].
  apply (proj1 (X16_Sturm_roots_degree_one 1 (- (1 / 3)) (1 / 2) 3
                  (proj1 H) (proj1 (proj2 H)) (proj2 (proj2 H)))).
  - intros _. lra.
  - intros Hn. lra.
Defined.

(** X17. On a curve of two control points [polyline(flatness)] returns its
    two end points whatever the flatness, without entering the subdivision
    loop, and caches them with the flatness.  A later call with a flatness
    nearer than 1e-10 to the cached one returns the cached polyline and
    leaves the object as it is; a later call with a flatness farther away
    returns the same two points and caches them with the new flatness. *)
Theorem X17_polyline_of_segment (after_pop : nat -> Point) (c : Curve)
    (flatness : R) (fuel : nat) :
  N_ c = rows (control_points_ c) -> N_ c = 2%nat ->
  cached_polyline_ c = None ->
  let points := [valueAt c 0; valueAt c 1] in
  let c' := set_cached_polyline c flatness (Some points) in
  polyline after_pop fuel flatness c = (Returns points, c')
  /\ control_points_ c' = control_points_ c
  /\ (forall fuel' flatness',
        Rabs (flatness - flatness') < 1 / 10 ^ 10 ->
        polyline after_pop fuel' flatness' c' = (Returns points, c'))
  /\ (forall fuel' flatness',
        1 / 10 ^ 10 <= Rabs (flatness - flatness') ->
        polyline after_pop fuel' flatness' c'
        = (Returns points, set_cached_polyline c' flatness' (Some points))).
Proof.
  intros Hinv H2 Hc points c'.
  split.
  - apply polyline_fresh; [exact Hc|]. now apply new_polyline_segment.
  - split; [reflexivity|]. split.
    + intros fuel' flatness' Hd. now apply polyline_cached.
    + intros fuel' flatness' Hd.
      apply (polyline_stale after_pop c' flatness' fuel' points points);
        [reflexivity|exact Hd|].
      exact (new_polyline_segment after_pop c' flatness' fuel' Hinv H2).
Qed.

Lemma X17_witness :
  let c := new_Curve [(0, 0); (3, 4)] in
  (N_ c = rows (control_points_ c) /\ N_ c = 2%nat /\
   cached_polyline_ c = None) /\
  polyline (fun _ => (0, 0)) 0 1 c
  = (Returns [valueAt c 0; valueAt c 1],
     set_cached_polyline c 1 (Some [valueAt c 0; valueAt c 1])).
Proof.
  intros c.
  assert (H : N_ c = rows (control_points_ c) /\ N_ c = 2%nat /\
              cached_polyline_ c = None)
    by (split; [reflexivity|split; reflexivity]).
  split; [exact H|].
  apply (X17_polyline_of_segment (fun _ => (0, 0)) c 1 0); apply H.
Defined.

(** X18. [boundingBox()] on a curve with nothing cached, with a solver that
    returns every real root of the two derivative polynomials it is given:
    the box holds the curve at every [t] in [0, 1], each of its four sides
    touches the curve at some [t] in [0, 1] (it is the smallest such box),
    the control points stay, and a second call returns the cached box. *)
Theorem X18_boundingBox (realRoots : VectorXd -> list R) (c : Curve) :
  N_ c = rows (control_points_ c) -> (1 <= N_ c)%nat ->
  cached_bounding_box_ c = None -> cached_derivative_ c = None ->
  let d := new_derivative c in
  let Q := mmul2 (bernsteinCoeffs (N_ d)) (control_points_ d) in
  ((2 <= length (trimZeroes (col0 Q)))%nat ->
   complete_on realRoots (trimZeroes (col0 Q))) ->
  ((2 <= length (trimZeroes (col1 Q)))%nat ->
   complete_on realRoots (trimZeroes (col1 Q))) ->
  exists b c',
    boundingBox realRoots c = (Returns b, c')
    /\ control_points_ c' = control_points_ c
    /\ (forall t, 0 <= t <= 1 -> in_box b (valueAt c t))
    /\ (exists t, 0 <= t <= 1 /\ fst (valueAt c t) = fst (box_min b))
    /\ (exists t, 0 <= t <= 1 /\ snd (valueAt c t) = snd (box_min b))
    /\ (exists t, 0 <= t <= 1 /\ fst (valueAt c t) = fst (box_max b))
    /\ (exists t, 0 <= t <= 1 /\ snd (valueAt c t) = snd (box_max b))
    /\ boundingBox realRoots c' = (Returns b, c').
Proof.
  intros Hinv Hn Hb Hd d Q Hcx Hcy.
  exists (box_of (fresh_extremes realRoots c)), (with_bounding_box realRoots c).
  split; [now apply boundingBox_fresh|].
  split; [reflexivity|].
  split; [now apply box_holds_curve|].
  assert (Hne : fresh_extremes realRoots c <> []).
  { unfold fresh_extremes. intros E. apply app_eq_nil in E. destruct E.
    discriminate. }
  destruct (box_of_spec _ Hne)
    as (_ & (e1 & I1 & E1) & (e2 & I2 & E2) & (e3 & I3 & E3) & (e4 & I4 & E4)).
  destruct (extremes_on_curve realRoots c Hinv Hn e1 I1) as (t1 & Ht1 & ->).
  destruct (extremes_on_curve realRoots c Hinv Hn e2 I2) as (t2 & Ht2 & ->).
  destruct (extremes_on_curve realRoots c Hinv Hn e3 I3) as (t3 & Ht3 & ->).
  destruct (extremes_on_curve realRoots c Hinv Hn e4 I4) as (t4 & Ht4 & ->).
  split; [now exists t1|]. split; [now exists t2|].
  split; [now exists t3|]. split; [now exists t4|].
  now apply boundingBox_cached.
Qed.

Lemma X18_witness :
  let c := new_Curve [(0, 0); (1, 2); (3, 1)] in
  let d := new_derivative c in
  let Q := mmul2 (bernsteinCoeffs (N_ d)) (control_points_ d) in
  (N_ c = rows (control_points_ c) /\ (1 <= N_ c)%nat /\
   cached_bounding_box_ c = None /\ cached_derivative_ c = None /\
   ((2 <= length (trimZeroes (col0 Q)))%nat ->
    complete_on realRoots_degree_one (trimZeroes (col0 Q))) /\
   ((2 <= length (trimZeroes (col1 Q)))%nat ->
    complete_on realRoots_degree_one (trimZeroes (col1 Q)))) /\
  exists b c',
    boundingBox realRoots_degree_one c = (Returns b, c')
    /\ forall t, 0 <= t <= 1 -> in_box b (valueAt c t).
Proof.
  intros c d Q.
  assert (EQ : Q = [(2, 4); (2, -6)]).
  { unfold Q, d, c. change (N_ (new_derivative (new_Curve [(0, 0); (1, 2); (3, 1)])))
      with 2%nat.
    rewrite bernsteinCoeffs_2.
    unfold new_derivative, derivative_points, mmul2, coeff, row2. simpl.
    repeat f_equal; ring. }
  assert (Tx : trimZeroes (col0 Q) = [2; 2]).
  { rewrite EQ. unfold col0, trimZeroes. simpl. r_decide. reflexivity. }
  assert (Ty : trimZeroes (col1 Q) = [4; -6]).
  { rewrite EQ. unfold col1, trimZeroes. simpl. r_decide. reflexivity. }
  assert (Hx : complete_on realRoots_degree_one (trimZeroes (col0 Q))).
  { rewrite Tx. intros r Hr. unfold poly_eval, vcoeff in Hr. simpl in Hr.
    left. lra. }
  assert (Hy : complete_on realRoots_degree_one (trimZeroes (col1 Q))).
  { rewrite Ty. intros r Hr. unfold poly_eval, vcoeff in Hr. simpl in Hr.
    left. lra. }
  split.
  - split; [reflexivity|]. split; [simpl; lia|].
    split; [reflexivity|]. split; [reflexivity|]. split; intros _; assumption.
  - destruct (X18_boundingBox realRoots_degree_one c) as (b & c' & H1 & _ & H2 & _);
      try reflexivity; try (intros _; assumption); [simpl; lia|].
    exists b, c'. split; assumption.
Defined.

(** X19. [projectPoint(point)] on a curve of at least two control points
    with no projection cached returns a parameter [t] in [0, 1] at which the
    curve is no farther from [point] than at either end, and keeps the
    control points.  When the solver returns every real root of the
    polynomial it is given, the curve is nowhere in [0, 1] nearer to
    [point] than at [t]. *)
Theorem X19_projectPoint_is_nearest (realRoots : VectorXd -> list R)
    (point : Point) (c : Curve) :
  cache_ok c -> (2 <= N_ c)%nat ->
  cached_projection_polynomial_part_ c = None ->
  exists t c',
    projectPoint realRoots point c = (Returns t, c')
    /\ control_points_ c' = control_points_ c
    /\ 0 <= t <= 1
    /\ norm (psub point (valueAt c t)) <= norm (psub point (valueAt c 0))
    /\ norm (psub point (valueAt c t)) <= norm (psub point (valueAt c 1))
    /\ (((2 <= length (trimZeroes
                         (projection_polynomial_of (control_points_ c)
                                                   point)))%nat ->
         complete_on realRoots
           (trimZeroes (projection_polynomial_of (control_points_ c) point)))
        -> forall u, 0 <= u <= 1 ->
             norm (psub point (valueAt c t))
             <= norm (psub point (valueAt c u))).
Proof.
  intros Hc Hn Hp. pose proof (cache_ok_N c Hc) as Hinv.
  destruct (projectPoint_run realRoots point c Hc Hn Hp) as (c' & E & Hcp & HN).
  assert (Hinv' : N_ c' = rows (control_points_ c')).
  { rewrite HN, Hinv. unfold rows. now rewrite Hcp. }
  assert (Hv : forall u, valueAt c' u = valueAt c u).
  { intros u. rewrite (valueAt_curve_value c' u Hinv'),
      (valueAt_curve_value c u Hinv). now rewrite Hcp. }
  pose proof (projection_in_range point c'
                (column_roots realRoots
                   (projection_polynomial_of (control_points_ c) point)))
    as Hr.
  assert (Hn' : (2 <= N_ c')%nat) by lia.
  pose proof (projection_is_nearest realRoots point c') as Hbest.
  pose proof Hinv' as Hrows. rewrite Hcp in Hbest, Hrows.
  cbv zeta in E, Hr, Hbest.
  set (t := fst (projection_best c' point _ _)) in E, Hr, Hbest.
  destruct Hr as (H1 & H2 & H3).
  rewrite !Hv in H2, H3.
  exists t, c'. split; [exact E|]. split; [exact Hcp|].
  split; [exact H1|]. split; [exact H2|]. split; [exact H3|].
  intros Hcomplete u Hu.
  destruct (Hbest t Hrows Hn' Hcomplete eq_refl) as (_ & _ & _ & H4).
  specialize (H4 u Hu). rewrite !Hv in H4. exact H4.
Qed.

Lemma X19_witness :
  let c := new_Curve [(0, 0); (2, 0)] in
  (cache_ok c /\ (2 <= N_ c)%nat /\
   cached_projection_polynomial_part_ c = None) /\
  exists t c',
    projectPoint realRoots_degree_one (1, 1) c = (Returns t, c')
    /\ 0 <= t <= 1.
Proof.
  intros c.
  assert (H : cache_ok c /\ (2 <= N_ c)%nat /\
              cached_projection_polynomial_part_ c = None).
  { split; [apply cache_ok_new_Curve|]. split; [simpl; lia|reflexivity]. }
  split; [exact H|].
  destruct (X19_projectPoint_is_nearest realRoots_degree_one (1, 1) c)
    as (t & c' & E & _ & Ht & _); try apply H.
  exists t, c'. split; assumption.
Defined.

(** X20. With such a solver, [distance(point)] on a curve of at least two
    control points with no projection cached returns the least distance
    from [point] to the curve over [0, 1]: no point of the curve is
    nearer, and the curve is at that distance for some [t] in [0, 1]. *)
Theorem X20_distance_is_least (realRoots : VectorXd -> list R)
    (point : Point) (c : Curve) :
  cache_ok c -> (2 <= N_ c)%nat ->
  cached_projection_polynomial_part_ c = None ->
  ((2 <= length (trimZeroes
                   (projection_polynomial_of (control_points_ c) point)))%nat ->
   complete_on realRoots
     (trimZeroes (projection_polynomial_of (control_points_ c) point))) ->
  exists d c',
    distance realRoots point c = (Returns d, c')
    /\ control_points_ c' = control_points_ c
    /\ (forall u, 0 <= u <= 1 -> d <= norm (psub point (valueAt c u)))
    /\ (exists t, 0 <= t <= 1 /\ d = norm (psub point (valueAt c t))).
Proof.
  intros Hc Hn Hp Hcomplete. pose proof (cache_ok_N c Hc) as Hinv.
  destruct (projectPoint_run realRoots point c Hc Hn Hp) as (c' & E & Hcp & HN).
  assert (Hinv' : N_ c' = rows (control_points_ c')).
  { rewrite HN, Hinv. unfold rows. now rewrite Hcp. }
  assert (Hv : forall u, valueAt c' u = valueAt c u).
  { intros u. rewrite (valueAt_curve_value c' u Hinv'),
      (valueAt_curve_value c u Hinv). now rewrite Hcp. }
  assert (Hn' : (2 <= N_ c')%nat) by lia.
  pose proof (projection_is_nearest realRoots point c') as Hbest.
  pose proof Hinv' as Hrows. rewrite Hcp in Hbest, Hrows.
  cbv zeta in E, Hbest.
  set (t := fst (projection_best c' point _ _)) in E, Hbest.
  destruct (Hbest t Hrows Hn' Hcomplete eq_refl) as (H1 & _ & _ & H4).
  exists (norm (psub point (valueAt c' t))), c'. split.
  - unfold distance, bind, gets. rewrite E. reflexivity.
  - split; [exact Hcp|]. split.
    + intros u Hu. rewrite <- (Hv u). exact (H4 u Hu).
    + exists t. split; [exact H1|]. now rewrite Hv.
Qed.

Lemma X20_witness :
  let c := new_Curve [(0, 0); (2, 0)] in
  let p : Point := (1, 1) in
  (cache_ok c /\ (2 <= N_ c)%nat /\
   cached_projection_polynomial_part_ c = None /\
   ((2 <= length (trimZeroes
                    (projection_polynomial_of (control_points_ c) p)))%nat ->
    complete_on realRoots_degree_one
      (trimZeroes (projection_polynomial_of (control_points_ c) p)))) /\
  exists d c',
    distance realRoots_degree_one (1, 1) c = (Returns d, c')
    /\ forall u, 0 <= u <= 1 -> d <= norm (psub (1, 1) (valueAt c u)).
Proof.
  intros c p.
  assert (H : cache_ok c /\ (2 <= N_ c)%nat /\
              cached_projection_polynomial_part_ c = None).
  { split; [apply cache_ok_new_Curve|]. split; [simpl; lia|reflexivity]. }
  split.
  - split; [apply H|]. split; [apply H|]. split; [apply H|].
    intros _. exact complete_on_segment.
  - destruct (X20_distance_is_least realRoots_degree_one (1, 1) c)
      as (d & c' & E & _ & Hd & _); try apply H.
    + intros _. exact complete_on_segment.
    + exists d, c'. split; assumption.
Defined.

(** X21. The projection cache does not depend on the point: on the curve as
    a first call of [projectPoint] leaves it, a call for any other point
    [point'] leaves the curve as it is and, with a solver that returns every
    real root of the polynomial for [point'], returns a parameter in [0, 1]
    at which the curve is nearest to [point']. *)
Theorem X21_projectPoint_reuses_cache (realRoots : VectorXd -> list R)
    (point point' : Point) (c : Curve) :
  cache_ok c -> (2 <= N_ c)%nat ->
  cached_projection_polynomial_part_ c = None ->
  ((2 <= length (trimZeroes
                   (projection_polynomial_of (control_points_ c) point')))%nat ->
   complete_on realRoots
     (trimZeroes (projection_polynomial_of (control_points_ c) point'))) ->
  let c' := snd (projectPoint realRoots point c) in
  exists t,
    projectPoint realRoots point' c' = (Returns t, c')
    /\ 0 <= t <= 1
    /\ forall u, 0 <= u <= 1 ->
         norm (psub point' (valueAt c t)) <= norm (psub point' (valueAt c u)).
Proof.
  intros Hc Hn Hp Hcomplete c'. pose proof (cache_ok_N c Hc) as Hinv.
  pose proof (projectPoint_fills realRoots point c Hc Hn Hp) as Hfilled.
  fold c' in Hfilled.
  destruct (projectPoint_run realRoots point c Hc Hn Hp) as (c1 & E & Hcp & HN).
  assert (Ec : c' = c1) by (unfold c'; now rewrite E).
  rewrite <- Ec in Hcp, HN. clear E Ec c1.
  assert (Hinv' : N_ c' = rows (control_points_ c')).
  { rewrite HN, Hinv. unfold rows. now rewrite Hcp. }
  assert (Hv : forall u, valueAt c' u = valueAt c u).
  { intros u. rewrite (valueAt_curve_value c' u Hinv'),
      (valueAt_curve_value c u Hinv). now rewrite Hcp. }
  rewrite <- Hcp in Hcomplete.
  assert (Hn' : (2 <= N_ c')%nat) by lia.
  pose proof (projection_is_nearest realRoots point' c') as Hbest.
  pose proof (projectPoint_cached realRoots point' c' Hfilled) as E.
  cbv zeta in E, Hbest.
  set (t := fst (projection_best c' point' _ _)) in E, Hbest.
  destruct (Hbest t Hinv' Hn' Hcomplete eq_refl) as (H1 & _ & _ & H4).
  exists t. split; [exact E|].
  split; [exact H1|].
  intros u Hu. rewrite <- !Hv. exact (H4 u Hu).
Qed.

Lemma X21_witness :
  let c := new_Curve [(0, 0); (2, 0)] in
  let c' := snd (projectPoint realRoots_degree_one (5, 5) c) in
  let p : Point := (1, 1) in
  (cache_ok c /\ (2 <= N_ c)%nat /\
   cached_projection_polynomial_part_ c = None /\
   ((2 <= length (trimZeroes
                    (projection_polynomial_of (control_points_ c) p)))%nat ->
    complete_on realRoots_degree_one
      (trimZeroes (projection_polynomial_of (control_points_ c) p)))) /\
  exists t,
    projectPoint realRoots_degree_one (1, 1) c' = (Returns t, c')
    /\ 0 <= t <= 1.
Proof.
  intros c c' p.
  assert (H : cache_ok c /\ (2 <= N_ c)%nat /\
              cached_projection_polynomial_part_ c = None).
  { split; [apply cache_ok_new_Curve|]. split; [simpl; lia|reflexivity]. }
  split.
  - split; [apply H|]. split; [apply H|]. split; [apply H|].
    intros _. exact complete_on_segment.
  - destruct (X21_projectPoint_reuses_cache realRoots_degree_one (5, 5) (1, 1) c)
      as (t & E & Ht & _); try apply H.
    + intros _. exact complete_on_segment.
    + exists t. split; assumption.
Defined.

(** X22. With a solver that returns exactly the real roots of the
    polynomials it is given, [roots()] returns the parameters in [0, 1] at
    which the curve meets an axis: every returned [t] is in [0, 1] and has
    x(t) = 0 or y(t) = 0, and every [t] in [0, 1] with x(t) = 0 is returned
    unless x is zero all along the curve (likewise for y); the control
    points stay. *)
Theorem X22_roots_are_axis_crossings (realRoots : VectorXd -> list R)
    (c : Curve) :
  N_ c = rows (control_points_ c) -> (1 <= N_ c)%nat ->
  roots_cache_ok realRoots c ->
  let Q := mmul2 (bernsteinCoeffs (N_ c)) (control_points_ c) in
  ((2 <= length (trimZeroes (col0 Q)))%nat ->
   sound_on realRoots (trimZeroes (col0 Q))
   /\ complete_on realRoots (trimZeroes (col0 Q))) ->
  ((2 <= length (trimZeroes (col1 Q)))%nat ->
   sound_on realRoots (trimZeroes (col1 Q))
   /\ complete_on realRoots (trimZeroes (col1 Q))) ->
  exists r c',
    roots realRoots c = (Returns r, c')
    /\ control_points_ c' = control_points_ c
    /\ (forall t, In t r ->
          0 <= t <= 1
          /\ (fst (valueAt c t) = 0 \/ snd (valueAt c t) = 0))
    /\ (forall t, 0 <= t <= 1 -> fst (valueAt c t) = 0 ->
          (exists u, fst (valueAt c u) <> 0) -> In t r)
    /\ (forall t, 0 <= t <= 1 -> snd (valueAt c t) = 0 ->
          (exists u, snd (valueAt c u) <> 0) -> In t r).
Proof.
  intros Hinv Hn Hcache Q Hx Hy.
  destruct (new_roots_meaning realRoots c Hx Hy) as (Ha & Hb & Hc).
  fold Q in Ha, Hb, Hc.
  assert (Hv : forall t, fst (valueAt c t) = poly_eval (col0 Q) t
                         /\ snd (valueAt c t) = poly_eval (col1 Q) t).
  { intros t. now apply valueAt_columns. }
  assert (E : exists c', roots realRoots c
                         = (Returns (new_roots realRoots c), c')
                         /\ control_points_ c' = control_points_ c).
  { unfold roots. destruct (cached_roots_ c) as [r|] eqn:Er.
    - exists c. now rewrite (Hcache r Er).
    - eexists. split; reflexivity. }
  destruct E as (c' & E & Hcp).
  exists (new_roots realRoots c), c'. split; [exact E|]. split; [exact Hcp|].
  split; [|split].
  - intros t Hin. destruct (Ha t Hin) as [Ht Hz]. split; [exact Ht|].
    destruct (Hv t) as [-> ->]. exact Hz.
  - intros t Ht Hz [u Hu]. apply Hb; [exact Ht| |].
    + now rewrite <- (proj1 (Hv t)).
    + exists u. now rewrite <- (proj1 (Hv u)).
  - intros t Ht Hz [u Hu]. apply Hc; [exact Ht| |].
    + now rewrite <- (proj2 (Hv t)).
    + exists u. now rewrite <- (proj2 (Hv u)).
Qed.

Lemma X22_witness :
  let c := new_Curve [(-1, -1); (1, 1)] in
  let Q := mmul2 (bernsteinCoeffs (N_ c)) (control_points_ c) in
  (N_ c = rows (control_points_ c) /\ (1 <= N_ c)%nat /\
   roots_cache_ok realRoots_degree_one c /\
   ((2 <= length (trimZeroes (col0 Q)))%nat ->
    sound_on realRoots_degree_one (trimZeroes (col0 Q))
    /\ complete_on realRoots_degree_one (trimZeroes (col0 Q))) /\
   ((2 <= length (trimZeroes (col1 Q)))%nat ->
    sound_on realRoots_degree_one (trimZeroes (col1 Q))
    /\ complete_on realRoots_degree_one (trimZeroes (col1 Q)))) /\
  exists r c',
    roots realRoots_degree_one c = (Returns r, c')
    /\ forall t, In t r -> 0 <= t <= 1.
Proof.
  intros c Q.
  assert (EQ : Q = [(-1, -1); (2, 2)]).
  { unfold Q, c. change (N_ (new_Curve [(-1, -1); (1, 1)])) with 2%nat.
    rewrite bernsteinCoeffs_2. unfold mmul2, coeff, row2. simpl.
    repeat f_equal; ring. }
  assert (T0 : trimZeroes (col0 Q) = [-1; 2]).
  { rewrite EQ. unfold col0, trimZeroes. simpl. r_decide. reflexivity. }
  assert (T1 : trimZeroes (col1 Q) = [-1; 2]).
  { rewrite EQ. unfold col1, trimZeroes. simpl. r_decide. reflexivity. }
  assert (Hs : sound_on realRoots_degree_one [-1; 2]
               /\ complete_on realRoots_degree_one [-1; 2]).
  { split; intros r Hr.
    - destruct Hr as [<-|[]]. unfold poly_eval, vcoeff. simpl. field.
    - unfold poly_eval, vcoeff in Hr. simpl in Hr. left. lra. }
  assert (Hc : roots_cache_ok realRoots_degree_one c)
    by (intros r Hr; discriminate).
  assert (Hx : (2 <= length (trimZeroes (col0 Q)))%nat ->
               sound_on realRoots_degree_one (trimZeroes (col0 Q))
               /\ complete_on realRoots_degree_one (trimZeroes (col0 Q))).
  { intros _. rewrite T0. exact Hs. }
  assert (Hy : (2 <= length (trimZeroes (col1 Q)))%nat ->
               sound_on realRoots_degree_one (trimZeroes (col1 Q))
               /\ complete_on realRoots_degree_one (trimZeroes (col1 Q))).
  { intros _. rewrite T1. exact Hs. }
  split.
  - split; [reflexivity|]. split; [simpl; lia|]. split; [exact Hc|].
    split; assumption.
  - destruct (X22_roots_are_axis_crossings realRoots_degree_one c)
      as (r & c' & E & _ & Hr & _); try assumption;
      [reflexivity|simpl; lia|].
    exists r, c'. split; [exact E|]. intros t Ht. apply (Hr t Ht).
Defined.

(** X23. With such a solver for the derivative's polynomials, [extrema()]
    on a curve with no derivative cached returns the critical parameters
    in [0, 1]: at every returned [t] the derivative of x or of y is zero,
    and every [t] in [0, 1] at which the derivative of x is zero is
    returned unless that derivative is zero everywhere (likewise for y);
    the control points stay. *)
Theorem X23_extrema_are_critical (realRoots : VectorXd -> list R)
    (c : Curve) :
  N_ c = rows (control_points_ c) -> (1 <= N_ c)%nat ->
  cached_derivative_ c = None ->
  let d := new_derivative c in
  let Q := mmul2 (bernsteinCoeffs (N_ d)) (control_points_ d) in
  ((2 <= length (trimZeroes (col0 Q)))%nat ->
   sound_on realRoots (trimZeroes (col0 Q))
   /\ complete_on realRoots (trimZeroes (col0 Q))) ->
  ((2 <= length (trimZeroes (col1 Q)))%nat ->
   sound_on realRoots (trimZeroes (col1 Q))
   /\ complete_on realRoots (trimZeroes (col1 Q))) ->
  exists r c',
    extrema realRoots c = (Returns r, c')
    /\ control_points_ c' = control_points_ c
    /\ (forall t, In t r ->
          0 <= t <= 1
          /\ (derivable_pt_lim (fun u => fst (valueAt c u)) t 0
              \/ derivable_pt_lim (fun u => snd (valueAt c u)) t 0))
    /\ (forall t, 0 <= t <= 1 ->
          derivable_pt_lim (fun u => fst (valueAt c u)) t 0 ->
          (exists u, ~ derivable_pt_lim (fun u => fst (valueAt c u)) u 0) ->
          In t r)
    /\ (forall t, 0 <= t <= 1 ->
          derivable_pt_lim (fun u => snd (valueAt c u)) t 0 ->
          (exists u, ~ derivable_pt_lim (fun u => snd (valueAt c u)) u 0) ->
          In t r).
Proof.
  intros Hinv Hn Hd d Q Hx Hy.
  destruct (new_roots_meaning realRoots d Hx Hy) as (Ha & Hb & Hc).
  fold Q in Ha, Hb, Hc.
  pose proof (derivative_columns c Hinv Hn) as Hder. cbv zeta in Hder.
  fold d in Hder. fold Q in Hder.
  destruct (extrema_fresh realRoots c Hd) as (c' & E & Hcp). fold d in E.
  exists (new_roots realRoots d), c'. split; [exact E|]. split; [exact Hcp|].
  split; [|split].
  - intros t Hin. destruct (Ha t Hin) as [Ht Hz]. split; [exact Ht|].
    destruct (Hder t) as [H0 H1].
    destruct Hz as [Hz|Hz]; rewrite Hz in *; [left|right]; assumption.
  - intros t Ht Hz [u Hu]. apply Hb; [exact Ht| |].
    + exact (uniqueness_limite _ _ _ _ (proj1 (Hder t)) Hz).
    + exists u. intros E0. apply Hu. rewrite <- E0. exact (proj1 (Hder u)).
  - intros t Ht Hz [u Hu]. apply Hc; [exact Ht| |].
    + exact (uniqueness_limite _ _ _ _ (proj2 (Hder t)) Hz).
    + exists u. intros E0. apply Hu. rewrite <- E0. exact (proj2 (Hder u)).
Qed.

Lemma X23_witness :
  let c := new_Curve [(0, 0); (1, 2); (3, 1)] in
  let d := new_derivative c in
  let Q := mmul2 (bernsteinCoeffs (N_ d)) (control_points_ d) in
  (N_ c = rows (control_points_ c) /\ (1 <= N_ c)%nat /\
   cached_derivative_ c = None /\
   ((2 <= length (trimZeroes (col0 Q)))%nat ->
    sound_on realRoots_degree_one (trimZeroes (col0 Q))
    /\ complete_on realRoots_degree_one (trimZeroes (col0 Q))) /\
   ((2 <= length (trimZeroes (col1 Q)))%nat ->
    sound_on realRoots_degree_one (trimZeroes (col1 Q))
    /\ complete_on realRoots_degree_one (trimZeroes (col1 Q)))) /\
  exists r c',
    extrema realRoots_degree_one c = (Returns r, c')
    /\ forall t, In t r -> 0 <= t <= 1.
Proof.
  intros c d Q.
  assert (EQ : Q = [(2, 4); (2, -6)]).
  { unfold Q, d, c.
    change (N_ (new_derivative (new_Curve [(0, 0); (1, 2); (3, 1)])))
      with 2%nat.
    rewrite bernsteinCoeffs_2.
    unfold new_derivative, derivative_points, mmul2, coeff, row2. simpl.
    repeat f_equal; ring. }
  assert (Tx : trimZeroes (col0 Q) = [2; 2]).
  { rewrite EQ. unfold col0, trimZeroes. simpl. r_decide. reflexivity. }
  assert (Ty : trimZeroes (col1 Q) = [4; -6]).
  { rewrite EQ. unfold col1, trimZeroes. simpl. r_decide. reflexivity. }
  assert (Hx : (2 <= length (trimZeroes (col0 Q)))%nat ->
               sound_on realRoots_degree_one (trimZeroes (col0 Q))
               /\ complete_on realRoots_degree_one (trimZeroes (col0 Q))).
  { intros _. rewrite Tx. split; intros r Hr.
    - destruct Hr as [<-|[]]. unfold poly_eval, vcoeff. simpl. field.
    - unfold poly_eval, vcoeff in Hr. simpl in Hr. left. lra. }
  assert (Hy : (2 <= length (trimZeroes (col1 Q)))%nat ->
               sound_on realRoots_degree_one (trimZeroes (col1 Q))
               /\ complete_on realRoots_degree_one (trimZeroes (col1 Q))).
  { intros _. rewrite Ty. split; intros r Hr.
    - destruct Hr as [<-|[]]. unfold poly_eval, vcoeff. simpl. field.
    - unfold poly_eval, vcoeff in Hr. simpl in Hr. left. lra. }
  split.
  - split; [reflexivity|]. split; [simpl; lia|]. split; [reflexivity|].
    split; assumption.
  - destruct (X23_extrema_are_critical realRoots_degree_one c)
      as (r & c' & E & _ & Hr & _); try assumption;
      [reflexivity|simpl; lia|reflexivity|].
    exists r, c'. split; [exact E|]. intros t Ht. apply (Hr t Ht).
Defined.

(** X24. Where the first derivative of the curve is not zero,
    [curvatureAt(t)] is the signed curvature of the curve at [t]: with
    x', y' the derivatives of the two coordinates of [valueAt] and x'', y''
    their derivatives, it returns
    (x' y'' - y' x'') / (x'^2 + y'^2)^(3/2) taken at [t]; the control
    points stay. *)
Theorem X24_curvatureAt_is_curvature (c : Curve) (t : R) :
  cache_ok c -> (1 <= N_ c)%nat ->
  fst (derivativeAt t c) <> Returns (0, 0) ->
  exists k c' (dx dy ddx ddy : R -> R),
    curvatureAt t c = (Returns k, c')
    /\ control_points_ c' = control_points_ c
    /\ (forall u, derivable_pt_lim (fun v => fst (valueAt c v)) u (dx u))
    /\ (forall u, derivable_pt_lim (fun v => snd (valueAt c v)) u (dy u))
    /\ (forall u, derivable_pt_lim dx u (ddx u))
    /\ (forall u, derivable_pt_lim dy u (ddy u))
    /\ (dx t, dy t) <> (0, 0)
    /\ k = (dx t * ddy t - dy t * ddx t)
           / sqrt (dx t * dx t + dy t * dy t) ^ 3.
Proof.
  intros Hc Hn Hspeed. pose proof (cache_ok_N c Hc) as Hinv.
  destruct (computes_curvatureAt t c Hc) as (c' & E & _ & Hcp).
  destruct (computes_derivativeAt t c Hc) as (c1 & E1 & _).
  rewrite E1 in Hspeed. cbn [fst] in Hspeed.
  cbv zeta in E.
  set (P := control_points_ c) in *.
  assert (HP : (0 < length P)%nat) by (unfold rows in Hinv; lia).
  assert (HP1 : (0 < length (derivative_cp P))%nat)
    by now apply derivative_cp_nonempty.
  eexists. exists c'.
  exists (fun u => fst (curve_value (derivative_cp P) u)),
         (fun u => snd (curve_value (derivative_cp P) u)),
         (fun u => fst (curve_value (derivative_cp (derivative_cp P)) u)),
         (fun u => snd (curve_value (derivative_cp (derivative_cp P)) u)).
  split; [exact E|]. split; [exact Hcp|].
  split; [|split; [|split; [|split; [|split]]]].
  - intros u. apply (derivable_pt_lim_ext (fun v => fst (curve_value P v))).
    + intros v. now rewrite valueAt_curve_value.
    + apply curve_value_derivable. exact HP.
  - intros u. apply (derivable_pt_lim_ext (fun v => snd (curve_value P v))).
    + intros v. now rewrite valueAt_curve_value.
    + apply curve_value_derivable. exact HP.
  - intros u. apply curve_value_derivable. exact HP1.
  - intros u. apply curve_value_derivable. exact HP1.
  - intros E0. apply Hspeed. f_equal.
    rewrite (surjective_pairing (curve_value (derivative_cp P) t)).
    exact E0.
  - reflexivity.
Qed.

Lemma X24_witness :
  let c := new_Curve [(0, 0); (3, 0)] in
  (cache_ok c /\ (1 <= N_ c)%nat
   /\ fst (derivativeAt (1 / 2) c) <> Returns (0, 0)) /\
  exists k c', curvatureAt (1 / 2) c = (Returns k, c').
Proof.
  intros c.
  assert (Hc : cache_ok c) by apply cache_ok_new_Curve.
  assert (Hs : fst (derivativeAt (1 / 2) c) <> Returns (0, 0)).
  { destruct (computes_derivativeAt (1 / 2) c Hc) as (c1 & E1 & _).
    rewrite E1. cbn [fst]. simpl control_points_.
    rewrite derivative_cp_2, curve_value_1. unfold psub, pscale. simpl.
    intros E. injection E as E _. lra. }
  split; [split; [exact Hc|split; [simpl; lia|exact Hs]]|].
  destruct (X24_curvatureAt_is_curvature c (1 / 2) Hc)
    as (k & c' & dx & dy & ddx & ddy & E & _); [simpl; lia|exact Hs|].
  exists k, c'. exact E.
Defined.

(** X25. Where the first derivative of the curve is not zero,
    [curvatureDerivativeAt(t)] is the derivative at [t] of the curvature
    that [curvatureAt] returns; the control points stay. *)
Theorem X25_curvatureDerivativeAt_is_derivative (c : Curve) (t : R) :
  cache_ok c -> (1 <= N_ c)%nat ->
  fst (derivativeAt t c) <> Returns (0, 0) ->
  exists v c' (kappa : R -> R),
    curvatureDerivativeAt t c = (Returns v, c')
    /\ control_points_ c' = control_points_ c
    /\ (forall u, fst (curvatureAt u c) = Returns (kappa u))
    /\ derivable_pt_lim kappa t v.
Proof.
  intros Hc Hn Hspeed. pose proof (cache_ok_N c Hc) as Hinv.
  destruct (computes_curvatureDerivativeAt t c Hc) as (c' & E & _ & Hcp).
  destruct (computes_derivativeAt t c Hc) as (c1 & E1 & _).
  rewrite E1 in Hspeed. cbn [fst] in Hspeed. cbv zeta in E.
  set (P := control_points_ c) in *.
  assert (HP : (0 < length P)%nat) by (unfold rows in Hinv; lia).
  assert (HP1 : (0 < length (derivative_cp P))%nat)
    by now apply derivative_cp_nonempty.
  assert (HP2 : (0 < length (derivative_cp (derivative_cp P)))%nat)
    by now apply derivative_cp_nonempty.
  set (x1 := fun u => fst (curve_value (derivative_cp P) u)).
  set (y1 := fun u => snd (curve_value (derivative_cp P) u)).
  set (x2 := fun u => fst (curve_value (derivative_cp (derivative_cp P)) u)).
  set (y2 := fun u => snd (curve_value (derivative_cp (derivative_cp P)) u)).
  eexists. exists c'.
  exists (fun u => (x1 u * y2 u - y1 u * x2 u)
                   / sqrt (x1 u * x1 u + y1 u * y1 u) ^ 3).
  split; [exact E|]. split; [exact Hcp|]. split.
  - intros u. destruct (computes_curvatureAt u c Hc) as (c2 & E2 & _).
    rewrite E2. reflexivity.
  - assert (Hpos : 0 < x1 t * x1 t + y1 t * y1 t).
    { destruct (Req_dec (x1 t) 0) as [Ex|Ex];
        destruct (Req_dec (y1 t) 0) as [Ey|Ey]; try nra.
      exfalso. apply Hspeed. f_equal.
      rewrite (surjective_pairing (curve_value (derivative_cp P) t)).
      unfold x1 in Ex. unfold y1 in Ey. now rewrite Ex, Ey. }
    apply (curvature_derivative x1 y1 x2 y2); try exact Hpos.
    + apply curve_value_derivable. exact HP1.
    + apply curve_value_derivable. exact HP1.
    + apply curve_value_derivable. exact HP2.
    + apply curve_value_derivable. exact HP2.
Qed.

Lemma X25_witness :
  let c := new_Curve [(0, 0); (3, 0)] in
  (cache_ok c /\ (1 <= N_ c)%nat
   /\ fst (derivativeAt (1 / 2) c) <> Returns (0, 0)) /\
  exists v c', curvatureDerivativeAt (1 / 2) c = (Returns v, c').
Proof.
  intros c.
  assert (Hc : cache_ok c) by apply cache_ok_new_Curve.
  assert (Hs : fst (derivativeAt (1 / 2) c) <> Returns (0, 0)).
  { destruct (computes_derivativeAt (1 / 2) c Hc) as (c1 & E1 & _).
    rewrite E1. cbn [fst]. simpl control_points_.
    rewrite derivative_cp_2, curve_value_1. unfold psub, pscale. simpl.
    intros E. injection E as E _. lra. }
  split; [split; [exact Hc|split; [simpl; lia|exact Hs]]|].
  destruct (X25_curvatureDerivativeAt_is_derivative c (1 / 2) Hc)
    as (v & c' & _ & E & _); [simpl; lia|exact Hs|].
  exists v, c'. exact E.
Defined.

(** X26. [lowerOrder()] undoes [elevateOrder()]: on a curve of at least two
    control points, when the matrix that [lowerOrderCoeffs] inverts has an
    inverse, [elevateOrder()] followed by [lowerOrder()] returns and gives
    back the control points and their count.  On a single control point
    [elevateOrder()] gives two, and [lowerOrder()] then throws. *)
Theorem X26_lowerOrder_undoes_elevateOrder (c : Curve) :
  N_ c = rows (control_points_ c) -> (1 <= N_ c)%nat ->
  exists c1,
    elevateOrder c = (Returns tt, c1)
    /\ (N_ c = 1%nat ->
        lowerOrder c1
        = (Throws (logic_error "Cannot further reduce the order of curve."),
           c1))
    /\ ((2 <= N_ c)%nat ->
        (exists B,
           is_inverse (mmul (transpose (elevateOrderCoeffs (N_ c)))
                            (elevateOrderCoeffs (N_ c))) B) ->
        exists c2,
          lowerOrder c1 = (Returns tt, c2)
          /\ control_points_ c2 = control_points_ c /\ N_ c2 = N_ c).
Proof.
  intros Hinv Hn. eexists. split; [reflexivity|].
  assert (HN : rows (mmul2 (elevateOrderCoeffs (N_ c)) (control_points_ c))
               = (N_ c + 1)%nat).
  { unfold rows. rewrite length_mmul2.
    apply (proj1 (elevateOrderCoeffs_shape (N_ c))). }
  split.
  - intros H1. unfold lowerOrder. simpl N_. rewrite HN, H1. reflexivity.
  - intros H2 HB. unfold lowerOrder. simpl N_. rewrite HN.
    destruct (Nat.eqb_spec (N_ c + 1) 2) as [E|_]; [lia|].
    eexists. split; [reflexivity|]. simpl control_points_. simpl N_.
    rewrite HN.
    rewrite lower_after_elevate; [split; [reflexivity|] | lia | | exact HB].
    + symmetry. exact Hinv.
    + symmetry. exact Hinv.
Qed.

Lemma X26_witness :
  let c := new_Curve [(0, 0); (2, 4)] in
  (N_ c = rows (control_points_ c) /\ (1 <= N_ c)%nat) /\
  exists c1 c2,
    elevateOrder c = (Returns tt, c1)
    /\ lowerOrder c1 = (Returns tt, c2)
    /\ control_points_ c2 = control_points_ c.
Proof.
  intros c.
  assert (H : N_ c = rows (control_points_ c) /\ (1 <= N_ c)%nat)
    by (split; [reflexivity|simpl; lia]).
  split; [exact H|].
  destruct (X26_lowerOrder_undoes_elevateOrder c) as (c1 & E1 & _ & H2);
    try apply H.
  destruct H2 as (c2 & E2 & Hcp & _).
  - simpl. lia.
  - exists [[5 / 6; - (1 / 6)]; [- (1 / 6); 5 / 6]].
    change (N_ c) with 2%nat.
    assert (EG : mmul (transpose (elevateOrderCoeffs 2)) (elevateOrderCoeffs 2)
                 = [[5 / 4; 1 / 4]; [1 / 4; 5 / 4]]).
    { unfold elevateOrderCoeffs, set_subdiagonal, set_diagonal, Zero, transpose,
        mmul, tabulate, rows, cols, coeff, vcoeff, LinSpaced. simpl.
      repeat (match goal with |- _ :: _ = _ :: _ => f_equal end); field. }
    rewrite EG. split; [|split].
    + split; [reflexivity|]. repeat constructor.
    + unfold mmul, Identity, tabulate, rows, cols, coeff. simpl.
      repeat (match goal with |- _ :: _ = _ :: _ => f_equal end); field.
    + unfold mmul, Identity, tabulate, rows, cols, coeff. simpl.
      repeat (match goal with |- _ :: _ = _ :: _ => f_equal end); field.
  - exists c1, c2. repeat split; assumption.
Defined.

End Properties.
